(** * The E4X XML / XMLList object model of the AVM2 runtime

    A shallow embedding of [src/avm2/natives/xml.ts]: string escaping,
    namespace-prefix synthesis, the serializer, the streaming parser, and
    the node store with its mutation algorithms.

    JavaScript strings are lists of characters; nodes live in a store and
    are addressed by references, so that object identity, parent
    back-references and sharing are visible in the statements. *)

From Stdlib Require Import String Ascii List ZArith Lia Bool.
From Stdlib Require Import Decimal DecimalNat DecimalString.
From stdpp Require Import base list option.

Import ListNotations.
Open Scope list_scope.

(** ** JavaScript strings *)

Definition jsstring := list ascii.

#[global] Instance ascii_eq_dec : EqDecision ascii := ascii_dec.

(** Literals are written as Rocq strings and unfolded to characters. *)
Definition lit (s : string) : jsstring := list_ascii_of_string s.

Definition AMP : ascii := ascii_of_nat 38.
Definition LT : ascii := ascii_of_nat 60.
Definition GT : ascii := ascii_of_nat 62.
Definition DQUOTE : ascii := ascii_of_nat 34.
Definition SQUOTE : ascii := ascii_of_nat 39.
Definition NEWLINE : ascii := ascii_of_nat 10.
Definition CR : ascii := ascii_of_nat 13.
Definition TAB : ascii := ascii_of_nat 9.
Definition SPACE : ascii := ascii_of_nat 32.

(** ** 10.2.1.1 EscapeElementValue, 10.2.1.2 EscapeAttributeValue *)

(** The leading [while] of both functions: advance [i] over the characters
    that need no escaping.  [rest] is [s] from index [i] on. *)
Fixpoint skipPlain (special : ascii -> bool) (rest : jsstring) (i : nat) : nat :=
  match rest with
  | [] => i
  | ch :: rest' => if special ch then i else skipPlain special rest' (S i)
  end.

(** The second [while]: [ch = s[i++]; switch (ch) ...; buf += ...]. *)
Fixpoint escapeLoop (replacement : ascii -> jsstring) (rest : jsstring)
    (buf : jsstring) : jsstring :=
  match rest with
  | [] => buf
  | ch :: rest' => escapeLoop replacement rest' (buf ++ replacement ch)
  end.

Definition isElementSpecial (ch : ascii) : bool :=
  Ascii.eqb ch AMP || Ascii.eqb ch LT || Ascii.eqb ch GT.

Definition elementReplacement (ch : ascii) : jsstring :=
  if Ascii.eqb ch AMP then lit "&amp;"
  else if Ascii.eqb ch LT then lit "&lt;"
  else if Ascii.eqb ch GT then lit "&gt;"
  else [ch].

Definition escapeElementValue (s : jsstring) : jsstring :=
  let i := skipPlain isElementSpecial s 0 in
  if length s <=? i then s
  else escapeLoop elementReplacement (drop i s) (take i s).

Definition isAttributeSpecial (ch : ascii) : bool :=
  Ascii.eqb ch AMP || Ascii.eqb ch LT || Ascii.eqb ch DQUOTE ||
  Ascii.eqb ch NEWLINE || Ascii.eqb ch CR || Ascii.eqb ch TAB.

Definition attributeReplacement (ch : ascii) : jsstring :=
  if Ascii.eqb ch AMP then lit "&amp;"
  else if Ascii.eqb ch LT then lit "&lt;"
  else if Ascii.eqb ch DQUOTE then lit "&quot;"
  else if Ascii.eqb ch NEWLINE then lit "&#xA;"
  else if Ascii.eqb ch CR then lit "&#xD;"
  else if Ascii.eqb ch TAB then lit "&#x9;"
  else [ch].

Definition escapeAttributeValue (s : jsstring) : jsstring :=
  let i := skipPlain isAttributeSpecial s 0 in
  if length s <=? i then s
  else escapeLoop attributeReplacement (drop i s) (take i s).

(** The escaping as the specification words it: every character is
    replaced on its own, by its entity or by itself. *)
Definition replaceEach (replacement : ascii -> jsstring) (s : jsstring) : jsstring :=
  concat (map replacement s).

(** ** String primitives of the host language *)

(** [s.substring(a, b)]: both ends are clamped to the string and swapped
    when out of order. *)
Definition substring (s : jsstring) (a b : nat) : jsstring :=
  let a' := Nat.min a (length s) in
  let b' := Nat.min b (length s) in
  take (Nat.max a' b' - Nat.min a' b') (drop (Nat.min a' b') s).

Definition jsstring_eqb (a b : jsstring) : bool :=
  bool_decide (a = b).

(** [a === b] on values that are a string or [undefined]. *)
Definition optstr_eqb (a b : option jsstring) : bool :=
  bool_decide (a = b).

(** Truthiness of a string-or-undefined value: a non-empty string. *)
Definition truthy (a : option jsstring) : bool :=
  match a with
  | Some (_ :: _) => true
  | _ => false
  end.

(** [String(i)] for a non-negative integer. *)
Definition decimal (i : nat) : jsstring :=
  list_ascii_of_string (NilEmpty.string_of_uint (Nat.to_uint i)).

(** [(v | 0)]: ToInt32 of an integral number. *)
Definition toInt32 (z : Z) : Z :=
  ((z + 2147483648) mod 4294967296 - 2147483648)%Z.

Definition isWhitespaceChar (ch : ascii) : bool :=
  Ascii.eqb ch SPACE || Ascii.eqb ch NEWLINE || Ascii.eqb ch CR || Ascii.eqb ch TAB.

(** [isWhitespace(s, index)]; [s[index]] is [undefined] out of range. *)
Definition isWhitespace (s : jsstring) (index : nat) : bool :=
  match s !! index with
  | Some ch => isWhitespaceChar ch
  | None => false
  end.

(** [while (i < s.length && isWhitespace(s, i)) i++], on the rest of [s]. *)
Fixpoint skipWhitespace (rest : jsstring) (i : nat) : nat :=
  match rest with
  | [] => i
  | ch :: rest' => if isWhitespaceChar ch then skipWhitespace rest' (S i) else i
  end.

(** [while (isWhitespace(s, j)) j--], started at [j = n - 1]; the loop
    leaves [j = -1] when it runs off the front. *)
Fixpoint scanBack (s : jsstring) (n : nat) : Z :=
  match n with
  | 0 => (-1)%Z
  | S j => if isWhitespace s j then scanBack s j else Z.of_nat j
  end.

Definition trimWhitespaces (s : jsstring) : jsstring :=
  let i := skipWhitespace s 0 in
  if length s <=? i then []
  else
    let j := scanBack s (length s) in
    if (i =? 0) && (j =? Z.of_nat (length s) - 1)%Z then s
    else substring s i (Z.to_nat (j + 1)).

Definition getIndentString (indent : Z) : jsstring :=
  if (0 <? indent)%Z then replicate (Z.to_nat indent) SPACE else [].

(** ** Errors *)

Inductive Error :=
| CheckTypeFailedError
| ConvertNullToObjectError
| ConvertUndefinedToObjectError
| XMLMarkupMustBeWellFormed
| XMLAssignmentToIndexedXMLNotAllowed
| XMLOnlyWorksWithOneItemLists (operation : string)
| XMLAssigmentOneItemLists
| XMLNamespaceWithPrefixAndNoURI
| CallOfNonFunctionError
| NotImplemented (what : string)
| NativeTypeError          (* property access on [undefined] or [null] *)
| Thrown (message : string) (* [throw "..."] of the parser and of insert/replace *)
| OutOfFuel                (* an iteration bound of the model was hit *)
| InvalidReference         (* a reference outside the store; never a value of the program *).

Inductive result (A : Type) :=
| OK (a : A)
| Throw (e : Error).
Arguments OK {A} a.
Arguments Throw {A} e.

#[global] Instance result_ret : MRet result := fun A a => OK a.

#[global] Instance result_bind : MBind result := fun A B k r =>
  match r with
  | OK a => k a
  | Throw e => Throw e
  end.

(** ** Namespaces and qualified names *)

(** [prefix = None] is the [undefined] prefix of E4X: not yet assigned. *)
Record ASNamespace := mkNamespace {
  ns_prefix : option jsstring;
  ns_uri : jsstring
}.

(** 13.2.2, [new Namespace(prefixValue, uriValue)] on a string-or-undefined
    prefix and a string uri.  [isXMLName] accepts every string. *)
Definition newNamespace (prefixValue : option jsstring) (uriValue : jsstring)
  : result ASNamespace :=
  match uriValue with
  | [] =>
    match prefixValue with
    | None | Some [] => OK (mkNamespace (Some []) [])
    | Some _ => Throw XMLNamespaceWithPrefixAndNoURI
    end
  | _ => OK (mkNamespace prefixValue uriValue)
  end.

Definition ATTR_NAME : N := 1.
Definition ELEM_NAME : N := 2.
Definition ANY_NAME : N := 4.
Definition ANY_NAMESPACE : N := 8.

Definition hasFlag (flags mask : N) : bool :=
  negb (N.land flags mask =? 0)%N.

(** An [ASQName] wraps the multiname [[namespace], localName, flags];
    [qn_namespace = None] is the [null] namespace. *)
Record ASQName := mkQName {
  qn_namespace : option ASNamespace;
  localName : jsstring;
  qn_flags : N
}.

(** [get uri()]: [null] without a namespace. *)
Definition qn_uri (q : ASQName) : option jsstring :=
  match qn_namespace q with
  | Some ns => Some (ns_uri ns)
  | None => None
  end.

(** [get prefix()]: [null] without a namespace, else the namespace's
    prefix, which may be [undefined]. *)
Definition qn_prefix (q : ASQName) : option (option jsstring) :=
  match qn_namespace q with
  | Some ns => Some (ns_prefix ns)
  | None => None
  end.

(** 12.1 GetDefaultNamespace. *)
Definition getDefaultNamespace (defaultNamespace : jsstring) : ASNamespace :=
  mkNamespace (Some []) defaultNamespace.

(** 13.3.2, [new QName(namespace, name, isAttribute)] as [init] calls it:
    [namespace] is an [ASNamespace] or [undefined], [name] a string. *)
Definition newQName (defaultNamespace : jsstring) (namespace : option ASNamespace)
    (name : jsstring) (isAttribute : bool) : ASQName :=
  let star := jsstring_eqb name (lit "*") in
  let namespace' :=
    match namespace with
    | Some ns => Some ns
    | None => if star then None else Some (getDefaultNamespace defaultNamespace)
    end in
  let flags := if isAttribute then ATTR_NAME else ELEM_NAME in
  let flags := if star then N.lor flags ANY_NAME else flags in
  let flags := match namespace' with None => N.lor flags ANY_NAMESPACE | Some _ => flags end in
  mkQName namespace' name flags.

(** E4X 11.5.1 step 3.b, [ASQName.equals] against another [ASQName]. *)
Definition qname_equals (this other : ASQName) : bool :=
  bool_decide (qn_uri other = qn_uri this) &&
  jsstring_eqb (localName other) (localName this).

(** The search loop of [getNamespace]: the last entry with the uri wins. *)
Fixpoint lastWithUri (uri : jsstring) (inScopeNamespaces : list ASNamespace)
    (ns : option ASNamespace) : option ASNamespace :=
  match inScopeNamespaces with
  | [] => ns
  | n :: rest =>
    lastWithUri uri rest (if jsstring_eqb uri (ns_uri n) then Some n else ns)
  end.

(** 13.3.5.4 [[GetNamespace]]. *)
Definition getNamespace (this : ASQName) (inScopeNamespaces : list ASNamespace)
  : result ASNamespace :=
  match qn_namespace this with
  | None => Throw (Thrown "TypeError in QName.prototype.getNamespace()")
  | Some own =>
    match lastWithUri (ns_uri own) inScopeNamespaces None with
    | Some ns => OK ns
    | None => newNamespace (ns_prefix own) (ns_uri own)
    end
  end.

(** ** Namespace-prefix synthesis *)

Definition prefixName (i : nat) : jsstring := lit "_ns" ++ decimal i.

(** [namespaces.some(function (ns) { return ns.prefix == newPrefix; })] *)
Definition prefixInUse (namespaces : list ASNamespace) (newPrefix : jsstring) : bool :=
  existsb (fun ns => optstr_eqb (ns_prefix ns) (Some newPrefix)) namespaces.

(** The [while (true)] of [generateUniquePrefix], with the iteration count
    bounded by [fuel]; [None] only when the bound is hit. *)
Fixpoint generateUniquePrefix_loop (fuel : nat) (namespaces : list ASNamespace)
    (i : nat) : option jsstring :=
  match fuel with
  | 0 => None
  | S fuel' =>
    let newPrefix := prefixName i in
    if prefixInUse namespaces newPrefix
    then generateUniquePrefix_loop fuel' namespaces (S i)
    else Some newPrefix
  end.

(** One more iteration than there are namespaces always suffices
    ([generateUniquePrefix_total]). *)
Definition generateUniquePrefix (namespaces : list ASNamespace) : option jsstring :=
  generateUniquePrefix_loop (S (length namespaces)) namespaces 1.

(** ** Global settings *)

(** The process-wide configuration block of [ASXML] ([_flags],
    [_prettyIndent], [defaultNamespace]), passed explicitly. *)
Record Settings := mkSettings {
  ignoreComments : bool;
  ignoreProcessingInstructions : bool;
  ignoreWhitespace : bool;
  prettyPrinting : bool;
  prettyIndent : Z;
  defaultNamespace : jsstring
}.

(** [_flags = ALL], [_prettyIndent = 2], [defaultNamespace = '']. *)
Definition initialSettings : Settings :=
  mkSettings true true true true 2 [].

(** ** Node snapshots *)

#[local] Set Warnings "-register-all".

Inductive ASXMLKind :=
| Unknown | Element | Attribute | Text | Comment | ProcessingInstruction.

#[global] Instance ASXMLKind_eq_dec : EqDecision ASXMLKind.
Proof. solve_decision. Defined.

(** The algorithms that only read a node (serialization, equality, content
    tests) are embedded over the tree below a node: kind, name, value,
    in-scope namespaces, attributes and children, without the parent
    back-reference they never consult.  [name = None] is a missing
    [_name]. *)
Inductive XMLTree :=
| mkXML (kind : ASXMLKind) (name : option ASQName) (value : jsstring)
        (inScopeNamespaces : list ASNamespace)
        (attributes : list XMLTree) (children : list XMLTree).

Definition t_kind (x : XMLTree) : ASXMLKind :=
  match x with mkXML k _ _ _ _ _ => k end.
Definition t_name (x : XMLTree) : option ASQName :=
  match x with mkXML _ n _ _ _ _ => n end.
Definition t_value (x : XMLTree) : jsstring :=
  match x with mkXML _ _ v _ _ _ => v end.
Definition t_inScopeNamespaces (x : XMLTree) : list ASNamespace :=
  match x with mkXML _ _ _ ns _ _ => ns end.
Definition t_attributes (x : XMLTree) : list XMLTree :=
  match x with mkXML _ _ _ _ a _ => a end.
Definition t_children (x : XMLTree) : list XMLTree :=
  match x with mkXML _ _ _ _ _ c => c end.

Definition isKind (k : ASXMLKind) (x : XMLTree) : bool :=
  bool_decide (t_kind x = k).

(** 13.4.4.15 *)
Definition hasComplexContent (this : XMLTree) : bool :=
  match t_kind this with
  | Attribute | Comment | ProcessingInstruction | Text => false
  | _ => existsb (isKind Element) (t_children this)
  end.

(** 13.4.4.16 *)
Definition hasSimpleContent (this : XMLTree) : bool :=
  match t_kind this with
  | Comment | ProcessingInstruction => false
  | Element => forallb (fun child => negb (isKind Element child)) (t_children this)
  | _ => true
  end.

(** ** 10.2 ToXMLString *)

Section Serializer.

Variable settings : Settings.

(** Step 10: the in-scope namespaces no ancestor declares with the same uri
    and prefix become declarations of this element. *)
Fixpoint collectDeclarations (inScope ancestorNamespaces namespaceDeclarations
    : list ASNamespace) : result (list ASNamespace) :=
  match inScope with
  | [] => OK namespaceDeclarations
  | ns :: rest =>
    let nsPrefix := ns_prefix ns in
    let nsUri := ns_uri ns in
    if forallb (fun ans => negb (jsstring_eqb (ns_uri ans) nsUri) ||
                           negb (optstr_eqb (ns_prefix ans) nsPrefix))
               ancestorNamespaces
    then
      ns1 ← newNamespace nsPrefix nsUri;
      collectDeclarations rest ancestorNamespaces (namespaceDeclarations ++ [ns1])
    else collectDeclarations rest ancestorNamespaces namespaceDeclarations
  end.

(** Step 11 for one name: resolve its namespace in [currentNamespaces];
    when the prefix is [undefined], synthesize one and declare it.  The
    result is the resolved [namespace] (as the code keeps it: the object
    [getNamespace] returned) and the two extended lists. *)
Definition declareNamespaceOf (name : option ASQName)
    (namespaceDeclarations currentNamespaces : list ASNamespace)
  : result (ASNamespace * (list ASNamespace * list ASNamespace)) :=
  match name with
  | None => Throw NativeTypeError
  | Some qn =>
    namespace ← getNamespace qn currentNamespaces;
    match ns_prefix namespace with
    | None =>
      match generateUniquePrefix currentNamespaces with
      | None => Throw OutOfFuel
      | Some newPrefix =>
        ns2 ← newNamespace (Some newPrefix) (ns_uri namespace);
        OK (namespace, (namespaceDeclarations ++ [ns2], currentNamespaces ++ [ns2]))
      end
    | Some _ => OK (namespace, (namespaceDeclarations, currentNamespaces))
    end
  end.

(** The first pass over the attributes only declares namespaces. *)
Fixpoint declareAttributeNamespaces (attrs : list XMLTree)
    (namespaceDeclarations currentNamespaces : list ASNamespace)
  : result (list ASNamespace * list ASNamespace) :=
  match attrs with
  | [] => OK (namespaceDeclarations, currentNamespaces)
  | attr :: rest =>
    '(_, (decls, current)) ←
      declareNamespaceOf (t_name attr) namespaceDeclarations currentNamespaces;
    declareAttributeNamespaces rest decls current
  end.

Fixpoint printDeclarations (namespaceDeclarations : list ASNamespace)
    (s : jsstring) : jsstring :=
  match namespaceDeclarations with
  | [] => s
  | namespace :: rest =>
    let attributeName :=
      match ns_prefix namespace with
      | Some (c :: p) => lit "xmlns:" ++ (c :: p)
      | _ => lit "xmlns"
      end in
    printDeclarations rest
      (s ++ [SPACE] ++ attributeName ++ lit "=" ++ [DQUOTE] ++
       escapeAttributeValue (ns_uri namespace) ++ [DQUOTE])
  end.

(** The second pass prints the attributes, each name resolved against the
    ancestors' namespaces. *)
Fixpoint printAttributes (attrs : list XMLTree)
    (ancestorNamespaces : list ASNamespace) (s : jsstring) : result jsstring :=
  match attrs with
  | [] => OK s
  | attr :: rest =>
    match t_name attr with
    | None => Throw NativeTypeError
    | Some name =>
      namespace ← getNamespace name ancestorNamespaces;
      let attributeName :=
        match ns_prefix namespace with
        | Some (c :: p) => (c :: p) ++ lit ":" ++ localName name
        | _ => localName name
        end in
      printAttributes rest ancestorNamespaces
        (s ++ [SPACE] ++ attributeName ++ lit "=" ++ [DQUOTE] ++
         escapeAttributeValue (t_value attr) ++ [DQUOTE])
    end
  end.

(** [toXMLString(node, ancestorNamespaces, indentLevel)] applied to the XML
    type (10.2.1). *)
Fixpoint toXMLString (node : XMLTree) (ancestorNamespaces : list ASNamespace)
    (indentLevel : Z) {struct node} : result jsstring :=
  let prettyPrinting := prettyPrinting settings in
  let indentLevel := toInt32 indentLevel in
  let s := if prettyPrinting then getIndentString indentLevel else [] in
  match node with
  | mkXML kind name value inScope attrs children =>
    match kind with
    | Text =>
      OK (if prettyPrinting then s ++ escapeElementValue (trimWhitespaces value)
          else escapeElementValue value)
    | Attribute => OK (s ++ escapeAttributeValue value)
    | Comment => OK (s ++ lit "<!--" ++ value ++ lit "-->")
    | ProcessingInstruction =>
      match name with
      | None => Throw NativeTypeError
      | Some qn => OK (s ++ lit "<?" ++ localName qn ++ [SPACE] ++ value ++ lit "?>")
      end
    | _ =>
      namespaceDeclarations ← collectDeclarations inScope ancestorNamespaces [];
      let currentNamespaces := ancestorNamespaces ++ namespaceDeclarations in
      '(namespace, (namespaceDeclarations, currentNamespaces)) ←
        declareNamespaceOf name namespaceDeclarations currentNamespaces;
      let elementName :=
        match ns_prefix namespace with
        | Some (c :: p) => (c :: p) ++ lit ":"
        | _ => []
        end ++ match name with Some qn => localName qn | None => [] end in
      let s := s ++ [LT] ++ elementName in
      '(namespaceDeclarations, currentNamespaces) ←
        declareAttributeNamespaces attrs namespaceDeclarations currentNamespaces;
      let s := printDeclarations namespaceDeclarations s in
      s ← printAttributes attrs ancestorNamespaces s;
      match children with
      | [] => OK (s ++ lit "/>")
      | first :: others =>
        let s := s ++ [GT] in
        let indentChildren :=
          match others with
          | [] => negb (isKind Text first)
          | _ => true
          end in
        let nextIndentLevel :=
          if prettyPrinting && indentChildren
          then (indentLevel + prettyIndent settings)%Z else 0%Z in
        s ← (fix eachChild (cs : list XMLTree) (s : jsstring) : result jsstring :=
               match cs with
               | [] => OK s
               | childNode :: cs' =>
                 let s := if prettyPrinting && indentChildren
                          then s ++ [NEWLINE] else s in
                 child ← toXMLString childNode currentNamespaces nextIndentLevel;
                 eachChild cs' (s ++ child)
               end) children s;
        let s := if prettyPrinting && indentChildren
                 then s ++ [NEWLINE] ++ getIndentString indentLevel else s in
        OK (s ++ lit "</" ++ elementName ++ [GT])
      end
    end
  end.

(** 10.1 ToString on a node. *)
Fixpoint toString (node : XMLTree) : result jsstring :=
  match node with
  | mkXML kind name value inScope attrs children =>
    match kind with
    | Text | Attribute => OK value
    | _ =>
      if hasSimpleContent node then
        (fix eachChild (cs : list XMLTree) (s : jsstring) : result jsstring :=
           match cs with
           | [] => OK s
           | child :: cs' =>
             if isKind Comment child || isKind ProcessingInstruction child
             then eachChild cs' s
             else c ← toString child; eachChild cs' (s ++ c)
           end) children []
      else toXMLString node [] 0
    end
  end.

(** [ASXML.prototype.toString] on an instance. *)
Definition ASXML_toString (this : XMLTree) : result jsstring :=
  if hasComplexContent this then toXMLString this [] 0 else toString this.

(** ** Equality: 11.5.1 on two nodes, and 9.1.1.9 [[Equals]] *)

(** Step 8 of [_deepEquals]: every attribute of [this] has a partner of
    equal name and value among the other's attributes. *)
Definition attributeMatches (attribute otherAttribute : XMLTree) : result bool :=
  match t_name otherAttribute, t_name attribute with
  | Some on, Some an =>
    OK (qname_equals on an &&
        jsstring_eqb (t_value otherAttribute) (t_value attribute))
  | _, _ => Throw NativeTypeError
  end.

Fixpoint findPartner (attribute : XMLTree) (otherAttributes : list XMLTree)
  : result bool :=
  match otherAttributes with
  | [] => OK false
  | otherAttribute :: rest =>
    m ← attributeMatches attribute otherAttribute;
    if (m : bool) then OK true else findPartner attribute rest
  end.

Fixpoint attributesMatch (attributes otherAttributes : list XMLTree) : result bool :=
  match attributes with
  | [] => OK true
  | attribute :: rest =>
    found ← findPartner attribute otherAttributes;
    if (found : bool) then attributesMatch rest otherAttributes else OK false
  end.

(** Step 9, with the comparison of two children left open. *)
Definition childrenEqual (equals : XMLTree -> XMLTree -> result bool)
  : list XMLTree -> list XMLTree -> result bool :=
  fix go (children otherChildren : list XMLTree) : result bool :=
    match children, otherChildren with
    | [], _ => OK true
    | child :: cs, otherChild :: os =>
      b ← equals child otherChild;
      if (b : bool) then go cs os else OK false
    | _ :: _, [] => Throw NativeTypeError
    end.

(** The name test of steps 3-4. *)
Definition namesDiffer (this other : XMLTree) : bool :=
  match t_name this, t_name other with
  | Some n, Some m => negb (qname_equals n m)
  | None, None => false
  | _, _ => true
  end.

Definition deepEqualsWith (equals : XMLTree -> XMLTree -> result bool)
    (this other : XMLTree) : result bool :=
  if negb (bool_decide (t_kind this = t_kind other)) then OK false
  else if namesDiffer this other then OK false
  else if negb (isKind Element this) then
    OK (jsstring_eqb (t_value this) (t_value other))
  else if negb (length (t_attributes this) =? length (t_attributes other)) then OK false
  else if negb (length (t_children this) =? length (t_children other)) then OK false
  else
    m ← attributesMatch (t_attributes this) (t_attributes other);
    if negb (m : bool) then OK false
    else childrenEqual equals (t_children this) (t_children other).

Definition isTextOrAttribute (x : XMLTree) : bool :=
  isKind Text x || isKind Attribute x.

(** [ASXML.equals] against another node (step 3 of 11.5.1). *)
Fixpoint equals (this other : XMLTree) {struct this} : result bool :=
  if isTextOrAttribute this && hasSimpleContent other ||
     isTextOrAttribute other && hasSimpleContent this
  then
    a ← ASXML_toString this;
    b ← ASXML_toString other;
    OK (jsstring_eqb a b)
  else deepEqualsWith equals this other.

(** 9.1.1.9 [[Equals]]: [this._deepEquals(other)]. *)
Definition _deepEquals (this other : XMLTree) : result bool :=
  deepEqualsWith equals this other.

End Serializer.

(** ** The object store *)

(** Identity of an [ASXML] object and of an [ASQName] object. *)
Definition ref := nat.
Definition qref := nat.

(** The fields of an [ASXML] instance.  [None] is [null] for [_parent] and
    [undefined] for [_name] and for the three arrays; a [None] entry of
    [_children] is a hole of the array. *)
Record ASXML := mkNode {
  _kind : ASXMLKind;
  _name : option qref;
  _value : jsstring;
  _parent : option ref;
  _inScopeNamespaces : option (list ASNamespace);
  _attributes : option (list ref);
  _children : option (list (option ref))
}.

Definition with_kind (k : ASXMLKind) (n : ASXML) : ASXML :=
  mkNode k (_name n) (_value n) (_parent n) (_inScopeNamespaces n)
         (_attributes n) (_children n).
Definition with_name (q : option qref) (n : ASXML) : ASXML :=
  mkNode (_kind n) q (_value n) (_parent n) (_inScopeNamespaces n)
         (_attributes n) (_children n).
Definition with_value (v : jsstring) (n : ASXML) : ASXML :=
  mkNode (_kind n) (_name n) v (_parent n) (_inScopeNamespaces n)
         (_attributes n) (_children n).
Definition with_parent (p : option ref) (n : ASXML) : ASXML :=
  mkNode (_kind n) (_name n) (_value n) p (_inScopeNamespaces n)
         (_attributes n) (_children n).
Definition with_inScopeNamespaces (l : option (list ASNamespace)) (n : ASXML) : ASXML :=
  mkNode (_kind n) (_name n) (_value n) (_parent n) l
         (_attributes n) (_children n).
Definition with_attributes (l : option (list ref)) (n : ASXML) : ASXML :=
  mkNode (_kind n) (_name n) (_value n) (_parent n) (_inScopeNamespaces n)
         l (_children n).
Definition with_children (l : option (list (option ref))) (n : ASXML) : ASXML :=
  mkNode (_kind n) (_name n) (_value n) (_parent n) (_inScopeNamespaces n)
         (_attributes n) l.

Record Store := mkStore {
  nodes : list ASXML;
  qnames : list ASQName
}.

Definition emptyStore : Store := mkStore [] [].

(** Computations on the store that may throw; the store at the moment of
    the throw is kept, as a caller that catches would see it. *)
Definition M (A : Type) : Type := Store -> Store * result A.

#[global] Instance M_ret : MRet M := fun A a st => (st, OK a).

#[global] Instance M_bind : MBind M := fun A B k m st =>
  match m st with
  | (st', OK a) => k a st'
  | (st', Throw e) => (st', Throw e)
  end.

Definition throw {A} (e : Error) : M A := fun st => (st, Throw e).

Definition lift {A} (r : result A) : M A := fun st => (st, r).

Definition getNode (r : ref) : M ASXML := fun st =>
  match nodes st !! r with
  | Some n => (st, OK n)
  | None => (st, Throw InvalidReference)
  end.

Definition updNode (r : ref) (n : ASXML) (st : Store) : Store :=
  mkStore (<[r := n]> (nodes st)) (qnames st).

Definition setNode (r : ref) (n : ASXML) : M unit := fun st =>
  (updNode r n st, OK tt).

Definition modifyNode (r : ref) (f : ASXML -> ASXML) : M unit :=
  n ← getNode r; setNode r (f n).

Definition addNode (n : ASXML) (st : Store) : Store :=
  mkStore (nodes st ++ [n]) (qnames st).

Definition allocNode (n : ASXML) : M ref := fun st =>
  (addNode n st, OK (length (nodes st))).

Definition getQName (q : qref) : M ASQName := fun st =>
  match qnames st !! q with
  | Some n => (st, OK n)
  | None => (st, Throw InvalidReference)
  end.

Definition setQName (q : qref) (n : ASQName) : M unit := fun st =>
  (mkStore (nodes st) (<[q := n]> (qnames st)), OK tt).

Definition addQName (n : ASQName) (st : Store) : Store :=
  mkStore (nodes st) (qnames st ++ [n]).

Definition allocQName (n : ASQName) : M qref := fun st =>
  (addQName n st, OK (length (qnames st))).

Definition storeSize : M nat := fun st => (st, OK (length (nodes st))).

(** [x._children], a [TypeError] when it is [undefined] and then used. *)
Definition childrenOf (n : ASXML) : M (list (option ref)) :=
  match _children n with
  | Some cs => mret cs
  | None => throw NativeTypeError
  end.

Definition attributesOf (n : ASXML) : M (list ref) :=
  match _attributes n with
  | Some l => mret l
  | None => throw NativeTypeError
  end.

(** [array[i]] followed by a property access: a hole or an index out of
    range reads [undefined], and the access throws. *)
Definition elementAt (cs : list (option ref)) (i : nat) : M ref :=
  match cs !! i with
  | Some (Some r) => mret r
  | _ => throw NativeTypeError
  end.

(** [array.indexOf(x)]; [None] is -1. *)
Fixpoint indexOf (x : ref) (cs : list (option ref)) : option nat :=
  match cs with
  | [] => None
  | c :: rest =>
    if bool_decide (c = Some x) then Some 0
    else match indexOf x rest with
         | Some i => Some (S i)
         | None => None
         end
  end.

(** [array.splice(index, 1)] for [index] as [indexOf] returned it: -1 counts
    from the end and removes the last element. *)
Definition spliceOut (index : option nat) (cs : list (option ref))
  : list (option ref) :=
  match index with
  | Some i => delete i cs
  | None => take (length cs - 1) cs
  end.

(** [array[i] = v] on an array of length at least [i]. *)
Definition assignAt (i : nat) (v : option ref) (cs : list (option ref))
  : list (option ref) :=
  if i <? length cs then <[i := v]> cs
  else cs ++ replicate (i - length cs) None ++ [v].

(** ** Construction *)

(** [new AS.ASXML()] without a value: an unnamed empty text node. *)
Definition newASXML : M ref :=
  allocNode (mkNode Text None [] None None None None).

(** [init(kind, uri, name, prefix)]. *)
Definition init (settings : Settings) (this : ref) (kind : ASXMLKind)
    (uri name : jsstring) (prefix : option jsstring) : M ref :=
  namespace ← (if truthy (Some uri) || truthy prefix
               then ns ← lift (newNamespace prefix uri); mret (Some ns)
               else mret None);
  let isAttribute := bool_decide (kind = Attribute) in
  q ← allocQName (newQName (defaultNamespace settings) namespace name isAttribute);
  modifyNode this (fun n =>
    let n := with_parent None (with_kind kind (with_name (Some q) n)) in
    match kind with
    | Element =>
      with_children (Some []) (with_attributes (Some []) (with_inScopeNamespaces (Some []) n))
    | Comment | ProcessingInstruction | Attribute | Text => with_value [] n
    | Unknown => n
    end);;
  mret this.

(** [createXML(kind, uri, name, prefix)] with all arguments given. *)
Definition createXML (settings : Settings) (kind : ASXMLKind)
    (uri name : jsstring) (prefix : option jsstring) : M ref :=
  xml ← newASXML;
  init settings xml kind uri name prefix.

(** ** 9.1.1.7 [[DeepCopy]] *)

(** [ns => clone._inScopeNamespaces.push(new ASNamespace(ns.prefix, ns.uri))] *)
Fixpoint copyNamespaces (l : list ASNamespace) : result (list ASNamespace) :=
  match l with
  | [] => OK []
  | ns :: rest =>
    ns' ← newNamespace (ns_prefix ns) (ns_uri ns);
    rest' ← copyNamespaces rest;
    OK (ns' :: rest')
  end.

(** [array.map(f)] in the store monad. *)
Fixpoint mapM {A B} (f : A -> M B) (l : list A) : M (list B) :=
  match l with
  | [] => mret []
  | a :: rest => b ← f a; bs ← mapM f rest; mret (b :: bs)
  end.

(** [_deepCopy()]; [depth] bounds the recursion. *)
Fixpoint _deepCopy (depth : nat) (this : ref) : M ref :=
  match depth with
  | 0 => throw OutOfFuel
  | S depth' =>
    x ← getNode this;
    clone ← newASXML;
    modifyNode clone (fun c => with_name (_name x) (with_kind (_kind x) c));;
    match _kind x with
    | Element =>
      modifyNode clone (with_inScopeNamespaces (Some []));;
      inScope ← match _inScopeNamespaces x with
                | Some l => lift (copyNamespaces l)
                | None => throw NativeTypeError
                end;
      modifyNode clone (with_inScopeNamespaces (Some inScope));;
      attributes ← attributesOf x;
      attrs' ← mapM (fun attr =>
                  attr' ← _deepCopy depth' attr;
                  modifyNode attr' (with_parent (Some clone));;
                  mret attr') attributes;
      modifyNode clone (with_attributes (Some attrs'));;
      children ← childrenOf x;
      children' ← mapM (fun child =>
                     match child with
                     | None => mret None
                     | Some c =>
                       c' ← _deepCopy depth' c;
                       modifyNode c' (with_parent (Some clone));;
                       mret (Some c')
                     end) children;
      modifyNode clone (with_children (Some children'));;
      mret clone
    | Comment | ProcessingInstruction | Attribute | Text =>
      modifyNode clone (with_value (_value x));;
      mret clone
    | Unknown => mret clone
    end
  end.

(** ** Reading a node back as a tree *)

(** The tree below [r], for the read-only algorithms; [depth] bounds the
    descent.  An element without its arrays, or with a hole among its
    children, has no tree: the algorithms would throw a [TypeError] on it. *)
Fixpoint snapshot (depth : nat) (r : ref) : M XMLTree :=
  match depth with
  | 0 => throw OutOfFuel
  | S depth' =>
    n ← getNode r;
    name ← match _name n with
           | Some q => qn ← getQName q; mret (Some qn)
           | None => mret None
           end;
    match _kind n with
    | Element =>
      inScope ← match _inScopeNamespaces n with
                | Some l => mret l
                | None => throw NativeTypeError
                end;
      attributes ← attributesOf n;
      attrs ← mapM (snapshot depth') attributes;
      children ← childrenOf n;
      kids ← mapM (fun c => match c with
                            | Some c => snapshot depth' c
                            | None => throw NativeTypeError
                            end) children;
      mret (mkXML Element name (_value n) inScope attrs kids)
    | k => mret (mkXML k name (_value n) [] [] [])
    end
  end.

(** ** Tree mutation *)

(** [while (a) { if (a === v) throw ...; a = a._parent; }]: whether [v] is
    met on the parent chain from [a].  The chain of a finite store either
    ends within as many steps as there are nodes or never ends. *)
Fixpoint onParentChain (fuel : nat) (a : option ref) (v : ref) : M bool :=
  match a with
  | None => mret false
  | Some r =>
    if bool_decide (r = v) then mret true
    else match fuel with
         | 0 => throw OutOfFuel
         | S fuel' => n ← getNode r; onParentChain fuel' (_parent n) v
         end
  end.

Definition isUint32 (p : Z) : bool :=
  ((0 <=? p) && (p <? 4294967296))%Z.

Definition isLeafKind (k : ASXMLKind) : bool :=
  match k with
  | Text | Comment | ProcessingInstruction | Attribute => true
  | _ => false
  end.

(** [this.length()] *)
Definition lengthOf (n : ASXML) : nat :=
  match _children n with
  | Some cs => length cs
  | None => 0
  end.

(** The shift loop and the store of [insert], and the store of a slot past
    the end: [children[j + 1] = children[j]] for [j] from the end down to
    [i], then [children[i] = v]. *)
Definition insertAt (i : nat) (v : option ref) (cs : list (option ref))
  : list (option ref) :=
  take i cs ++ replicate (i - length cs) None ++ v :: drop i cs.

(** 9.1.1.11 [[Insert]] on an XML node, for an integral number [p]. *)
Definition insert (self : ref) (p : Z) (v : ref) : M unit :=
  this ← getNode self;
  if isLeafKind (_kind this) then mret tt
  else if negb (isUint32 p) then
    throw (Thrown "TypeError in XML.prototype.insert(): invalid property name")
  else
    n ← storeSize;
    cyclic ← (if bool_decide (_kind this = Element)
              then onParentChain n (Some self) v else mret false);
    if (cyclic : bool) then throw (Thrown "Error in XML.prototype.insert()")
    else
      modifyNode v (with_parent (Some self));;
      this ← getNode self;
      let cs := match _children this with Some cs => cs | None => [] end in
      setNode self (with_children (Some (insertAt (Z.to_nat p) (Some v) cs)) this).

(** [appendChild(child)] *)
Definition appendChild (this : ref) (child : ref) : M ref :=
  c ← getNode child;
  match _parent c with
  | Some parent =>
    pn ← getNode parent;
    cs ← childrenOf pn;
    setNode parent (with_children (Some (spliceOut (indexOf child cs) cs)) pn)
  | None => mret tt
  end;;
  x ← getNode this;
  cs ← childrenOf x;
  setNode this (with_children (Some (cs ++ [Some child])) x);;
  modifyNode child (with_parent (Some this));;
  mret this.

(** The private [removeByIndex(index)] of [ASXML]. *)
Definition removeByIndex (this : ref) (index : nat) : M unit :=
  x ← getNode this;
  cs ← childrenOf x;
  child ← elementAt cs index;
  modifyNode child (with_parent None);;
  x ← getNode this;
  cs ← childrenOf x;
  setNode this (with_children (Some (delete index cs)) x).

(** [deleteByIndex(p)] for an integral number [p]. *)
Definition deleteByIndex (this : ref) (p : Z) : M unit :=
  if negb (isUint32 p) then
    throw (Thrown "TypeError in XML.prototype.deleteByIndex(): invalid index")
  else
    x ← getNode this;
    children ← childrenOf x;
    match children !! Z.to_nat p with
    | Some (Some child) =>
      modifyNode child (with_parent None);;
      x ← getNode this;
      cs ← childrenOf x;
      setNode this (with_children (Some (delete (Z.to_nat p) cs)) x)
    | _ => mret tt
    end.

(** ** 13.4.4.26 normalize *)

(** Step 2.b.i, entered with [i] already advanced past [child]: absorb the
    text nodes that follow.  [n] bounds the iterations. *)
Fixpoint mergeFollowingText (n : nat) (this child : ref) (i : nat) : M unit :=
  match n with
  | 0 => throw OutOfFuel
  | S n' =>
    x ← getNode this;
    cs ← childrenOf x;
    if i <? length cs then
      nextChild ← elementAt cs i;
      next ← getNode nextChild;
      if negb (bool_decide (_kind next = Text)) then mret tt
      else
        modifyNode child (fun c => with_value (_value c ++ _value next) c);;
        removeByIndex this i;;
        mergeFollowingText n' this child i
    else mret tt
  end.

(** The loop of [normalize] over the children of [this], from index [i];
    [normalizeChild] is the recursive call on an element child and [n]
    bounds the iterations. *)
Fixpoint normalizeChildren (normalizeChild : ref -> M ref) (this : ref)
    (n : nat) (i : nat) : M unit :=
  match n with
  | 0 => throw OutOfFuel
  | S n' =>
    x ← getNode this;
    cs ← childrenOf x;
    if i <? length cs then
      child ← elementAt cs i;
      c ← getNode child;
      match _kind c with
      | Element => normalizeChild child;; normalizeChildren normalizeChild this n' (S i)
      | Text =>
        mergeFollowingText (S (length cs)) this child (S i);;
        c ← getNode child;
        match _value c with
        | [] => removeByIndex this (S i);;
                normalizeChildren normalizeChild this n' (S i)
        | _ => normalizeChildren normalizeChild this n' (S (S i))
        end
      | _ => normalizeChildren normalizeChild this n' (S i)
      end
    else mret tt
  end.

(** [normalize()]: [depth] bounds the recursion into element children. *)
Fixpoint normalize (depth : nat) (this : ref) : M ref :=
  match depth with
  | 0 => throw OutOfFuel
  | S depth' =>
    x ← getNode this;
    cs ← childrenOf x;
    normalizeChildren (normalize depth') this (S (length cs)) 0;;
    mret this
  end.

(** ** Property access: 9.1.1.1 [[Get]] *)

(** A property key: an integral number, or a qualified name (what
    [toXMLName] returns unchanged).  Keys the missing [isIndex] helper
    accepts are the array indices, the integers below 2^32. *)
Inductive Key :=
| KNumber (z : Z)
| KName (q : ASQName).

Definition isIndex (mn : Key) : bool :=
  match mn with
  | KNumber z => isUint32 z
  | KName _ => false
  end.

(** An [ASXMLList]: its members (an [undefined] member is [None]) and the
    write-back target. *)
Record ASXMLList := mkList {
  l_children : list (option ref);
  _targetObject : option ref;
  _targetProperty : option ASQName
}.

(** What [getProperty] returns: the node itself, [null], or a list. *)
Inductive Property :=
| PXML (r : ref)
| PNull
| PList (l : ASXMLList).

Definition nameOf (n : ASXML) : M ASQName :=
  match _name n with
  | Some q => getQName q
  | None => throw NativeTypeError
  end.

(** The test of step 4 on one attribute. *)
Definition attributeSelected (name : ASQName) (v : ref) : M bool :=
  let anyName := hasFlag (qn_flags name) ANY_NAME in
  let anyNamespace := hasFlag (qn_flags name) ANY_NAMESPACE in
  if anyName && anyNamespace then mret true
  else
    n ← getNode v;
    vn ← nameOf n;
    mret ((anyName || jsstring_eqb (localName vn) (localName name)) &&
          (anyNamespace || bool_decide (qn_uri vn = qn_uri name))).

(** The test of step 5 on one entry of [_children]; a hole is only looked
    into when a name or a namespace has to be compared. *)
Definition childSelected (name : ASQName) (v : option ref) : M bool :=
  let anyName := hasFlag (qn_flags name) ANY_NAME in
  let anyNamespace := hasFlag (qn_flags name) ANY_NAMESPACE in
  if anyName && anyNamespace then mret true
  else
    match v with
    | None => throw NativeTypeError
    | Some r =>
      n ← getNode r;
      if negb (bool_decide (_kind n = Element)) then mret false
      else
        vn ← nameOf n;
        mret ((anyName || jsstring_eqb (localName vn) (localName name)) &&
              (anyNamespace || bool_decide (qn_uri vn = qn_uri name)))
    end.

Fixpoint filterM {A} (f : A -> M bool) (l : list A) : M (list A) :=
  match l with
  | [] => mret []
  | a :: rest =>
    b ← f a;
    rest' ← filterM f rest;
    mret (if (b : bool) then a :: rest' else rest')
  end.

Definition getProperty (this : ref) (mn : Key) (isAttribute : bool) : M Property :=
  match mn with
  | KNumber z =>
    (* [isIndex(mn) || !Multiname.isQName(mn) && isNumeric(mn)] holds of
       every number *)
    if (toInt32 z =? 0)%Z then mret (PXML this) else mret PNull
  | KName name =>
    x ← getNode this;
    let isAttribute := isAttribute || hasFlag (qn_flags name) ATTR_NAME in
    if isAttribute then
      selected ← match _attributes x with
                 | Some attrs => filterM (attributeSelected name) attrs
                 | None => mret []
                 end;
      mret (PList (mkList (map Some selected) (Some this) (Some name)))
    else
      selected ← match _children x with
                 | Some cs => filterM (childSelected name) cs
                 | None => mret []
                 end;
      mret (PList (mkList selected (Some this) (Some name)))
  end.

(** ** Values *)

Inductive Value :=
| VUndefined
| VNull
| VNumber (z : Z)
| VString (s : jsstring)
| VXML (r : ref)
| VXMLList (l : ASXMLList).

(** 13.4.4.10: [return this === value]. *)
Definition contains (this : ref) (value : Value) : bool :=
  match value with
  | VXML r => bool_decide (this = r)
  | _ => false
  end.

(** [String(z)] of an integral number. *)
Definition numberToString (z : Z) : jsstring :=
  if (z <? 0)%Z then lit "-" ++ decimal (Z.to_nat (- z)) else decimal (Z.to_nat z).

(** ** XMLList: content tests *)

(** 13.5.4.13 and 13.5.4.14 on the members of a list, read as trees. *)
Definition XMLList_hasComplexContent (children : list XMLTree) : bool :=
  match children with
  | [] => false
  | [x] => hasComplexContent x
  | _ => existsb (isKind Element) children
  end.

Definition XMLList_hasSimpleContent (children : list XMLTree) : bool :=
  match children with
  | [] => true
  | [x] => hasSimpleContent x
  | _ => forallb (fun child => negb (isKind Element child)) children
  end.

(** ** XMLList: the string of a list *)

(** [array.join(separator)] on strings. *)
Fixpoint joinWith (separator : jsstring) (l : list jsstring) : jsstring :=
  match l with
  | [] => []
  | [s] => s
  | s :: rest => s ++ separator ++ joinWith separator rest
  end.

(** [array.map(f)] for an [f] that may throw. *)
Fixpoint mapResult {A B} (f : A -> result B) (l : list A) : result (list B) :=
  match l with
  | [] => OK []
  | a :: rest => b ← f a; bs ← mapResult f rest; OK (b :: bs)
  end.

(** 10.2.2, [toXMLString] applied to the XMLList type, without the
    optional arguments: the strings of the members, joined by a line break
    when pretty printing is on. *)
Definition XMLList_toXMLString (settings : Settings) (children : list XMLTree)
  : result jsstring :=
  strs ← mapResult (fun childNode => toXMLString settings childNode [] 0) children;
  OK (joinWith (if prettyPrinting settings then [NEWLINE] else []) strs).

(** [ASXMLList.prototype.toString], what [String(list)] comes to. *)
Definition XMLList_toString (settings : Settings) (children : list XMLTree)
  : result jsstring :=
  if XMLList_hasComplexContent children then XMLList_toXMLString settings children
  else strs ← mapResult (toString settings) children; OK (concat strs).

(** The members of a list read as trees, which the strings are made of;
    the descent is bounded by the number of nodes there are.  A member
    that is [undefined] has no tree: the content tests throw a [TypeError]
    on it. *)
Definition listTrees (l : list (option ref)) : M (list XMLTree) :=
  n ← storeSize;
  mapM (fun c => match c with
                 | Some c => snapshot (S n) c
                 | None => throw NativeTypeError
                 end) l.

(** ** 9.1.1.12 [[Replace]] *)

(** [String(p)] of a qualified name: [ASQName.toString]. *)
Definition qnameString (q : ASQName) : jsstring :=
  match qn_uri q with
  | Some [] => localName q
  | Some uri => uri ++ lit "::" ++ localName q
  | None => lit "*::" ++ localName q
  end.

(** [String(p) === String(p >>> 0)] for a string: it is the decimal
    numeral of an array index, which is returned. *)
Definition indexString (s : jsstring) : option nat :=
  match NilEmpty.uint_of_string (string_of_list_ascii s) with
  | Some u =>
    let i := Nat.of_uint u in
    if jsstring_eqb (decimal i) s && (Z.of_nat i <? 4294967296)%Z
    then Some i else None
  | None => None
  end.

(** What [p] is when the value is stored under [_children[p]]: the index
    of an element of the array, or a string that is none ("-1", what
    [indexOf] answers for a node that is no child, or the name itself).
    With such a string the assignment gives the array object a property
    that is none of its elements and that nothing reads; the model keeps
    the elements only. *)
Inductive Slot :=
| AtIndex (i : nat)
| NoElement.

(** [array.splice(index, 1, undefined)] for [index] as [indexOf] returned
    it: -1 counts from the end, and on an empty array nothing is removed. *)
Definition spliceBlank (index : option nat) (cs : list (option ref))
  : list (option ref) :=
  match index with
  | Some i => <[i := None]> cs
  | None =>
    match cs with
    | [] => [None]
    | _ => <[length cs - 1 := None]> cs
    end
  end.

(** The [forEach] over the nodes a name selected: each is detached and one
    entry is taken out of [_children] for it, the one [indexOf] finds or,
    when the node is no child, the last; for the first node the entry is
    kept, emptied, and [p] becomes its index. *)
Fixpoint removeSelected (self : ref) (toRemove : list (option ref))
    (first : bool) (p : Slot) : M Slot :=
  match toRemove with
  | [] => mret p
  | None :: _ => throw NativeTypeError
  | Some v :: rest =>
    x ← getNode self;
    cs ← childrenOf x;
    let index := indexOf v cs in
    modifyNode v (with_parent None);;
    x ← getNode self;
    if first then
      setNode self (with_children (Some (spliceBlank index cs)) x);;
      removeSelected self rest false
        (match index with Some i => AtIndex i | None => NoElement end)
    else
      setNode self (with_children (Some (spliceOut index cs)) x);;
      removeSelected self rest false p
  end.

(** The branch of [replace] for a [p] that reads as the array index [i]:
    the slot is [i], or the end of the array, with what was there
    detached. *)
Definition vacateIndex (this : ASXML) (i : nat) : M (option Slot) :=
  let i := Nat.min i (lengthOf this) in
  match _children this with
  | Some cs =>
    match cs !! i with
    | Some (Some old) => modifyNode old (with_parent None)
    | _ => mret tt
    end
  | None => mret tt
  end;;
  mret (Some (AtIndex i)).

(** The first half of [replace]: the slot the new value goes to, with what
    was there detached.  [None]: a name that selects nothing.  With the
    name of attributes that are there, [getProperty] selects attributes:
    each loses its parent and stays among the attributes, and for each an
    entry is taken from the end of the children. *)
Definition vacate (self : ref) (this : ASXML) (p : Key) : M (option Slot) :=
  match p with
  | KNumber z =>
    if isUint32 z then vacateIndex this (Z.to_nat z)
    else if (toInt32 z =? 0)%Z then
      throw (NotImplemented "replace at a number that is no array index")
    else throw NativeTypeError
  | KName name =>
    match indexString (qnameString name) with
    | Some i => vacateIndex this i
    | None =>
      toRemove ← getProperty self p false;
      match toRemove with
      | PList l =>
        match l_children l with
        | [] => mret None
        | sel =>
          match _children this with
          | Some _ => slot ← removeSelected self sel true NoElement; mret (Some slot)
          | None => mret (Some NoElement)
          end
        end
      | _ => throw NativeTypeError
      end
    end
  end.

(** The second half of [replace]: the node that is stored, [v] itself or
    a new text node of its string value, with its parent set. *)
Definition adopt (settings : Settings) (self : ref) (v : Value)
    (vkind : option ASXMLKind) : M ref :=
  match v, vkind with
  | VXML r, Some (Element | Text | Comment | ProcessingInstruction) =>
    modifyNode r (with_parent (Some self));;
    mret r
  | VXML r, Some Attribute =>
    a ← getNode r;
    t ← createXML settings Text [] [] None;
    modifyNode t (fun t => with_value (_value a) (with_parent (Some self) t));;
    mret t
  | VString s, _ =>
    t ← createXML settings Text [] [] None;
    modifyNode t (fun t => with_value s (with_parent (Some self) t));;
    mret t
  | VNumber z, _ =>
    t ← createXML settings Text [] [] None;
    modifyNode t (fun t => with_value (numberToString z) (with_parent (Some self) t));;
    mret t
  | VXMLList l, _ =>
    trees ← listTrees (l_children l);
    s ← lift (XMLList_toString settings trees);
    t ← createXML settings Text [] [] None;
    modifyNode t (fun t => with_value s (with_parent (Some self) t));;
    mret t
  | _, _ => throw (NotImplemented "ToString of this value")
  end.

(** [replace(p, v)].  One corner is left out and answers
    [NotImplemented] before anything is changed: a number outside the array
    indices whose [ToInt32] is 0, for which [getProperty] returns the node
    itself. *)
Definition replace (settings : Settings) (self : ref) (p : Key) (v : Value)
  : M ref :=
  this ← getNode self;
  if isLeafKind (_kind this) then mret self
  else
    vkind ← match v with
            | VXML r =>
              n ← getNode r;
              if bool_decide (_kind n = Unknown)
              then throw (NotImplemented "ToString of this value")
              else mret (Some (_kind n))
            | VUndefined | VNull => throw NativeTypeError
            | _ => mret None
            end;
    n ← storeSize;
    cyclic ← match v, vkind with
             | VXML r, Some Element => onParentChain n (Some self) r
             | _, _ => mret false
             end;
    if (cyclic : bool) then throw (Thrown "Error in XML.prototype.replace()")
    else
      slot ← vacate self this p;
      match slot with
      | None => mret self
      | Some slot =>
        new ← adopt settings self v vkind;
        this ← getNode self;
        let cs := match _children this with Some cs => cs | None => [] end in
        setNode self
          (with_children
             (Some (match slot with
                    | AtIndex i => assignAt i (Some new) cs
                    | NoElement => cs
                    end)) this);;
        mret self
      end.

(** ** 9.1.1.13 [[AddInScopeNamespace]] *)

(** The first loop of [addInScopeNamespace]: the last in-scope namespace
    with the prefix, [match] of the code. *)
Fixpoint lastWithPrefix (prefix : option jsstring)
    (inScopeNamespaces : list ASNamespace) (found : option ASNamespace)
  : option ASNamespace :=
  match inScopeNamespaces with
  | [] => found
  | v :: rest =>
    lastWithPrefix prefix rest
                   (if optstr_eqb (ns_prefix v) prefix then Some v else found)
  end.

(** [addInScopeNamespace(ns)].  The assignments [_name.prefix = undefined]
    go to a property that has a getter and no setter: they change nothing,
    and what is left of the last two steps is the reading of the names. *)
Definition addInScopeNamespace (self : ref) (ns : ASNamespace) : M unit :=
  x ← getNode self;
  if isLeafKind (_kind x) then mret tt
  else
    match ns_prefix ns with
    | None => mret tt
    | Some prefix =>
      unqualified ← (if jsstring_eqb prefix []
                     then name ← nameOf x;
                          mret (bool_decide (qn_uri name = Some []))
                     else mret false);
      if (unqualified : bool) then mret tt
      else
        inScope ← match _inScopeNamespaces x with
                  | Some l => mret l
                  | None => throw NativeTypeError
                  end;
        match lastWithPrefix (Some prefix) inScope None with
        | Some found =>
          if negb (jsstring_eqb (ns_uri found) (ns_uri ns)) then
            modifyNode self
              (with_inScopeNamespaces
                 (Some (map (fun v => if optstr_eqb (ns_prefix v) (ns_prefix found)
                                      then ns else v) inScope)))
          else mret tt
        | None => mret tt
        end;;
        nameOf x;;
        attributes ← attributesOf x;
        mapM (fun v => a ← getNode v; nameOf a) attributes;;
        mret tt
    end.

(** ** 9.1.1.2 [[Put]] *)

(** Step 3 and 4: the string of a value that is no node, or of a text or
    an attribute, and a deep copy of any other node or of a list, which is
    a list of deep copies of the members. *)
Definition assignedValue (depth : nat) (v : Value) : M Value :=
  match v with
  | VXML r =>
    n ← getNode r;
    match _kind n with
    | Text | Attribute => mret (VString (_value n))
    | _ => c ← _deepCopy depth r; mret (VXML c)
    end
  | VXMLList l =>
    copies ← mapM (fun member =>
                match member with
                | Some r => c ← _deepCopy depth r; mret (Some c)
                | None => throw NativeTypeError
                end) (l_children l);
    mret (VXMLList (mkList copies (_targetObject l) (_targetProperty l)))
  | VUndefined => mret (VString (lit "undefined"))
  | VNull => mret (VString (lit "null"))
  | VNumber z => mret (VString (numberToString z))
  | VString s => mret (VString s)
  end.

(** [newAttributes.push(attribute)], where [newAttributes] is the array
    [this._attributes] was set to. *)
Definition pushAttribute (this : ref) (attribute : ref) : M unit :=
  modifyNode this
    (fun x => with_attributes (Some (default [] (_attributes x) ++ [attribute])) x).

(** The loop of step 6.e over the old attributes: the first with the name
    is kept and remembered, the others with the name lose their parent and
    are left out. *)
Fixpoint keepFirstNamed (this : ref) (n : ASQName) (attributes : list ref)
    (a : option ref) : M (option ref) :=
  match attributes with
  | [] => mret a
  | attribute :: rest =>
    an ← getNode attribute;
    name ← nameOf an;
    if qname_equals name n then
      match a with
      | None =>
        pushAttribute this attribute;;
        keepFirstNamed this n rest (Some attribute)
      | Some _ =>
        modifyNode attribute (with_parent None);;
        keepFirstNamed this n rest a
      end
    else
      pushAttribute this attribute;;
      keepFirstNamed this n rest a
  end.

(** The test of the loop of step 7 on the child at index [k]; the child is
    only looked at when a name or a namespace has to be compared. *)
Definition namedLike (n : ASQName) (this : ref) (k : nat) : M bool :=
  let isAny := hasFlag (qn_flags n) ANY_NAME in
  let isAnyNamespace := hasFlag (qn_flags n) ANY_NAMESPACE in
  sameName ← (if isAny then mret true
              else
                x ← getNode this;
                cs ← childrenOf x;
                child ← elementAt cs k;
                c ← getNode child;
                if bool_decide (_kind c = Element) then
                  name ← nameOf c;
                  mret (jsstring_eqb (localName name) (localName n))
                else mret false);
  if (sameName : bool) then
    if isAnyNamespace then mret true
    else
      x ← getNode this;
      cs ← childrenOf x;
      child ← elementAt cs k;
      c ← getNode child;
      if bool_decide (_kind c = Element) then
        name ← nameOf c;
        mret (bool_decide (qn_uri name = qn_uri n))
      else mret false
  else mret false.

(** The loop of step 7, for [k] from the index before the one given down
    to 0: of the children with the name the first stays, at the index that
    is returned, and the others are deleted. *)
Fixpoint findNamed (this : ref) (n : ASQName) (k : nat) (i : option nat)
  : M (option nat) :=
  match k with
  | 0 => mret i
  | S k' =>
    found ← namedLike n this k';
    if (found : bool) then
      match i with
      | Some i => deleteByIndex this (Z.of_nat i)
      | None => mret tt
      end;;
      findNamed this n k' (Some k')
    else findNamed this n k' i
  end.

(** [setProperty(p, isAttribute, v)].  [xmlName] is the answer of
    [isXMLName(n.name)], which turns the multiname into a string with code
    that is not in this file.  Left out, with [NotImplemented]: an
    attribute set to a node that is neither a text nor an attribute
    ([asCoerceString] of the copy, code that is not in this file). *)
Definition setProperty (settings : Settings) (xmlName : ASQName -> bool)
    (depth : nat) (this : ref) (p : Key) (isAttribute : bool) (v : Value)
  : M unit :=
  if match p with KNumber z => isUint32 z | KName _ => false end
  then throw XMLAssignmentToIndexedXMLNotAllowed
  else
    x ← getNode this;
    if isLeafKind (_kind x) then mret tt
    else
      c ← assignedValue depth v;
      n ← match p with
          | KName q => mret q
          | KNumber _ => throw NativeTypeError
          end;
      if isAttribute then
        if negb (xmlName n) then mret tt
        else
          c ← match c with
              | VString s => mret s
              | VXMLList l =>
                trees ← listTrees (l_children l);
                strs ← lift (mapResult (toString settings) trees);
                mret (joinWith [SPACE] strs)
              | _ => throw (NotImplemented "asCoerceString of a node")
              end;
          x ← getNode this;
          modifyNode this (with_attributes (Some []));;
          a ← keepFirstNamed this n (default [] (_attributes x)) None;
          a ← match a with
              | Some a => mret a
              | None =>
                a ← createXML settings Attribute (default [] (qn_uri n))
                              (localName n) None;
                modifyNode a (with_parent (Some this));;
                pushAttribute this a;;
                mret a
              end;
          modifyNode a (with_value c)
      else
        let primitiveAssign :=
          match c with
          | VString _ => negb (jsstring_eqb (localName n) (lit "*"))
          | _ => false
          end in
        x ← getNode this;
        i ← findNamed this n (lengthOf x) None;
        i ← match i with
            | Some i => mret i
            | None =>
              x ← getNode this;
              let i := lengthOf x in
              (if primitiveAssign then
                 let name :=
                   match qn_namespace n with
                   | None =>
                     newQName (defaultNamespace settings)
                              (Some (getDefaultNamespace (defaultNamespace settings)))
                              (localName n) false
                   | Some _ => n
                   end in
                 y ← createXML settings Element (default [] (qn_uri name))
                               (localName name) (mjoin (qn_prefix name));
                 modifyNode y (with_parent (Some this));;
                 ns ← lift (getNamespace name []);
                 replace settings this (KNumber (Z.of_nat i)) (VXML y);;
                 addInScopeNamespace y ns
               else mret tt);;
              mret i
            end;
        if primitiveAssign then
          x ← getNode this;
          cs ← childrenOf x;
          child ← elementAt cs i;
          modifyNode child (with_children (Some []));;
          match c with
          | VString [] => mret tt
          | VString s => replace settings child (KNumber 0) (VString s);; mret tt
          | _ => mret tt
          end
        else
          replace settings this (KNumber (Z.of_nat i)) c;; mret tt.

(** ** childIndex, [[HasProperty]] and [[Delete]] by name *)

(** 13.4.4.7 [childIndex()]; -1 for a node without a parent and for an
    attribute, and what [indexOf] says otherwise. *)
Definition childIndex (this : ref) : M Z :=
  x ← getNode this;
  match _parent x with
  | None => mret (-1)%Z
  | Some parent =>
    if bool_decide (_kind x = Attribute) then mret (-1)%Z
    else
      pn ← getNode parent;
      cs ← childrenOf pn;
      mret (match indexOf this cs with
            | Some i => Z.of_nat i
            | None => (-1)%Z
            end)
  end.

(** The test of [hasProperty] on one attribute: other than in
    [getProperty], the namespace is only compared when the name is. *)
Definition attributeNamed (name : ASQName) (v : ref) : M bool :=
  let anyName := hasFlag (qn_flags name) ANY_NAME in
  let anyNamespace := hasFlag (qn_flags name) ANY_NAMESPACE in
  if anyName then mret true
  else
    n ← getNode v;
    vn ← nameOf n;
    mret (jsstring_eqb (localName vn) (localName name) &&
          (anyNamespace || bool_decide (qn_uri vn = qn_uri name))).

(** [array.some(f)] in the store monad. *)
Fixpoint someM {A} (f : A -> M bool) (l : list A) : M bool :=
  match l with
  | [] => mret false
  | a :: rest => b ← f a; if (b : bool) then mret true else someM f rest
  end.

(** [hasProperty(mn, isAttribute, false)].  The loop over the children
    ends without a [return] when nothing is found: [None] is that
    [undefined]. *)
Definition hasProperty (this : ref) (mn : Key) (isAttribute : bool)
  : M (option bool) :=
  match mn with
  | KNumber z =>
    if isUint32 z then mret (Some (z =? 0)%Z) else throw NativeTypeError
  | KName name =>
    x ← getNode this;
    if isAttribute then
      found ← match _attributes x with
              | Some attrs => someM (attributeNamed name) attrs
              | None => mret false
              end;
      mret (Some found)
    else
      cs ← childrenOf x;
      found ← someM (childSelected name) cs;
      mret (if (found : bool) then Some true else None)
  end.

(** The loop of [deleteProperty] over the old attributes: the ones with
    the name lose their parent, the others are pushed on the new array. *)
Fixpoint dropNamed (this : ref) (name : ASQName) (attributes : list ref)
  : M unit :=
  match attributes with
  | [] => mret tt
  | node :: rest =>
    named ← attributeSelected name node;
    (if (named : bool) then modifyNode node (with_parent None)
     else pushAttribute this node);;
    dropNamed this name rest
  end.

(** [deleteProperty(mn, isAttribute)]: [Some true] is [true], [None] the
    [undefined] of a call that ends without a [return].  With the name of
    elements nothing is deleted.  Left out, with [NotImplemented]: the
    test [some] on an array of children with an empty entry, which it
    skips or looks at according to how the entry came to be empty. *)
Definition deleteProperty (this : ref) (mn : Key) (isAttribute : bool)
  : M (option bool) :=
  match mn with
  | KNumber z =>
    if isUint32 z then mret (Some true) else throw NativeTypeError
  | KName name =>
    x ← getNode this;
    if isAttribute then
      match _attributes x with
      | Some attributes =>
        modifyNode this (with_attributes (Some []));;
        dropNamed this name attributes
      | None => mret tt
      end;;
      mret None
    else
      cs ← childrenOf x;
      if existsb (fun c : option ref => negb (bool_decide (is_Some c))) cs
      then throw (NotImplemented "some over children with an empty entry")
      else
        found ← someM (childSelected name) cs;
        mret (if (found : bool) then Some true else None)
  end.

(** ** XMLList: the scalar accessors *)

(** The accessors of [ASXMLList] that test [this._children.length !== 1]
    before they forward to the single member. *)
Module Accessor.

Inductive t :=
| addNamespace (ns : Value)
| appendChild (child : Value)
| childIndex
| inScopeNamespaces
| insertChildAfter (child1 child2 : Value)
| insertChildBefore (child1 child2 : Value)
| nodeKind
| namespace (prefix : option Value)
| localName
| namespaceDeclarations
| prependChild (value : Value)
| removeNamespace (ns : Value)
| replace (propertyName : Key) (value : Value)
| setChildren (value : Value)
| setLocalName (name : Value)
| setName (name : Value)
| setNamespace (ns : Value).

(** The operation name each accessor hands to the error. *)
Definition operationName (op : t) : string :=
  match op with
  | addNamespace _ => "addNamespace"
  | appendChild _ => "appendChild"
  | childIndex => "childIndex"
  | inScopeNamespaces => "inScopeNamespaces"
  | insertChildAfter _ _ => "insertChildAfter"
  | insertChildBefore _ _ => "insertChildBefore"
  | nodeKind => "nodeKind"
  | namespace _ => "namespace"
  | localName => "localName"
  | namespaceDeclarations => "namespaceDeclarations"
  | prependChild _ => "prependChild"
  | removeNamespace _ => "removeNamespace"
  | replace _ _ => "replace"
  | setChildren _ => "setChildren"
  | setLocalName _ => "setLocalName"
  | setName _ => "setName"
  | setNamespace _ => "setNamespace"
  end.

(** Whether the list method returns the member ([return xml]) instead of
    what the member's method returned. *)
Definition returnsMember (op : t) : bool :=
  match op with
  | addNamespace _ | appendChild _ => true
  | _ => false
  end.

End Accessor.

Section XMLList.

(** The method of [ASXML] of the same name, applied to a node. *)
Variable xmlMethod : Accessor.t -> ref -> M Value.

(** One scalar accessor of the list. *)
Definition XMLList_scalar (op : Accessor.t) (this : ASXMLList) : M Value :=
  if negb (length (l_children this) =? 1) then
    throw (XMLOnlyWorksWithOneItemLists (Accessor.operationName op))
  else
    match l_children this with
    | Some xml :: _ =>
      if Accessor.returnsMember op
      then xmlMethod op xml;; mret (VXML xml)
      else xmlMethod op xml
    | _ => throw NativeTypeError
    end.

End XMLList.

(** 13.5.4.17 [XMLList.prototype.parent]: the common parent of the members,
    [undefined] when there is none; [null] is the shared parent of orphans. *)
Fixpoint sameParent (parent : option ref) (children : list (option ref)) : M bool :=
  match children with
  | [] => mret true
  | None :: _ => throw NativeTypeError
  | Some c :: rest =>
    n ← getNode c;
    if bool_decide (_parent n = parent) then sameParent parent rest else mret false
  end.

Definition XMLList_parent (this : ASXMLList) : M Value :=
  match l_children this with
  | [] => mret VUndefined
  | None :: _ => throw NativeTypeError
  | Some first :: rest =>
    n ← getNode first;
    same ← sameParent (_parent n) rest;
    if (same : bool) then
      mret (match _parent n with Some p => VXML p | None => VNull end)
    else mret VUndefined
  end.

(** ** 9.1.1.8 [[Descendants]] *)

(** The test of [descendantsInto] on one node: the name is only read when
    the name looked for is no wildcard. *)
Definition named (name : ASQName) (v : XMLTree) : result bool :=
  if hasFlag (qn_flags name) ANY_NAME then OK true
  else
    match t_name v with
    | Some vn =>
      OK (jsstring_eqb (localName name) (localName vn) &&
          bool_decide (qn_uri name = qn_uri vn))
    | None => Throw NativeTypeError
    end.

(** One [forEach] of [descendantsInto]: the nodes with the name, in their
    order. *)
Fixpoint selectNamed (name : ASQName) (l : list XMLTree)
  : result (list XMLTree) :=
  match l with
  | [] => OK []
  | v :: rest =>
    b ← named name v;
    r ← selectNamed name rest;
    OK (if (b : bool) then v :: r else r)
  end.

(** [descendantsInto(name, xl)] on the tree read at a node; [xl] is the
    array of the list.  The attributes or the children with the name come
    first, then what the children add, one child after the other. *)
Fixpoint descendantsInto (name : ASQName) (this : XMLTree)
    (xl : list XMLTree) : result (list XMLTree) :=
  match this with
  | mkXML kind _ _ _ attributes children =>
    if negb (bool_decide (kind = Element)) then OK xl
    else
      found ← selectNamed name
                (if hasFlag (qn_flags name) ATTR_NAME then attributes
                 else children);
      (fix descend (l : list XMLTree) (xl : list XMLTree)
         : result (list XMLTree) :=
         match l with
         | [] => OK xl
         | v :: rest =>
           xl' ← descendantsInto name v xl;
           descend rest xl'
         end) children (xl ++ found)
  end.

(** [descendants(name)], for a name [toXMLName] returns unchanged. *)
Definition descendants (name : ASQName) (this : XMLTree)
  : result (list XMLTree) :=
  descendantsInto name this [].

(** ** The streaming parser: scanning *)

Fixpoint isPrefixOf (pat s : jsstring) : bool :=
  match pat, s with
  | [], _ => true
  | p :: pat', c :: s' => Ascii.eqb p c && isPrefixOf pat' s'
  | _ :: _, [] => false
  end.

Fixpoint findFrom (pat rest : jsstring) (i : nat) : option nat :=
  match rest with
  | [] => None
  | _ :: rest' => if isPrefixOf pat rest then Some i else findFrom pat rest' (S i)
  end.

(** [s.indexOf(pat, from)] for a non-empty [pat]; [None] is -1. *)
Definition indexOfFrom (s pat : jsstring) (from : nat) : option nat :=
  findFrom pat (drop from s) from.

(** [while (pos < s.length && !stop(s[pos])) ++pos] *)
Definition scanTo (stop : ascii -> bool) (s : jsstring) (pos : nat) : nat :=
  skipPlain stop (drop pos s) pos.

(** [skipWs()] *)
Definition skipWs (s : jsstring) (pos : nat) : nat :=
  skipWhitespace (drop pos s) pos.

(** The entity table and the numeric references of [resolveEntities]. *)
Definition digitValue (radix : N) (ch : ascii) : option N :=
  let c := N_of_ascii ch in
  let v := if ((48 <=? c) && (c <=? 57))%N then Some (c - 48)%N
           else if ((97 <=? c) && (c <=? 122))%N then Some (c - 87)%N
           else if ((65 <=? c) && (c <=? 90))%N then Some (c - 55)%N
           else None in
  match v with
  | Some d => if (d <? radix)%N then Some d else None
  | None => None
  end.

Fixpoint parseDigits (radix : N) (s : jsstring) (acc : N) : N :=
  match s with
  | [] => acc
  | ch :: rest =>
    match digitValue radix ch with
    | Some d => parseDigits radix rest (acc * radix + d)%N
    | None => acc
    end
  end.

(** [String.fromCharCode(parseInt(body, radix))].  Characters are 8 bits
    wide here, and [parseInt] is followed on a body that starts with a
    digit or with a character it cannot start a number with ([NaN], code
    0); a leading blank, sign or "0x", a value from 2^53 on and a code
    unit above 255 are outside the model ([None]). *)
Definition charReference (radix : N) (body : jsstring) : option jsstring :=
  match body with
  | [] => Some [ascii_of_N 0]
  | ch :: rest =>
    let c := N_of_ascii ch in
    if isWhitespaceChar ch || (c =? 11)%N || (c =? 12)%N || (c =? 160)%N ||
       (c =? 43)%N || (c =? 45)%N then None
    else if (radix =? 16)%N && (c =? 48)%N &&
            match rest with
            | x :: _ => (N_of_ascii x =? 120)%N || (N_of_ascii x =? 88)%N
            | [] => false
            end then None
    else
      match digitValue radix ch with
      | None => Some [ascii_of_N 0]
      | Some _ =>
        let n := parseDigits radix body 0 in
        if (n <? 9007199254740992)%N then
          let code := (n mod 65536)%N in
          if (code <? 256)%N then Some [ascii_of_N code] else None
        else None
      end
  end.

(** The replacement function of [resolveEntities] on the text between
    '&' and ';'. *)
Definition entityValue (entity : jsstring) : option jsstring :=
  if jsstring_eqb (substring entity 0 2) (lit "#x") then
    charReference 16 (substring entity 2 (length entity))
  else if jsstring_eqb (substring entity 0 1) (lit "#") then
    charReference 10 (substring entity 1 (length entity))
  else if jsstring_eqb entity (lit "lt") then Some [LT]
  else if jsstring_eqb entity (lit "gt") then Some [GT]
  else if jsstring_eqb entity (lit "amp") then Some [AMP]
  else if jsstring_eqb entity (lit "quot") then Some [DQUOTE]
  else Some ([AMP] ++ entity ++ lit ";").

(** [s.replace(/&([^;]+);/g, ...)] read as a scan: [pending] is the text
    since an unmatched '&', which a later ';' turns into an entity when it
    is not empty. *)
Fixpoint resolveEntitiesFrom (rest : jsstring) (pending : option jsstring)
  : option jsstring :=
  match rest with
  | [] =>
    match pending with
    | Some entity => Some (AMP :: entity)
    | None => Some []
    end
  | ch :: rest' =>
    match pending with
    | None =>
      if Ascii.eqb ch AMP then resolveEntitiesFrom rest' (Some [])
      else option_map (cons ch) (resolveEntitiesFrom rest' None)
    | Some [] =>
      if Ascii.eqb ch (ascii_of_nat 59)
      then option_map (fun r => AMP :: ch :: r) (resolveEntitiesFrom rest' None)
      else resolveEntitiesFrom rest' (Some [ch])
    | Some entity =>
      if Ascii.eqb ch (ascii_of_nat 59) then
        match entityValue entity, resolveEntitiesFrom rest' None with
        | Some v, Some r => Some (v ++ r)
        | _, _ => None
        end
      else resolveEntitiesFrom rest' (Some (entity ++ [ch]))
    end
  end.

Definition resolveEntities (s : jsstring) : result jsstring :=
  match resolveEntitiesFrom s None with
  | Some r => OK r
  | None => Throw (NotImplemented "a character reference outside the 8-bit characters")
  end.

(** The [{uri, prefix}] records of the scanner. *)
Record RawNamespace := mkRawNamespace {
  raw_uri : jsstring;
  raw_prefix : jsstring
}.

(** One entry of [scopes].  [sc_lookup] is the [lookup] object, newest
    binding first; [sc_xmlns = None] is a scope without an own [xmlns].
    Prefixes that name a property every object inherits are outside the
    model: they are looked up like any other prefix. *)
Record Scope := mkScope {
  sc_namespaces : list RawNamespace;
  sc_lookup : list (jsstring * jsstring);
  sc_inScopes : list RawNamespace;
  sc_space : option jsstring;
  sc_xmlns : option jsstring
}.

Fixpoint assoc (key : jsstring) (l : list (jsstring * jsstring)) : option jsstring :=
  match l with
  | [] => None
  | (k, v) :: rest => if jsstring_eqb k key then Some v else assoc key rest
  end.

Definition rootScope (settings : Settings) : Scope :=
  mkScope []
    [(lit "xmlns", lit "http://www.w3.org/2000/xmlns/");
     (lit "xml", lit "http://www.w3.org/XML/1998/namespace")]
    (match defaultNamespace settings with
     | [] => []
     | d => [mkRawNamespace d []]
     end)
    (Some (lit "default"))
    (Some (defaultNamespace settings)).

(** [scopes] is kept innermost first. *)
Fixpoint isWhitespacePreserved (scopes : list Scope) : bool :=
  match scopes with
  | [] => false
  | sc :: rest =>
    if bool_decide (sc_space sc = Some (lit "preserve")) then true
    else isWhitespacePreserved rest
  end.

Fixpoint lookupDefaultNs (scopes : list Scope) : jsstring :=
  match scopes with
  | [] => []
  | sc :: rest =>
    match sc_xmlns sc with
    | Some u => u
    | None => lookupDefaultNs rest
    end
  end.

Fixpoint lookupNs (scopes : list Scope) (prefix : jsstring) : option jsstring :=
  match scopes with
  | [] => None
  | sc :: rest =>
    match assoc prefix (sc_lookup sc) with
    | Some u => Some u
    | None => lookupNs rest prefix
    end
  end.

(** What [getName] returns. *)
Record ParsedName := mkParsedName {
  pn_localName : jsstring;
  pn_prefix : jsstring;
  pn_namespace : jsstring
}.

Definition COLON : ascii := ascii_of_nat 58.

Definition getName (scopes : list Scope) (name : jsstring) (resolveDefaultNs : bool)
  : result ParsedName :=
  match indexOfFrom name [COLON] 0 with
  | Some j =>
    let prefix := substring name 0 j in
    match lookupNs scopes prefix with
    | None => Throw (Thrown ("Unknown namespace: " ++ string_of_list_ascii prefix))
    | Some namespace =>
      OK (mkParsedName (substring name (j + 1) (length name)) prefix namespace)
    end
  | None =>
    if resolveDefaultNs then OK (mkParsedName name [] (lookupDefaultNs scopes))
    else OK (mkParsedName name [] [])
  end.

Definition charAt (s : jsstring) (pos : nat) : option ascii := s !! pos.

Definition charIs (s : jsstring) (pos : nat) (ch : ascii) : bool :=
  bool_decide (charAt s pos = Some ch).

Definition SLASH : ascii := ascii_of_nat 47.
Definition QUESTION : ascii := ascii_of_nat 63.
Definition BANG : ascii := ascii_of_nat 33.
Definition EQUALS : ascii := ascii_of_nat 61.
Definition LBRACKET : ascii := ascii_of_nat 91.

Definition endsTagName (ch : ascii) : bool :=
  isWhitespaceChar ch || Ascii.eqb ch GT || Ascii.eqb ch SLASH.

(** The attribute loop of [parseContent]; every round consumes at least
    the '=' and the two quotes, so [fuel] rounds cover [fuel] characters. *)
Fixpoint parseAttributes (fuel : nat) (s : jsstring) (pos : nat)
    (attributes : list (jsstring * jsstring))
  : result (list (jsstring * jsstring) * nat) :=
  if (pos <? length s) && negb (charIs s pos GT) && negb (charIs s pos SLASH) &&
     negb (charIs s pos QUESTION)
  then
    match fuel with
    | 0 => Throw OutOfFuel
    | S fuel' =>
      let pos := skipWs s pos in
      let nameEnd := scanTo (fun ch => isWhitespaceChar ch || Ascii.eqb ch EQUALS) s pos in
      let attrName := substring s pos nameEnd in
      let pos := skipWs s nameEnd in
      if negb (charIs s pos EQUALS) then Throw (Thrown "'=' expected")
      else
        let pos := skipWs s (pos + 1) in
        match charAt s pos with
        | Some attrEndChar =>
          if Ascii.eqb attrEndChar DQUOTE || Ascii.eqb attrEndChar SQUOTE then
            match indexOfFrom s [attrEndChar] (pos + 1) with
            | None => Throw (Thrown "Unexpected EOF[6]")
            | Some attrEndIndex =>
              attrValue ← resolveEntities (substring s (pos + 1) attrEndIndex);
              parseAttributes fuel' s (skipWs s (attrEndIndex + 1))
                (attributes ++ [(attrName, attrValue)])
            end
          else Throw (Thrown "Quote expected")
        | None => Throw (Thrown "Quote expected")
        end
    end
  else OK (attributes, pos).

(** What [parseContent] returns. *)
Record Content := mkContent {
  c_name : jsstring;
  c_attributes : list (jsstring * jsstring);
  c_parsed : nat
}.

Definition parseContent (s : jsstring) (start : nat) : result Content :=
  let pos := scanTo endsTagName s start in
  let name := substring s start pos in
  let pos := skipWs s pos in
  '(attributes, pos) ← parseAttributes (length s) s pos [];
  OK (mkContent name attributes (pos - start)).

(** The second loop of [parseProcessingInstruction]: up to "?>". *)
Fixpoint scanToPIEnd (rest : jsstring) (pos : nat) : nat :=
  match rest with
  | [] => pos
  | ch :: rest' =>
    if Ascii.eqb ch QUESTION &&
       match rest' with
       | ch2 :: _ => Ascii.eqb ch2 GT
       | [] => false
       end
    then pos
    else scanToPIEnd rest' (S pos)
  end.

(** [parseProcessingInstruction(s, start)]: name, value, parsed. *)
Definition parseProcessingInstruction (s : jsstring) (start : nat)
  : jsstring * jsstring * nat :=
  let pos := scanTo endsTagName s start in
  let name := substring s start pos in
  let attrStart := skipWs s pos in
  let pos := scanToPIEnd (drop attrStart s) attrStart in
  (name, substring s attrStart pos, pos - start).

(** The calls the scanner makes on its sink. *)
Inductive Event :=
| beginElement (name : ParsedName) (attrs : list (ParsedName * jsstring))
               (namespaces : list RawNamespace) (isEmpty : bool)
| endElement (name : ParsedName)
| text (text : jsstring) (isWhitespacePreserve : bool)
| cdata (text : jsstring)
| comment (text : jsstring)
| pi (name value : jsstring)
| doctype (text : jsstring).

(** The first loop over the raw attributes of a start tag: namespace
    declarations and [xml:] attributes fill the new scope; the declarations
    are taken out of the attributes ([delete contentAttributes[q]]). *)
Fixpoint scanDeclarations (scopes : list Scope)
    (contentAttributes : list (jsstring * jsstring)) (scope : Scope)
  : result (Scope * list (jsstring * jsstring)) :=
  match contentAttributes with
  | [] => OK (scope, [])
  | (attributeName, value) :: rest =>
    if jsstring_eqb (substring attributeName 0 6) (lit "xmlns:") then
      let prefix := substring attributeName 6 (length attributeName) in
      let uri := value in
      let scope :=
        if negb (bool_decide (lookupNs scopes prefix = Some uri)) then
          mkScope (sc_namespaces scope ++ [mkRawNamespace uri prefix])
                  ((prefix, trimWhitespaces uri) :: sc_lookup scope)
                  (sc_inScopes scope) (sc_space scope) (sc_xmlns scope)
        else scope in
      scanDeclarations scopes rest scope
    else if jsstring_eqb attributeName (lit "xmlns") then
      let uri := value in
      let scope :=
        if negb (jsstring_eqb (lookupDefaultNs scopes) uri) then
          mkScope (sc_namespaces scope ++ [mkRawNamespace uri []])
                  (sc_lookup scope) (sc_inScopes scope) (sc_space scope)
                  (Some (trimWhitespaces uri))
        else scope in
      scanDeclarations scopes rest scope
    else if jsstring_eqb (substring attributeName 0 4) (lit "xml:") then
      let xmlAttrName := substring attributeName 4 (length attributeName) in
      if negb (jsstring_eqb xmlAttrName (lit "space")) &&
         negb (jsstring_eqb xmlAttrName (lit "lang")) &&
         negb (jsstring_eqb xmlAttrName (lit "base")) &&
         negb (jsstring_eqb xmlAttrName (lit "id"))
      then Throw (Thrown ("Invalid xml attribute: " ++ string_of_list_ascii attributeName))
      else
        let scope :=
          if jsstring_eqb xmlAttrName (lit "space") then
            mkScope (sc_namespaces scope) (sc_lookup scope) (sc_inScopes scope)
                    (Some (trimWhitespaces value)) (sc_xmlns scope)
          else scope in
        '(scope, kept) ← scanDeclarations scopes rest scope;
        OK (scope, (attributeName, value) :: kept)
    else if jsstring_eqb (substring attributeName 0 3) (lit "xml") then
      Throw (Thrown "Invalid xml attribute")
    else
      '(scope, kept) ← scanDeclarations scopes rest scope;
      OK (scope, (attributeName, value) :: kept)
  end.

(** "build list of all namespaces including ancestors'" *)
Definition visibleNamespaces (scope : Scope) (outer : list RawNamespace)
  : list RawNamespace :=
  List.filter (fun ns =>
      match raw_prefix ns with
      | [] => true
      | p => bool_decide (assoc p (sc_lookup scope) = Some (raw_uri ns))
      end) (sc_namespaces scope) ++
  List.filter (fun ns =>
      match raw_prefix ns with
      | [] => negb (bool_decide (is_Some (sc_xmlns scope)))
      | p => negb (bool_decide (is_Some (assoc p (sc_lookup scope))))
      end) outer.

Fixpoint resolveAttributes (scopes : list Scope)
    (contentAttributes : list (jsstring * jsstring))
  : result (list (ParsedName * jsstring)) :=
  match contentAttributes with
  | [] => OK []
  | (name, value) :: rest =>
    n ← getName scopes name false;
    rest' ← resolveAttributes scopes rest;
    OK ((n, value) :: rest')
  end.

(** The default case of the scanner: a start tag at [j], just after '<'. *)
Definition parseStartTag (s : jsstring) (j : nat) (scopes : list Scope)
  : result (Event * nat * list Scope) :=
  content ← parseContent s j;
  let tail := j + c_parsed content in
  isClosed ←
    (if jsstring_eqb (substring s tail (tail + 2)) (lit "/>") then OK true
     else if negb (jsstring_eqb (substring s tail (tail + 1)) (lit ">"))
     then Throw (Thrown "Unexpected EOF[2]")
     else OK false);
  '(scope, contentAttributes) ←
    scanDeclarations scopes (c_attributes content) (mkScope [] [] [] None None);
  match scopes with
  | [] => Throw NativeTypeError
  | top :: _ =>
    let inScopeNamespaces := visibleNamespaces scope (sc_inScopes top) in
    let scope := mkScope (sc_namespaces scope) (sc_lookup scope) inScopeNamespaces
                         (sc_space scope) (sc_xmlns scope) in
    let scopes' := scope :: scopes in
    attributes ← resolveAttributes scopes' contentAttributes;
    name ← getName scopes' (c_name content) true;
    OK (beginElement name attributes inScopeNamespaces isClosed,
        tail + (if (isClosed : bool) then 2 else 1),
        if (isClosed : bool) then scopes else scopes')
  end.

(** One round of the [while (i < s.length)] of [parseXml]: the event handed
    to the sink, the next [i] and the scopes. *)
Definition parseStep (s : jsstring) (i : nat) (scopes : list Scope)
  : result (Event * nat * list Scope) :=
  if charIs s i LT then
    let j := i + 1 in
    if charIs s j SLASH then
      let j := j + 1 in
      match indexOfFrom s [GT] j with
      | None => Throw (Thrown "Unexpected EOF[1]")
      | Some q =>
        name ← getName scopes (substring s j q) true;
        OK (endElement name, q + 1, tail scopes)
      end
    else if charIs s j QUESTION then
      let j := j + 1 in
      let '(name, value, parsed) := parseProcessingInstruction s j in
      if negb (jsstring_eqb (substring s (j + parsed) (j + parsed + 2)) (lit "?>"))
      then Throw (Thrown "Unexpected EOF[2]")
      else OK (pi name value, j + parsed + 2, scopes)
    else if charIs s j BANG then
      if jsstring_eqb (substring s (j + 1) (j + 3)) (lit "--") then
        match indexOfFrom s (lit "-->") (j + 3) with
        | None => Throw (Thrown "Unexpected EOF[3]")
        | Some q => OK (comment (substring s (j + 3) q), q + 3, scopes)
        end
      else if jsstring_eqb (substring s (j + 1) (j + 8)) (lit "[CDATA[") then
        match indexOfFrom s (lit "]]>") (j + 8) with
        | None => Throw (Thrown "Unexpected EOF[4]")
        | Some q => OK (cdata (substring s (j + 8) q), q + 3, scopes)
        end
      else if jsstring_eqb (substring s (j + 1) (j + 8)) (lit "DOCTYPE") then
        let q2 := indexOfFrom s [LBRACKET] (j + 8) in
        match indexOfFrom s [GT] (j + 8) with
        | None => Throw (Thrown "Unexpected EOF[5]")
        | Some q =>
          let complexDoctype :=
            match q2 with
            | Some q2 => (0 <? q2) && (q2 <? q)
            | None => false
            end in
          if complexDoctype then
            match indexOfFrom s (lit "]>") (j + 8) with
            | None => Throw (Thrown "Unexpected EOF[7]")
            | Some q => OK (doctype (substring s (j + 8) (q + 1)), q + 2, scopes)
            end
          else OK (doctype (substring s (j + 8) q), q + 1, scopes)
        end
      else Throw (Thrown "Unknown !tag")
    else parseStartTag s j scopes
  else
    let next := scanTo (fun ch => Ascii.eqb ch LT) s (i + 1) in
    let j := if next <? length s then next else length s + 1 in
    t ← resolveEntities (substring s i j);
    OK (text t (isWhitespacePreserved scopes), j, scopes).

(** [parseXml(s, sink)]: the events in order, and the exception that ended
    the scan, if one did.  Every round moves [i] forward, so as many rounds
    as [s] has characters suffice. *)
Fixpoint parseLoop (fuel : nat) (s : jsstring) (i : nat) (scopes : list Scope)
  : list Event * option Error :=
  if i <? length s then
    match fuel with
    | 0 => ([], Some OutOfFuel)
    | S fuel' =>
      match parseStep s i scopes with
      | Throw e => ([], Some e)
      | OK (ev, j, scopes') =>
        let '(evs, err) := parseLoop fuel' s j scopes' in
        (ev :: evs, err)
      end
    end
  else ([], None).

Definition parseXml (settings : Settings) (s : jsstring) : list Event * option Error :=
  parseLoop (length s) s 0 [rootScope settings].

(** ** The streaming parser: building the tree *)

(** The variables the sink closes over; [None] is [undefined], what
    [elementsStack.pop()] returns on an empty stack.  The stack has its
    top first. *)
Record Builder := mkBuilder {
  currentElement : option ref;
  elementsStack : list (option ref)
}.

Definition pop (b : Builder) : Builder :=
  match elementsStack b with
  | top :: rest => mkBuilder top rest
  | [] => mkBuilder None []
  end.

Definition createNode := createXML.

(** [currentElement.insert(currentElement.length(), node)] *)
Definition insertLast (target : option ref) (node : ref) : M unit :=
  match target with
  | None => throw NativeTypeError
  | Some parent =>
    p ← getNode parent;
    insert parent (Z.of_nat (lengthOf p)) node
  end.

Fixpoint addAttributes (settings : Settings) (element : ref)
    (attrs : list (ParsedName * jsstring)) : M unit :=
  match attrs with
  | [] => mret tt
  | (name, value) :: rest =>
    attr ← createNode settings Attribute (pn_namespace name) (pn_localName name)
                      (Some (pn_prefix name));
    modifyNode attr (fun a => with_parent (Some element) (with_value value a));;
    e ← getNode element;
    l ← attributesOf e;
    setNode element (with_attributes (Some (l ++ [attr])) e);;
    addAttributes settings element rest
  end.

Fixpoint addNamespaces (element : ref) (namespaces : list RawNamespace) : M unit :=
  match namespaces with
  | [] => mret tt
  | rawNs :: rest =>
    ns ← lift (newNamespace (Some (raw_prefix rawNs)) (raw_uri rawNs));
    e ← getNode element;
    match _inScopeNamespaces e with
    | None => throw NativeTypeError
    | Some l => setNode element (with_inScopeNamespaces (Some (l ++ [ns])) e)
    end;;
    addNamespaces element rest
  end.

(** The sink of [parseFromString], one event at a time. *)
Definition sink (settings : Settings) (b : Builder) (ev : Event) : M Builder :=
  match ev with
  | beginElement name attrs namespaces isEmpty =>
    let parent := currentElement b in
    let stack := parent :: elementsStack b in
    element ← createNode settings Element (pn_namespace name) (pn_localName name)
                         (Some (pn_prefix name));
    addAttributes settings element attrs;;
    addNamespaces element namespaces;;
    insertLast parent element;;
    mret (if isEmpty then pop (mkBuilder (Some element) stack)
          else mkBuilder (Some element) stack)
  | endElement _ => mret (pop b)
  | text t isWhitespacePreserve =>
    let t := if ignoreWhitespace settings then trimWhitespaces t else t in
    if (length t =? 0) || isWhitespacePreserve && ignoreWhitespace settings
    then mret b
    else
      node ← createNode settings Text [] [] None;
      modifyNode node (with_value t);;
      insertLast (currentElement b) node;;
      mret b
  | cdata t =>
    node ← createNode settings Text [] [] None;
    modifyNode node (with_value t);;
    insertLast (currentElement b) node;;
    mret b
  | comment t =>
    if ignoreComments settings then mret b
    else
      node ← createNode settings Comment [] [] None;
      modifyNode node (with_value t);;
      insertLast (currentElement b) node;;
      mret b
  | pi name value =>
    if ignoreProcessingInstructions settings then mret b
    else
      node ← createNode settings ProcessingInstruction [] name None;
      modifyNode node (with_value value);;
      insertLast (currentElement b) node;;
      mret b
  | doctype _ => mret b
  end.

Fixpoint feed (settings : Settings) (b : Builder) (events : list Event) : M Builder :=
  match events with
  | [] => mret b
  | ev :: rest => b' ← sink settings b ev; feed settings b' rest
  end.

(** [parseFromString(s)]: the final [currentElement]. *)
Definition parseFromString (settings : Settings) (s : jsstring) : M (option ref) :=
  placeholder ← createXML settings Element [] [] (Some []);
  let '(events, err) := parseXml settings s in
  b ← feed settings (mkBuilder (Some placeholder) []) events;
  match err with
  | Some e => throw e
  | None => mret (currentElement b)
  end.

(** ** 10.3 ToXML *)

(** The last case of [toXML]: parse the string coercion of the value. *)
Definition toXML_string (settings : Settings) (s : jsstring) : M Value :=
  x ← parseFromString settings s;
  match x with
  | None => throw NativeTypeError
  | Some x =>
    n ← getNode x;
    match _children n with
    | None | Some [] => t ← createXML settings Text [] [] None; mret (VXML t)
    | Some [first] =>
      first ← elementAt [first] 0;
      modifyNode first (with_parent None);;
      mret (VXML first)
    | Some _ => throw XMLMarkupMustBeWellFormed
    end
  end.

Definition toXML (settings : Settings) (v : Value) : M Value :=
  match v with
  | VNull => throw ConvertNullToObjectError
  | VUndefined => throw ConvertUndefinedToObjectError
  | VXML r => mret (VXML r)
  | VXMLList l =>
    match l_children l with
    | [Some r] => mret (VXML r)
    | [None] => mret VUndefined
    | _ => throw XMLMarkupMustBeWellFormed
    end
  | VString s => toXML_string settings s
  | VNumber z => toXML_string settings (numberToString z)
  end.

(** ** Parent/child consistency *)

(** The nodes an array of children holds (holes left out). *)
Definition childRefs (cs : list (option ref)) : list ref := omap id cs.

(** The structural members of a node: its children, then its attributes. *)
Definition membersOf (n : ASXML) : list ref :=
  childRefs (default [] (_children n)) ++ default [] (_attributes n).

Definition members (st : Store) (p : ref) : list ref :=
  match nodes st !! p with
  | Some n => membersOf n
  | None => []
  end.

Definition parentIn (st : Store) (c : ref) : option ref :=
  match nodes st !! c with
  | Some n => _parent n
  | None => None
  end.

Definition valid (st : Store) (r : ref) : Prop := r < length (nodes st).

(** If [c] is among the children or attributes of [p], then [c] is a node
    whose parent reference is [p]. *)
Definition linked (st : Store) : Prop :=
  forall p c, c ∈ members st p -> valid st c /\ parentIn st c = Some p.

(** No node holds the same member twice. *)
Definition distinctMembers (st : Store) : Prop :=
  forall p, NoDup (members st p).

Definition consistent (st : Store) : Prop :=
  linked st /\ distinctMembers st.

(** [c] is a member of no node. *)
Definition detached (st : Store) (c : ref) : Prop :=
  forall p, c ∉ members st p.

(** [c] is in no node's list of attributes. *)
Definition notAnAttribute (st : Store) (c : ref) : Prop :=
  forall p n, nodes st !! p = Some n -> c ∉ default [] (_attributes n).

(** * The vocabulary of the statements

    Predicates on stores and trees, invariants, the grammar of the printed
    markup and the concrete stores and trees of the examples, all defined
    over the model above. *)

(** ** Namespace prefixes *)


(** ** Trees on which normalize is run *)

(** The node [new XML(markup)] yields under the initial settings, in a
    store of its own. *)
Definition parsed (markup : jsstring) : Store * result Value :=
  toXML initialSettings (VString markup) emptyStore.

(** An element with children [Text ""; <b/>; <c/>]. *)
Definition emptyTextThenElements : jsstring := lit "<a><![CDATA[]]><b/><c/></a>".

(** An element with children [Text "x"; <b>] where <b> holds the two
    adjacent text nodes "p" and "q". *)
Definition textThenElement : jsstring :=
  lit "<a>x<b><![CDATA[p]]><![CDATA[q]]></b></a>".

Definition unqualified (name : jsstring) : option ASQName :=
  Some (mkQName (Some (mkNamespace (Some []) [])) name ELEM_NAME).

Definition textNode (v : jsstring) : XMLTree :=
  mkXML Text (unqualified []) v [] [] [].

Definition emptyElement (name : jsstring) : XMLTree :=
  mkXML Element (unqualified name) [] [] [] [].

(** The stores before, after one pass and after two passes over the
    first tree, and before and after one pass over the second. *)
Definition emptyText0 : Store :=
  Eval vm_compute in fst (parsed emptyTextThenElements).

Definition emptyText1 : Store :=
  Eval vm_compute in fst (normalize 3 1 emptyText0).

Definition emptyText2 : Store :=
  Eval vm_compute in fst (normalize 3 1 emptyText1).

Definition stepOver0 : Store :=
  Eval vm_compute in fst (parsed textThenElement).

Definition stepOver1 : Store :=
  Eval vm_compute in fst (normalize 3 1 stepOver0).

(** ** Computations that never throw a given error *)

(** [avoids X m]: whatever the store, [m] does not throw [X]. *)
Definition avoids {A} (X : Error) (m : M A) : Prop :=
  forall st, snd (m st) <> Throw X.

Definition ravoids {A} (X : Error) (r : result A) : Prop :=
  r <> Throw X.

(** ** Outcomes of a store computation *)

(** [wp m Q E st]: run from [st], [m] ends in a store satisfying [Q] with
    its result, or throws in a store satisfying [E]. *)
Definition wp {A} (m : M A) (Q : A -> Store -> Prop) (E : Store -> Prop)
    (st : Store) : Prop :=
  match m st with
  | (st', OK a) => Q a st'
  | (st', Throw _) => E st'
  end.

(** ** Stores during the mutations *)

(** The node [createXML] leaves at the end of the store. *)
Definition createdNode (kind : ASXMLKind) (q : qref) : ASXML :=
  match kind with
  | Element => mkNode Element (Some q) [] None (Some []) (Some []) (Some [])
  | k => mkNode k (Some q) [] None None None None
  end.

(** The namespace [init] builds for the name. *)
Definition initNamespace (uri : jsstring) (prefix : option jsstring)
  : result (option ASNamespace) :=
  if truthy (Some uri) || truthy prefix
  then match newNamespace prefix uri with
       | OK ns => OK (Some ns)
       | Throw e => Throw e
       end
  else OK None.

(** Stores that show the same members and parents, the second with
    possibly more nodes. *)
Definition sameShape (st st' : Store) : Prop :=
  (forall r, valid st r -> valid st' r) /\
  (forall q, members st' q = members st q) /\
  (forall c, parentIn st' c = parentIn st c).

(** A computation that leaves the store as it found it. *)
Definition readOnly {A} (m : M A) : Prop := forall st, fst (m st) = st.

Definition keeps {A} (m : M A) : Prop :=
  forall st, consistent st -> wp m (fun _ => consistent) consistent st.

(** A builder step on a node that is a member of no node: the store stays
    consistent and the node stays out of every member list. *)
Definition keepsDetached {A} (element : ref) (m : M A) : Prop :=
  forall st, consistent st -> detached st element -> valid st element ->
    wp m (fun _ st' => consistent st' /\ detached st' element /\ valid st' element)
         consistent st.

(** The state between the two halves of [replace]: consistent, but for the
    node in slot [i] of [self], whose parent reference may be cleared
    already. *)
Definition slotReady (st : Store) (self : ref) (i : nat) : Prop :=
  distinctMembers st /\
  forall q c, c ∈ members st q ->
    valid st c /\
    (parentIn st c = Some q \/
     q = self /\ exists x cs, nodes st !! self = Some x /\
                              _children x = Some cs /\ cs !! i = Some (Some c)).

(** Everything is in place for [self._children[i] = new]. *)
Definition fillReady (st : Store) (self : ref) (i : nat) (new : ref) : Prop :=
  slotReady st self i /\ valid st self /\ valid st new /\
  detached st new /\ parentIn st new = Some self.

(** What [replace] has checked of the value before it changes anything. *)
Definition valueReady (st : Store) (v : Value) (vkind : option ASXMLKind)
  : Prop :=
  match v with
  | VXML r => exists n, nodes st !! r = Some n /\ vkind = Some (_kind n) /\
                        _kind n <> Unknown /\ detached st r
  | VNumber _ | VString _ | VXMLList _ => True
  | _ => False
  end.

(** What is said of the store in which a mutation that was given the value
    [v] throws: it is consistent, unless [v] is a list.  The string of a
    list is made when the old node has lost its parent already, and making
    it may throw. *)
Definition afterThrow (v : Value) (st : Store) : Prop :=
  match v with
  | VXMLList _ => True
  | _ => consistent st
  end.

(** What the first half of [replace] leaves of the store. *)
Definition vacated (v : Value) (vkind : option ASXMLKind)
    (self : ref) (slot : option Slot) (st' : Store) : Prop :=
  valid st' self /\ valueReady st' v vkind /\
  match slot with
  | Some (AtIndex i) => slotReady st' self i
  | Some NoElement => False
  | None => consistent st'
  end.

(** A key without the flag of an attribute name. *)
Definition unflagged (p : Key) : Prop :=
  match p with
  | KNumber _ => True
  | KName name => hasFlag (qn_flags name) ATTR_NAME = false
  end.

(** A key that selects among the children: an array index, or a name
    without the flag of an attribute name. *)
Definition childKey (p : Key) : Prop :=
  match p with
  | KNumber z => isUint32 z = true
  | KName name => hasFlag (qn_flags name) ATTR_NAME = false
  end.

(** The children array of a node, empty when there is none. *)
Definition childrenIn (st : Store) (p : ref) : list (option ref) :=
  match nodes st !! p with
  | Some n => default [] (_children n)
  | None => []
  end.

(** [<a><c/></a>] and [<b/>] as the parser builds them: nodes 0 and 3 are
    the parser's own roots, 1 is [a], 2 is [c], 4 is [b]. *)
Definition twoTrees : Store :=
  Eval vm_compute in
    fst ((parseFromString initialSettings (lit "<a><c/></a>");;
          parseFromString initialSettings (lit "<b/>")) emptyStore).

(** The store after [b.replace(0, c)]. *)
Definition sharedChild : Store :=
  Eval vm_compute in
    fst (replace initialSettings 4 (KNumber 0) (VXML 2) twoTrees).

(** ** Trees, frames and copies *)

(** [ASQName.setUri(uri)], on a name that has a namespace. *)
Definition setUri (q : qref) (uri : jsstring) : M unit :=
  qn ← getQName q;
  match qn_namespace qn with
  | Some ns =>
    setQName q (mkQName (Some (mkNamespace (ns_prefix ns) uri))
                        (localName qn) (qn_flags qn))
  | None => throw (NotImplemented "Namespace.createNamespace")
  end.

(** A namespace as [new Namespace(prefix, uri)] returns them: the empty
    uri goes with the empty prefix. *)
Definition nsValid (ns : ASNamespace) : bool :=
  match ns_uri ns with
  | [] => optstr_eqb (ns_prefix ns) (Some [])
  | _ => true
  end.

(** Trees of nodes as [createXML] and the parser make them: one of the
    five kinds, elements without a value and with valid in-scope
    namespaces, attributes with a name. *)
Fixpoint plain (t : XMLTree) : bool :=
  match t with
  | mkXML kind name value inScope attrs children =>
    match kind with
    | Unknown => false
    | Element =>
      match value with [] => true | _ => false end &&
      forallb nsValid inScope &&
      (fix each (l : list XMLTree) : bool :=
         match l with
         | [] => true
         | a :: l' =>
           match t_name a with Some _ => true | None => false end &&
           plain a && each l'
         end) attrs &&
      (fix each (l : list XMLTree) : bool :=
         match l with
         | [] => true
         | c :: l' => plain c && each l'
         end) children
    | _ => true
    end
  end.

(** [st'] has the nodes of [st] with indices from [lo] up to [hi], the same
    but for their parent references, and the names of [st]. *)
Definition agree (lo hi : nat) (st st' : Store) : Prop :=
  (forall r : ref, lo <= r < hi ->
     exists n n', nodes st !! r = Some n /\ nodes st' !! r = Some n' /\
                  with_parent None n = with_parent None n') /\
  (forall (q : qref) qn, qnames st !! q = Some qn -> qnames st' !! q = Some qn).

(** [st'] is [st] with more nodes. *)
Definition grows (st st' : Store) : Prop :=
  (exists extra, nodes st' = nodes st ++ extra) /\ qnames st' = qnames st.

(** The tree read at [r] is [t], whatever happens outside the nodes from
    [lo] up to [hi]. *)
Definition framed (lo hi : nat) (depth : nat) (r : ref) (st : Store)
    (t : XMLTree) : Prop :=
  forall st', agree lo hi st st' -> snapshot depth r st' = (st', OK t).

(** The name a node refers to, as [snapshot] reads it. *)
Definition nameAt (st : Store) (o : option qref) (name : option ASQName)
  : Prop :=
  match o with
  | Some q => exists qn, qnames st !! q = Some qn /\ name = Some qn
  | None => name = None
  end.

(** What [snapshot] finds at an element. *)
Definition readsElement (depth : nat) (st : Store) (n : ASXML) (t : XMLTree)
  : Prop :=
  exists name inScope attrs ats cs kids,
    nameAt st (_name n) name /\
    _inScopeNamespaces n = Some inScope /\
    _attributes n = Some attrs /\
    Forall2 (fun a ta => snapshot depth a st = (st, OK ta)) attrs ats /\
    _children n = Some (map Some cs) /\
    Forall2 (fun c tc => snapshot depth c st = (st, OK tc)) cs kids /\
    t = mkXML Element name (_value n) inScope ats kids.

(** What [_deepCopy] with recursion bound [depth] does on a node that
    reads as the plain tree [t]: the copy is the next new node, the nodes
    that were there stay as they are, and the copy reads as [t] whatever
    happens to the nodes that were there. *)
Definition copies (depth : nat) : Prop :=
  forall x st t,
    snapshot depth x st = (st, OK t) -> plain t = true ->
    exists st',
      _deepCopy depth x st = (st', OK (length (nodes st))) /\
      grows st st' /\ length (nodes st) < length (nodes st') /\
      framed (length (nodes st)) (length (nodes st')) depth
             (length (nodes st)) st' t /\
      parentIn st' (length (nodes st)) = None.

Section XMLTree_induction.

Variable P : XMLTree -> Prop.
Hypothesis step : forall kind name value inScope attrs children,
  Forall P attrs -> Forall P children ->
  P (mkXML kind name value inScope attrs children).

Fixpoint XMLTree_induction (t : XMLTree) : P t :=
  match t with
  | mkXML kind name value inScope attrs children =>
    step kind name value inScope attrs children
      ((fix each (l : list XMLTree) : Forall P l :=
          match l with
          | [] => Forall_nil P
          | x :: l' => Forall_cons P x l' (XMLTree_induction x) (each l')
          end) attrs)
      ((fix each (l : list XMLTree) : Forall P l :=
          match l with
          | [] => Forall_nil P
          | x :: l' => Forall_cons P x l' (XMLTree_induction x) (each l')
          end) children)
  end.

End XMLTree_induction.

(** [<a/>] as the parser builds it: node 0 is the parser's root, node 1 is
    [a], whose name is the name object 1. *)
Definition oneElement : Store :=
  Eval vm_compute in
    fst (parseFromString initialSettings (lit "<a/>") emptyStore).

(** After [c = a._deepCopy()]: the copy is node 2. *)
Definition withCopy : Store :=
  Eval vm_compute in fst (_deepCopy 1 1 oneElement).

(** After [c._name.setUri("u")]. *)
Definition copyRenamed : Store :=
  Eval vm_compute in fst (setUri 1 (lit "u") withCopy).

(** [<a b="1">t<c/></a>] as the parser builds it, and the tree read at
    node 1, its element [a]. *)
Definition sampleStore : Store :=
  Eval vm_compute in
    fst (parseFromString initialSettings (lit "<a b='1'>t<c/></a>") emptyStore).

Definition sampleTree : XMLTree :=
  Eval vm_compute in
    match snd (snapshot 3 1 sampleStore) with
    | OK t => t
    | Throw _ => mkXML Unknown None [] [] [] []
    end.

(** The store after [a.replace("@b", "s")] on the sample. *)
Definition attributeReplaced : Store :=
  Eval vm_compute in
    fst (replace initialSettings 1
           (KName (mkQName (Some (mkNamespace (Some []) [])) (lit "b") 1))
           (VString (lit "s")) sampleStore).

(** [<a><c/></a>] and [<b/>] after [b.insert(1, t)] of a new text node:
    the children of [b] are a hole and [t] (node 5). *)
Definition holedStore : Store :=
  Eval vm_compute in
    fst ((t ← createXML initialSettings Text [] [] None; insert 4 1 t) twoTrees).

(** The store when [a.replace(0, list)] of the list of [b] has thrown. *)
Definition listUnprinted : Store :=
  Eval vm_compute in
    fst (replace initialSettings 1 (KNumber 0)
           (VXMLList (mkList [Some 4] None None)) holedStore).

(** ** Stores while a property is set *)

(** [c] is the node a copy made from [st] returned: new, without a parent,
    in a consistent store that has the nodes of [st] as they were. *)
Definition copied (st : Store) (c : ref) (st' : Store) : Prop :=
  consistent st' /\ grows st st' /\ c = length (nodes st) /\
  valid st' c /\ parentIn st' c = None.

(** The nodes made for [clone] since [st]: new, distinct, with [clone] as
    their parent. *)
Definition madeFor (st : Store) (clone : ref) (rs : list ref) (st' : Store)
  : Prop :=
  NoDup rs /\
  Forall (fun r => length (nodes st) <= r < length (nodes st') /\
                   parentIn st' r = Some clone) rs.

(** The old attributes of [this] that step 6.e has not looked at yet:
    distinct nodes with [this] as their parent, members of no node. *)
Definition pending (st : Store) (this : ref) (rest : list ref) : Prop :=
  NoDup rest /\
  forall a, a ∈ rest ->
    valid st a /\ parentIn st a = Some this /\ detached st a.

(** The nodes a value names are members of no node. *)
Definition free (st : Store) (c : Value) : Prop :=
  forall r, c = VXML r -> detached st r.

(** ** Parent chains *)

(** The node met [k] steps up the parent references from [r]; none when
    the chain has ended before. *)
Fixpoint ancestor (st : Store) (k : nat) (r : ref) : option ref :=
  match k with
  | 0 => Some r
  | S k' =>
    match nodes st !! r with
    | Some n =>
      match _parent n with
      | Some p => ancestor st k' p
      | None => None
      end
    | None => None
    end
  end.

(** The parent chain of [r] ends. *)
Definition rooted (st : Store) (r : ref) : Prop :=
  exists k, ancestor st k r = None.

(** ** Values of nodes *)

(** The value of a node, empty when there is no such node. *)
Definition valueIn (st : Store) (r : ref) : jsstring :=
  match nodes st !! r with
  | Some n => _value n
  | None => []
  end.

(** ** Stores while a string is parsed *)

(** [st] has the nodes and the names of [st0] as they are, and more; the
    children of the nodes it has more are among these. *)
Definition besideOld (st0 st : Store) : Prop :=
  nodes st0 `prefix_of` nodes st /\
  qnames st0 `prefix_of` qnames st /\
  forall (r : ref) n (c : ref),
    length (nodes st0) <= r -> nodes st !! r = Some n ->
    Some c ∈ default [] (_children n) -> length (nodes st0) <= c.

(** The nodes the builder holds are none of [st0]. *)
Definition builderBeside (st0 : Store) (b : Builder) : Prop :=
  forall r : ref,
    currentElement b = Some r \/ Some r ∈ elementsStack b ->
    length (nodes st0) <= r.

(** The nodes the builder holds are nodes of [st], none older than
    [lo]. *)
Definition builderWithin (lo : nat) (st : Store) (b : Builder) : Prop :=
  forall r : ref,
    currentElement b = Some r \/ Some r ∈ elementsStack b ->
    lo <= r < length (nodes st).

(** ** Stores of which nothing is said *)


(** ** Root nodes of a scanned string *)

(** Whether the sink makes a node of the event. *)
Definition makesNode (settings : Settings) (ev : Event) : bool :=
  match ev with
  | beginElement _ _ _ _ => true
  | endElement _ => false
  | text t isWhitespacePreserve =>
    let t := if ignoreWhitespace settings then trimWhitespaces t else t in
    negb ((length t =? 0) || isWhitespacePreserve && ignoreWhitespace settings)
  | cdata _ => true
  | comment _ => negb (ignoreComments settings)
  | pi _ _ => negb (ignoreProcessingInstructions settings)
  | doctype _ => false
  end.

(** The number of elements that are open after an event, when [depth] are
    open before it; none for an end tag that comes with no element open. *)
Definition openAfterEvent (depth : nat) (ev : Event) : option nat :=
  match ev with
  | beginElement _ _ _ isEmpty => Some (if isEmpty then depth else S depth)
  | endElement _ =>
    match depth with
    | 0 => None
    | S d => Some d
    end
  | _ => Some depth
  end.

Fixpoint openAfter (depth : nat) (events : list Event) : option nat :=
  match events with
  | [] => Some depth
  | ev :: rest =>
    match openAfterEvent depth ev with
    | Some d => openAfter d rest
    | None => None
    end
  end.

(** The number of root nodes: the nodes made while no element is open. *)
Fixpoint rootsOf (settings : Settings) (depth : nat) (events : list Event) : nat :=
  match events with
  | [] => 0
  | ev :: rest =>
    (if (depth =? 0) && makesNode settings ev then 1 else 0) +
    match openAfterEvent depth ev with
    | Some d => rootsOf settings d rest
    | None => 0
    end
  end.



(** ** Names and attributes of nodes *)

(** The name of a node, read through its name object. *)
Definition nameIn (st : Store) (r : ref) : option ASQName :=
  match nodes st !! r with
  | Some n =>
    match _name n with
    | Some q => qnames st !! q
    | None => None
    end
  | None => None
  end.

(** The attributes of a node, none when it has no array of them. *)
Definition attributesIn (st : Store) (r : ref) : list ref :=
  match nodes st !! r with
  | Some n => default [] (_attributes n)
  | None => []
  end.

(** The name [q] without the flags of [mask]. *)
Definition withoutFlag (mask : N) (q : ASQName) : ASQName :=
  mkQName (qn_namespace q) (localName q) (N.ldiff (qn_flags q) mask).

(** ** The nodes below a node *)

(** The nodes below an element in document order: each child, followed by
    what is below it. *)
Fixpoint below (t : XMLTree) : list XMLTree :=
  match t with
  | mkXML kind _ _ _ _ children =>
    if bool_decide (kind = Element) then
      (fix each (l : list XMLTree) : list XMLTree :=
         match l with
         | [] => []
         | c :: l' => c :: below c ++ each l'
         end) children
    else []
  end.

(** ** Printed strings *)

Definition SEMICOLON : ascii := ascii_of_nat 59.

(** A replacement table whose entities [resolveEntities] undoes. *)
Definition undone (replacement : ascii -> jsstring) : Prop :=
  forall ch,
    (replacement ch = [ch] /\ Ascii.eqb ch AMP = false) \/
    (replacement ch = lit "&amp;" /\ ch = AMP) \/
    (replacement ch = lit "&lt;" /\ ch = LT) \/
    (replacement ch = lit "&gt;" /\ ch = GT) \/
    (replacement ch = lit "&quot;" /\ ch = DQUOTE) \/
    (replacement ch = lit "&#xA;" /\ ch = NEWLINE) \/
    (replacement ch = lit "&#xD;" /\ ch = CR) \/
    (replacement ch = lit "&#x9;" /\ ch = TAB).

(** [ch] does not occur in [s]. *)
Definition absent (ch : ascii) (s : jsstring) : bool :=
  forallb (fun x => negb (Ascii.eqb x ch)) s.

(** ** Names the scanner reads back *)

Definition isNameChar (c : ascii) : bool :=
  negb (isWhitespaceChar c || Ascii.eqb c GT || Ascii.eqb c SLASH ||
        Ascii.eqb c COLON || Ascii.eqb c EQUALS || Ascii.eqb c QUESTION ||
        Ascii.eqb c BANG).

(** A tag name: not empty, not ["*"], made of characters that end no name
    and start no other markup. *)
Definition nameOK (l : jsstring) : bool :=
  match l with [] => false | _ :: _ => true end &&
  forallb isNameChar l && negb (jsstring_eqb l (lit "*")).

(** An attribute name that is no namespace declaration and no [xml]
    attribute: the four tests of the scanner's first loop. *)
Definition attributeNameOK (n : jsstring) : bool :=
  nameOK n &&
  negb (jsstring_eqb (substring n 0 6) (lit "xmlns:")) &&
  negb (jsstring_eqb n (lit "xmlns")) &&
  negb (jsstring_eqb (substring n 0 4) (lit "xml:")) &&
  negb (jsstring_eqb (substring n 0 3) (lit "xml")).

Definition attributeText (a : jsstring * jsstring) : jsstring :=
  [SPACE] ++ fst a ++ lit "=" ++ [DQUOTE] ++ escapeAttributeValue (snd a) ++
  [DQUOTE].

Definition attributesText (l : list (jsstring * jsstring)) : jsstring :=
  concat (map attributeText l).



Definition plainName (l : jsstring) : ParsedName := mkParsedName l [] [].

(** ** The markup of a tree and the events of its scan *)

(** Whitespace the printer may put around the children; there is none
    unless the parser ignores whitespace. *)
Definition isPad (settings : Settings) (w : jsstring) : Prop :=
  forallb isWhitespaceChar w = true /\
  (ignoreWhitespace settings = false -> w = []).

(** A text the parser gives back as it is. *)
Definition textOK (settings : Settings) (v : jsstring) : Prop :=
  v <> [] /\ (ignoreWhitespace settings = true -> trimWhitespaces v = v).

Definition padEvent (w : jsstring) : list Event :=
  match w with
  | [] => []
  | _ :: _ => [text w false]
  end.

(** The nodes [createXML] makes for unqualified names. *)
Definition textOf (settings : Settings) (v : jsstring) : XMLTree :=
  mkXML Text (Some (newQName (defaultNamespace settings) None [] false)) v
        [] [] [].

Definition attributeOf (settings : Settings) (a : jsstring * jsstring) : XMLTree :=
  mkXML Attribute (Some (newQName (defaultNamespace settings) None (fst a) true))
        (snd a) [] [] [].

Definition elementOf (settings : Settings) (l : jsstring)
    (attrs : list (jsstring * jsstring)) (children : list XMLTree) : XMLTree :=
  mkXML Element (Some (newQName (defaultNamespace settings) None l false)) []
        [] (map (attributeOf settings) attrs) children.

Definition beginEvent (l : jsstring) (attrs : list (jsstring * jsstring))
    (isEmpty : bool) : Event :=
  beginElement (plainName l) (map (fun a => (plainName (fst a), snd a)) attrs)
               [] isEmpty.

Definition startTag (l : jsstring) (attrs : list (jsstring * jsstring))
    (isEmpty : bool) : jsstring :=
  [LT] ++ l ++ attributesText attrs ++ (if isEmpty then lit "/>" else [GT]).

Definition endTag (l : jsstring) : jsstring := lit "</" ++ l ++ [GT].

(** [Markup t s evs]: the element [t] is written [s], which the scanner
    reads as the events [evs].  [Inside] is the same for a list of
    children, between the tags; [Inside0] is a content that starts with no
    text and no whitespace. *)
Inductive Markup (settings : Settings)
  : XMLTree -> jsstring -> list Event -> Prop :=
| Markup_empty l attrs :
    nameOK l = true ->
    Forall (fun a => attributeNameOK (fst a) = true) attrs ->
    Markup settings (elementOf settings l attrs [])
           (startTag l attrs true) [beginEvent l attrs true]
| Markup_open l attrs c cs body evs :
    nameOK l = true ->
    Forall (fun a => attributeNameOK (fst a) = true) attrs ->
    (Z.of_nat (length (c :: cs)) < 4294967296)%Z ->
    Inside settings (c :: cs) body evs ->
    Markup settings (elementOf settings l attrs (c :: cs))
           (startTag l attrs false ++ body ++ endTag l)
           (beginEvent l attrs false :: evs ++ [endElement (plainName l)])
with Inside (settings : Settings)
  : list XMLTree -> jsstring -> list Event -> Prop :=
| Inside_nil w :
    isPad settings w -> Inside settings [] w (padEvent w)
| Inside_text w v w' cs body evs :
    isPad settings w -> isPad settings w' -> textOK settings v ->
    Inside0 settings cs body evs ->
    Inside settings (textOf settings v :: cs)
            (w ++ escapeElementValue v ++ w' ++ body)
            (text (w ++ v ++ w') false :: evs)
| Inside_elem w e se eevs cs body evs :
    isPad settings w ->
    Markup settings e se eevs -> Inside settings cs body evs ->
    Inside settings (e :: cs) (w ++ se ++ body) (padEvent w ++ eevs ++ evs)
with Inside0 (settings : Settings)
  : list XMLTree -> jsstring -> list Event -> Prop :=
| Inside0_nil : Inside0 settings [] [] []
| Inside0_elem e se eevs cs body evs :
    Markup settings e se eevs -> Inside settings cs body evs ->
    Inside0 settings (e :: cs) (se ++ body) (eevs ++ evs).

Scheme Markup_mut := Minimality for Markup Sort Prop
  with Inside_mut := Minimality for Inside Sort Prop
  with Inside0_mut := Minimality for Inside0 Sort Prop.

Combined Scheme markup_induction from Markup_mut, Inside_mut, Inside0_mut.



(** ** The tree the events build *)

(** From [lo] on, the parent of a node is an older node, not older than
    [lo]. *)
Definition upward (lo : nat) (st : Store) : Prop :=
  forall (r : ref) n p,
    lo <= r -> nodes st !! r = Some n -> _parent n = Some p -> lo <= p < r.

(** The height of a tree: the recursion depth [snapshot] needs on it. *)
Fixpoint height (t : XMLTree) : nat :=
  match t with
  | mkXML _ _ _ _ attrs children =>
    S (Nat.max
         ((fix tallest (l : list XMLTree) : nat :=
             match l with
             | [] => 0
             | x :: l' => Nat.max (height x) (tallest l')
             end) attrs)
         ((fix tallest (l : list XMLTree) : nat :=
             match l with
             | [] => 0
             | x :: l' => Nat.max (height x) (tallest l')
             end) children))
  end.

Definition tallest (l : list XMLTree) : nat :=
  (fix tallest (l : list XMLTree) : nat :=
     match l with
     | [] => 0
     | x :: l' => Nat.max (height x) (tallest l')
     end) l.







(** ** The trees that come back from their markup *)

#[global] Instance ASNamespace_eq_dec : EqDecision ASNamespace.
Proof. solve_decision. Defined.

#[global] Instance ASQName_eq_dec : EqDecision ASQName.
Proof. solve_decision. Defined.





(** ** The loop of the printer *)



(** ** Printed children *)


(** ** Trees of the round-trip examples *)



Definition twoTextsParsed : Store :=
  Eval vm_compute in
    fst (toXML initialSettings (VString (lit "<a>x<![CDATA[y]]></a>")) emptyStore).





(** * Theorems *)

(** ** Escaping: proofs *)

Lemma escapeLoop_app replacement rest buf :
  escapeLoop replacement rest buf = buf ++ replaceEach replacement rest.
Proof.
  revert buf. induction rest as [|ch rest IH]; intros buf; simpl.
  - unfold replaceEach. simpl. now rewrite app_nil_r.
  - rewrite IH. unfold replaceEach. simpl. now rewrite <- app_assoc.
Qed.

Lemma skipPlain_bounds special rest i :
  i <= skipPlain special rest i <= i + length rest.
Proof.
  revert i. induction rest as [|ch rest IH]; intros i; simpl; [lia|].
  destruct (special ch); [lia|]. specialize (IH (S i)). lia.
Qed.

(** Up to the index the first loop stops at, nothing needs a replacement. *)
Lemma skipPlain_prefix special replacement rest i :
  (forall ch, special ch = false -> replacement ch = [ch]) ->
  replaceEach replacement (take (skipPlain special rest i - i) rest) =
  take (skipPlain special rest i - i) rest.
Proof.
  intros Hplain. revert i. induction rest as [|ch rest IH]; intros i; simpl.
  - now rewrite take_nil.
  - destruct (special ch) eqn:Hch.
    + now rewrite Nat.sub_diag.
    + pose proof (skipPlain_bounds special rest (S i)) as Hb.
      replace (skipPlain special rest (S i) - i)
        with (S (skipPlain special rest (S i) - S i)) by lia.
      simpl. unfold replaceEach in *. simpl.
      rewrite (Hplain ch Hch). simpl. f_equal. apply IH.
Qed.

Lemma escape_generic special replacement s :
  (forall ch, special ch = false -> replacement ch = [ch]) ->
  (let i := skipPlain special s 0 in
   if length s <=? i then s
   else escapeLoop replacement (drop i s) (take i s)) =
  replaceEach replacement s.
Proof.
  intros Hplain. cbv zeta.
  pose proof (skipPlain_prefix special replacement s 0 Hplain) as Hpre.
  rewrite Nat.sub_0_r in Hpre.
  pose proof (skipPlain_bounds special s 0) as Hb.
  destruct (Nat.leb_spec (length s) (skipPlain special s 0)) as [Hle|Hlt].
  - rewrite take_ge in Hpre by lia. now symmetry.
  - rewrite escapeLoop_app.
    rewrite <- Hpre.
    unfold replaceEach. rewrite <- concat_app, <- map_app.
    now rewrite take_drop.
Qed.

Lemma elementReplacement_plain ch :
  isElementSpecial ch = false -> elementReplacement ch = [ch].
Proof.
  unfold isElementSpecial, elementReplacement. intros H.
  repeat (apply orb_false_elim in H; destruct H as [H ?]).
  now repeat match goal with Hx : Ascii.eqb _ _ = false |- _ => rewrite Hx; clear Hx end.
Qed.

Lemma attributeReplacement_plain ch :
  isAttributeSpecial ch = false -> attributeReplacement ch = [ch].
Proof.
  unfold isAttributeSpecial, attributeReplacement. intros H.
  repeat (apply orb_false_elim in H; destruct H as [H ?]).
  now repeat match goal with Hx : Ascii.eqb _ _ = false |- _ => rewrite Hx; clear Hx end.
Qed.

(** C9. [escapeElementValue] replaces exactly '&', '<', '>' by "&amp;",
    "&lt;", "&gt;" and [escapeAttributeValue] replaces exactly '&', '<',
    the double quote, newline, carriage return and tab by "&amp;", "&lt;",
    "&quot;", "&#xA;", "&#xD;", "&#x9;"; every other character is left
    unchanged.  The two worked examples of the specification follow. *)
Theorem escape_values_replace_exactly :
  (forall s, escapeElementValue s = replaceEach elementReplacement s) /\
  (forall s, escapeAttributeValue s = replaceEach attributeReplacement s) /\
  elementReplacement AMP = lit "&amp;" /\
  elementReplacement LT = lit "&lt;" /\
  elementReplacement GT = lit "&gt;" /\
  (forall ch, ch <> AMP -> ch <> LT -> ch <> GT -> elementReplacement ch = [ch]) /\
  attributeReplacement AMP = lit "&amp;" /\
  attributeReplacement LT = lit "&lt;" /\
  attributeReplacement DQUOTE = lit "&quot;" /\
  attributeReplacement NEWLINE = lit "&#xA;" /\
  attributeReplacement CR = lit "&#xD;" /\
  attributeReplacement TAB = lit "&#x9;" /\
  (forall ch, ch <> AMP -> ch <> LT -> ch <> DQUOTE -> ch <> NEWLINE ->
              ch <> CR -> ch <> TAB -> attributeReplacement ch = [ch]) /\
  escapeElementValue (lit "a<b>c&d") = lit "a&lt;b&gt;c&amp;d" /\
  escapeAttributeValue (lit "a" ++ [DQUOTE] ++ lit "b" ++ [NEWLINE] ++ lit "c") =
    lit "a&quot;b&#xA;c".
Proof.
  repeat split; try reflexivity.
  - intros s. apply (escape_generic isElementSpecial elementReplacement s).
    apply elementReplacement_plain.
  - intros s. apply (escape_generic isAttributeSpecial attributeReplacement s).
    apply attributeReplacement_plain.
  - intros ch H1 H2 H3. apply elementReplacement_plain. unfold isElementSpecial.
    now rewrite !(proj2 (Ascii.eqb_neq _ _)).
  - intros ch H1 H2 H3 H4 H5 H6. apply attributeReplacement_plain.
    unfold isAttributeSpecial. now rewrite !(proj2 (Ascii.eqb_neq _ _)).
Qed.

(** ** Namespace-prefix synthesis: proofs *)
























(** ** Numeric property access *)

Lemma toInt32_index z :
  isUint32 z = true -> (toInt32 z =? 0)%Z = (z =? 0)%Z.
Proof.
  unfold isUint32, toInt32. intros H.
  apply andb_true_iff in H. destruct H as [H0 H1].
  apply Z.leb_le in H0. apply Z.ltb_lt in H1.
  destruct (Z.eqb_spec z 0) as [->|Hne]; [reflexivity|].
  apply Z.eqb_neq.
  destruct (Z_lt_ge_dec z 2147483648) as [Hlt|Hge].
  - rewrite Z.mod_small by lia. lia.
  - replace (z + 2147483648)%Z with ((z - 2147483648) + 1 * 4294967296)%Z by lia.
    rewrite Z.mod_add by lia. rewrite Z.mod_small by lia. lia.
Qed.

(** C4. For a numeric property index [i] (an array index: an integer below
    2^32), getting property [i] of a node returns the node itself when
    [i = 0] and the empty result [null] otherwise, whatever the node's
    children are; the store is only read. *)
Theorem getProperty_numeric_index :
  forall (this : ref) (i : Z) (isAttribute : bool) (st : Store),
    isIndex (KNumber i) = true ->
    getProperty this (KNumber i) isAttribute st =
      (st, OK (if (i =? 0)%Z then PXML this else PNull)).
Proof.
  intros this i isAttribute st Hidx. simpl in Hidx.
  unfold getProperty. rewrite (toInt32_index i Hidx).
  now destruct (i =? 0)%Z.
Qed.

Lemma getProperty_numeric_index_witness :
  isIndex (KNumber 0) = true /\ isIndex (KNumber 7) = true /\
  getProperty 3 (KNumber 0) false emptyStore = (emptyStore, OK (PXML 3)) /\
  getProperty 3 (KNumber 7) false emptyStore = (emptyStore, OK PNull).
Proof.
  split; [reflexivity|]. split; [reflexivity|]. split.
  - exact (getProperty_numeric_index 3 0 false emptyStore eq_refl).
  - exact (getProperty_numeric_index 3 7 false emptyStore eq_refl).
Defined.

(** ** contains *)

(** C10. [x.contains(v)] is true exactly when [v] is the very node [x];
    any other node - a copy that is deepEquals to [x], a child of [x] -
    and any value that is not a node is reported as not contained. *)
Theorem contains_is_identity :
  (forall (this : ref) (value : Value),
     contains this value = true <-> value = VXML this) /\
  (forall (this other : ref),
     other <> this -> contains this (VXML other) = false).
Proof.
  split.
  - intros this value. unfold contains. split.
    + destruct value; try discriminate. intros H.
      apply bool_decide_eq_true in H. now subst.
    + intros ->. now apply bool_decide_eq_true.
  - intros this other Hne. unfold contains.
    apply bool_decide_eq_false. congruence.
Qed.

(** ** XMLList: the scalar accessors *)

(** [parent] on the empty list answers [undefined]: no error is raised
    although the length is not 1. *)
Lemma XMLList_parent_of_empty_list :
  XMLList_parent (mkList [] None None) emptyStore = (emptyStore, OK VUndefined).
Proof. reflexivity. Qed.

(** [parent] on a two-member list answers the common parent. *)
Lemma XMLList_parent_of_siblings :
  let st := mkStore [mkNode Element None [] None (Some []) (Some []) (Some [Some 1; Some 2]);
                     mkNode Text None [] (Some 0) None None None;
                     mkNode Text None [] (Some 0) None None None] [] in
  XMLList_parent (mkList [Some 1; Some 2] None None) st = (st, OK (VXML 0)).
Proof. reflexivity. Qed.

(** C6, amended.  Every accessor of the list that tests its length -
    addNamespace, appendChild, childIndex, inScopeNamespaces,
    insertChildAfter, insertChildBefore, nodeKind, namespace, localName,
    namespaceDeclarations, prependChild, removeNamespace, replace,
    setChildren, setLocalName, setName, setNamespace - raises
    XMLOnlyWorksWithOneItemLists with its own name on a list whose length
    is not 1 and leaves the store alone; on a list of one node it runs
    that node's method (and returns the node for addNamespace and
    appendChild).  [parent] is not among them: it never raises that
    error, answers [undefined] on the empty list and the common parent of
    its members otherwise. *)
Theorem XMLList_scalar_requires_single_item :
  forall (xmlMethod : Accessor.t -> ref -> M Value) (op : Accessor.t)
         (this : ASXMLList) (st : Store),
    (length (l_children this) <> 1 ->
     XMLList_scalar xmlMethod op this st =
       (st, Throw (XMLOnlyWorksWithOneItemLists (Accessor.operationName op)))) /\
    (forall xml, l_children this = [Some xml] ->
     XMLList_scalar xmlMethod op this st =
       if Accessor.returnsMember op
       then (xmlMethod op xml ≫= fun _ => mret (VXML xml)) st
       else xmlMethod op xml st) /\
    (forall st' name,
       XMLList_parent this st <> (st', Throw (XMLOnlyWorksWithOneItemLists name))) /\
    (l_children this = [] -> XMLList_parent this st = (st, OK VUndefined)).
Proof.
  intros xmlMethod op this st. repeat split.
  - intros Hlen. unfold XMLList_scalar.
    destruct (Nat.eqb_spec (length (l_children this)) 1); [contradiction|reflexivity].
  - intros xml Hone. unfold XMLList_scalar. rewrite Hone. simpl.
    now destruct (Accessor.returnsMember op).
  - intros st' name. unfold XMLList_parent.
    destruct (l_children this) as [|[first|] rest]; try discriminate.
    unfold mbind, M_bind, getNode.
    destruct (nodes st !! first) as [n|]; [|discriminate].
    generalize (_parent n). intros parent.
    assert (Hsame : forall l st0 st1 e,
               sameParent parent l st0 = (st1, Throw e) ->
               e = NativeTypeError \/ e = InvalidReference).
    { induction l as [|[c|] l IH]; intros st0 st1 e H; simpl in H.
      - discriminate.
      - unfold mbind, M_bind, getNode in H.
        destruct (nodes st0 !! c) as [cn|].
        + destruct (bool_decide (_parent cn = parent)); [eauto|discriminate].
        + injection H as _ <-. now right.
      - injection H as _ <-. now left. }
    destruct (sameParent parent rest st) as [st1 [same|e]] eqn:Hs.
    + destruct same; discriminate.
    + intros H. injection H as _ ->.
      destruct (Hsame _ _ _ _ Hs); discriminate.
  - intros Hnil. unfold XMLList_parent. now rewrite Hnil.
Qed.

(** ** normalize *)

(** C3 fails on the code.  On [<a>] with children [Text ""; <b/>; <c/>] one
    pass of [normalize] removes <b/> instead of the empty text and leaves
    [Text ""; <c/>]; a second pass removes <c/> and leaves [Text ""]: the
    function is not idempotent and an empty text child survives.  On [<a>]
    with children [Text "x"; <b>] the pass steps over <b>, whose two
    adjacent text children stay unmerged. *)
Theorem normalize_removes_the_wrong_child :
  (parsed emptyTextThenElements = (emptyText0, OK (VXML 1)) /\
   snapshot 3 1 emptyText0 =
     (emptyText0, OK (mkXML Element (unqualified (lit "a")) [] [] []
                 [textNode []; emptyElement (lit "b"); emptyElement (lit "c")])) /\
   normalize 3 1 emptyText0 = (emptyText1, OK 1) /\
   snapshot 3 1 emptyText1 =
     (emptyText1, OK (mkXML Element (unqualified (lit "a")) [] [] []
                 [textNode []; emptyElement (lit "c")])) /\
   normalize 3 1 emptyText1 = (emptyText2, OK 1) /\
   snapshot 3 1 emptyText2 =
     (emptyText2, OK (mkXML Element (unqualified (lit "a")) [] [] [] [textNode []]))) /\
  (parsed textThenElement = (stepOver0, OK (VXML 1)) /\
   normalize 3 1 stepOver0 = (stepOver1, OK 1) /\
   snapshot 3 1 stepOver1 =
     (stepOver1, OK (mkXML Element (unqualified (lit "a")) [] [] []
                 [textNode (lit "x");
                  mkXML Element (unqualified (lit "b")) [] [] []
                    [textNode (lit "p"); textNode (lit "q")]]))).
Proof.
  split; [split; [|split; [|split; [|split; [|split]]]] | split; [|split]];
    vm_compute; reflexivity.
Qed.

(** ** Reasoning about store computations *)

Lemma bind_run {A B} (m : M A) (k : A -> M B) (st : Store) :
  (m ≫= k) st =
  match m st with
  | (st', OK a) => k a st'
  | (st', Throw e) => (st', Throw e)
  end.
Proof. reflexivity. Qed.

Lemma rbind_run {A B} (r : result A) (k : A -> result B) :
  (r ≫= k) = match r with OK a => k a | Throw e => Throw e end.
Proof. reflexivity. Qed.

Lemma avoids_bind {A B} X (m : M A) (k : A -> M B) :
  avoids X m -> (forall a, avoids X (k a)) -> avoids X (m ≫= k).
Proof.
  intros Hm Hk st. rewrite bind_run. specialize (Hm st).
  destruct (m st) as [st' [a|e]]; simpl in *; [apply Hk|congruence].
Qed.

Lemma avoids_ret {A} X (a : A) : avoids X (mret a).
Proof. intros st. discriminate. Qed.

Lemma avoids_throw {A} X e : e <> X -> avoids X (@throw A e).
Proof. intros Hne st. simpl. congruence. Qed.

Lemma avoids_lift {A} X (r : result A) : ravoids X r -> avoids X (lift r).
Proof. intros H st. exact H. Qed.

Lemma ravoids_bind {A B} X (r : result A) (k : A -> result B) :
  ravoids X r -> (forall a, ravoids X (k a)) -> ravoids X (r ≫= k).
Proof.
  intros Hr Hk. rewrite rbind_run. unfold ravoids in *.
  destruct r; [apply Hk|congruence].
Qed.

Lemma ravoids_OK {A} X (a : A) : ravoids X (OK a).
Proof. discriminate. Qed.

Lemma ravoids_Throw {A} X e : e <> X -> ravoids X (@Throw A e).
Proof. unfold ravoids. congruence. Qed.

Lemma avoids_getNode X r : X <> InvalidReference -> avoids X (getNode r).
Proof.
  intros Hne st. unfold getNode. destruct (nodes st !! r); simpl; congruence.
Qed.

Lemma avoids_getQName X q : X <> InvalidReference -> avoids X (getQName q).
Proof.
  intros Hne st. unfold getQName. destruct (qnames st !! q); simpl; congruence.
Qed.

Lemma avoids_setNode X r n : avoids X (setNode r n).
Proof. intros st. discriminate. Qed.

Lemma avoids_allocNode X n : avoids X (allocNode n).
Proof. intros st. discriminate. Qed.

Lemma avoids_allocQName X n : avoids X (allocQName n).
Proof. intros st. discriminate. Qed.

Lemma avoids_storeSize X : avoids X storeSize.
Proof. intros st. discriminate. Qed.

Lemma avoids_modifyNode X r f : X <> InvalidReference -> avoids X (modifyNode r f).
Proof.
  intros Hne. apply avoids_bind; [now apply avoids_getNode|].
  intros n. apply avoids_setNode.
Qed.

(** The well-formedness error is raised by [toXML] alone. *)
Ltac avoids_step :=
  first
    [ apply avoids_ret
    | apply avoids_setNode
    | apply avoids_allocNode
    | apply avoids_allocQName
    | apply avoids_storeSize
    | apply avoids_getNode; discriminate
    | apply avoids_getQName; discriminate
    | apply avoids_modifyNode; discriminate
    | apply avoids_throw; discriminate
    | apply ravoids_OK
    | apply ravoids_Throw; discriminate
    | apply avoids_bind; [|intros ?]
    | apply ravoids_bind; [|intros ?]
    | apply avoids_lift ].

Ltac avoids_cases :=
  match goal with
  | |- avoids _ (match ?x with _ => _ end) => destruct x
  | |- avoids _ (if ?x then _ else _) => destruct x
  | |- ravoids _ (match ?x with _ => _ end) => destruct x
  | |- ravoids _ (if ?x then _ else _) => destruct x
  | |- avoids _ (let '(_, _) := ?x in _) => destruct x
  end.

Ltac avoids_auto := repeat (first [avoids_step | avoids_cases | assumption]).




















(** ** ToXML of a string *)


(** ** Weakest preconditions *)

Lemma wp_bind {A B} (m : M A) (k : A -> M B) Q E st :
  wp (m ≫= k) Q E st <-> wp m (fun a => wp (k a) Q E) E st.
Proof.
  unfold wp. rewrite bind_run. destruct (m st) as [st' [a|e]]; reflexivity.
Qed.

Lemma wp_ret {A} (a : A) Q E st : wp (mret a) Q E st <-> Q a st.
Proof. reflexivity. Qed.

Lemma wp_throw {A} e (Q : A -> Store -> Prop) E st : wp (throw e) Q E st <-> E st.
Proof. reflexivity. Qed.

Lemma wp_lift {A} (r : result A) Q E st :
  wp (lift r) Q E st <-> match r with OK a => Q a st | Throw _ => E st end.
Proof. unfold wp, lift. destruct r; reflexivity. Qed.

Lemma wp_getNode r Q E st :
  wp (getNode r) Q E st <->
  match nodes st !! r with Some n => Q n st | None => E st end.
Proof. unfold wp, getNode. destruct (nodes st !! r); reflexivity. Qed.

Lemma wp_getQName q Q E st :
  wp (getQName q) Q E st <->
  match qnames st !! q with Some n => Q n st | None => E st end.
Proof. unfold wp, getQName. destruct (qnames st !! q); reflexivity. Qed.

Lemma wp_setNode r n Q E st : wp (setNode r n) Q E st <-> Q tt (updNode r n st).
Proof. reflexivity. Qed.

Lemma wp_modifyNode r f Q E st :
  wp (modifyNode r f) Q E st <->
  match nodes st !! r with
  | Some n => Q tt (updNode r (f n) st)
  | None => E st
  end.
Proof.
  unfold modifyNode. rewrite wp_bind, wp_getNode.
  destruct (nodes st !! r); reflexivity.
Qed.

Lemma wp_allocNode n Q E st :
  wp (allocNode n) Q E st <-> Q (length (nodes st)) (addNode n st).
Proof. reflexivity. Qed.

Lemma wp_allocQName n Q E st :
  wp (allocQName n) Q E st <-> Q (length (qnames st)) (addQName n st).
Proof. reflexivity. Qed.

Lemma wp_storeSize Q E st : wp storeSize Q E st <-> Q (length (nodes st)) st.
Proof. reflexivity. Qed.

Lemma wp_mono {A} (m : M A) (Q Q' : A -> Store -> Prop) (E E' : Store -> Prop) st :
  (forall a st', Q a st' -> Q' a st') -> (forall st', E st' -> E' st') ->
  wp m Q E st -> wp m Q' E' st.
Proof.
  unfold wp. intros HQ HE. destruct (m st) as [st' [a|e]]; auto.
Qed.

Lemma wp_run {A} (m : M A) Q E st :
  wp m Q E st ->
  match snd (m st) with
  | OK a => Q a (fst (m st))
  | Throw _ => E (fst (m st))
  end.
Proof. unfold wp. destruct (m st) as [st' [a|e]]; auto. Qed.

(** ** The store seen through members and parents *)

Lemma nodes_updNode r n st r' :
  nodes st !! r = Some n ->
  forall n', nodes (updNode r n' st) !! r' =
             if decide (r' = r) then Some n' else nodes st !! r'.
Proof.
  intros Hr n'. unfold updNode. simpl.
  apply lookup_lt_Some in Hr.
  destruct (decide (r' = r)) as [->|Hne].
  - now apply list_lookup_insert_eq.
  - apply list_lookup_insert_ne. congruence.
Qed.

Lemma valid_updNode r n st r' : valid (updNode r n st) r' <-> valid st r'.
Proof. unfold valid, updNode. simpl. now rewrite length_insert. Qed.

Lemma valid_lookup st r : valid st r <-> is_Some (nodes st !! r).
Proof. unfold valid. symmetry. apply lookup_lt_is_Some. Qed.

Lemma members_upd st r n n' p :
  nodes st !! r = Some n ->
  members (updNode r n' st) p =
  if decide (p = r) then membersOf n' else members st p.
Proof.
  intros Hr. unfold members. rewrite (nodes_updNode _ _ _ _ Hr).
  now destruct (decide (p = r)).
Qed.

Lemma parentIn_upd st r n n' c :
  nodes st !! r = Some n ->
  parentIn (updNode r n' st) c =
  if decide (c = r) then _parent n' else parentIn st c.
Proof.
  intros Hr. unfold parentIn. rewrite (nodes_updNode _ _ _ _ Hr).
  now destruct (decide (c = r)).
Qed.

Lemma members_same st r n n' :
  nodes st !! r = Some n -> membersOf n' = membersOf n ->
  forall p, members (updNode r n' st) p = members st p.
Proof.
  intros Hr Hm p. rewrite (members_upd _ _ _ _ _ Hr).
  destruct (decide (p = r)) as [->|]; [|reflexivity].
  unfold members. now rewrite Hr.
Qed.

Lemma parentIn_same st r n n' :
  nodes st !! r = Some n -> _parent n' = _parent n ->
  forall c, parentIn (updNode r n' st) c = parentIn st c.
Proof.
  intros Hr Hp c. rewrite (parentIn_upd _ _ _ _ _ Hr).
  destruct (decide (c = r)) as [->|]; [|reflexivity].
  unfold parentIn. now rewrite Hr.
Qed.

Lemma members_addNode st n p :
  members (addNode n st) p =
  if decide (p = length (nodes st)) then membersOf n else members st p.
Proof.
  unfold members, addNode. simpl.
  destruct (decide (p = length (nodes st))) as [->|Hne].
  - now rewrite list_lookup_middle.
  - destruct (decide (p < length (nodes st))).
    + now rewrite lookup_app_l.
    + rewrite !lookup_ge_None_2; [reflexivity|lia|rewrite length_app; simpl; lia].
Qed.

Lemma parentIn_addNode st n c :
  parentIn (addNode n st) c =
  if decide (c = length (nodes st)) then _parent n else parentIn st c.
Proof.
  unfold parentIn, addNode. simpl.
  destruct (decide (c = length (nodes st))) as [->|Hne].
  - now rewrite list_lookup_middle.
  - destruct (decide (c < length (nodes st))).
    + now rewrite lookup_app_l.
    + rewrite !lookup_ge_None_2; [reflexivity|lia|rewrite length_app; simpl; lia].
Qed.

Lemma valid_addNode st n r :
  valid (addNode n st) r <-> valid st r \/ r = length (nodes st).
Proof. unfold valid, addNode. simpl. rewrite length_app. simpl. lia. Qed.

Lemma members_addQName st q p : members (addQName q st) p = members st p.
Proof. reflexivity. Qed.

Lemma members_invalid st p : ~ valid st p -> members st p = [].
Proof.
  unfold valid, members. intros H. rewrite lookup_ge_None_2; [reflexivity|lia].
Qed.

(** Under consistency a node is a member of one node at most. *)
Lemma consistent_single_parent st c p q :
  consistent st -> c ∈ members st p -> c ∈ members st q -> p = q.
Proof.
  intros [Hl _] Hp Hq.
  destruct (Hl _ _ Hp) as [_ H1]. destruct (Hl _ _ Hq) as [_ H2]. congruence.
Qed.

Lemma consistent_fresh_detached st :
  consistent st -> detached st (length (nodes st)).
Proof.
  intros [Hl _] p Hin. destruct (Hl _ _ Hin) as [Hv _]. unfold valid in Hv. lia.
Qed.

(** ** Parent/child consistency: proofs *)

Lemma consistent_rewire st st' p ms :
  consistent st ->
  (forall r, valid st' r <-> valid st r) ->
  (forall q, members st' q = if decide (q = p) then ms else members st q) ->
  NoDup ms ->
  (forall m, m ∈ ms -> valid st m /\ parentIn st' m = Some p) ->
  (forall q m, q <> p -> m ∈ members st q -> parentIn st' m = parentIn st m) ->
  consistent st'.
Proof.
  intros [Hl Hd] Hv Hm Hnd Hms Hother. split.
  - intros q c Hin. rewrite Hm in Hin. destruct (decide (q = p)) as [->|Hne].
    + destruct (Hms _ Hin) as [Hvc Hp]. split; [now apply Hv|assumption].
    + destruct (Hl _ _ Hin) as [Hvc Hp]. split; [now apply Hv|].
      now rewrite (Hother _ _ Hne Hin).
  - intros q. rewrite Hm. destruct (decide (q = p)); [assumption|apply Hd].
Qed.

(** A store that shows the same members, parents and nodes is as
    consistent. *)
Lemma consistent_same st st' :
  (forall r, valid st' r <-> valid st r) ->
  (forall q, members st' q = members st q) ->
  (forall c, parentIn st' c = parentIn st c) ->
  consistent st -> consistent st'.
Proof.
  intros Hv Hm Hp [Hl Hd]. split.
  - intros q c Hin. rewrite Hm in Hin. destruct (Hl _ _ Hin).
    rewrite Hv, Hp. auto.
  - intros q. rewrite Hm. apply Hd.
Qed.

Lemma detached_same st st' c :
  (forall q, members st' q = members st q) -> detached st c -> detached st' c.
Proof. intros Hm Hd q. rewrite Hm. apply Hd. Qed.

Lemma childRefs_app l1 l2 : childRefs (l1 ++ l2) = childRefs l1 ++ childRefs l2.
Proof. apply omap_app. Qed.

Lemma childRefs_elem c cs : c ∈ childRefs cs <-> Some c ∈ cs.
Proof.
  unfold childRefs. rewrite list_elem_of_omap. split.
  - intros (x & Hin & Hx). simpl in Hx. now subst.
  - intros H. exists (Some c). auto.
Qed.

Lemma split_at {A} (l : list A) i x :
  l !! i = Some x -> exists l1 l2, l = l1 ++ x :: l2 /\ length l1 = i.
Proof.
  intros H. exists (take i l), (drop (S i) l). split.
  - symmetry. now apply take_drop_middle.
  - apply length_take_le. apply lookup_lt_Some in H. lia.
Qed.

Lemma NoDup_remove_middle {A} (l1 l2 l3 : list A) x :
  NoDup ((l1 ++ x :: l2) ++ l3) ->
  NoDup ((l1 ++ l2) ++ l3) /\ x ∉ (l1 ++ l2) ++ l3.
Proof.
  intros H.
  assert (Hp : (l1 ++ x :: l2) ++ l3 ≡ₚ x :: (l1 ++ l2) ++ l3).
  { rewrite <- !app_assoc. simpl. symmetry. apply Permutation_middle. }
  rewrite Hp in H. apply list.NoDup_cons in H. tauto.
Qed.

Lemma members_children st p n cs :
  nodes st !! p = Some n -> _children n = Some cs ->
  members st p = childRefs cs ++ default [] (_attributes n).
Proof. intros Hn Hc. unfold members, membersOf. now rewrite Hn, Hc. Qed.

(** What a node looks like after the parent reference of [c] was set. *)
Lemma lookup_after_parent st c cn x r n' :
  nodes st !! c = Some cn ->
  nodes (updNode c (with_parent x cn) st) !! r = Some n' ->
  exists n, nodes st !! r = Some n /\
            _children n' = _children n /\ _attributes n' = _attributes n /\
            _kind n' = _kind n /\ _value n' = _value n /\ _name n' = _name n /\
            _inScopeNamespaces n' = _inScopeNamespaces n /\
            _parent n' = if decide (r = c) then x else _parent n.
Proof.
  intros Hc. rewrite (nodes_updNode _ _ _ _ Hc).
  destruct (decide (r = c)) as [->|Hne].
  - intros H. injection H as <-. exists cn. simpl. auto 10.
  - intros H. exists n'. auto 10.
Qed.

(** Taking one child out of [this] and clearing its parent reference, in
    the order the code does it. *)
Lemma detach_child_consistent st this x l1 l2 child cn x' :
  consistent st ->
  nodes st !! this = Some x ->
  _children x = Some (l1 ++ Some child :: l2) ->
  nodes st !! child = Some cn ->
  nodes (updNode child (with_parent None cn) st) !! this = Some x' ->
  consistent (updNode this (with_children (Some (l1 ++ l2)) x')
                (updNode child (with_parent None cn) st)).
Proof.
  intros [Hl Hd] Hx Hcs Hcn Hx1.
  pose proof (members_children _ _ _ _ Hx Hcs) as Hmem.
  destruct (lookup_after_parent _ _ _ _ _ _ Hcn Hx1)
    as (x0 & Hx0 & Hch & Hat & _).
  rewrite Hx in Hx0. injection Hx0 as <-.
  pose proof (Hd this) as Hnd. rewrite Hmem, childRefs_app in Hnd. simpl in Hnd.
  apply NoDup_remove_middle in Hnd. destruct Hnd as [Hnd Hnotin].
  rewrite <- childRefs_app in Hnd, Hnotin.
  apply (consistent_rewire st _ this (childRefs (l1 ++ l2) ++ default [] (_attributes x))).
  - now split.
  - intros r. now rewrite !valid_updNode.
  - intros q. rewrite (members_upd _ _ _ _ _ Hx1).
    destruct (decide (q = this)) as [->|Hne].
    + unfold membersOf. simpl. now rewrite Hat.
    + apply (members_same _ _ _ _ Hcn). reflexivity.
  - assumption.
  - intros m Hm.
    assert (Hm' : m ∈ members st this).
    { rewrite Hmem. rewrite childRefs_app in *. simpl.
      apply elem_of_app in Hm. destruct Hm as [Hm|Hm].
      - apply elem_of_app in Hm. apply elem_of_app. left.
        apply elem_of_app. destruct Hm; [left|right; right]; assumption.
      - apply elem_of_app. now right. }
    destruct (Hl _ _ Hm') as [Hv Hp]. split; [assumption|].
    rewrite (parentIn_same _ _ _ _ Hx1) by reflexivity.
    rewrite (parentIn_upd _ _ _ _ _ Hcn).
    destruct (decide (m = child)) as [->|]; [|assumption].
    contradiction.
  - intros q m Hne Hm.
    rewrite (parentIn_same _ _ _ _ Hx1) by reflexivity.
    rewrite (parentIn_upd _ _ _ _ _ Hcn).
    destruct (decide (m = child)) as [->|]; [|reflexivity].
    destruct (Hl _ _ Hm) as [_ Hp].
    assert (Hin : child ∈ members st this).
    { rewrite Hmem, childRefs_app. simpl. apply elem_of_app. left.
      apply elem_of_app. right. left. }
    destruct (Hl _ _ Hin) as [_ Hp']. congruence.
Qed.

(** After it the child is a member of no node. *)
Lemma detach_child_detached st this x l1 l2 child cn x' :
  consistent st ->
  nodes st !! this = Some x ->
  _children x = Some (l1 ++ Some child :: l2) ->
  nodes st !! child = Some cn ->
  nodes (updNode child (with_parent None cn) st) !! this = Some x' ->
  detached (updNode this (with_children (Some (l1 ++ l2)) x')
              (updNode child (with_parent None cn) st)) child.
Proof.
  intros [Hl Hd] Hx Hcs Hcn Hx1 q.
  pose proof (members_children _ _ _ _ Hx Hcs) as Hmem.
  destruct (lookup_after_parent _ _ _ _ _ _ Hcn Hx1)
    as (x0 & Hx0 & Hch & Hat & _).
  rewrite Hx in Hx0. injection Hx0 as <-.
  pose proof (Hd this) as Hnd. rewrite Hmem, childRefs_app in Hnd. simpl in Hnd.
  apply NoDup_remove_middle in Hnd. destruct Hnd as [Hnd Hnotin].
  rewrite <- childRefs_app in Hnotin.
  assert (Hin : child ∈ members st this).
  { rewrite Hmem, childRefs_app. simpl. apply elem_of_app. left.
    apply elem_of_app. right. left. }
  rewrite (members_upd _ _ _ _ _ Hx1).
  destruct (decide (q = this)) as [->|Hne].
  - unfold membersOf. simpl. now rewrite Hat.
  - rewrite (members_same _ _ _ _ Hcn) by reflexivity.
    intros Hq. destruct (Hl _ _ Hq) as [_ H1]. destruct (Hl _ _ Hin) as [_ H2].
    congruence.
Qed.

Lemma removeByIndex_consistent this index st :
  consistent st ->
  wp (removeByIndex this index) (fun _ => consistent) consistent st.
Proof.
  intros Hc. unfold removeByIndex.
  rewrite wp_bind, wp_getNode. destruct (nodes st !! this) as [x|] eqn:Hx; [|assumption].
  rewrite wp_bind. unfold childrenOf. destruct (_children x) as [cs|] eqn:Hcs; [|assumption].
  rewrite wp_ret, wp_bind. unfold elementAt.
  destruct (cs !! index) as [[child|]|] eqn:Hidx; try assumption.
  rewrite wp_ret, wp_bind, wp_modifyNode.
  destruct (split_at _ _ _ Hidx) as (l1 & l2 & -> & Hlen).
  assert (Hin : child ∈ members st this).
  { rewrite (members_children _ _ _ _ Hx Hcs), childRefs_app. simpl.
    apply elem_of_app. left. apply elem_of_app. right. left. }
  destruct (proj1 Hc _ _ Hin) as [Hvalid _].
  apply valid_lookup in Hvalid. destruct Hvalid as [cn Hcn]. rewrite Hcn.
  rewrite wp_bind, wp_getNode.
  destruct (nodes (updNode child (with_parent None cn) st) !! this) as [x'|] eqn:Hx1.
  2:{ rewrite (nodes_updNode _ _ _ _ Hcn) in Hx1.
      destruct (decide (this = child)); congruence. }
  destruct (lookup_after_parent _ _ _ _ _ _ Hcn Hx1) as (x0 & Hx0 & Hch & _).
  rewrite Hx in Hx0. injection Hx0 as <-.
  rewrite wp_bind, Hch, Hcs, wp_ret, wp_setNode.
  rewrite <- Hlen, delete_middle.
  now apply (detach_child_consistent st this x l1 l2 child cn x').
Qed.

Lemma deleteByIndex_consistent this p st :
  consistent st ->
  wp (deleteByIndex this p) (fun _ => consistent) consistent st.
Proof.
  intros Hc. unfold deleteByIndex.
  destruct (isUint32 p); simpl; [|assumption].
  rewrite wp_bind, wp_getNode. destruct (nodes st !! this) as [x|] eqn:Hx; [|assumption].
  rewrite wp_bind. unfold childrenOf. destruct (_children x) as [cs|] eqn:Hcs; [|assumption].
  rewrite wp_ret.
  destruct (cs !! Z.to_nat p) as [[child|]|] eqn:Hidx; try assumption.
  rewrite wp_bind, wp_modifyNode.
  destruct (split_at _ _ _ Hidx) as (l1 & l2 & -> & Hlen).
  assert (Hin : child ∈ members st this).
  { rewrite (members_children _ _ _ _ Hx Hcs), childRefs_app. simpl.
    apply elem_of_app. left. apply elem_of_app. right. left. }
  destruct (proj1 Hc _ _ Hin) as [Hvalid _].
  apply valid_lookup in Hvalid. destruct Hvalid as [cn Hcn]. rewrite Hcn.
  rewrite wp_bind, wp_getNode.
  destruct (nodes (updNode child (with_parent None cn) st) !! this) as [x'|] eqn:Hx1.
  2:{ rewrite (nodes_updNode _ _ _ _ Hcn) in Hx1.
      destruct (decide (this = child)); congruence. }
  destruct (lookup_after_parent _ _ _ _ _ _ Hcn Hx1) as (x0 & Hx0 & Hch & _).
  rewrite Hx in Hx0. injection Hx0 as <-.
  rewrite wp_bind, Hch, Hcs, wp_ret, wp_setNode.
  rewrite <- Hlen, delete_middle.
  now apply (detach_child_consistent st this x l1 l2 child cn x').
Qed.

Lemma sublist_childRefs l1 l2 :
  l1 `sublist_of` l2 -> childRefs l1 `sublist_of` childRefs l2.
Proof.
  unfold childRefs. induction 1 as [|x l1 l2 _ IH|x l1 l2 _ IH]; simpl.
  - constructor.
  - destruct x; simpl; [now constructor|assumption].
  - destruct x; simpl; [now constructor|assumption].
Qed.

(** Dropping members of a node never harms consistency. *)
Lemma shrink_consistent st p n cs cs' :
  consistent st ->
  nodes st !! p = Some n -> _children n = Some cs ->
  cs' `sublist_of` cs ->
  consistent (updNode p (with_children (Some cs') n) st).
Proof.
  intros [Hl Hd] Hn Hcs Hsub.
  pose proof (members_children _ _ _ _ Hn Hcs) as Hmem.
  assert (Hsub' : childRefs cs' ++ default [] (_attributes n)
                  `sublist_of` members st p).
  { rewrite Hmem. apply sublist_app; [now apply sublist_childRefs|reflexivity]. }
  apply (consistent_rewire st _ p (childRefs cs' ++ default [] (_attributes n))).
  - now split.
  - intros r. now rewrite valid_updNode.
  - intros q. rewrite (members_upd _ _ _ _ _ Hn).
    destruct (decide (q = p)); reflexivity.
  - eapply sublist_NoDup; [apply Hd|exact Hsub'].
  - intros m Hm. rewrite (parentIn_same _ _ _ _ Hn) by reflexivity.
    apply Hl. eapply elem_of_sublist; eauto.
  - intros q m _ _. now rewrite (parentIn_same _ _ _ _ Hn).
Qed.

Lemma spliceOut_sublist index cs : spliceOut index cs `sublist_of` cs.
Proof.
  destruct index as [i|]; simpl; [apply sublist_delete|apply sublist_take].
Qed.

Lemma indexOf_Some x cs i :
  indexOf x cs = Some i ->
  exists l1 l2, cs = l1 ++ Some x :: l2 /\ length l1 = i /\ Some x ∉ l1.
Proof.
  revert i. induction cs as [|c cs IH]; intros i; simpl; [discriminate|].
  destruct (bool_decide (c = Some x)) eqn:E.
  - apply bool_decide_eq_true in E. subst c. intros H. injection H as <-.
    exists [], cs. repeat split. apply not_elem_of_nil.
  - apply bool_decide_eq_false in E.
    destruct (indexOf x cs) as [j|]; [|discriminate].
    intros H. injection H as <-.
    destruct (IH j eq_refl) as (l1 & l2 & -> & Hlen & Hnot).
    exists (c :: l1), l2. repeat split; simpl; [now f_equal|].
    rewrite not_elem_of_cons. split; [congruence|assumption].
Qed.

Lemma indexOf_None x cs : indexOf x cs = None -> Some x ∉ cs.
Proof.
  induction cs as [|c cs IH]; simpl; [intros _; apply not_elem_of_nil|].
  destruct (bool_decide (c = Some x)) eqn:E; [discriminate|].
  apply bool_decide_eq_false in E.
  destruct (indexOf x cs); [discriminate|]. intros _.
  rewrite not_elem_of_cons. split; [congruence|auto].
Qed.

(** Adding a node that is a member of no node to the children of [this]
    and pointing its parent reference to [this]. *)
Lemma attach_consistent st st' this ms child :
  consistent st ->
  detached st child ->
  valid st' child ->
  (forall r, valid st r -> valid st' r) ->
  (forall q, members st' q = if decide (q = this) then ms else members st q) ->
  (forall m, m ∈ ms -> m = child \/ m ∈ members st this) ->
  NoDup ms ->
  parentIn st' child = Some this ->
  (forall m, m <> child -> valid st m -> parentIn st' m = parentIn st m) ->
  consistent st'.
Proof.
  intros [Hl Hd] Hdet Hvc Hv Hm Hms Hnd Hpc Hp. split.
  - intros q c Hin. rewrite Hm in Hin.
    destruct (decide (q = this)) as [->|Hne].
    + destruct (Hms _ Hin) as [->|Hold]; [auto|].
      destruct (Hl _ _ Hold) as [Hvalid Hparent].
      split; [auto|]. rewrite Hp; auto. intros ->. now apply (Hdet this).
    + destruct (Hl _ _ Hin) as [Hvalid Hparent].
      split; [auto|]. rewrite Hp; auto. intros ->. now apply (Hdet q).
  - intros q. rewrite Hm. destruct (decide (q = this)); [assumption|apply Hd].
Qed.

Lemma appendChild_consistent this child st :
  consistent st -> notAnAttribute st child ->
  wp (appendChild this child) (fun _ => consistent) consistent st.
Proof.
  intros Hc Hna. unfold appendChild.
  rewrite wp_bind, wp_getNode.
  destruct (nodes st !! child) as [c|] eqn:Hchild; [|assumption].
  rewrite wp_bind.
  (* the first stage: out of the old parent *)
  assert (Hstage : wp
    match _parent c with
    | Some parent =>
        pn ← getNode parent;
        cs ← childrenOf pn;
        setNode parent (with_children (Some (spliceOut (indexOf child cs) cs)) pn)
    | None => mret ()
    end
    (fun _ st1 => consistent st1 /\ detached st1 child /\ valid st1 child)
    consistent st).
  { assert (Hvc : valid st child) by (apply valid_lookup; eauto).
    destruct (_parent c) as [parent|] eqn:Hpar.
    - rewrite wp_bind, wp_getNode.
      destruct (nodes st !! parent) as [pn|] eqn:Hpn; [|assumption].
      rewrite wp_bind. unfold childrenOf.
      destruct (_children pn) as [cs|] eqn:Hcs; [|assumption].
      rewrite wp_ret, wp_setNode.
      split; [|split].
      + eapply shrink_consistent; eauto. apply spliceOut_sublist.
      + intros q. rewrite (members_upd _ _ _ _ _ Hpn).
        destruct (decide (q = parent)) as [->|Hne].
        * unfold membersOf. simpl. rewrite elem_of_app. intros [Hin|Hin].
          -- destruct (indexOf child cs) as [i|] eqn:Hi.
             ++ destruct (indexOf_Some _ _ _ Hi) as (l1 & l2 & -> & Hlen & Hnot).
                simpl in Hin. rewrite <- Hlen, delete_middle in Hin.
                pose proof (proj2 Hc parent) as Hnd.
                rewrite (members_children _ _ _ _ Hpn Hcs), childRefs_app in Hnd.
                simpl in Hnd. apply NoDup_remove_middle in Hnd.
                destruct Hnd as [_ Hnotin]. apply Hnotin.
                rewrite <- childRefs_app. apply elem_of_app. now left.
             ++ apply indexOf_None in Hi. simpl in Hin.
                apply childRefs_elem in Hin. apply Hi.
                eapply elem_of_sublist; [exact Hin|apply sublist_take].
          -- now apply (Hna parent pn).
        * intros Hin. destruct (proj1 Hc _ _ Hin) as [_ Hp].
          unfold parentIn in Hp. rewrite Hchild, Hpar in Hp. congruence.
      + now apply valid_updNode.
    - rewrite wp_ret. split; [assumption|split; [|assumption]].
      intros q Hin. destruct (proj1 Hc _ _ Hin) as [_ Hp].
      unfold parentIn in Hp. rewrite Hchild, Hpar in Hp. discriminate. }
  eapply wp_mono; [| |exact Hstage]; [|auto].
  clear Hstage. intros _ st1 (Hc1 & Hdet & Hvc).
  rewrite wp_bind, wp_getNode.
  destruct (nodes st1 !! this) as [x|] eqn:Hx; [|assumption].
  rewrite wp_bind. unfold childrenOf.
  destruct (_children x) as [cs|] eqn:Hcs; [|assumption].
  rewrite wp_ret, wp_bind, wp_setNode, wp_bind, wp_modifyNode.
  set (st2 := updNode this (with_children (Some (cs ++ [Some child])) x) st1).
  assert (Hvc2 : valid st2 child) by now apply valid_updNode.
  pose proof Hvc2 as Hvc2'.
  apply valid_lookup in Hvc2. destruct Hvc2 as [c2 Hc2]. rewrite Hc2.
  rewrite wp_ret.
  assert (Hmem2 : forall q, members st2 q =
            if decide (q = this)
            then childRefs (cs ++ [Some child]) ++ default [] (_attributes x)
            else members st1 q).
  { intros q. unfold st2. rewrite (members_upd _ _ _ _ _ Hx).
    now destruct (decide (q = this)). }
  apply (attach_consistent st1 _ this
           (childRefs (cs ++ [Some child]) ++ default [] (_attributes x)) child);
    auto.
  - now rewrite valid_updNode.
  - intros r Hr. rewrite valid_updNode. now apply valid_updNode.
  - intros q. rewrite (members_same _ _ _ _ Hc2) by reflexivity. apply Hmem2.
  - intros m. rewrite childRefs_app, (members_children _ _ _ _ Hx Hcs). simpl.
    rewrite !elem_of_app, list_elem_of_singleton. tauto.
  - pose proof (proj2 Hc1 this) as Hnd.
    rewrite (members_children _ _ _ _ Hx Hcs) in Hnd.
    pose proof (Hdet this) as Hnot.
    rewrite (members_children _ _ _ _ Hx Hcs) in Hnot.
    rewrite childRefs_app. simpl.
    assert (Hp : (childRefs cs ++ [child]) ++ default [] (_attributes x) ≡ₚ
                 child :: (childRefs cs ++ default [] (_attributes x))).
    { rewrite <- app_assoc. simpl. symmetry. apply Permutation_middle. }
    rewrite Hp. now apply list.NoDup_cons.
  - rewrite (parentIn_upd _ _ _ _ _ Hc2). now rewrite decide_True.
  - intros m Hne Hvm. rewrite (parentIn_upd _ _ _ _ _ Hc2).
    rewrite decide_False by assumption.
    unfold st2. now rewrite (parentIn_same _ _ _ _ Hx).
Qed.

(** *** What [createXML] does to the store *)

Lemma createXML_run settings kind uri name prefix st :
  createXML settings kind uri name prefix st =
  match initNamespace uri prefix with
  | Throw e => (addNode (mkNode Text None [] None None None None) st, Throw e)
  | OK namespace =>
    (mkStore (nodes st ++ [createdNode kind (length (qnames st))])
             (qnames st ++ [newQName (defaultNamespace settings) namespace name
                                     (bool_decide (kind = Attribute))]),
     OK (length (nodes st)))
  end.
Proof.
  assert (Hlast : forall n' : ASXML,
            <[length (nodes st) := n']>
              (nodes st ++ [mkNode Text None [] None None None None]) =
            nodes st ++ [n']).
  { intros n'. rewrite (insert_app_r_alt _ _ (length (nodes st))) by lia.
    now rewrite Nat.sub_diag. }
  unfold createXML, newASXML, init, initNamespace.
  destruct (truthy (Some uri) || truthy prefix) eqn:T.
  - destruct (newNamespace prefix uri) as [ns|e] eqn:N.
    + unfold modifyNode, mbind, M_bind, allocNode, lift, getNode, allocQName,
        setNode, mret, M_ret, addNode, addQName, updNode. simpl.
      rewrite list_lookup_middle by reflexivity. simpl.
      rewrite Hlast. now destruct kind.
    + unfold modifyNode, mbind, M_bind, allocNode, lift, getNode, allocQName,
        setNode, mret, M_ret, addNode, addQName, updNode. simpl.
      reflexivity.
  - unfold modifyNode, mbind, M_bind, allocNode, lift, getNode, allocQName,
      setNode, mret, M_ret, addNode, addQName, updNode. simpl.
    rewrite list_lookup_middle by reflexivity. simpl.
    rewrite Hlast. now destruct kind.
Qed.

Lemma sameShape_refl st : sameShape st st.
Proof. repeat split; auto. Qed.

Lemma sameShape_trans st1 st2 st3 :
  sameShape st1 st2 -> sameShape st2 st3 -> sameShape st1 st3.
Proof.
  intros (Hv1 & Hm1 & Hp1) (Hv2 & Hm2 & Hp2). repeat split.
  - auto.
  - intros q. now rewrite Hm2.
  - intros c. now rewrite Hp2.
Qed.

Lemma sameShape_consistent st st' :
  sameShape st st' -> consistent st -> consistent st'.
Proof.
  intros (Hv & Hm & Hp) [Hl Hd]. split.
  - intros q c Hin. rewrite Hm in Hin. destruct (Hl _ _ Hin).
    rewrite Hp. auto.
  - intros q. rewrite Hm. apply Hd.
Qed.

Lemma sameShape_detached st st' c :
  sameShape st st' -> detached st c -> detached st' c.
Proof. intros (_ & Hm & _) Hd q. rewrite Hm. apply Hd. Qed.

Lemma parentIn_invalid st c : ~ valid st c -> parentIn st c = None.
Proof.
  unfold valid, parentIn. intros H. rewrite lookup_ge_None_2; [reflexivity|lia].
Qed.

Lemma sameShape_addNode st n :
  membersOf n = [] -> _parent n = None -> sameShape st (addNode n st).
Proof.
  intros Hm Hp. repeat split.
  - intros r Hr. apply valid_addNode. now left.
  - intros q. rewrite members_addNode. destruct (decide _) as [->|]; [|reflexivity].
    rewrite Hm. symmetry. apply members_invalid. unfold valid. lia.
  - intros c. rewrite parentIn_addNode. destruct (decide _) as [->|]; [|reflexivity].
    rewrite Hp. symmetry. apply parentIn_invalid. unfold valid. lia.
Qed.

Lemma sameShape_updNode st r n n' :
  nodes st !! r = Some n ->
  membersOf n' = membersOf n -> _parent n' = _parent n ->
  sameShape st (updNode r n' st).
Proof.
  intros Hr Hm Hp. repeat split.
  - intros q Hq. now apply valid_updNode.
  - now apply (members_same _ _ _ _ Hr).
  - now apply (parentIn_same _ _ _ _ Hr).
Qed.

Lemma createdNode_members kind q : membersOf (createdNode kind q) = [].
Proof. now destruct kind. Qed.

Lemma createdNode_parent kind q : _parent (createdNode kind q) = None.
Proof. now destruct kind. Qed.

Lemma createXML_shape settings kind uri name prefix st :
  wp (createXML settings kind uri name prefix)
     (fun r st' => r = length (nodes st) /\ valid st' r /\ sameShape st st')
     (fun st' => sameShape st st') st.
Proof.
  unfold wp. rewrite createXML_run.
  destruct (initNamespace uri prefix) as [namespace|e].
  - split; [reflexivity|]. split.
    + unfold valid. simpl. rewrite length_app. simpl. lia.
    + apply (sameShape_addNode st (createdNode kind (length (qnames st))));
        [apply createdNode_members|apply createdNode_parent].
  - now apply sameShape_addNode.
Qed.

Lemma wp_readOnly {A} (m : M A) Q E st :
  readOnly m -> (forall a, Q a st) -> E st -> wp m Q E st.
Proof.
  intros Hro HQ HE. unfold wp. specialize (Hro st).
  destruct (m st) as [st' [a|e]]; simpl in Hro; subst; auto.
Qed.

Lemma readOnly_bind {A B} (m : M A) (k : A -> M B) :
  readOnly m -> (forall a, readOnly (k a)) -> readOnly (m ≫= k).
Proof.
  intros Hm Hk st. rewrite bind_run. specialize (Hm st).
  destruct (m st) as [st' [a|e]]; simpl in *; subst; [apply Hk|reflexivity].
Qed.

Lemma readOnly_ret {A} (a : A) : readOnly (mret a).
Proof. intros st. reflexivity. Qed.

Lemma readOnly_throw {A} e : readOnly (@throw A e).
Proof. intros st. reflexivity. Qed.

Lemma readOnly_getNode r : readOnly (getNode r).
Proof. intros st. unfold getNode. now destruct (nodes st !! r). Qed.

Lemma readOnly_getQName q : readOnly (getQName q).
Proof. intros st. unfold getQName. now destruct (qnames st !! q). Qed.

Lemma readOnly_storeSize : readOnly storeSize.
Proof. intros st. reflexivity. Qed.

Lemma readOnly_lift {A} (r : result A) : readOnly (lift r).
Proof. intros st. reflexivity. Qed.

Ltac readOnly_auto :=
  repeat first
    [ apply readOnly_ret | apply readOnly_throw | apply readOnly_getNode
    | apply readOnly_getQName | apply readOnly_storeSize | apply readOnly_lift
    | apply readOnly_bind; [|intros ?]
    | match goal with
      | |- readOnly (match ?x with _ => _ end) => destruct x
      | |- readOnly (if ?x then _ else _) => destruct x
      end ].

Lemma readOnly_onParentChain fuel : forall a v, readOnly (onParentChain fuel a v).
Proof.
  induction fuel as [|fuel IH]; intros a v; destruct a as [r|]; simpl;
    repeat first [apply IH | readOnly_auto].
Qed.

Lemma childRefs_insertAt i v cs :
  childRefs (insertAt i (Some v) cs) ≡ₚ v :: childRefs cs.
Proof.
  unfold insertAt. rewrite !childRefs_app. simpl.
  assert (Hholes : childRefs (replicate (i - length cs) None) = []).
  { induction (i - length cs) as [|k IH]; simpl; auto. }
  rewrite Hholes. simpl.
  rewrite <- (take_drop i cs) at 3. rewrite childRefs_app.
  symmetry. apply Permutation_middle.
Qed.

Lemma insert_consistent self p v st :
  consistent st -> detached st v ->
  wp (insert self p v) (fun _ => consistent) consistent st.
Proof.
  intros Hc Hdet. unfold insert.
  rewrite wp_bind, wp_getNode.
  destruct (nodes st !! self) as [this|] eqn:Hthis; [|assumption].
  destruct (isLeafKind (_kind this)); [assumption|].
  destruct (isUint32 p); simpl; [|assumption].
  rewrite wp_bind, wp_storeSize, wp_bind.
  apply wp_readOnly; [| |assumption].
  { destruct (bool_decide (_kind this = Element));
      [apply readOnly_onParentChain|apply readOnly_ret]. }
  intros [|]; [assumption|].
  rewrite wp_bind, wp_modifyNode.
  destruct (nodes st !! v) as [vn|] eqn:Hv; [|assumption].
  rewrite wp_bind, wp_getNode.
  destruct (nodes (updNode v (with_parent (Some self) vn) st) !! self)
    as [this'|] eqn:Hthis'.
  2:{ rewrite (nodes_updNode _ _ _ _ Hv) in Hthis'.
      destruct (decide (self = v)); congruence. }
  destruct (lookup_after_parent _ _ _ _ _ _ Hv Hthis')
    as (x0 & Hx0 & Hch & Hat & _).
  rewrite Hthis in Hx0. injection Hx0 as <-.
  rewrite wp_setNode.
  set (cs := match _children this' with Some cs => cs | None => [] end).
  assert (Hmem : members st self = childRefs cs ++ default [] (_attributes this)).
  { unfold members, membersOf, cs. rewrite Hthis, Hch.
    now destruct (_children this). }
  apply (attach_consistent st _ self
           (childRefs (insertAt (Z.to_nat p) (Some v) cs) ++
            default [] (_attributes this)) v); auto.
  - rewrite !valid_updNode. apply valid_lookup. eauto.
  - intros r Hr. now rewrite !valid_updNode.
  - intros q. rewrite (members_upd _ _ _ _ _ Hthis').
    destruct (decide (q = self)) as [->|Hne].
    + unfold membersOf. simpl. now rewrite Hat.
    + now apply (members_same _ _ _ _ Hv).
  - intros m. rewrite Hmem, !elem_of_app, childRefs_insertAt, elem_of_cons. tauto.
  - rewrite childRefs_insertAt. simpl. apply list.NoDup_cons. split.
    + rewrite <- Hmem. apply Hdet.
    + rewrite <- Hmem. apply (proj2 Hc).
  - rewrite (parentIn_same _ _ _ _ Hthis') by reflexivity.
    rewrite (parentIn_upd _ _ _ _ _ Hv). now rewrite decide_True.
  - intros m Hne Hvm.
    rewrite (parentIn_same _ _ _ _ Hthis') by reflexivity.
    rewrite (parentIn_upd _ _ _ _ _ Hv). now rewrite decide_False.
Qed.

(** *** Computations that keep the store consistent, however they end *)

Lemma keeps_bind {A B} (m : M A) (k : A -> M B) :
  keeps m -> (forall a, keeps (k a)) -> keeps (m ≫= k).
Proof.
  intros Hm Hk st Hc. rewrite wp_bind.
  eapply wp_mono; [| |exact (Hm st Hc)]; [|auto].
  intros a st' Hc'. now apply Hk.
Qed.

Lemma keeps_readOnly {A} (m : M A) : readOnly m -> keeps m.
Proof. intros Hro st Hc. apply wp_readOnly; auto. Qed.

Lemma keeps_ret {A} (a : A) : keeps (mret a).
Proof. apply keeps_readOnly, readOnly_ret. Qed.

Lemma keeps_throw {A} e : keeps (@throw A e).
Proof. apply keeps_readOnly, readOnly_throw. Qed.

Lemma keeps_getNode r : keeps (getNode r).
Proof. apply keeps_readOnly, readOnly_getNode. Qed.

(** An update that changes neither the members nor the parent. *)
Lemma keeps_modifyNode_shape r f :
  (forall n, membersOf (f n) = membersOf n /\ _parent (f n) = _parent n) ->
  keeps (modifyNode r f).
Proof.
  intros Hf st Hc. rewrite wp_modifyNode.
  destruct (nodes st !! r) as [n|] eqn:Hn; [|assumption].
  eapply sameShape_consistent; [|exact Hc].
  destruct (Hf n). now apply (sameShape_updNode st r n).
Qed.

Lemma keeps_removeByIndex this index : keeps (removeByIndex this index).
Proof. intros st. apply removeByIndex_consistent. Qed.

Lemma keeps_deleteByIndex this p : keeps (deleteByIndex this p).
Proof. intros st. apply deleteByIndex_consistent. Qed.

Ltac keeps_auto :=
  repeat first
    [ apply keeps_ret | apply keeps_throw | apply keeps_getNode
    | apply keeps_removeByIndex
    | apply keeps_bind; [|intros ?]
    | match goal with
      | |- keeps (match ?x with _ => _ end) => destruct x
      | |- keeps (if ?x then _ else _) => destruct x
      end ].

Lemma keeps_mergeFollowingText n : forall this child i,
  keeps (mergeFollowingText n this child i).
Proof.
  induction n as [|n IH]; intros this child i; simpl.
  - apply keeps_throw.
  - unfold childrenOf, elementAt.
    repeat first
      [ apply IH
      | apply keeps_modifyNode_shape; intros ?; split; reflexivity
      | apply keeps_ret | apply keeps_throw | apply keeps_getNode
      | apply keeps_removeByIndex
      | apply keeps_bind; [|intros ?]
      | match goal with
        | |- keeps (match ?x with _ => _ end) => destruct x
        | |- keeps (if ?x then _ else _) => destruct x
        end ].
Qed.

Lemma keeps_normalizeChildren normalizeChild this n :
  (forall child, keeps (normalizeChild child)) ->
  forall i, keeps (normalizeChildren normalizeChild this n i).
Proof.
  intros Hchild. induction n as [|n IHn]; intros i; cbn [normalizeChildren].
  - apply keeps_throw.
  - unfold childrenOf, elementAt.
    repeat first
      [ apply IHn | apply Hchild | apply keeps_mergeFollowingText
      | apply keeps_ret | apply keeps_throw | apply keeps_getNode
      | apply keeps_removeByIndex
      | apply keeps_bind; [|intros ?]
      | match goal with
        | |- keeps (match ?x with _ => _ end) => destruct x
        | |- keeps (if ?x then _ else _) => destruct x
        end ].
Qed.

Lemma keeps_normalize depth : forall this, keeps (normalize depth this).
Proof.
  induction depth as [|depth IH]; intros this; cbn [normalize].
  - apply keeps_throw.
  - apply keeps_bind; [apply keeps_getNode|]. intros x.
    apply keeps_bind; [unfold childrenOf; keeps_auto|]. intros cs.
    apply keeps_bind; [|intros; apply keeps_ret].
    now apply keeps_normalizeChildren.
Qed.

(** *** The tree builder *)

Lemma keeps_createXML settings kind uri name prefix :
  keeps (createXML settings kind uri name prefix).
Proof.
  intros st Hc.
  eapply wp_mono; [| |apply createXML_shape].
  - intros r st' (_ & _ & Hs). eapply sameShape_consistent; eauto.
  - intros st' Hs. eapply sameShape_consistent; eauto.
Qed.

Lemma keepsDetached_bind {A B} element (m : M A) (k : A -> M B) :
  keepsDetached element m -> (forall a, keepsDetached element (k a)) ->
  keepsDetached element (m ≫= k).
Proof.
  intros Hm Hk st Hc Hd Hv. rewrite wp_bind.
  eapply wp_mono; [| |exact (Hm st Hc Hd Hv)]; [|auto].
  intros a st' (Hc' & Hd' & Hv'). now apply Hk.
Qed.

Lemma keepsDetached_readOnly {A} element (m : M A) :
  readOnly m -> keepsDetached element m.
Proof. intros Hro st Hc Hd Hv. apply wp_readOnly; auto. Qed.

Lemma addAttributes_keepsDetached settings element attrs :
  keepsDetached element (addAttributes settings element attrs).
Proof.
  induction attrs as [|[name value] attrs IH].
  - apply keepsDetached_readOnly, readOnly_ret.
  - simpl. intros st Hc Hd Hv.
    rewrite wp_bind. unfold createNode.
    eapply wp_mono; [| |apply createXML_shape].
    2:{ intros st' Hs. eapply sameShape_consistent; eauto. }
    intros attr st1 (Hattr & Hva & Hs).
    assert (Hc1 : consistent st1) by (eapply sameShape_consistent; eauto).
    assert (Hd1 : detached st1 element) by (eapply sameShape_detached; eauto).
    assert (Hv1 : valid st1 element) by now apply (proj1 Hs).
    assert (Hda : detached st1 attr).
    { eapply sameShape_detached; [exact Hs|]. subst attr.
      now apply consistent_fresh_detached. }
    assert (Hne : attr <> element).
    { subst attr. unfold valid in Hv. lia. }
    rewrite wp_bind, wp_modifyNode.
    pose proof Hva as Hva'. apply valid_lookup in Hva'. destruct Hva' as [an Han].
    rewrite Han. rewrite wp_bind, wp_getNode.
    set (an' := with_parent (Some element) (with_value value an)).
    destruct (nodes (updNode attr an' st1) !! element) as [e|] eqn:He.
    2:{ eapply sameShape_consistent; [|exact Hc1].
        repeat split.
        - intros r Hr. now apply valid_updNode.
        - now apply (members_same _ _ _ _ Han).
        - intros c. rewrite (parentIn_upd _ _ _ _ _ Han).
          destruct (decide (c = attr)) as [->|]; [|reflexivity].
          exfalso. apply valid_lookup in Hv1. destruct Hv1 as [en Hen].
          rewrite (nodes_updNode _ _ _ _ Han) in He.
          rewrite decide_False in He by auto. congruence. }
    assert (He1 : nodes st1 !! element = Some e).
    { rewrite (nodes_updNode _ _ _ _ Han) in He.
      now rewrite decide_False in He by auto. }
    assert (Hshape : forall q, members (updNode attr an' st1) q = members st1 q).
    { now apply (members_same _ _ _ _ Han). }
    assert (Hmid : consistent (updNode attr an' st1)).
    { split.
      - intros q c Hin. rewrite Hshape in Hin.
        destruct (proj1 Hc1 _ _ Hin) as [Hvc Hpc]. split; [now apply valid_updNode|].
        rewrite (parentIn_upd _ _ _ _ _ Han).
        destruct (decide (c = attr)) as [->|]; [|assumption].
        now destruct (Hda q).
      - intros q. rewrite Hshape. apply (proj2 Hc1). }
    rewrite wp_bind. unfold attributesOf.
    destruct (_attributes e) as [l|] eqn:Hl; [|exact Hmid].
    rewrite wp_ret, wp_bind, wp_setNode.
    set (st2 := updNode element (with_attributes (Some (l ++ [attr])) e)
                  (updNode attr an' st1)).
    assert (Hmem1 : members st1 element =
                    childRefs (default [] (_children e)) ++ l).
    { unfold members, membersOf. now rewrite He1, Hl. }
    assert (Hmem2 : forall q, members st2 q =
              if decide (q = element)
              then childRefs (default [] (_children e)) ++ l ++ [attr]
              else members st1 q).
    { intros q. unfold st2. rewrite (members_upd _ _ _ _ _ He).
      destruct (decide (q = element)); [reflexivity|apply Hshape]. }
    assert (Hc2 : consistent st2).
    { apply (attach_consistent st1 _ element
               (childRefs (default [] (_children e)) ++ l ++ [attr]) attr); auto.
      - unfold st2. now rewrite !valid_updNode.
      - intros r Hr. unfold st2. now rewrite !valid_updNode.
      - intros m. rewrite Hmem1, !elem_of_app, list_elem_of_singleton. tauto.
      - rewrite app_assoc.
        apply list.NoDup_app. split; [|split].
        + rewrite <- Hmem1. apply (proj2 Hc1).
        + intros x Hx Hx'. apply list_elem_of_singleton in Hx'. subst x.
          apply (Hda element). now rewrite Hmem1.
        + apply list.NoDup_singleton.
      - unfold st2. rewrite (parentIn_same _ _ _ _ He) by reflexivity.
        rewrite (parentIn_upd _ _ _ _ _ Han). now rewrite decide_True.
      - intros m Hm Hvm. unfold st2.
        rewrite (parentIn_same _ _ _ _ He) by reflexivity.
        rewrite (parentIn_upd _ _ _ _ _ Han). now rewrite decide_False. }
    apply IH; auto.
    + intros q. rewrite Hmem2. destruct (decide (q = element)) as [->|].
      * rewrite app_assoc, elem_of_app, list_elem_of_singleton, <- Hmem1.
        intros [Hin|Heq]; [now apply (Hd1 element)|congruence].
      * apply Hd1.
    + unfold st2. now rewrite !valid_updNode.
Qed.

Lemma addNamespaces_keepsDetached element namespaces :
  keepsDetached element (addNamespaces element namespaces).
Proof.
  induction namespaces as [|ns l IH].
  - apply keepsDetached_readOnly, readOnly_ret.
  - simpl. intros st Hc Hd Hv.
    rewrite wp_bind, wp_lift.
    destruct (newNamespace (Some (raw_prefix ns)) (raw_uri ns)) as [ns'|e];
      [|assumption].
    rewrite wp_bind, wp_getNode.
    destruct (nodes st !! element) as [e|] eqn:He; [|assumption].
    rewrite wp_bind.
    destruct (_inScopeNamespaces e) as [l'|]; [|assumption].
    rewrite wp_setNode.
    assert (Hs : sameShape st
              (updNode element (with_inScopeNamespaces (Some (l' ++ [ns'])) e) st)).
    { now apply (sameShape_updNode st element e). }
    apply IH.
    + eapply sameShape_consistent; eauto.
    + eapply sameShape_detached; eauto.
    + now apply valid_updNode.
Qed.

Lemma insertLast_consistent target node st :
  consistent st -> detached st node ->
  wp (insertLast target node) (fun _ => consistent) consistent st.
Proof.
  intros Hc Hd. unfold insertLast. destruct target as [parent|]; [|assumption].
  rewrite wp_bind, wp_getNode.
  destruct (nodes st !! parent) as [p|]; [|assumption].
  now apply insert_consistent.
Qed.

(** A fresh leaf: created, given its value, and appended. *)
Lemma appendLeaf_consistent settings kind name value target (b : Builder) st :
  consistent st ->
  wp (node ← createNode settings kind [] name None;
      modifyNode node (with_value value);;
      insertLast target node;;
      mret b)
     (fun _ => consistent) consistent st.
Proof.
  intros Hc. rewrite wp_bind. unfold createNode.
  eapply wp_mono; [| |apply createXML_shape].
  2:{ intros st' Hs. eapply sameShape_consistent; eauto. }
  intros node st1 (Hnode & Hvn & Hs).
  assert (Hc1 : consistent st1) by (eapply sameShape_consistent; eauto).
  assert (Hd1 : detached st1 node).
  { eapply sameShape_detached; [exact Hs|]. subst node.
    now apply consistent_fresh_detached. }
  rewrite wp_bind, wp_modifyNode.
  apply valid_lookup in Hvn. destruct Hvn as [n Hn]. rewrite Hn.
  assert (Hs2 : sameShape st1 (updNode node (with_value value n) st1)).
  { now apply (sameShape_updNode st1 node n). }
  rewrite wp_bind.
  eapply wp_mono; [| |apply insertLast_consistent].
  - intros ? st' Hc'. now rewrite wp_ret.
  - auto.
  - eapply sameShape_consistent; eauto.
  - eapply sameShape_detached; eauto.
Qed.

Lemma sink_consistent settings b ev st :
  consistent st -> wp (sink settings b ev) (fun _ => consistent) consistent st.
Proof.
  intros Hc. destruct ev as [name attrs namespaces isEmpty|name|t ws|t|t|name value|t];
    simpl.
  - rewrite wp_bind. unfold createNode.
    eapply wp_mono; [| |apply createXML_shape].
    2:{ intros st' Hs. eapply sameShape_consistent; eauto. }
    intros element st1 (Helem & Hve & Hs).
    assert (Hc1 : consistent st1) by (eapply sameShape_consistent; eauto).
    assert (Hd1 : detached st1 element).
    { eapply sameShape_detached; [exact Hs|]. subst element.
      now apply consistent_fresh_detached. }
    rewrite wp_bind.
    eapply wp_mono; [| |apply (addAttributes_keepsDetached settings element attrs st1)];
      auto.
    intros ? st2 (Hc2 & Hd2 & Hv2).
    rewrite wp_bind.
    eapply wp_mono; [| |apply (addNamespaces_keepsDetached element namespaces st2)];
      auto.
    intros ? st3 (Hc3 & Hd3 & Hv3).
    rewrite wp_bind.
    eapply wp_mono; [| |apply insertLast_consistent]; auto.
  - exact Hc.
  - match goal with
    | |- wp (if ?c then _ else _) _ _ _ => destruct c
    end; [exact Hc|].
    now apply appendLeaf_consistent.
  - now apply appendLeaf_consistent.
  - destruct (ignoreComments settings); [exact Hc|].
    now apply appendLeaf_consistent.
  - destruct (ignoreProcessingInstructions settings); [exact Hc|].
    now apply appendLeaf_consistent.
  - exact Hc.
Qed.

Lemma feed_consistent settings events : forall b st,
  consistent st -> wp (feed settings b events) (fun _ => consistent) consistent st.
Proof.
  induction events as [|ev events IH]; intros b st Hc; simpl.
  - exact Hc.
  - rewrite wp_bind.
    eapply wp_mono; [| |apply sink_consistent]; auto.
Qed.

Lemma parseFromString_consistent settings s st :
  consistent st ->
  wp (parseFromString settings s) (fun _ => consistent) consistent st.
Proof.
  intros Hc. unfold parseFromString. rewrite wp_bind.
  eapply wp_mono; [| |apply keeps_createXML]; [|auto|auto].
  intros placeholder st1 Hc1.
  destruct (parseXml settings s) as [events err].
  rewrite wp_bind.
  eapply wp_mono; [| |apply feed_consistent]; [|auto|auto].
  intros b st2 Hc2. destruct err; exact Hc2.
Qed.

Lemma readOnly_mapM {A B} (f : A -> M B) l :
  (forall a, readOnly (f a)) -> readOnly (mapM f l).
Proof.
  intros Hf. induction l as [|a l IH]; simpl; [apply readOnly_ret|].
  apply readOnly_bind; [apply Hf|]. intros b.
  apply readOnly_bind; [apply IH|]. intros bs. apply readOnly_ret.
Qed.

Lemma readOnly_snapshot depth : forall r, readOnly (snapshot depth r).
Proof.
  induction depth as [|depth IH]; intros r; cbn [snapshot].
  - apply readOnly_throw.
  - apply readOnly_bind; [apply readOnly_getNode|]. intros n.
    apply readOnly_bind; [readOnly_auto|]. intros name.
    destruct (_kind n); try apply readOnly_ret.
    apply readOnly_bind; [readOnly_auto|]. intros inScope.
    apply readOnly_bind; [unfold attributesOf; readOnly_auto|]. intros attrs.
    apply readOnly_bind; [apply readOnly_mapM, IH|]. intros ats.
    apply readOnly_bind; [unfold childrenOf; readOnly_auto|]. intros cs.
    apply readOnly_bind; [|intros; apply readOnly_ret].
    apply readOnly_mapM. intros [c|]; [apply IH|apply readOnly_throw].
Qed.

Lemma readOnly_listTrees l : readOnly (listTrees l).
Proof.
  unfold listTrees. apply readOnly_bind; [apply readOnly_storeSize|].
  intros n. apply readOnly_mapM.
  intros [c|]; [apply readOnly_snapshot|apply readOnly_throw].
Qed.

(** *** replace *)

Lemma consistent_slotReady st self i : consistent st -> slotReady st self i.
Proof.
  intros [Hl Hd]. split; [assumption|].
  intros q c Hin. destruct (Hl _ _ Hin). auto.
Qed.

Lemma childRefs_assignAt i v cs :
  childRefs (assignAt i (Some v) cs) =
  childRefs (take i cs) ++ v :: childRefs (drop (S i) cs).
Proof.
  unfold assignAt. destruct (Nat.ltb_spec i (length cs)) as [Hlt|Hge].
  - destruct (lookup_lt_is_Some_2 cs i Hlt) as [x Hx].
    destruct (split_at _ _ _ Hx) as (l1 & l2 & -> & Hlen).
    rewrite <- Hlen.
    rewrite (insert_app_r_alt l1 _ (length l1)) by lia.
    rewrite Nat.sub_diag. simpl.
    rewrite take_app_length.
    assert (Hdrop : drop (S (length l1)) (l1 ++ x :: l2) = l2).
    { replace (S (length l1)) with (length (l1 ++ [x]))
        by (rewrite length_app; simpl; lia).
      rewrite (cons_middle x l1 l2), app_assoc. apply drop_app_length. }
    rewrite Hdrop. now rewrite childRefs_app.
  - rewrite take_ge by lia. rewrite drop_ge by lia.
    rewrite !childRefs_app. simpl.
    assert (Hholes : childRefs (replicate (i - length cs) None) = []).
    { induction (i - length cs) as [|k IH]; simpl; auto. }
    now rewrite Hholes.
Qed.

Lemma childRefs_take_drop i cs :
  childRefs cs =
  childRefs (take i cs) ++
  match cs !! i with Some (Some c) => [c] | _ => [] end ++
  childRefs (drop (S i) cs).
Proof.
  destruct (cs !! i) as [x|] eqn:Hx.
  - destruct (split_at _ _ _ Hx) as (l1 & l2 & -> & Hlen). subst i.
    rewrite take_app_length.
    assert (Hdrop : drop (S (length l1)) (l1 ++ x :: l2) = l2).
    { replace (S (length l1)) with (length (l1 ++ [x]))
        by (rewrite length_app; simpl; lia).
      rewrite (cons_middle x l1 l2), app_assoc. apply drop_app_length. }
    rewrite Hdrop, childRefs_app. now destruct x.
  - apply lookup_ge_None in Hx.
    rewrite take_ge by lia. rewrite drop_ge by lia. simpl.
    now rewrite app_nil_r.
Qed.

Lemma fill_slot_consistent st self i new x :
  fillReady st self i new ->
  nodes st !! self = Some x ->
  consistent
    (updNode self
       (with_children
          (Some (assignAt i (Some new) (default [] (_children x)))) x) st).
Proof.
  intros ([Hd Hl] & Hvs & Hvn & Hdet & Hpn) Hx.
  set (cs := default [] (_children x)).
  set (at_ := default [] (_attributes x)).
  assert (Hold : members st self =
                 childRefs (take i cs) ++
                 match cs !! i with Some (Some c) => [c] | _ => [] end ++
                 childRefs (drop (S i) cs) ++ at_).
  { unfold members, membersOf. rewrite Hx. fold cs at_.
    rewrite (childRefs_take_drop i cs) at 1. now rewrite <- !app_assoc. }
  assert (Hnew : forall q,
    members (updNode self (with_children (Some (assignAt i (Some new) cs)) x) st) q =
    if decide (q = self)
    then childRefs (take i cs) ++ new :: childRefs (drop (S i) cs) ++ at_
    else members st q).
  { intros q. rewrite (members_upd _ _ _ _ _ Hx).
    destruct (decide (q = self)); [|reflexivity].
    unfold membersOf. simpl. rewrite childRefs_assignAt.
    now rewrite <- app_assoc. }
  assert (Hpar : forall c,
    parentIn (updNode self (with_children (Some (assignAt i (Some new) cs)) x) st) c =
    parentIn st c).
  { intros c. now apply (parentIn_same _ _ _ _ Hx). }
  pose proof (Hd self) as Hnd. rewrite Hold in Hnd.
  split.
  - intros q c. rewrite Hnew, Hpar, valid_updNode.
    destruct (decide (q = self)) as [->|Hne].
    + rewrite elem_of_app, elem_of_cons, elem_of_app.
      intros Hin.
      destruct (decide (c = new)) as [->|Hcn]; [auto|].
      assert (Hin' : c ∈ members st self).
      { rewrite Hold, !elem_of_app. tauto. }
      destruct (Hl _ _ Hin') as [Hv [Hp|(_ & x0 & cs0 & Hx0 & Hcs0 & Hi)]];
        [auto|].
      exfalso. rewrite Hx in Hx0. injection Hx0 as <-.
      assert (cs = cs0) by (unfold cs; now rewrite Hcs0). subst cs0.
      rewrite Hi in Hnd.
      apply list.NoDup_app in Hnd as (_ & Hn1 & Hnd).
      simpl in Hnd. apply list.NoDup_cons in Hnd as [Hn2 _].
      rewrite elem_of_app in Hn2.
      destruct Hin as [Hin|[?|Hin]]; [|congruence|tauto].
      apply (Hn1 _ Hin). simpl. apply elem_of_cons. now left.
    + intros Hin. destruct (Hl _ _ Hin) as [Hv [Hp|[? _]]]; [auto|congruence].
  - intros q. rewrite Hnew. destruct (decide (q = self)) as [->|Hne]; [|apply Hd].
    assert (Hsub : childRefs (take i cs) ++ childRefs (drop (S i) cs) ++ at_
                   `sublist_of` members st self).
    { rewrite Hold. apply sublist_app; [reflexivity|].
      apply sublist_inserts_l. reflexivity. }
    assert (Hnd' : NoDup (childRefs (take i cs) ++ childRefs (drop (S i) cs) ++ at_))
      by (eapply sublist_NoDup; [apply (Hd self)|exact Hsub]).
    apply list.NoDup_app in Hnd' as (Ha & Hb & Hc).
    apply list.NoDup_app. repeat split; [assumption| |].
    + intros m Hm. rewrite elem_of_cons. intros [->|Hm'].
      * apply (Hdet self). rewrite Hold, !elem_of_app. tauto.
      * now apply (Hb m).
    + apply list.NoDup_cons. split; [|assumption].
      intros Hin. apply (Hdet self). rewrite Hold, !elem_of_app.
      rewrite elem_of_app in Hin. tauto.
Qed.

Lemma clear_slot_ready st self this cs i old on :
  consistent st ->
  nodes st !! self = Some this -> _children this = Some cs ->
  cs !! i = Some (Some old) -> nodes st !! old = Some on ->
  slotReady (updNode old (with_parent None on) st) self i.
Proof.
  intros [Hl Hd] Hthis Hcs Hi Hold. split.
  - intros q. rewrite (members_same _ _ _ _ Hold) by reflexivity. apply Hd.
  - intros q c. rewrite (members_same _ _ _ _ Hold) by reflexivity.
    intros Hin. destruct (Hl _ _ Hin) as [Hv Hp].
    rewrite valid_updNode. split; [assumption|].
    rewrite (parentIn_upd _ _ _ _ _ Hold).
    destruct (decide (c = old)) as [->|Hne]; [|now left].
    right.
    assert (Hmem : old ∈ members st self).
    { rewrite (members_children _ _ _ _ Hthis Hcs), elem_of_app. left.
      apply childRefs_elem. eapply list_elem_of_lookup_2. exact Hi. }
    destruct (Hl _ _ Hmem) as [_ Hp']. rewrite Hp in Hp'.
    injection Hp' as ->. split; [reflexivity|].
    destruct (nodes (updNode old (with_parent None on) st) !! self) as [x'|] eqn:Hx'.
    + destruct (lookup_after_parent _ _ _ _ _ _ Hold Hx')
        as (x0 & Hx0 & Hch & _).
      rewrite Hthis in Hx0. injection Hx0 as <-.
      exists x', cs. rewrite Hch. auto.
    + rewrite (nodes_updNode _ _ _ _ Hold) in Hx'.
      destruct (decide (self = old)); congruence.
Qed.

Lemma adopt_fillReady st self i r n :
  slotReady st self i -> valid st self ->
  nodes st !! r = Some n -> detached st r ->
  fillReady (updNode r (with_parent (Some self) n) st) self i r.
Proof.
  intros [Hd Hl] Hvs Hr Hdet.
  assert (Hm : forall q, members (updNode r (with_parent (Some self) n) st) q =
                         members st q).
  { intros q. now apply (members_same _ _ _ _ Hr). }
  repeat split.
  - intros q. rewrite Hm. apply Hd.
  - rewrite valid_updNode. rewrite Hm in H. now destruct (Hl _ _ H).
  - rewrite Hm in H. destruct (Hl _ _ H) as [_ [Hp|(-> & x & cs & Hx & Hcs & Hi)]].
    + left. rewrite (parentIn_upd _ _ _ _ _ Hr).
      destruct (decide (c = r)) as [->|]; [|assumption].
      now destruct (Hdet _ H).
    + right. split; [reflexivity|].
      destruct (nodes (updNode r (with_parent (Some self) n) st) !! self)
        as [x'|] eqn:Hx'.
      * destruct (lookup_after_parent _ _ _ _ _ _ Hr Hx') as (x0 & Hx0 & Hch & _).
        rewrite Hx in Hx0. injection Hx0 as <-.
        exists x', cs. rewrite Hch. auto.
      * rewrite (nodes_updNode _ _ _ _ Hr) in Hx'.
        destruct (decide (self = r)); congruence.
  - now rewrite valid_updNode.
  - rewrite valid_updNode. apply valid_lookup. eauto.
  - intros q. rewrite Hm. apply Hdet.
  - rewrite (parentIn_upd _ _ _ _ _ Hr). now rewrite decide_True.
Qed.

Lemma fresh_fillReady st st' self i n :
  slotReady st self i -> valid st self ->
  nodes st' = nodes st ++ [n] -> membersOf n = [] -> _parent n = Some self ->
  fillReady st' self i (length (nodes st)).
Proof.
  intros [Hd Hl] Hvs Hst' Hmn Hpn.
  assert (Hlook : forall q, valid st q -> nodes st' !! q = nodes st !! q).
  { intros q Hq. rewrite Hst'. now apply lookup_app_l. }
  assert (Hfresh : nodes st' !! (length (nodes st) : ref) = Some n).
  { rewrite Hst'. now apply list_lookup_middle. }
  assert (Hm : forall q, members st' q = members st q).
  { intros q. unfold members.
    destruct (decide (q < length (nodes st))) as [Hlt|Hge].
    - now rewrite Hlook.
    - destruct (decide (q = length (nodes st))) as [->|Hne].
      + rewrite Hfresh, Hmn. rewrite lookup_ge_None_2; [reflexivity|lia].
      + rewrite !lookup_ge_None_2; [reflexivity|lia|].
        rewrite Hst', length_app. simpl. lia. }
  assert (Hv : forall q, valid st q -> valid st' q).
  { unfold valid. intros q Hq. rewrite Hst', length_app. lia. }
  repeat split.
  - intros q. rewrite Hm. apply Hd.
  - rewrite Hm in H. destruct (Hl _ _ H). auto.
  - rewrite Hm in H.
    destruct (Hl _ _ H) as [Hvc [Hp|(-> & x & cs & Hx & Hcs & Hi)]].
    + left. unfold parentIn. now rewrite Hlook.
    + right. split; [reflexivity|]. exists x, cs. rewrite Hlook; auto.
  - auto.
  - unfold valid. rewrite Hst', length_app. simpl. lia.
  - intros q Hin. rewrite Hm in Hin. destruct (Hl _ _ Hin) as [Hvc _].
    unfold valid in Hvc. lia.
  - unfold parentIn. now rewrite Hfresh.
Qed.

Lemma fresh_text_fillReady settings self i f st :
  slotReady st self i -> valid st self ->
  (forall t, membersOf (f t) = membersOf t /\ _parent (f t) = Some self) ->
  wp (t ← createXML settings Text [] [] None; modifyNode t f;; mret t)
     (fun new st' => fillReady st' self i new) (fun _ => False) st.
Proof.
  intros Hs Hv Hf. unfold wp. rewrite bind_run, createXML_run. simpl.
  rewrite bind_run. unfold modifyNode. rewrite bind_run. unfold getNode. simpl.
  rewrite list_lookup_middle by reflexivity. simpl.
  destruct (Hf (createdNode Text (length (qnames st)))) as [Hm Hp].
  apply (fresh_fillReady st _ self i
           (f (createdNode Text (length (qnames st))))); auto.
  simpl. rewrite (insert_app_r_alt _ _ (length (nodes st))) by lia.
  now rewrite Nat.sub_diag.
Qed.

Lemma fresh_text_ready settings self i f (E : Store -> Prop) st :
  slotReady st self i -> valid st self ->
  (forall t, membersOf (f t) = membersOf t /\ _parent (f t) = Some self) ->
  wp (t ← createXML settings Text [] [] None; modifyNode t f;; mret t)
     (fun new st' => fillReady st' self i new) E st.
Proof.
  intros Hs Hv Hf.
  eapply wp_mono; [| |exact (fresh_text_fillReady settings self i f st Hs Hv Hf)].
  - auto.
  - intros ? [].
Qed.

Lemma adopt_ready settings self i v vkind st :
  slotReady st self i -> valid st self -> valueReady st v vkind ->
  wp (adopt settings self v vkind)
     (fun new st' => fillReady st' self i new)
     (fun _ => exists l, v = VXMLList l) st.
Proof.
  intros Hs Hv Hr. destruct v as [| |z|s|r|l]; simpl in Hr; try contradiction.
  4:{ assert (Hlist :
        wp (trees ← listTrees (l_children l);
            s ← lift (XMLList_toString settings trees);
            t ← createXML settings Text [] [] None;
            modifyNode t (fun t => with_value s (with_parent (Some self) t));;
            mret t)
           (fun new st' => fillReady st' self i new)
           (fun _ => exists l0, VXMLList l = VXMLList l0) st).
      { rewrite wp_bind.
        apply wp_readOnly; [apply readOnly_listTrees| |eauto].
        intros trees. rewrite wp_bind, wp_lift.
        destruct (XMLList_toString settings trees) as [s|e]; [|eauto].
        now apply fresh_text_ready. }
      destruct vkind as [[]|]; exact Hlist. }
  - now apply fresh_text_ready.
  - destruct vkind; now apply fresh_text_ready.
  - destruct Hr as (n & Hn & -> & Hk & Hdet). simpl.
    destruct (_kind n) eqn:K; try congruence.
    + rewrite wp_bind, wp_modifyNode, Hn. rewrite wp_ret.
      now apply adopt_fillReady.
    + rewrite wp_bind, wp_getNode, Hn. now apply fresh_text_ready.
    + rewrite wp_bind, wp_modifyNode, Hn. rewrite wp_ret.
      now apply adopt_fillReady.
    + rewrite wp_bind, wp_modifyNode, Hn. rewrite wp_ret.
      now apply adopt_fillReady.
    + rewrite wp_bind, wp_modifyNode, Hn. rewrite wp_ret.
      now apply adopt_fillReady.
Qed.

Lemma valueReady_parent st v vkind old on x :
  nodes st !! old = Some on ->
  valueReady st v vkind ->
  valueReady (updNode old (with_parent x on) st) v vkind.
Proof.
  intros Hold. destruct v as [| |z|s|r|l]; simpl; auto.
  intros (n & Hn & Hk & Hu & Hdet).
  destruct (nodes (updNode old (with_parent x on) st) !! r) as [n'|] eqn:Hn'.
  - destruct (lookup_after_parent _ _ _ _ _ _ Hold Hn')
      as (n0 & Hn0 & _ & _ & Hkind & _).
    rewrite Hn in Hn0. injection Hn0 as <-.
    exists n'. rewrite Hkind. repeat split; auto.
    intros q. rewrite (members_same _ _ _ _ Hold) by reflexivity. apply Hdet.
  - rewrite (nodes_updNode _ _ _ _ Hold) in Hn'.
    destruct (decide (r = old)); congruence.
Qed.

Lemma vacateIndex_consistent self this k v vkind st :
  consistent st -> nodes st !! self = Some this -> valueReady st v vkind ->
  wp (vacateIndex this k) (vacated v vkind self) consistent st.
Proof.
  intros Hc Hthis Hr. unfold vacateIndex.
  assert (Hvs : valid st self) by (apply valid_lookup; eauto).
  set (i := Nat.min k (lengthOf this)).
  assert (Hsame : vacated v vkind self (Some (AtIndex i)) st).
  { split; [assumption|]. split; [assumption|]. now apply consistent_slotReady. }
  rewrite wp_bind.
  destruct (_children this) as [cs|] eqn:Hcs; [|exact Hsame].
  destruct (cs !! i) as [[old|]|] eqn:Hi; try exact Hsame.
  rewrite wp_modifyNode.
  destruct (nodes st !! old) as [on|] eqn:Hold; [|exact Hc].
  rewrite wp_ret. split; [|split].
  - now rewrite valid_updNode.
  - now apply valueReady_parent.
  - apply (clear_slot_ready st self this cs i old on Hc Hthis Hcs Hi Hold).
Qed.

Lemma vacate_number self this z v vkind st :
  consistent st -> nodes st !! self = Some this -> valueReady st v vkind ->
  wp (vacate self this (KNumber z)) (vacated v vkind self) consistent st.
Proof.
  intros Hc Hthis Hr. unfold vacate.
  destruct (isUint32 z); [|destruct (toInt32 z =? 0)%Z; exact Hc].
  now apply vacateIndex_consistent.
Qed.

Lemma filterM_sublist {A} (f : A -> M bool) (l : list A) st :
  (forall a, readOnly (f a)) ->
  wp (filterM f l) (fun sel st' => st' = st /\ sel `sublist_of` l)
     (fun st' => st' = st) st.
Proof.
  intros Hf. induction l as [|a l IH]; simpl.
  - rewrite wp_ret. split; [reflexivity|constructor].
  - rewrite wp_bind. apply wp_readOnly; [apply Hf| |reflexivity].
    intros b. rewrite wp_bind. eapply wp_mono; [| |exact IH].
    + intros sel st' [-> Hsub]. rewrite wp_ret. split; [reflexivity|].
      destruct b; now constructor.
    + auto.
Qed.

Lemma readOnly_childSelected name v : readOnly (childSelected name v).
Proof. unfold childSelected, nameOf. readOnly_auto. Qed.

Lemma readOnly_attributeSelected name v : readOnly (attributeSelected name v).
Proof. unfold attributeSelected, nameOf. readOnly_auto. Qed.

Lemma getProperty_name_selects this name st :
  wp (getProperty this (KName name) false)
     (fun pr st' => st' = st /\
        exists l, pr = PList l /\
          (hasFlag (qn_flags name) ATTR_NAME = false ->
           l_children l `sublist_of` childrenIn st this))
     (fun st' => st' = st) st.
Proof.
  unfold getProperty. rewrite wp_bind, wp_getNode.
  destruct (nodes st !! this) as [x|] eqn:Hx; [|reflexivity].
  simpl. destruct (hasFlag (qn_flags name) ATTR_NAME).
  - rewrite wp_bind.
    destruct (_attributes x) as [attrs|].
    + eapply wp_mono;
        [| |apply filterM_sublist; intros a; apply readOnly_attributeSelected].
      * intros sel st' [-> _]. rewrite wp_ret. split; [reflexivity|].
        eexists. split; [reflexivity|discriminate].
      * auto.
    + rewrite !wp_ret. split; [reflexivity|].
      eexists. split; [reflexivity|discriminate].
  - rewrite wp_bind.
    destruct (_children x) as [cs|] eqn:Hcs.
    + eapply wp_mono;
        [| |apply filterM_sublist; intros a; apply readOnly_childSelected].
      * intros sel st' [-> Hsub]. rewrite wp_ret. split; [reflexivity|].
        eexists. split; [reflexivity|]. intros _. simpl.
        unfold childrenIn. now rewrite Hx, Hcs.
      * auto.
    + rewrite !wp_ret. split; [reflexivity|].
      eexists. split; [reflexivity|]. intros _. simpl. apply sublist_nil_l.
Qed.

Lemma valueReady_step st st' v vkind :
  (forall (r : ref) n, nodes st !! r = Some n ->
     exists n', nodes st' !! r = Some n' /\ _kind n' = _kind n) ->
  (forall q c, c ∈ members st' q -> c ∈ members st q) ->
  valueReady st v vkind -> valueReady st' v vkind.
Proof.
  intros Hk Hm. destruct v as [| |z|s|r|l]; simpl; auto.
  intros (n & Hn & Hvk & Hu & Hdet).
  destruct (Hk _ _ Hn) as (n' & Hn' & Hkind).
  exists n'. rewrite Hkind. repeat split; auto.
  intros q Hin. apply (Hdet q). now apply Hm.
Qed.

Lemma consistent_children_refs st p x cs cs' :
  nodes st !! p = Some x ->
  childRefs cs' = childRefs cs ->
  consistent (updNode p (with_children (Some cs) x) st) ->
  consistent (updNode p (with_children (Some cs') x) st).
Proof.
  intros Hx Hrefs. apply sameShape_consistent. repeat split.
  - intros r. now rewrite !valid_updNode.
  - intros q. rewrite !(members_upd _ _ _ _ _ Hx).
    destruct (decide (q = p)); [|reflexivity].
    unfold membersOf. simpl. now rewrite Hrefs.
  - intros c. now rewrite !(parentIn_same _ _ _ _ Hx) by reflexivity.
Qed.

(** One round of the [forEach] of [replace]. *)
Lemma remove_one st self x l1 l2 child cn x' cs' v vkind :
  consistent st -> valueReady st v vkind ->
  nodes st !! self = Some x ->
  _children x = Some (l1 ++ Some child :: l2) ->
  nodes st !! child = Some cn ->
  nodes (updNode child (with_parent None cn) st) !! self = Some x' ->
  childRefs cs' = childRefs (l1 ++ l2) ->
  let st' := updNode self (with_children (Some cs') x')
               (updNode child (with_parent None cn) st) in
  consistent st' /\ valid st' self /\ valueReady st' v vkind /\
  childrenIn st' self = cs'.
Proof.
  intros Hc Hr Hx Hcs Hcn Hx' Hrefs st'. unfold st'.
  destruct (lookup_after_parent _ _ _ _ _ _ Hcn Hx')
    as (x0 & Hx0 & Hch & Hat & Hkind & _).
  rewrite Hx in Hx0. injection Hx0 as <-.
  split; [|split; [|split]].
  - apply (consistent_children_refs _ _ _ (l1 ++ l2)); [assumption..|].
    now apply (detach_child_consistent st self x l1 l2 child cn x').
  - rewrite !valid_updNode. apply valid_lookup. eauto.
  - apply (valueReady_step st); [| |assumption].
    + intros r n Hn. rewrite (nodes_updNode _ _ _ _ Hx').
      destruct (decide (r = self)) as [->|Hne].
      * assert (n = x) by congruence. subst n.
        eexists. split; [reflexivity|]. simpl. assumption.
      * rewrite (nodes_updNode _ _ _ _ Hcn).
        destruct (decide (r = child)) as [->|Hne'].
        -- assert (n = cn) by congruence. subst n.
           eexists. split; reflexivity.
        -- eauto.
    + intros q c. rewrite (members_upd _ _ _ _ _ Hx').
      destruct (decide (q = self)) as [->|Hne].
      * unfold membersOf. simpl. rewrite Hat, Hrefs.
        rewrite (members_children _ _ _ _ Hx Hcs).
        rewrite !childRefs_app, !elem_of_app. simpl. rewrite elem_of_cons. tauto.
      * now rewrite (members_same _ _ _ _ Hcn) by reflexivity.
  - unfold childrenIn. rewrite (nodes_updNode _ _ _ _ Hx').
    now rewrite decide_True.
Qed.

Lemma removeSelected_consistent self v vkind :
  forall toRemove first p st,
  consistent st -> valid st self -> valueReady st v vkind ->
  (forall c, c ∈ childRefs toRemove -> Some c ∈ childrenIn st self) ->
  NoDup (childRefs toRemove) ->
  (toRemove <> [] /\ first = true) \/ (exists i, p = AtIndex i) ->
  wp (removeSelected self toRemove first p)
     (fun slot st' => (exists i, slot = AtIndex i) /\ consistent st' /\
                      valid st' self /\ valueReady st' v vkind)
     consistent st.
Proof.
  induction toRemove as [|[child|] rest IH];
    intros first p st Hc Hvs Hr Hin Hnd Hp.
  - simpl. rewrite wp_ret. destruct Hp as [[Hne _]|Hp]; [congruence|auto].
  - cbn [removeSelected].
    rewrite wp_bind, wp_getNode.
    destruct (nodes st !! self) as [x|] eqn:Hx; [|assumption].
    rewrite wp_bind. unfold childrenOf.
    destruct (_children x) as [cs|] eqn:Hcs; [|assumption].
    rewrite wp_ret.
    assert (Hchild : Some child ∈ cs).
    { specialize (Hin child). unfold childrenIn in Hin. rewrite Hx, Hcs in Hin.
      apply Hin. simpl. apply elem_of_cons. now left. }
    destruct (indexOf child cs) as [i|] eqn:Hi.
    2:{ now apply indexOf_None in Hi. }
    destruct (indexOf_Some _ _ _ Hi) as (l1 & l2 & -> & Hlen & _).
    rewrite wp_bind, wp_modifyNode.
    destruct (nodes st !! child) as [cn|] eqn:Hcn; [|assumption].
    rewrite wp_bind, wp_getNode.
    destruct (nodes (updNode child (with_parent None cn) st) !! self)
      as [x'|] eqn:Hx'.
    2:{ rewrite (nodes_updNode _ _ _ _ Hcn) in Hx'.
        destruct (decide (self = child)); congruence. }
    simpl in Hnd. apply list.NoDup_cons in Hnd as [Hnotin Hnd].
    assert (Hrest : forall cs' : list (option ref),
              (forall c : ref, Some c ∈ l1 ++ l2 -> Some c ∈ cs') ->
              forall c, c ∈ childRefs rest -> Some c ∈ cs').
    { intros cs' Hcs' c Hc'. apply Hcs'.
      assert (Hne : c <> child) by (intros ->; contradiction).
      specialize (Hin c). unfold childrenIn in Hin. rewrite Hx, Hcs in Hin.
      assert (Hc2 : Some c ∈ l1 ++ Some child :: l2).
      { apply Hin. simpl. apply elem_of_cons. now right. }
      rewrite elem_of_app, elem_of_cons in Hc2. rewrite elem_of_app.
      destruct Hc2 as [?|[?|?]]; [tauto|congruence|tauto]. }
    destruct first.
    + rewrite wp_bind, wp_setNode. cbn [spliceBlank].
      assert (Hins : <[i := None]> (l1 ++ Some child :: l2) = l1 ++ None :: l2).
      { subst i. rewrite (insert_app_r_alt l1 _ (length l1)) by lia.
        now rewrite Nat.sub_diag. }
      rewrite Hins.
      destruct (remove_one st self x l1 l2 child cn x' (l1 ++ None :: l2) v vkind)
        as (Hc2 & Hv2 & Hr2 & Hch2); auto.
      { now rewrite !childRefs_app. }
      apply IH; eauto.
      intros c Hc'. rewrite Hch2. apply (Hrest _); [|assumption].
      intros c0. rewrite !elem_of_app, elem_of_cons. tauto.
    + rewrite wp_bind, wp_setNode. simpl.
      assert (Hdel : delete i (l1 ++ Some child :: l2) = l1 ++ l2).
      { subst i. apply delete_middle. }
      rewrite Hdel.
      destruct (remove_one st self x l1 l2 child cn x' (l1 ++ l2) v vkind)
        as (Hc2 & Hv2 & Hr2 & Hch2); auto.
      apply IH; auto.
      * intros c Hc'. rewrite Hch2. now apply (Hrest _).
      * destruct Hp as [[_ Hf]|Hp]; [discriminate|now right].
  - cbn [removeSelected]. exact Hc.
Qed.

Lemma vacate_name self this name v vkind st :
  consistent st -> nodes st !! self = Some this -> valueReady st v vkind ->
  hasFlag (qn_flags name) ATTR_NAME = false ->
  wp (vacate self this (KName name)) (vacated v vkind self) consistent st.
Proof.
  intros Hc Hthis Hr Hflag. unfold vacate.
  destruct (indexString (qnameString name)) as [k|];
    [now apply vacateIndex_consistent|].
  assert (Hvs : valid st self) by (apply valid_lookup; eauto).
  rewrite wp_bind.
  eapply wp_mono; [| |apply getProperty_name_selects].
  2:{ now intros st' ->. }
  intros pr st' (-> & l & -> & Hsub).
  destruct (l_children l) as [|c0 sel0] eqn:Hsel.
  { rewrite wp_ret. split; [assumption|]. split; assumption. }
  specialize (Hsub Hflag).
  destruct (_children this) as [cs|] eqn:Hcs.
  2:{ exfalso. unfold childrenIn in Hsub. rewrite Hthis, Hcs in Hsub.
      cbn in Hsub. now apply sublist_nil_r in Hsub. }
  rewrite wp_bind.
  eapply wp_mono;
    [| |apply (removeSelected_consistent self v vkind (c0 :: sel0) true
                 NoElement st)];
    auto.
  - intros slot st' ([i ->] & Hc' & Hv' & Hr'). rewrite wp_ret.
    split; [assumption|]. split; [assumption|]. now apply consistent_slotReady.
  - intros c Hin. apply childRefs_elem in Hin.
    eapply elem_of_sublist; eauto.
  - apply sublist_childRefs in Hsub.
    eapply sublist_NoDup; [|exact Hsub].
    pose proof (proj2 Hc self) as Hnd. unfold members, membersOf in Hnd.
    unfold childrenIn. rewrite Hthis in *.
    now apply list.NoDup_app in Hnd as (Hnd & _).
Qed.

Lemma vacate_consistent self this p v vkind st :
  consistent st -> nodes st !! self = Some this -> valueReady st v vkind ->
  unflagged p ->
  wp (vacate self this p) (vacated v vkind self) consistent st.
Proof.
  destruct p; [intros; now apply vacate_number|apply vacate_name].
Qed.

Lemma afterThrow_consistent v st : consistent st -> afterThrow v st.
Proof. intros H. destruct v; first [exact H|exact I]. Qed.

Lemma replace_body settings self this p v vkind (cyclic : bool) st :
  consistent st -> nodes st !! self = Some this -> valueReady st v vkind ->
  unflagged p ->
  wp (if cyclic then throw (Thrown "Error in XML.prototype.replace()")
      else
        slot ← vacate self this p;
        match slot with
        | None => mret self
        | Some slot =>
          new ← adopt settings self v vkind;
          this ← getNode self;
          let cs := match _children this with Some cs => cs | None => [] end in
          setNode self
            (with_children
               (Some (match slot with
                      | AtIndex i => assignAt i (Some new) cs
                      | NoElement => cs
                      end)) this);;
          mret self
        end)
     (fun _ => consistent) (afterThrow v) st.
Proof.
  intros Hc Hthis Hr Hkey.
  pose proof (afterThrow_consistent v) as HE.
  destruct cyclic; [now apply HE|].
  rewrite wp_bind.
  eapply wp_mono; [| |apply (vacate_consistent self this p v vkind)]; auto.
  intros [[i|]|] st1 (Hv1 & Hr1 & Hs1); [|contradiction|exact Hs1].
  rewrite wp_bind.
  eapply wp_mono; [| |apply (adopt_ready settings self i v vkind)]; auto.
  2:{ intros st' [l ->]. exact I. }
  intros new st2 Hfill.
  rewrite wp_bind, wp_getNode.
  destruct Hfill as (Hs2 & Hv2 & Hrest).
  destruct (proj1 (valid_lookup _ _) Hv2) as [x Hx]. rewrite Hx.
  rewrite wp_bind, wp_setNode, wp_ret.
  apply (fill_slot_consistent st2 self i new x); [|assumption].
  split; [assumption|]. split; assumption.
Qed.

Lemma replace_consistent settings self p v st :
  consistent st ->
  (forall r, v = VXML r -> detached st r) ->
  unflagged p ->
  wp (replace settings self p v) (fun _ => consistent) (afterThrow v) st.
Proof.
  intros Hc Hdet Hkey. unfold replace.
  pose proof (afterThrow_consistent v st Hc) as HE.
  rewrite wp_bind, wp_getNode.
  destruct (nodes st !! self) as [this|] eqn:Hthis; [|assumption].
  destruct (isLeafKind (_kind this)); [assumption|].
  rewrite wp_bind.
  destruct v as [| |z|s|r|l]; try exact Hc.
  - rewrite wp_ret, wp_bind, wp_storeSize, wp_bind, wp_ret.
    now apply (replace_body settings self this p (VNumber z) None false).
  - rewrite wp_ret, wp_bind, wp_storeSize, wp_bind, wp_ret.
    now apply (replace_body settings self this p (VString s) None false).
  - rewrite wp_bind, wp_getNode.
    destruct (nodes st !! r) as [n|] eqn:Hn; [|assumption].
    destruct (bool_decide (_kind n = Unknown)) eqn:Hk; [assumption|].
    apply bool_decide_eq_false in Hk.
    rewrite wp_ret, wp_bind, wp_storeSize, wp_bind.
    assert (Hr : valueReady st (VXML r) (Some (_kind n))).
    { exists n. repeat split; auto. }
    apply wp_readOnly; [| |assumption].
    { destruct (_kind n); try apply readOnly_ret. apply readOnly_onParentChain. }
    intros cyclic.
    now apply (replace_body settings self this p (VXML r) (Some (_kind n)) cyclic).
  - rewrite wp_ret, wp_bind, wp_storeSize, wp_bind, wp_ret.
    now apply (replace_body settings self this p (VXMLList l) None false).
Qed.

(** *** Two trees in one store, and a child moved without being detached *)

Lemma consistent_emptyStore : consistent emptyStore.
Proof.
  assert (H : forall p, members emptyStore p = []).
  { intros p. apply members_invalid. unfold valid. simpl. lia. }
  split.
  - intros p c. rewrite H. intros Hin. now apply elem_of_nil in Hin.
  - intros p. rewrite H. constructor.
Qed.

Lemma consistent_twoTrees : consistent twoTrees.
Proof.
  assert (H : wp (parseFromString initialSettings (lit "<a><c/></a>");;
                  parseFromString initialSettings (lit "<b/>"))
                 (fun _ => consistent) consistent emptyStore).
  { rewrite wp_bind.
    eapply wp_mono; [| |apply parseFromString_consistent]; auto.
    - intros ? st' Hc. now apply parseFromString_consistent.
    - apply consistent_emptyStore. }
  apply wp_run in H.
  assert (E : twoTrees =
              fst ((parseFromString initialSettings (lit "<a><c/></a>");;
                    parseFromString initialSettings (lit "<b/>")) emptyStore))
    by (vm_compute; reflexivity).
  rewrite E.
  now destruct (snd ((parseFromString initialSettings (lit "<a><c/></a>");;
                      parseFromString initialSettings (lit "<b/>")) emptyStore)).
Qed.

Lemma consistent_sampleStore : consistent sampleStore.
Proof.
  pose proof (parseFromString_consistent initialSettings
                (lit "<a b='1'>t<c/></a>") emptyStore consistent_emptyStore) as H.
  unfold wp in H. vm_compute parseFromString in H. exact H.
Qed.

(** C8, counterexample.  In the consistent store of [<a><c/></a>] and
    [<b/>], [b.replace(0, c)] (and [b.insert(0, c)] alike) ends with [c]
    among the children of both [a] and [b], its parent reference being [b]:
    [c] is a member of [a] whose parent is not [a], and a member of two
    nodes. *)
Lemma replace_leaves_old_membership :
  consistent twoTrees /\
  members twoTrees 1 = [2] /\ members twoTrees 4 = [] /\
  parentIn twoTrees 2 = Some 1 /\
  replace initialSettings 4 (KNumber 0) (VXML 2) twoTrees = (sharedChild, OK 4) /\
  insert 4 0 2 twoTrees = (sharedChild, OK tt) /\
  members sharedChild 1 = [2] /\ members sharedChild 4 = [2] /\
  parentIn sharedChild 2 = Some 4.
Proof.
  split; [apply consistent_twoTrees|].
  repeat split; vm_compute; reflexivity.
Qed.

(** ** Deep copies *)

Lemma agree_refl lo hi st : hi <= length (nodes st) -> agree lo hi st st.
Proof.
  intros Hhi. split; [|auto].
  intros r Hr. destruct (lookup_lt_is_Some_2 (nodes st) r) as [n Hn]; [lia|].
  exists n, n. auto.
Qed.

Lemma agree_trans lo hi st1 st2 st3 :
  agree lo hi st1 st2 -> agree lo hi st2 st3 -> agree lo hi st1 st3.
Proof.
  intros [Hn1 Hq1] [Hn2 Hq2]. split; [|auto].
  intros r Hr.
  destruct (Hn1 r Hr) as (n & n' & H1 & H2 & E1).
  destruct (Hn2 r Hr) as (m & m' & H3 & H4 & E2).
  assert (m = n') by congruence. subst m.
  exists n, m'. repeat split; auto. congruence.
Qed.

Lemma agree_sub lo hi lo' hi' st st' :
  lo <= lo' -> hi' <= hi -> agree lo hi st st' -> agree lo' hi' st st'.
Proof.
  intros Hlo Hhi [Hn Hq]. split; [|auto]. intros r Hr. apply Hn. lia.
Qed.

Lemma agree_grows lo hi st st' :
  grows st st' -> hi <= length (nodes st) -> agree lo hi st st'.
Proof.
  intros [[extra Hn] Hq] Hhi. split.
  - intros r Hr. destruct (lookup_lt_is_Some_2 (nodes st) r) as [n Hr']; [lia|].
    exists n, n. rewrite Hn, lookup_app_l by lia. auto.
  - intros q qn. now rewrite Hq.
Qed.

Lemma agree_updNode lo hi st r n n' :
  hi <= length (nodes st) ->
  nodes st !! r = Some n ->
  (lo <= r < hi -> with_parent None n = with_parent None n') ->
  agree lo hi st (updNode r n' st).
Proof.
  intros Hhi Hr Hsame. split; [|auto].
  intros r' Hr'. rewrite (nodes_updNode _ _ _ _ Hr).
  destruct (decide (r' = r)) as [->|Hne].
  - exists n, n'. auto.
  - destruct (lookup_lt_is_Some_2 (nodes st) r') as [m Hm]; [lia|].
    exists m, m. auto.
Qed.

Lemma grows_refl st : grows st st.
Proof. split; [exists []; now rewrite app_nil_r|reflexivity]. Qed.

Lemma grows_trans st1 st2 st3 : grows st1 st2 -> grows st2 st3 -> grows st1 st3.
Proof.
  intros [[e1 H1] Q1] [[e2 H2] Q2]. split; [|congruence].
  exists (e1 ++ e2). now rewrite H2, H1, app_assoc.
Qed.

Lemma grows_length st st' : grows st st' -> length (nodes st) <= length (nodes st').
Proof. intros [[e H] _]. rewrite H, length_app. lia. Qed.

Lemma grows_addNode st n : grows st (addNode n st).
Proof. split; [now exists [n]|reflexivity]. Qed.

(** Writing to a node that [st] does not have. *)
Lemma grows_updNode st st' r n :
  grows st st' -> length (nodes st) <= r -> grows st (updNode r n st').
Proof.
  intros [[extra H] Q] Hr. split; [|exact Q].
  exists (<[r - length (nodes st) := n]> extra). simpl. rewrite H.
  now apply insert_app_r_alt.
Qed.

Lemma framed_agree lo hi d r st st' t :
  framed lo hi d r st t -> agree lo hi st st' -> framed lo hi d r st' t.
Proof. intros Hf Ha st'' Ha'. apply Hf. eapply agree_trans; eauto. Qed.

Lemma framed_sub lo hi lo' hi' d r st t :
  lo' <= lo -> hi <= hi' -> framed lo hi d r st t -> framed lo' hi' d r st t.
Proof. intros Hlo Hhi Hf st' Ha. apply Hf. eapply agree_sub; eauto. Qed.

Lemma mapM_readOnly_inv {A B} (f : A -> M B) l st st' bs :
  (forall a, readOnly (f a)) ->
  mapM f l st = (st', OK bs) ->
  st' = st /\ Forall2 (fun a b => f a st = (st, OK b)) l bs.
Proof.
  intros Hf. revert st' bs. induction l as [|a l IH]; intros st' bs; simpl.
  - intros H. injection H as <- <-. split; [reflexivity|constructor].
  - rewrite bind_run. pose proof (Hf a st) as Ha.
    destruct (f a st) as [st1 [b|e]] eqn:Hfa; [|discriminate].
    simpl in Ha. subst st1. rewrite bind_run.
    destruct (mapM f l st) as [st2 [bs'|e]] eqn:Hl; [|discriminate].
    destruct (IH st2 bs' eq_refl) as [-> Hall].
    intros H. injection H as <- <-. split; [reflexivity|].
    constructor; assumption.
Qed.

Lemma mapM_Forall2 {A B} (f : A -> M B) l st bs :
  Forall2 (fun a b => f a st = (st, OK b)) l bs ->
  mapM f l st = (st, OK bs).
Proof.
  induction 1 as [|a b l bs Ha _ IH]; simpl; [reflexivity|].
  now rewrite bind_run, Ha, bind_run, IH.
Qed.

Lemma same_but_parent n n' :
  with_parent None n = with_parent None n' ->
  _kind n' = _kind n /\ _name n' = _name n /\ _value n' = _value n /\
  _inScopeNamespaces n' = _inScopeNamespaces n /\
  _attributes n' = _attributes n /\ _children n' = _children n.
Proof.
  destruct n, n'. unfold with_parent. simpl. intros H.
  injection H as -> -> -> -> -> ->. auto 10.
Qed.

(** Reading a tree looks at the node's fields but the parent reference,
    at the names, and at the trees of its attributes and children. *)
Lemma snapshot_step depth r st st' n n' t :
  nodes st !! r = Some n -> nodes st' !! r = Some n' ->
  with_parent None n = with_parent None n' ->
  (forall (q : qref) qn, qnames st !! q = Some qn -> qnames st' !! q = Some qn) ->
  (forall a ta, snapshot depth a st = (st, OK ta) ->
                snapshot depth a st' = (st', OK ta)) ->
  snapshot (S depth) r st = (st, OK t) ->
  snapshot (S depth) r st' = (st', OK t).
Proof.
  intros Hn Hn' Hsame Hq IH. cbn [snapshot].
  rewrite !bind_run. unfold getNode. rewrite Hn, Hn'.
  unfold attributesOf, childrenOf.
  destruct (same_but_parent _ _ Hsame) as (-> & -> & -> & -> & -> & ->).
  rewrite !bind_run.
  assert (Hname : forall name,
    match _name n with
    | Some q => qn ← getQName q; mret (Some qn)
    | None => mret None
    end st = (st, OK name) ->
    match _name n with
    | Some q => qn ← getQName q; mret (Some qn)
    | None => mret None
    end st' = (st', OK name)).
  { intros name. destruct (_name n) as [q|].
    - rewrite !bind_run. unfold getQName.
      destruct (qnames st !! q) as [qn|] eqn:E; [|discriminate].
      rewrite (Hq _ _ E). intros H. injection H as <-. reflexivity.
    - intros H. injection H as <-. reflexivity. }
  destruct (match _name n with
            | Some q => qn ← getQName q; mret (Some qn)
            | None => mret None
            end st) as [st1 [name|e]] eqn:Hnm; [|now destruct (_kind n)].
  assert (st1 = st).
  { assert (Hro : readOnly (match _name n with
                            | Some q => qn ← getQName q; mret (Some qn)
                            | None => mret None
                            end : M (option ASQName))) by readOnly_auto.
    specialize (Hro st). rewrite Hnm in Hro. exact Hro. }
  subst st1. rewrite (Hname _ eq_refl).
  destruct (_kind n); try (intros H; injection H as <-; reflexivity).
  rewrite !bind_run.
  destruct (_inScopeNamespaces n) as [inScope|]; [|discriminate].
  simpl. rewrite !bind_run. unfold attributesOf.
  destruct (_attributes n) as [attrs|]; [|discriminate].
  simpl. rewrite !bind_run.
  destruct (mapM (snapshot depth) attrs st) as [st1 [ats|e]] eqn:Hat;
    [|discriminate].
  destruct (mapM_readOnly_inv _ _ _ _ _ (readOnly_snapshot depth) Hat)
    as [-> Hats].
  rewrite (mapM_Forall2 (snapshot depth) attrs st' ats).
  2:{ eapply list.Forall2_impl; [exact Hats|]. intros a ta. apply IH. }
  rewrite !bind_run. unfold childrenOf.
  destruct (_children n) as [cs|]; [|discriminate].
  simpl. rewrite !bind_run.
  set (f := fun c : option ref =>
              match c with
              | Some c => snapshot depth c
              | None => throw NativeTypeError
              end).
  assert (Hf : forall c, readOnly (f c)).
  { intros [c|]; [apply readOnly_snapshot|apply readOnly_throw]. }
  destruct (mapM f cs st) as [st1 [kids|e]] eqn:Hcs; [|discriminate].
  destruct (mapM_readOnly_inv _ _ _ _ _ Hf Hcs) as [-> Hkids].
  rewrite (mapM_Forall2 f cs st' kids).
  2:{ eapply list.Forall2_impl; [exact Hkids|]. intros [c|] tc; simpl.
      - apply IH.
      - discriminate. }
  intros H. injection H as <-. reflexivity.
Qed.

Lemma snapshot_agree depth : forall r st st' t,
  snapshot depth r st = (st, OK t) ->
  agree 0 (length (nodes st)) st st' ->
  snapshot depth r st' = (st', OK t).
Proof.
  induction depth as [|depth IH]; intros r st st' t H Ha; [discriminate|].
  destruct (nodes st !! r) as [n|] eqn:Hn.
  2:{ cbn [snapshot] in H. rewrite bind_run in H. unfold getNode in H.
      rewrite Hn in H. discriminate. }
  destruct Ha as [Hnodes Hq].
  destruct (Hnodes r) as (n0 & n' & Hn0 & Hn' & Hsame).
  { apply lookup_lt_Some in Hn. lia. }
  assert (n0 = n) by congruence. subst n0.
  apply (snapshot_step depth r st st' n n' t); auto.
  intros a ta Hta. apply (IH a st st' ta Hta). now split.
Qed.

Lemma holes_free depth st cs kids :
  Forall2 (fun c tc => match c with
                       | Some c => snapshot depth c
                       | None => throw NativeTypeError
                       end st = (st, OK tc)) cs kids ->
  exists rs, cs = map Some rs /\
             Forall2 (fun c tc => snapshot depth c st = (st, OK tc)) rs kids.
Proof.
  induction 1 as [|c tc cs kids Hc _ (rs & -> & IH)].
  - exists []. split; [reflexivity|constructor].
  - destruct c as [c|]; [|discriminate].
    exists (c :: rs). split; [reflexivity|now constructor].
Qed.

Lemma snapshot_inv depth r st t :
  snapshot (S depth) r st = (st, OK t) ->
  exists n, nodes st !! r = Some n /\
    if bool_decide (_kind n = Element) then readsElement depth st n t
    else exists name, nameAt st (_name n) name /\
                      t = mkXML (_kind n) name (_value n) [] [] [].
Proof.
  cbn [snapshot]. rewrite bind_run. unfold getNode.
  destruct (nodes st !! r) as [n|] eqn:Hn; [|discriminate].
  exists n. split; [reflexivity|].
  rewrite bind_run in H.
  assert (Hname : forall st1 name,
    match _name n with
    | Some q => qn ← getQName q; mret (Some qn)
    | None => mret None
    end st = (st1, OK name) -> st1 = st /\ nameAt st (_name n) name).
  { intros st1 name. unfold nameAt. destruct (_name n) as [q|].
    - rewrite bind_run. unfold getQName.
      destruct (qnames st !! q) as [qn|] eqn:E; [|discriminate].
      intros H0. injection H0 as <- <-. eauto.
    - intros H0. injection H0 as <- <-. auto. }
  destruct (match _name n with
            | Some q => qn ← getQName q; mret (Some qn)
            | None => mret None
            end st) as [st1 [name|e]] eqn:Hnm; [|now destruct (_kind n)].
  destruct (Hname _ _ eq_refl) as [-> Hna].
  destruct (_kind n) eqn:K; simpl;
    try (injection H as <-; exists name; now split).
  rewrite bind_run in H.
  destruct (_inScopeNamespaces n) as [inScope|] eqn:Hin; [|discriminate].
  simpl in H. rewrite bind_run in H. unfold attributesOf in H.
  destruct (_attributes n) as [attrs|] eqn:Hat; [|discriminate].
  simpl in H. rewrite bind_run in H.
  destruct (mapM (snapshot depth) attrs st) as [st1 [ats|e]] eqn:Hats;
    [|discriminate].
  destruct (mapM_readOnly_inv _ _ _ _ _ (readOnly_snapshot depth) Hats)
    as [-> Hats'].
  rewrite bind_run in H. unfold childrenOf in H.
  destruct (_children n) as [cs|] eqn:Hcs; [|discriminate].
  simpl in H. rewrite bind_run in H.
  set (f := fun c : option ref =>
              match c with
              | Some c => snapshot depth c
              | None => throw NativeTypeError
              end) in *.
  assert (Hf : forall c, readOnly (f c)).
  { intros [c|]; [apply readOnly_snapshot|apply readOnly_throw]. }
  destruct (mapM f cs st) as [st1 [kids|e]] eqn:Hkids; [|discriminate].
  destruct (mapM_readOnly_inv _ _ _ _ _ Hf Hkids) as [-> Hkids'].
  destruct (holes_free _ _ _ _ Hkids') as (rs & -> & Hrs).
  injection H as <-.
  exists name, inScope, attrs, ats, rs, kids. auto 10.
Qed.

Lemma mapM_map {A B C} (f : B -> M C) (g : A -> B) l st :
  mapM f (map g l) st = mapM (fun a => f (g a)) l st.
Proof.
  revert st. induction l as [|a l IH]; intros st; simpl; [reflexivity|].
  rewrite !bind_run. destruct (f (g a) st) as [st1 [c|e]]; [|reflexivity].
  rewrite !bind_run. now rewrite IH.
Qed.

Lemma snapshot_element depth r st n t :
  nodes st !! r = Some n -> _kind n = Element ->
  readsElement depth st n t ->
  snapshot (S depth) r st = (st, OK t).
Proof.
  intros Hn K (name & inScope & attrs & ats & cs & kids &
               Hna & Hin & Hat & Hats & Hcs & Hkids & ->).
  cbn [snapshot]. rewrite bind_run. unfold getNode. rewrite Hn.
  rewrite bind_run.
  assert (Hname : match _name n with
                  | Some q => qn ← getQName q; mret (Some qn)
                  | None => mret None
                  end st = (st, OK name)).
  { unfold nameAt in Hna. destruct (_name n) as [q|].
    - destruct Hna as (qn & Hq & ->). rewrite bind_run. unfold getQName.
      now rewrite Hq.
    - now subst name. }
  rewrite Hname, K. rewrite bind_run, Hin. simpl.
  rewrite bind_run. unfold attributesOf. rewrite Hat. simpl.
  rewrite bind_run, (mapM_Forall2 _ _ _ _ Hats).
  rewrite bind_run. unfold childrenOf. rewrite Hcs. simpl.
  rewrite bind_run, mapM_map. cbn beta iota.
  rewrite (mapM_Forall2 (fun a => snapshot depth a) cs st kids Hkids). reflexivity.
Qed.

Lemma snapshot_leaf depth r st n name :
  nodes st !! r = Some n -> _kind n <> Element ->
  nameAt st (_name n) name ->
  snapshot (S depth) r st = (st, OK (mkXML (_kind n) name (_value n) [] [] [])).
Proof.
  intros Hn K Hna.
  cbn [snapshot]. rewrite bind_run. unfold getNode. rewrite Hn.
  rewrite bind_run.
  assert (Hname : match _name n with
                  | Some q => qn ← getQName q; mret (Some qn)
                  | None => mret None
                  end st = (st, OK name)).
  { unfold nameAt in Hna. destruct (_name n) as [q|].
    - destruct Hna as (qn & Hq & ->). rewrite bind_run. unfold getQName.
      now rewrite Hq.
    - now subst name. }
  rewrite Hname. destruct (_kind n); try reflexivity. congruence.
Qed.

Lemma plain_element name value inScope attrs children :
  plain (mkXML Element name value inScope attrs children) = true ->
  value = [] /\ forallb nsValid inScope = true /\
  Forall (fun a => t_name a <> None /\ plain a = true) attrs /\
  Forall (fun c => plain c = true) children.
Proof.
  cbn [plain]. rewrite !andb_true_iff. intros [[[Hv Hns] Ha] Hc].
  split; [now destruct value|]. split; [assumption|]. split.
  - clear Hc. induction attrs as [|a l IH]; constructor.
    + rewrite !andb_true_iff in Ha. destruct Ha as [[Hn Hp] _].
      split; [now destruct (t_name a)|assumption].
    + apply IH. rewrite !andb_true_iff in Ha. tauto.
  - clear Ha. induction children as [|c l IH]; constructor.
    + rewrite andb_true_iff in Hc. tauto.
    + apply IH. rewrite andb_true_iff in Hc. tauto.
Qed.

Lemma newNamespace_valid ns :
  nsValid ns = true -> newNamespace (ns_prefix ns) (ns_uri ns) = OK ns.
Proof.
  destruct ns as [p u]. unfold nsValid, newNamespace. simpl.
  destruct u as [|c u]; [|reflexivity].
  destruct p as [[|c p]|]; simpl; try discriminate. reflexivity.
Qed.

Lemma copyNamespaces_valid l :
  forallb nsValid l = true -> copyNamespaces l = OK l.
Proof.
  induction l as [|ns l IH]; simpl; [reflexivity|].
  rewrite andb_true_iff. intros [Hns Hl].
  rewrite (newNamespace_valid _ Hns). simpl. rewrite (IH Hl). reflexivity.
Qed.

Lemma modifyNode_run r f st n :
  nodes st !! r = Some n -> modifyNode r f st = (updNode r (f n) st, OK tt).
Proof.
  intros Hn. unfold modifyNode. rewrite bind_run. unfold getNode.
  now rewrite Hn.
Qed.

(** The [map] over the attributes, and over the children. *)
Lemma copy_list {B} depth (inj : ref -> B) clone st0 :
  copies depth ->
  forall l ts st,
    Forall2 (fun a ta => snapshot depth a st0 = (st0, OK ta) /\
                         plain ta = true) l ts ->
    grows st0 st ->
    exists st' l',
      mapM (fun a => c' ← _deepCopy depth a;
                     modifyNode c' (with_parent (Some clone));;
                     mret (inj c')) l st = (st', OK (map inj l')) /\
      grows st st' /\
      Forall2 (fun a' ta => framed (length (nodes st)) (length (nodes st'))
                                   depth a' st' ta) l' ts.
Proof.
  intros IH l ts st Hall. revert st.
  induction Hall as [|a ta l ts [Ha Hp] _ IHl]; intros st Hg.
  - exists st, []. split; [reflexivity|]. split; [apply grows_refl|constructor].
  - assert (Ha' : snapshot depth a st = (st, OK ta)).
    { apply (snapshot_agree depth a st0); [assumption|].
      now apply agree_grows. }
    destruct (IH a st ta Ha' Hp) as (st1 & Hrun & Hg1 & Hlt & Hfr & _).
    destruct (lookup_lt_is_Some_2 (nodes st1) (length (nodes st)) Hlt)
      as [cn Hcn].
    set (st2 := updNode (length (nodes st)) (with_parent (Some clone) cn) st1).
    assert (Hg2 : grows st st2) by (apply grows_updNode; [assumption|lia]).
    assert (Hlen2 : length (nodes st2) = length (nodes st1)).
    { unfold st2, updNode. simpl. now rewrite length_insert. }
    assert (Ha2 : agree (length (nodes st)) (length (nodes st1)) st1 st2).
    { apply (agree_updNode _ _ _ _ cn); [lia|assumption|reflexivity]. }
    destruct (IHl st2 (grows_trans _ _ _ Hg Hg2)) as (st3 & l' & Hrun3 & Hg3 & Hfr3).
    exists st3, (length (nodes st) :: l'). split; [|split].
    + cbn [mapM]. rewrite bind_run, bind_run, Hrun.
      rewrite bind_run, (modifyNode_run _ _ _ _ Hcn). fold st2.
      cbn [mret M_ret]. rewrite bind_run, Hrun3. reflexivity.
    + eapply grows_trans; eauto.
    + pose proof (grows_length _ _ Hg3) as Hl3.
      constructor.
      * apply (framed_sub (length (nodes st)) (length (nodes st1)));
          [lia|lia|].
        eapply framed_agree; [eapply framed_agree; [exact Hfr|exact Ha2]|].
        apply agree_grows; [assumption|lia].
      * eapply list.Forall2_impl; [exact Hfr3|].
        intros a' ta' Hf. eapply framed_sub; [| |exact Hf]; lia.
Qed.

Lemma lookup_grows st st' (r : ref) n :
  grows st st' -> nodes st !! r = Some n -> nodes st' !! r = Some n.
Proof.
  intros [[extra H] _] Hr. rewrite H. apply lookup_app_l_Some. exact Hr.
Qed.

Lemma lookup_updNode_same st (r : ref) n n' :
  nodes st !! r = Some n -> nodes (updNode r n' st) !! r = Some n'.
Proof. intros Hr. rewrite (nodes_updNode _ _ _ _ Hr). now rewrite decide_True. Qed.

Lemma length_updNode st r n : length (nodes (updNode r n st)) = length (nodes st).
Proof. unfold updNode. simpl. apply length_insert. Qed.

Lemma nameAt_agree lo hi st st' o name :
  agree lo hi st st' -> nameAt st o name -> nameAt st' o name.
Proof.
  intros [_ Hq]. unfold nameAt. destruct o as [q|]; [|auto].
  intros (qn & H & ->). eauto.
Qed.

Lemma framed_leaf lo hi depth (c : ref) st cn name :
  lo <= c < hi ->
  nodes st !! c = Some cn -> _kind cn <> Element ->
  nameAt st (_name cn) name ->
  framed lo hi (S depth) c st (mkXML (_kind cn) name (_value cn) [] [] []).
Proof.
  intros Hc Hcn K Hna st' Ha.
  destruct (proj1 Ha c Hc) as (n & n' & Hn & Hn' & Hsame).
  assert (n = cn) by congruence. subst n.
  destruct (same_but_parent _ _ Hsame) as (Hk & Hnm & Hv & _).
  rewrite <- Hk, <- Hv. apply snapshot_leaf; [assumption|congruence|].
  rewrite Hnm. eapply nameAt_agree; eauto.
Qed.

Lemma framed_element lo hi depth (c : ref) st cn name inScope attrs ats cs kids :
  lo <= c < hi ->
  nodes st !! c = Some cn -> _kind cn = Element ->
  nameAt st (_name cn) name ->
  _inScopeNamespaces cn = Some inScope ->
  _attributes cn = Some attrs ->
  Forall2 (fun a ta => framed lo hi depth a st ta) attrs ats ->
  _children cn = Some (map Some cs) ->
  Forall2 (fun a ta => framed lo hi depth a st ta) cs kids ->
  framed lo hi (S depth) c st (mkXML Element name (_value cn) inScope ats kids).
Proof.
  intros Hc Hcn K Hna Hin Hat Hats Hcs Hkids st' Ha.
  destruct (proj1 Ha c Hc) as (n & n' & Hn & Hn' & Hsame).
  assert (n = cn) by congruence. subst n.
  destruct (same_but_parent _ _ Hsame) as (Hk & Hnm & Hv & Hi & Hat' & Hcs').
  apply (snapshot_element depth c st' n'); [assumption|congruence|].
  exists name, inScope, attrs, ats, cs, kids.
  rewrite Hnm, Hi, Hat', Hcs', Hv.
  split; [eapply nameAt_agree; eauto|].
  repeat split; auto.
  - eapply list.Forall2_impl; [exact Hats|]. intros a ta Hf. now apply Hf.
  - eapply list.Forall2_impl; [exact Hkids|]. intros a ta Hf. now apply Hf.
Qed.

Lemma deepCopy_copies depth : copies depth.
Proof.
  induction depth as [|depth IH]; intros x st t Hs Hp; [discriminate|].
  destruct (snapshot_inv _ _ _ _ Hs) as (n & Hn & Hcase).
  set (n0 := length (nodes st) : ref).
  set (blank := mkNode Text None [] None None None None).
  set (st1 := addNode blank st).
  assert (H1 : nodes st1 !! n0 = Some blank)
    by (apply list_lookup_middle; reflexivity).
  set (c2 := with_name (_name n) (with_kind (_kind n) blank)).
  set (st2 := updNode n0 c2 st1).
  assert (H2 : nodes st2 !! n0 = Some c2)
    by apply (lookup_updNode_same _ _ _ _ H1).
  assert (G2 : grows st st2).
  { apply grows_updNode; [apply grows_addNode|unfold n0; lia]. }
  assert (L2 : length (nodes st2) = S n0).
  { unfold st2. rewrite length_updNode. unfold st1, addNode. simpl.
    rewrite length_app. simpl. unfold n0. lia. }
  destruct (bool_decide (_kind n = Element)) eqn:K.
  - (* an element *)
    apply bool_decide_eq_true in K.
    destruct Hcase as (name & inScope & attrs & ats & cs & kids &
                       Hna & Hin & Hat & Hats & Hcs & Hkids & ->).
    destruct (plain_element _ _ _ _ _ Hp) as (Hv & Hns & Hpa & Hpk).
    set (c3 := with_inScopeNamespaces (Some []) c2).
    set (st3 := updNode n0 c3 st2).
    assert (H3 : nodes st3 !! n0 = Some c3)
      by apply (lookup_updNode_same _ _ _ _ H2).
    set (c4 := with_inScopeNamespaces (Some inScope) c3).
    set (st4 := updNode n0 c4 st3).
    assert (H4 : nodes st4 !! n0 = Some c4)
      by apply (lookup_updNode_same _ _ _ _ H3).
    assert (G4 : grows st st4).
    { apply grows_updNode; [|unfold n0; lia].
      apply grows_updNode; [assumption|unfold n0; lia]. }
    assert (L4 : length (nodes st4) = S n0).
    { unfold st4, st3. now rewrite !length_updNode. }
    (* the attributes *)
    destruct (copy_list depth (fun a => a) n0 st IH attrs ats st4)
      as (st5 & attrs' & Hrun5 & G5 & F5); [|assumption|].
    { clear - Hats Hpa. induction Hats; inversion Hpa; subst; constructor;
        [tauto|auto]. }
    rewrite map_id in Hrun5.
    assert (H5 : nodes st5 !! n0 = Some c4) by (eapply lookup_grows; eauto).
    set (c6 := with_attributes (Some attrs') c4).
    set (st6 := updNode n0 c6 st5).
    assert (H6 : nodes st6 !! n0 = Some c6)
      by apply (lookup_updNode_same _ _ _ _ H5).
    assert (G6 : grows st st6).
    { apply grows_updNode; [|unfold n0; lia]. eapply grows_trans; eauto. }
    pose proof (grows_length _ _ G5) as L5.
    assert (L6 : length (nodes st6) = length (nodes st5))
      by apply length_updNode.
    (* the children *)
    destruct (copy_list depth Some n0 st IH cs kids st6)
      as (st7 & cs' & Hrun7 & G7 & F7); [|assumption|].
    { clear - Hkids Hpk. induction Hkids; inversion Hpk; subst; constructor;
        [tauto|auto]. }
    assert (H7 : nodes st7 !! n0 = Some c6) by (eapply lookup_grows; eauto).
    set (c8 := with_children (Some (map Some cs')) c6).
    set (st8 := updNode n0 c8 st7).
    assert (H8 : nodes st8 !! n0 = Some c8)
      by apply (lookup_updNode_same _ _ _ _ H7).
    pose proof (grows_length _ _ G7) as L7.
    assert (L8 : length (nodes st8) = length (nodes st7))
      by apply length_updNode.
    exists st8. split; [|split; [|split; [|split]]].
    + cbn [_deepCopy]. rewrite bind_run. unfold getNode. rewrite Hn.
      rewrite bind_run. change (newASXML st) with (st1, OK n0).
      cbn iota. rewrite bind_run, (modifyNode_run _ _ _ _ H1). fold c2 st2.
      rewrite K.
      rewrite bind_run, (modifyNode_run _ _ _ _ H2). fold c3 st3.
      rewrite bind_run, Hin. unfold lift.
      rewrite (copyNamespaces_valid _ Hns).
      rewrite bind_run, (modifyNode_run _ _ _ _ H3). fold c4 st4.
      rewrite bind_run. unfold attributesOf. rewrite Hat.
      cbn [mret M_ret]. rewrite bind_run, Hrun5.
      rewrite bind_run, (modifyNode_run _ _ _ _ H5). fold c6 st6.
      rewrite bind_run. unfold childrenOf. rewrite Hcs.
      cbn [mret M_ret]. rewrite bind_run, mapM_map. cbn beta iota.
      rewrite Hrun7.
      rewrite bind_run, (modifyNode_run _ _ _ _ H7). reflexivity.
    + apply grows_updNode; [|unfold n0; lia].
      eapply grows_trans; [exact G6|exact G7].
    + fold n0. lia.
    + fold n0. rewrite L8.
      assert (Hval : _value c8 = []) by reflexivity.
      rewrite Hv, <- Hval.
      apply (framed_element n0 (length (nodes st7)) depth n0 st8 c8 name
               inScope attrs' ats cs' kids); auto.
      * lia.
      * destruct G2 as [_ Q2]. destruct G7 as [_ Q7]. destruct G6 as [_ Q6].
        unfold nameAt in *. simpl.
        destruct (_name n) as [q|]; [|assumption].
        destruct Hna as (qn & Hq & ->). exists qn. split; [|reflexivity].
        simpl. now rewrite Q7, Q6.
      * eapply list.Forall2_impl; [exact F5|]. intros a ta Hf.
        apply (framed_sub (length (nodes st4)) (length (nodes st5))); [lia|lia|].
        eapply framed_agree; [exact Hf|].
        eapply agree_trans; [|eapply agree_trans].
        -- apply (agree_updNode _ _ st5 n0 c4 c6); [lia|assumption|lia].
        -- apply (agree_grows _ _ st6 st7); [assumption|lia].
        -- apply (agree_updNode _ _ st7 n0 c6 c8); [lia|assumption|lia].
      * eapply list.Forall2_impl; [exact F7|]. intros a ta Hf.
        apply (framed_sub (length (nodes st6)) (length (nodes st7))); [lia|lia|].
        eapply framed_agree; [exact Hf|].
        apply (agree_updNode _ _ st7 n0 c6 c8); [lia|assumption|lia].
    + unfold parentIn. fold n0. now rewrite H8.
  - (* a leaf *)
    apply bool_decide_eq_false in K.
    destruct Hcase as (name & Hna & ->).
    set (c3 := with_value (_value n) c2).
    set (st3 := updNode n0 c3 st2).
    assert (H3 : nodes st3 !! n0 = Some c3)
      by apply (lookup_updNode_same _ _ _ _ H2).
    assert (L3 : length (nodes st3) = S n0).
    { unfold st3. now rewrite length_updNode. }
    assert (Hkind : _kind n <> Unknown).
    { intros E. rewrite E in Hp. discriminate. }
    exists st3. split; [|split; [|split; [|split]]].
    + cbn [_deepCopy]. rewrite bind_run. unfold getNode. rewrite Hn.
      rewrite bind_run. change (newASXML st) with (st1, OK n0).
      cbn iota. rewrite bind_run, (modifyNode_run _ _ _ _ H1). fold c2 st2.
      destruct (_kind n); try congruence;
        now rewrite bind_run, (modifyNode_run _ _ _ _ H2).
    + apply grows_updNode; [assumption|unfold n0; lia].
    + fold n0. lia.
    + fold n0. rewrite L3.
      change (_kind n) with (_kind c3). change (_value n) with (_value c3).
      apply framed_leaf; [lia|assumption|exact K|].
      destruct G2 as [_ Q2]. unfold nameAt in *. simpl.
      destruct (_name n) as [q|]; [|assumption].
      destruct Hna as (qn & Hq & ->). exists qn. split; [|reflexivity].
      simpl. exact Hq.
    + unfold parentIn. fold n0. now rewrite H3.
Qed.

(** *** A plain tree equals itself *)

Lemma jsstring_eqb_refl a : jsstring_eqb a a = true.
Proof. unfold jsstring_eqb. now apply bool_decide_eq_true. Qed.

Lemma qname_equals_refl q : qname_equals q q = true.
Proof.
  unfold qname_equals. rewrite jsstring_eqb_refl, andb_true_r.
  now apply bool_decide_eq_true.
Qed.

Lemma equals_unfold settings this other :
  equals settings this other =
  if isTextOrAttribute this && hasSimpleContent other ||
     isTextOrAttribute other && hasSimpleContent this
  then
    a ← ASXML_toString settings this;
    b ← ASXML_toString settings other;
    OK (jsstring_eqb a b)
  else deepEqualsWith (equals settings) this other.
Proof. destruct this; reflexivity. Qed.

Lemma findPartner_self a l :
  Forall (fun o => t_name o <> None) l -> a ∈ l ->
  findPartner a l = OK true.
Proof.
  intros Hall Hin.
  assert (Ha : t_name a <> None).
  { rewrite list.Forall_forall in Hall. now apply Hall. }
  induction Hall as [|o l Ho _ IH]; [now apply elem_of_nil in Hin|].
  cbn [findPartner]. unfold attributeMatches.
  destruct (t_name o) as [on|] eqn:Eo; [|congruence].
  apply elem_of_cons in Hin. destruct Hin as [->|Hin].
  - rewrite Eo. simpl. now rewrite qname_equals_refl, jsstring_eqb_refl.
  - destruct (t_name a) as [an|] eqn:Ea; [|congruence]. simpl.
    destruct (qname_equals on an && jsstring_eqb (t_value o) (t_value a));
      [reflexivity|auto].
Qed.

Lemma attributesMatch_self l l' :
  Forall (fun o => t_name o <> None) l' -> l ⊆ l' ->
  attributesMatch l l' = OK true.
Proof.
  intros Hnames. induction l as [|a l IH]; intros Hsub; [reflexivity|].
  cbn [attributesMatch]. rewrite (findPartner_self a l' Hnames).
  - simpl. apply IH. intros x Hx. apply Hsub. now right.
  - apply Hsub. now left.
Qed.

Lemma childrenEqual_self (eq : XMLTree -> XMLTree -> result bool) l :
  Forall (fun c => eq c c = OK true) l -> childrenEqual eq l l = OK true.
Proof.
  induction 1 as [|c l Hc _ IH]; [reflexivity|].
  cbn [childrenEqual]. rewrite Hc. simpl. exact IH.
Qed.

Lemma equals_refl settings t : plain t = true -> equals settings t t = OK true.
Proof.
  induction t as [kind name value inScope attrs children IHa IHc]
    using XMLTree_induction.
  intros Hp. rewrite equals_unfold.
  assert (Hnames : namesDiffer (mkXML kind name value inScope attrs children)
                               (mkXML kind name value inScope attrs children)
                   = false).
  { unfold namesDiffer. simpl. destruct name; [|reflexivity].
    now rewrite qname_equals_refl. }
  destruct kind; try discriminate.
  - (* Element *)
    destruct (plain_element _ _ _ _ _ Hp) as (_ & _ & Hpa & Hpc).
    replace (isTextOrAttribute (mkXML Element name value inScope attrs children))
      with false by reflexivity.
    simpl orb. cbv iota.
    unfold deepEqualsWith. rewrite Hnames. simpl.
    rewrite !Nat.eqb_refl. simpl.
    rewrite attributesMatch_self;
      [|eapply list.Forall_impl; [exact Hpa|]; intros a [Ha _]; exact Ha
       |intros a Ha; exact Ha].
    simpl. apply childrenEqual_self.
    rewrite list.Forall_forall in IHc, Hpc. apply list.Forall_forall. intros c Hc.
    auto.
  - (* Attribute *)
    unfold isTextOrAttribute, hasSimpleContent, ASXML_toString. simpl.
    now rewrite jsstring_eqb_refl.
  - (* Text *)
    unfold isTextOrAttribute, hasSimpleContent, ASXML_toString. simpl.
    now rewrite jsstring_eqb_refl.
  - (* Comment *)
    unfold isTextOrAttribute, hasSimpleContent. simpl.
    unfold deepEqualsWith. rewrite Hnames. simpl.
    now rewrite jsstring_eqb_refl.
  - (* ProcessingInstruction *)
    unfold isTextOrAttribute, hasSimpleContent. simpl.
    unfold deepEqualsWith. rewrite Hnames. simpl.
    now rewrite jsstring_eqb_refl.
Qed.

Lemma deepEquals_refl settings t :
  plain t = true -> _deepEquals settings t t = OK true.
Proof.
  intros Hp. pose proof (equals_refl settings t Hp) as He.
  rewrite equals_unfold in He. unfold _deepEquals.
  destruct t as [kind name value inScope attrs children].
  destruct kind; try discriminate; try exact He.
  - unfold deepEqualsWith. simpl.
    unfold namesDiffer. simpl. destruct name; simpl;
      rewrite ?qname_equals_refl; simpl; now rewrite jsstring_eqb_refl.
  - unfold deepEqualsWith. simpl.
    unfold namesDiffer. simpl. destruct name; simpl;
      rewrite ?qname_equals_refl; simpl; now rewrite jsstring_eqb_refl.
Qed.

(** *** The copy of a parsed element *)

(** C2, counterexample.  The copy of the parsed [<a/>] has the name object
    of the original ([clone._name = this._name]); [setUri] on the name of
    the copy leaves every node as it is and changes the tree read at the
    original: its name has the uri [u]. *)
Lemma deepCopy_shares_the_name :
  _deepCopy 1 1 oneElement = (withCopy, OK 2) /\
  _name <$> nodes withCopy !! 1 = Some (Some 1) /\
  _name <$> nodes withCopy !! 2 = Some (Some 1) /\
  setUri 1 (lit "u") withCopy = (copyRenamed, OK tt) /\
  nodes copyRenamed = nodes withCopy /\
  snapshot 1 1 withCopy =
    (withCopy,
     OK (mkXML Element
           (Some (mkQName (Some (mkNamespace (Some []) [])) (lit "a") 2))
           [] [] [] [])) /\
  snapshot 1 1 copyRenamed =
    (copyRenamed,
     OK (mkXML Element
           (Some (mkQName (Some (mkNamespace (Some []) (lit "u"))) (lit "a") 2))
           [] [] [] [])).
Proof. repeat split; vm_compute; reflexivity. Qed.

(** C2, amended.  Let the node [x] read as the plain tree [t] (kinds other
    than [Unknown], elements with valid in-scope namespaces, attributes with
    names).  Then [_deepCopy] returns, and it returns a node that was not
    there before; the nodes that were there and all name objects are as
    they were; the copy has no parent; the copy reads as the same tree [t],
    which [_deepEquals] itself; and the two are independent node by node:
    [x] still reads as [t] in every store that has the old nodes and the
    names, whatever happened to the nodes of the copy, and the copy still
    reads as [t] in every store that has the new nodes and the names,
    whatever happened to the old ones.  The name objects are shared. *)
Theorem deepCopy_equal_and_independent settings depth x st t :
  snapshot depth x st = (st, OK t) ->
  plain t = true ->
  exists st',
    _deepCopy depth x st = (st', OK (length (nodes st))) /\
    grows st st' /\
    parentIn st' (length (nodes st)) = None /\
    snapshot depth x st' = (st', OK t) /\
    snapshot depth (length (nodes st)) st' = (st', OK t) /\
    _deepEquals settings t t = OK true /\
    (forall st'', agree 0 (length (nodes st)) st' st'' ->
                  snapshot depth x st'' = (st'', OK t)) /\
    (forall st'', agree (length (nodes st)) (length (nodes st')) st' st'' ->
                  snapshot depth (length (nodes st)) st'' = (st'', OK t)).
Proof.
  intros Hs Hp.
  destruct (deepCopy_copies depth x st t Hs Hp)
    as (st' & Hrun & Hg & Hlt & Hfr & Hpar).
  assert (Hx : forall st'', agree 0 (length (nodes st)) st' st'' ->
                            snapshot depth x st'' = (st'', OK t)).
  { intros st'' Ha. apply (snapshot_agree depth x st); [assumption|].
    eapply agree_trans; [|exact Ha]. now apply agree_grows. }
  exists st'. repeat split; try assumption.
  - apply Hg.
  - apply Hg.
  - apply Hx. apply agree_refl. now apply grows_length.
  - apply Hfr. now apply agree_refl.
  - now apply deepEquals_refl.
Qed.

Lemma deepCopy_equal_and_independent_witness :
  exists st',
    _deepCopy 3 1 sampleStore = (st', OK (length (nodes sampleStore))) /\
    grows sampleStore st' /\
    parentIn st' (length (nodes sampleStore)) = None /\
    snapshot 3 1 st' = (st', OK sampleTree) /\
    snapshot 3 (length (nodes sampleStore)) st' = (st', OK sampleTree) /\
    _deepEquals initialSettings sampleTree sampleTree = OK true /\
    (forall st'', agree 0 (length (nodes sampleStore)) st' st'' ->
                  snapshot 3 1 st'' = (st'', OK sampleTree)) /\
    (forall st'', agree (length (nodes sampleStore)) (length (nodes st')) st' st'' ->
                  snapshot 3 (length (nodes sampleStore)) st'' =
                  (st'', OK sampleTree)).
Proof.
  apply (deepCopy_equal_and_independent initialSettings 3 1 sampleStore sampleTree);
    vm_compute; reflexivity.
Defined.

(** ** Parent/child consistency: setProperty, and the statement *)

Lemma lookup_last_node st (n : ASXML) :
  (nodes st ++ [n]) !! (length (nodes st) : ref) = Some n.
Proof. now apply list_lookup_middle. Qed.

(** *** Deep copies keep the store consistent *)

Lemma orphan_detached st c : consistent st -> parentIn st c = None -> detached st c.
Proof.
  intros [Hl _] Hp q Hin. destruct (Hl _ _ Hin) as [_ H]. congruence.
Qed.

Lemma reparent_detached st c n o :
  consistent st -> detached st c -> nodes st !! c = Some n ->
  consistent (updNode c (with_parent o n) st).
Proof.
  intros [Hl Hd] Hdet Hc. split.
  - intros q m. rewrite (members_same _ _ _ _ Hc) by reflexivity. intros Hin.
    destruct (Hl _ _ Hin) as [Hv Hp]. split; [now apply valid_updNode|].
    rewrite (parentIn_upd _ _ _ _ _ Hc).
    destruct (decide (m = c)) as [->|]; [|assumption].
    now destruct (Hdet q).
  - intros q. rewrite (members_same _ _ _ _ Hc) by reflexivity. apply Hd.
Qed.

Lemma grows_lookup st st' (r : ref) :
  grows st st' -> valid st r -> nodes st' !! r = nodes st !! r.
Proof.
  intros [[extra H] _] Hv. rewrite H. now apply lookup_app_l.
Qed.

Lemma grows_parentIn st st' c :
  grows st st' -> valid st c -> parentIn st' c = parentIn st c.
Proof. intros Hg Hv. unfold parentIn. now rewrite (grows_lookup _ _ _ Hg Hv). Qed.

Lemma grows_valid st st' r : grows st st' -> valid st r -> valid st' r.
Proof. intros Hg Hv. apply grows_length in Hg. unfold valid in *. lia. Qed.

Lemma madeFor_later st0 st st' clone rs :
  length (nodes st0) <= length (nodes st) ->
  grows st st' -> madeFor st0 clone rs st -> madeFor st0 clone rs st'.
Proof.
  intros Hle Hg [Hnd Hall]. split; [assumption|].
  eapply list.Forall_impl; [exact Hall|]. cbn beta.
  intros r [Hr Hp]. pose proof (grows_length _ _ Hg). split; [lia|].
  rewrite (grows_parentIn _ _ _ Hg); [assumption|]. unfold valid. lia.
Qed.

(** One member of the copy: copied, then given the clone as its parent. *)
Lemma copy_one (copy : ref -> M ref) clone c st :
  (forall a st, consistent st ->
     wp (copy a) (fun c st' => copied st c st')
        (fun st' => consistent st' /\ grows st st') st) ->
  consistent st ->
  wp (c' ← copy c; modifyNode c' (with_parent (Some clone));; mret c')
     (fun c' st' => consistent st' /\ grows st st' /\ c' = length (nodes st) /\
                    valid st' c' /\ parentIn st' c' = Some clone)
     (fun st' => consistent st' /\ grows st st') st.
Proof.
  intros Hcopy Hc. rewrite wp_bind.
  eapply wp_mono; [| |exact (Hcopy c st Hc)]; [|auto].
  intros c' st1 (Hc1 & Hg1 & -> & Hv1 & Hp1).
  rewrite wp_bind, wp_modifyNode.
  destruct (nodes st1 !! (length (nodes st) : ref)) as [n|] eqn:Hn.
  2:{ apply valid_lookup in Hv1. rewrite Hn in Hv1. now destruct Hv1. }
  rewrite wp_ret. split; [|split; [|split; [|split]]].
  - apply reparent_detached; auto. now apply orphan_detached.
  - now apply grows_updNode.
  - reflexivity.
  - now apply valid_updNode.
  - rewrite (parentIn_upd _ _ _ _ _ Hn). now rewrite decide_True.
Qed.

Lemma copy_attributes (copy : ref -> M ref) clone l :
  (forall a st, consistent st ->
     wp (copy a) (fun c st' => copied st c st')
        (fun st' => consistent st' /\ grows st st') st) ->
  forall st, consistent st ->
    wp (mapM (fun attr => attr' ← copy attr;
                          modifyNode attr' (with_parent (Some clone));;
                          mret attr') l)
       (fun rs st' => consistent st' /\ grows st st' /\ madeFor st clone rs st')
       (fun st' => consistent st' /\ grows st st') st.
Proof.
  intros Hcopy. induction l as [|a l IH]; intros st Hc.
  - cbn [mapM]. rewrite wp_ret.
    split; [assumption|]. split; [apply grows_refl|]. split; constructor.
  - cbn [mapM]. rewrite wp_bind.
    eapply wp_mono; [| |exact (copy_one copy clone a st Hcopy Hc)]; [|auto].
    intros c st1 (Hc1 & Hg1 & -> & Hv1 & Hp1). rewrite wp_bind.
    eapply wp_mono; [| |exact (IH st1 Hc1)].
    + intros rs st2 (Hc2 & Hg2 & Hnd & Hall). rewrite wp_ret.
      pose proof (grows_length _ _ Hg1). pose proof (grows_length _ _ Hg2).
      split; [assumption|]. split; [eapply grows_trans; eauto|]. split.
      * apply list.NoDup_cons. split; [|assumption].
        intros Hin. rewrite list.Forall_forall in Hall.
        destruct (Hall _ Hin) as [Hr _]. unfold valid in Hv1. lia.
      * constructor.
        -- unfold valid in Hv1. split; [lia|].
           now rewrite (grows_parentIn _ _ _ Hg2 Hv1).
        -- eapply list.Forall_impl; [exact Hall|]. cbn beta.
           intros r [Hr Hp]. split; [lia|assumption].
    + intros st2 [Hc2 Hg2]. split; [assumption|eapply grows_trans; eauto].
Qed.

Lemma copy_children (copy : ref -> M ref) clone l :
  (forall a st, consistent st ->
     wp (copy a) (fun c st' => copied st c st')
        (fun st' => consistent st' /\ grows st st') st) ->
  forall st, consistent st ->
    wp (mapM (fun child : option ref =>
                match child with
                | None => mret None
                | Some c =>
                  c' ← copy c;
                  modifyNode c' (with_parent (Some clone));;
                  mret (Some c')
                end) l)
       (fun rs st' => consistent st' /\ grows st st' /\
                      madeFor st clone (childRefs rs) st')
       (fun st' => consistent st' /\ grows st st') st.
Proof.
  intros Hcopy. induction l as [|a l IH]; intros st Hc.
  - cbn [mapM]. rewrite wp_ret.
    split; [assumption|]. split; [apply grows_refl|]. split; constructor.
  - cbn [mapM]. rewrite wp_bind. destruct a as [a|].
    + pose proof (copy_one copy clone a st Hcopy Hc) as Hone.
      rewrite wp_bind in Hone. rewrite wp_bind.
      eapply wp_mono; [| |exact Hone]; [|auto].
      intros c' st0. cbn beta. rewrite !wp_bind.
      apply wp_mono; [|auto]. intros [] st1. rewrite !wp_ret.
      intros (Hc1 & Hg1 & -> & Hv1 & Hp1). rewrite wp_bind.
      eapply wp_mono; [| |exact (IH st1 Hc1)].
      * intros rs st2 (Hc2 & Hg2 & Hnd & Hall). rewrite wp_ret.
        pose proof (grows_length _ _ Hg1). pose proof (grows_length _ _ Hg2).
        split; [assumption|]. split; [eapply grows_trans; eauto|].
        change (childRefs (Some (length (nodes st)) :: rs))
          with (length (nodes st) :: childRefs rs). split.
        -- apply list.NoDup_cons. split; [|assumption].
           intros Hin. rewrite list.Forall_forall in Hall.
           destruct (Hall _ Hin) as [Hr _]. unfold valid in Hv1. lia.
        -- constructor.
           ++ unfold valid in Hv1. split; [lia|].
              now rewrite (grows_parentIn _ _ _ Hg2 Hv1).
           ++ eapply list.Forall_impl; [exact Hall|]. cbn beta.
              intros r [Hr Hp]. split; [lia|assumption].
      * intros st2 [Hc2 Hg2]. split; [assumption|eapply grows_trans; eauto].
    + rewrite wp_ret, wp_bind.
      eapply wp_mono; [| |exact (IH st Hc)]; [|auto].
      intros rs st2 H. rewrite wp_ret. exact H.
Qed.

(** Writing to the clone while it is built. *)
Lemma copied_update st clone st1 (n n' : ASXML) :
  copied st clone st1 ->
  nodes st1 !! (clone : ref) = Some n ->
  _parent n' = _parent n ->
  NoDup (membersOf n') ->
  (forall m, m ∈ membersOf n' -> valid st1 m /\ parentIn st1 m = Some clone) ->
  copied st clone (updNode clone n' st1).
Proof.
  intros (Hc & Hg & -> & Hv & Hp) Hn Hpar Hnd Hms.
  assert (Hpn : _parent n = None).
  { unfold parentIn in Hp. now rewrite Hn in Hp. }
  split; [|split; [|split; [|split]]].
  - apply (consistent_rewire st1 _ (length (nodes st)) (membersOf n')); auto.
    + intros r. apply valid_updNode.
    + intros q. apply (members_upd _ _ _ _ _ Hn).
    + intros m Hin. destruct (Hms _ Hin) as [Hvm Hpm]. split; [assumption|].
      rewrite (parentIn_upd _ _ _ _ _ Hn).
      destruct (decide (m = length (nodes st))) as [->|]; [congruence|assumption].
    + intros q m _ _. rewrite (parentIn_upd _ _ _ _ _ Hn).
      destruct (decide (m = length (nodes st))) as [->|]; [|reflexivity].
      rewrite Hpar, Hpn. now symmetry.
  - now apply grows_updNode.
  - reflexivity.
  - now apply valid_updNode.
  - rewrite (parentIn_upd _ _ _ _ _ Hn), decide_True by reflexivity. congruence.
Qed.

Lemma copied_shape st clone st1 (n n' : ASXML) :
  copied st clone st1 ->
  nodes st1 !! (clone : ref) = Some n ->
  membersOf n' = membersOf n -> _parent n' = _parent n ->
  copied st clone (updNode clone n' st1).
Proof.
  intros H Hn Hm Hp. pose proof H as ([Hl Hd] & _).
  assert (Hms : members st1 clone = membersOf n).
  { unfold members. now rewrite Hn. }
  apply (copied_update _ _ _ n); auto.
  - rewrite Hm, <- Hms. apply Hd.
  - intros m Hin. apply Hl. now rewrite Hms, <- Hm.
Qed.

Lemma copied_later st clone st1 st2 :
  copied st clone st1 -> consistent st2 -> grows st1 st2 -> copied st clone st2.
Proof.
  intros (Hc & Hg & -> & Hv & Hp) Hc2 Hg2.
  split; [assumption|]. split; [eapply grows_trans; eauto|].
  split; [reflexivity|]. split; [eapply grows_valid; eauto|].
  now rewrite (grows_parentIn _ _ _ Hg2 Hv).
Qed.

Lemma copied_fails st clone st1 :
  copied st clone st1 -> consistent st1 /\ grows st st1.
Proof. intros (Hc & Hg & _). auto. Qed.

Lemma madeFor_update st0 clone rs st (n n' : ASXML) :
  madeFor st0 clone rs st -> clone < length (nodes st0) ->
  nodes st !! (clone : ref) = Some n ->
  madeFor st0 clone rs (updNode clone n' st).
Proof.
  intros [Hnd Hall] Hlt Hn. split; [assumption|].
  eapply list.Forall_impl; [exact Hall|]. cbn beta.
  intros r [Hr Hp]. rewrite length_updNode. split; [assumption|].
  rewrite (parentIn_upd _ _ _ _ _ Hn). rewrite decide_False by lia. assumption.
Qed.

Lemma madeFor_members st0 clone rs st m :
  madeFor st0 clone rs st -> m ∈ rs -> valid st m /\ parentIn st m = Some clone.
Proof.
  intros [_ Hall] Hin. rewrite list.Forall_forall in Hall.
  destruct (Hall _ Hin) as [Hr Hp]. split; [unfold valid; lia|assumption].
Qed.

Lemma deepCopy_consistent depth : forall this st,
  consistent st ->
  wp (_deepCopy depth this) (fun c st' => copied st c st')
     (fun st' => consistent st' /\ grows st st') st.
Proof.
  induction depth as [|depth IH]; intros this st Hc.
  { cbn [_deepCopy]. rewrite wp_throw. auto using grows_refl. }
  cbn [_deepCopy]. rewrite wp_bind, wp_getNode.
  destruct (nodes st !! this) as [x|]; [|auto using grows_refl].
  unfold newASXML. rewrite wp_bind, wp_allocNode.
  set (clone := length (nodes st)).
  set (n0 := mkNode Text None [] None None None None).
  assert (H0 : copied st clone (addNode n0 st)).
  { split; [|split; [|split; [|split]]].
    - apply (sameShape_consistent st); [|assumption]. now apply sameShape_addNode.
    - apply grows_addNode.
    - reflexivity.
    - apply valid_addNode. now right.
    - rewrite parentIn_addNode. now rewrite decide_True. }
  assert (Hn0 : nodes (addNode n0 st) !! (clone : ref) = Some n0)
    by apply lookup_last_node.
  rewrite wp_bind, wp_modifyNode, Hn0.
  set (n1 := with_name (_name x) (with_kind (_kind x) n0)).
  assert (H1 : copied st clone (updNode clone n1 (addNode n0 st))).
  { now apply (copied_shape _ _ _ n0). }
  assert (Hn1 : nodes (updNode clone n1 (addNode n0 st)) !! (clone : ref) = Some n1)
    by (eapply lookup_updNode_same; eauto).
  assert (Hch1 : _children n1 = None) by reflexivity.
  assert (Hat1 : _attributes n1 = None) by reflexivity.
  clearbody n1. clear H0 Hn0.
  set (st1 := updNode clone n1 (addNode n0 st)) in *. clearbody st1.
  assert (Hleaf : wp (modifyNode clone (with_value (_value x));; mret clone)
                     (fun c st' => copied st c st')
                     (fun st' => consistent st' /\ grows st st') st1).
  { rewrite wp_bind, wp_modifyNode, Hn1, wp_ret.
    now apply (copied_shape _ _ _ n1). }
  destruct (_kind x); try exact Hleaf.
  { now rewrite wp_ret. }
  clear Hleaf.
  (* an element *)
  rewrite wp_bind, wp_modifyNode, Hn1.
  set (n2 := with_inScopeNamespaces (Some []) n1).
  assert (H2 : copied st clone (updNode clone n2 st1))
    by now apply (copied_shape _ _ _ n1).
  assert (Hn2 : nodes (updNode clone n2 st1) !! (clone : ref) = Some n2)
    by (eapply lookup_updNode_same; eauto).
  assert (Hch2 : _children n2 = None) by exact Hch1.
  assert (Hat2 : _attributes n2 = None) by exact Hat1.
  clearbody n2. clear H1 Hn1 Hch1 Hat1 n1.
  set (st2 := updNode clone n2 st1) in *. clearbody st2. clear st1.
  rewrite wp_bind.
  assert (Hscope : forall inScope,
    wp (modifyNode clone (with_inScopeNamespaces (Some inScope));;
        attributes ← attributesOf x;
        attrs' ← mapM (fun attr =>
                    attr' ← _deepCopy depth attr;
                    modifyNode attr' (with_parent (Some clone));;
                    mret attr') attributes;
        modifyNode clone (with_attributes (Some attrs'));;
        children ← childrenOf x;
        children' ← mapM (fun child : option ref =>
                       match child with
                       | None => mret None
                       | Some c =>
                         c' ← _deepCopy depth c;
                         modifyNode c' (with_parent (Some clone));;
                         mret (Some c')
                       end) children;
        modifyNode clone (with_children (Some children'));;
        mret clone)
       (fun c st' => copied st c st')
       (fun st' => consistent st' /\ grows st st') st2).
  2:{ destruct (_inScopeNamespaces x) as [l|].
      - rewrite wp_lift. destruct (copyNamespaces l); [apply Hscope|].
        now apply (copied_fails _ clone).
      - rewrite wp_throw. now apply (copied_fails _ clone). }
  intros inScope. rewrite wp_bind, wp_modifyNode, Hn2.
  set (n3 := with_inScopeNamespaces (Some inScope) n2).
  assert (H3 : copied st clone (updNode clone n3 st2))
    by now apply (copied_shape _ _ _ n2).
  assert (Hn3 : nodes (updNode clone n3 st2) !! (clone : ref) = Some n3)
    by (eapply lookup_updNode_same; eauto).
  assert (Hch3 : _children n3 = None) by exact Hch2.
  assert (Hat3 : _attributes n3 = None) by exact Hat2.
  clearbody n3. clear H2 Hn2 Hch2 Hat2 n2.
  set (st3 := updNode clone n3 st2) in *. clearbody st3. clear st2.
  rewrite wp_bind. unfold attributesOf at 1.
  destruct (_attributes x) as [attributes|];
    [rewrite wp_ret|rewrite wp_throw; now apply (copied_fails _ clone)].
  rewrite wp_bind.
  eapply wp_mono;
    [| |exact (copy_attributes (_deepCopy depth) clone attributes IH st3
                               (proj1 H3))].
  2:{ intros st4 [Hc4 Hg4]. split; [assumption|].
      eapply grows_trans; [apply H3|exact Hg4]. }
  intros rs st4 (Hc4 & Hg4 & Hrs).
  pose proof (copied_later _ _ _ _ H3 Hc4 Hg4) as H4.
  assert (Hn4 : nodes st4 !! (clone : ref) = Some n3).
  { rewrite (grows_lookup _ _ _ Hg4); [assumption|]. apply H3. }
  rewrite wp_bind, wp_modifyNode, Hn4.
  set (n5 := with_attributes (Some rs) n3).
  assert (Hm5 : membersOf n5 = rs).
  { unfold membersOf, n5. cbn. now rewrite Hch3. }
  assert (H5 : copied st clone (updNode clone n5 st4)).
  { apply (copied_update _ _ _ n3); auto.
    - rewrite Hm5. apply Hrs.
    - intros m. rewrite Hm5. apply (madeFor_members _ _ _ _ _ Hrs). }
  assert (Hn5 : nodes (updNode clone n5 st4) !! (clone : ref) = Some n5)
    by (eapply lookup_updNode_same; eauto).
  assert (Hrs5 : madeFor st3 clone rs (updNode clone n5 st4)).
  { apply (madeFor_update _ _ _ _ n3); auto.
    destruct H3 as (_ & _ & _ & Hv3 & _). exact Hv3. }
  assert (Hlen5 : length (nodes (updNode clone n5 st4)) = length (nodes st4))
    by apply length_updNode.
  assert (Hat5 : default [] (_attributes n5) = rs) by reflexivity.
  clearbody n5. clear Hch3 Hat3.
  set (st5 := updNode clone n5 st4) in *. clearbody st5.
  rewrite wp_bind. unfold childrenOf at 1.
  destruct (_children x) as [children|];
    [rewrite wp_ret|rewrite wp_throw; now apply (copied_fails _ clone)].
  rewrite wp_bind.
  eapply wp_mono;
    [| |exact (copy_children (_deepCopy depth) clone children IH st5
                             (proj1 H5))].
  2:{ intros st6 [Hc6 Hg6]. split; [assumption|].
      eapply grows_trans; [apply H5|exact Hg6]. }
  intros cs st6 (Hc6 & Hg6 & Hcs).
  pose proof (copied_later _ _ _ _ H5 Hc6 Hg6) as H6.
  assert (Hn6 : nodes st6 !! (clone : ref) = Some n5).
  { rewrite (grows_lookup _ _ _ Hg6); [assumption|]. apply H5. }
  rewrite wp_bind, wp_modifyNode, Hn6, wp_ret.
  assert (Hrs6 : madeFor st3 clone rs st6).
  { apply (madeFor_later _ st5); auto.
    rewrite Hlen5. now apply grows_length. }
  apply (copied_update _ _ _ n5); auto.
  - unfold membersOf. cbn. rewrite Hat5. apply list.NoDup_app.
    split; [apply Hcs|]. split; [|apply Hrs].
    intros m Hm1 Hm2.
    destruct Hcs as [_ Hall1]. destruct Hrs as [_ Hall2].
    rewrite list.Forall_forall in Hall1, Hall2.
    destruct (Hall1 _ Hm1) as [Ha _]. destruct (Hall2 _ Hm2) as [Hb _]. lia.
  - intros m. unfold membersOf. cbn. rewrite Hat5, elem_of_app.
    intros [Hm|Hm].
    + apply (madeFor_members _ _ _ _ _ Hcs Hm).
    + apply (madeFor_members _ _ _ _ _ Hrs6 Hm).
Qed.

(** *** setProperty *)

Lemma wp_conj {A} (m : M A) Q1 Q2 E1 E2 st :
  wp m Q1 E1 st -> wp m Q2 E2 st ->
  wp m (fun a st' => Q1 a st' /\ Q2 a st') (fun st' => E1 st' /\ E2 st') st.
Proof. unfold wp. destruct (m st) as [st' [a|e]]; auto. Qed.

Lemma readOnly_nameOf n : readOnly (nameOf n).
Proof. unfold nameOf. readOnly_auto. Qed.

Lemma readOnly_childrenOf n : readOnly (childrenOf n).
Proof. unfold childrenOf. readOnly_auto. Qed.

Lemma readOnly_attributesOf n : readOnly (attributesOf n).
Proof. unfold attributesOf. readOnly_auto. Qed.

Lemma readOnly_elementAt cs i : readOnly (elementAt cs i).
Proof. unfold elementAt. readOnly_auto. Qed.

Lemma readOnly_namedLike n this k : readOnly (namedLike n this k).
Proof.
  unfold namedLike.
  repeat first
    [ apply readOnly_nameOf | apply readOnly_childrenOf
    | apply readOnly_elementAt | progress readOnly_auto ].
Qed.

Lemma keeps_addInScopeNamespace self ns : keeps (addInScopeNamespace self ns).
Proof.
  unfold addInScopeNamespace.
  apply keeps_bind; [apply keeps_getNode|]. intros x.
  destruct (isLeafKind (_kind x)); [apply keeps_ret|].
  destruct (ns_prefix ns) as [prefix|]; [|apply keeps_ret].
  apply keeps_bind.
  { apply keeps_readOnly. destruct (jsstring_eqb prefix []); [|apply readOnly_ret].
    apply readOnly_bind; [apply readOnly_nameOf|]. intros ?. apply readOnly_ret. }
  intros [|]; [apply keeps_ret|].
  apply keeps_bind.
  { apply keeps_readOnly. destruct (_inScopeNamespaces x); readOnly_auto. }
  intros inScope. apply keeps_bind.
  { destruct (lastWithPrefix (Some prefix) inScope None) as [found|];
      [|apply keeps_ret].
    destruct (negb _); [|apply keeps_ret].
    apply keeps_modifyNode_shape. intros n. split; reflexivity. }
  intros _. apply keeps_readOnly.
  apply readOnly_bind; [apply readOnly_nameOf|]. intros _.
  apply readOnly_bind; [apply readOnly_attributesOf|]. intros attributes.
  apply readOnly_bind; [|intros; apply readOnly_ret].
  apply readOnly_mapM. intros v.
  apply readOnly_bind; [apply readOnly_getNode|]. intros a. apply readOnly_nameOf.
Qed.

Lemma keeps_mapM {A B} (f : A -> M B) l :
  (forall a, keeps (f a)) -> keeps (mapM f l).
Proof.
  intros Hf. induction l as [|a l IH]; cbn [mapM]; [apply keeps_ret|].
  apply keeps_bind; [apply Hf|]. intros b.
  apply keeps_bind; [apply IH|]. intros bs. apply keeps_ret.
Qed.

Lemma keeps_deepCopy depth this : keeps (_deepCopy depth this).
Proof.
  intros st Hc.
  eapply wp_mono; [| |exact (deepCopy_consistent depth this st Hc)].
  - now intros c st' [Hc' _].
  - now intros st' [Hc' _].
Qed.

(** The copy a value is replaced by is a member of no node, and a list
    when the value is one. *)
Lemma assignedValue_consistent depth v st :
  consistent st ->
  wp (assignedValue depth v)
     (fun c st' => consistent st' /\ (forall r, c = VXML r -> detached st' r) /\
                   forall st'', afterThrow c st'' -> afterThrow v st'')
     consistent st.
Proof.
  intros Hc. destruct v as [| |z|s|r|l]; cbn [assignedValue];
    rewrite ?wp_ret, ?wp_throw;
    try (split; [assumption|split; [discriminate|auto]]);
    try assumption.
  2:{ rewrite wp_bind.
      eapply wp_mono; [| |apply keeps_mapM; [|exact Hc]]; [|auto|].
      - intros copies st' Hc'. rewrite wp_ret.
        split; [assumption|]. split; [discriminate|auto].
      - intros [r|]; [|apply keeps_throw].
        apply keeps_bind; [apply keeps_deepCopy|]. intros c. apply keeps_ret. }
  rewrite wp_bind, wp_getNode. destruct (nodes st !! r) as [n|]; [|assumption].
  assert (Hcopy : wp (c ← _deepCopy depth r; mret (VXML c))
                     (fun c st' => consistent st' /\
                                   (forall r, c = VXML r -> detached st' r) /\
                                   forall st'', afterThrow c st'' ->
                                                afterThrow (VXML r) st'')
                     consistent st).
  { rewrite wp_bind.
    eapply wp_mono; [| |exact (deepCopy_consistent depth r st Hc)].
    - intros c st' (Hc' & _ & _ & _ & Hp). rewrite wp_ret.
      split; [assumption|]. split; [|auto].
      intros r' [= <-]. now apply orphan_detached.
    - now intros st' [Hc' _]. }
  destruct (_kind n); try exact Hcopy;
    rewrite wp_ret; (split; [assumption|split; [discriminate|auto]]).
Qed.

(** Pushing a node that has [this] as its parent and is a member of no node
    on the attributes of [this]. *)
Lemma push_consistent this a st :
  consistent st -> detached st a -> valid st a -> parentIn st a = Some this ->
  wp (pushAttribute this a) (fun _ => consistent) consistent st.
Proof.
  intros Hc Hdet Hv Hp. unfold pushAttribute. rewrite wp_modifyNode.
  destruct (nodes st !! this) as [x|] eqn:Hx; [|assumption].
  assert (Hmem : members st this = membersOf x).
  { unfold members. now rewrite Hx. }
  set (x' := with_attributes (Some (default [] (_attributes x) ++ [a])) x).
  assert (Hmem' : membersOf x' = members st this ++ [a]).
  { rewrite Hmem. unfold membersOf, x'. cbn. now rewrite app_assoc. }
  apply (attach_consistent st _ this (membersOf x') a); auto.
  - now apply valid_updNode.
  - intros r Hr. now apply valid_updNode.
  - intros q. apply (members_upd _ _ _ _ _ Hx).
  - intros m. rewrite Hmem', elem_of_app, list_elem_of_singleton. tauto.
  - rewrite Hmem'. apply list.NoDup_app. split; [apply Hc|].
    split; [|apply NoDup_singleton].
    intros m Hm Hm'. apply list_elem_of_singleton in Hm'. subst m.
    now apply (Hdet this).
  - now rewrite (parentIn_same _ _ _ _ Hx) by reflexivity.
  - intros m _ _. now rewrite (parentIn_same _ _ _ _ Hx) by reflexivity.
Qed.

Lemma push_detached this a c st :
  detached st c -> c <> a ->
  wp (pushAttribute this a) (fun _ st' => detached st' c) (fun _ => True) st.
Proof.
  intros Hdet Hne. unfold pushAttribute. rewrite wp_modifyNode.
  destruct (nodes st !! this) as [x|] eqn:Hx; [|exact I].
  intros q. rewrite (members_upd _ _ _ _ _ Hx).
  destruct (decide (q = this)) as [->|]; [|apply Hdet].
  unfold membersOf. cbn. rewrite app_assoc, elem_of_app, list_elem_of_singleton.
  intros [Hin|Heq]; [|contradiction].
  apply (Hdet this). unfold members. now rewrite Hx.
Qed.

Lemma push_pending this a rest st :
  pending st this (a :: rest) ->
  wp (pushAttribute this a) (fun _ st' => pending st' this rest) (fun _ => True) st.
Proof.
  intros [Hnd Hall]. apply list.NoDup_cons in Hnd as [Hnotin Hnd].
  unfold pushAttribute. rewrite wp_modifyNode.
  destruct (nodes st !! this) as [x|] eqn:Hx; [|exact I].
  split; [assumption|]. intros b Hb.
  destruct (Hall b) as (Hv & Hp & Hdet); [now right|].
  split; [now apply valid_updNode|]. split.
  - now rewrite (parentIn_same _ _ _ _ Hx) by reflexivity.
  - assert (Hne : b <> a) by (intros ->; contradiction).
    pose proof (push_detached this a b st Hdet Hne) as H.
    unfold pushAttribute in H. rewrite wp_modifyNode, Hx in H. exact H.
Qed.

Lemma drop_pending this a (an : ASXML) rest st :
  consistent st -> pending st this (a :: rest) ->
  nodes st !! (a : ref) = Some an ->
  consistent (updNode a (with_parent None an) st) /\
  pending (updNode a (with_parent None an) st) this rest.
Proof.
  intros Hc [Hnd Hall] Ha. apply list.NoDup_cons in Hnd as [Hnotin Hnd].
  split.
  - apply reparent_detached; auto. apply Hall. now left.
  - split; [assumption|]. intros b Hb.
    destruct (Hall b) as (Hv & Hp & Hdet); [now right|].
    split; [now apply valid_updNode|]. split.
    + rewrite (parentIn_upd _ _ _ _ _ Ha).
      destruct (decide (b = a)) as [->|]; [contradiction|assumption].
    + intros q. rewrite (members_same _ _ _ _ Ha) by reflexivity. apply Hdet.
Qed.

Lemma keepFirstNamed_consistent this n : forall rest a st,
  consistent st -> pending st this rest ->
  wp (keepFirstNamed this n rest a) (fun _ => consistent) consistent st.
Proof.
  induction rest as [|attribute rest IH]; intros a st Hc Hpend.
  { cbn [keepFirstNamed]. now rewrite wp_ret. }
  cbn [keepFirstNamed]. rewrite wp_bind, wp_getNode.
  destruct (nodes st !! attribute) as [an|] eqn:Han; [|assumption].
  rewrite wp_bind. apply wp_readOnly; [apply readOnly_nameOf| |assumption].
  intros name.
  assert (Hpush : forall a',
    wp (pushAttribute this attribute;; keepFirstNamed this n rest a')
       (fun _ => consistent) consistent st).
  { intros a'. rewrite wp_bind.
    destruct (proj2 Hpend attribute) as (Hv & Hp & Hdet); [now left|].
    eapply wp_mono;
      [| |exact (wp_conj _ _ _ _ _ _
                   (push_consistent this attribute st Hc Hdet Hv Hp)
                   (push_pending this attribute rest st Hpend))].
    - intros [] st' [Hc' Hpend']. now apply IH.
    - now intros st' [Hc' _]. }
  destruct (qname_equals name n); [|apply Hpush].
  destruct a as [a|]; [|apply Hpush].
  rewrite wp_bind, wp_modifyNode, Han.
  destruct (drop_pending this attribute an rest st Hc Hpend Han) as [Hc' Hpend'].
  now apply IH.
Qed.

(** Emptying the attributes leaves them pending. *)
Lemma clear_attributes_pending this (x : ASXML) st :
  consistent st -> nodes st !! (this : ref) = Some x ->
  consistent (updNode this (with_attributes (Some []) x) st) /\
  pending (updNode this (with_attributes (Some []) x) st) this
          (default [] (_attributes x)).
Proof.
  intros Hc Hx. pose proof Hc as [Hl Hd].
  assert (Hmem : members st this = membersOf x).
  { unfold members. now rewrite Hx. }
  pose proof (Hd this) as Hnd. rewrite Hmem in Hnd. unfold membersOf in Hnd.
  apply list.NoDup_app in Hnd as (Hnd1 & Hdisj & Hnd2).
  set (x' := with_attributes (Some []) x).
  assert (Hmem' : membersOf x' = childRefs (default [] (_children x))).
  { unfold membersOf, x'. cbn. apply app_nil_r. }
  assert (Hc' : consistent (updNode this x' st)).
  { apply (consistent_rewire st _ this (membersOf x')); auto.
    - intros r. apply valid_updNode.
    - intros q. apply (members_upd _ _ _ _ _ Hx).
    - now rewrite Hmem'.
    - intros m Hm. rewrite Hmem' in Hm.
      destruct (Hl this m) as [Hv Hp].
      { rewrite Hmem. unfold membersOf. apply elem_of_app. now left. }
      split; [assumption|].
      now rewrite (parentIn_same _ _ _ _ Hx) by reflexivity.
    - intros q m _ _. now rewrite (parentIn_same _ _ _ _ Hx) by reflexivity. }
  split; [assumption|]. split; [assumption|].
  intros a Ha. destruct (Hl this a) as [Hv Hp].
  { rewrite Hmem. unfold membersOf. apply elem_of_app. now right. }
  split; [now apply valid_updNode|]. split.
  - now rewrite (parentIn_same _ _ _ _ Hx) by reflexivity.
  - intros q Hin. rewrite (members_upd _ _ _ _ _ Hx) in Hin.
    destruct (decide (q = this)) as [->|Hne].
    + rewrite Hmem' in Hin. now apply (Hdisj a).
    + destruct (Hl q a Hin) as [_ Hq]. congruence.
Qed.

Lemma deleteByIndex_detached this p c st :
  detached st c ->
  wp (deleteByIndex this p) (fun _ st' => detached st' c) (fun _ => True) st.
Proof.
  intros Hdet. unfold deleteByIndex.
  destruct (negb (isUint32 p)); [now rewrite wp_throw|].
  rewrite wp_bind, wp_getNode.
  destruct (nodes st !! this) as [x|] eqn:Hx; [|exact I].
  rewrite wp_bind. unfold childrenOf at 1.
  destruct (_children x) as [children|]; [rewrite wp_ret|now rewrite wp_throw].
  destruct (children !! Z.to_nat p) as [[child|]|]; try (now rewrite wp_ret).
  rewrite wp_bind, wp_modifyNode.
  destruct (nodes st !! child) as [cn|] eqn:Hcn; [|exact I].
  rewrite wp_bind, wp_getNode.
  destruct (nodes (updNode child (with_parent None cn) st) !! this)
    as [x'|] eqn:Hx'; [|exact I].
  rewrite wp_bind. unfold childrenOf.
  destruct (_children x') as [cs|] eqn:Hcs; [rewrite wp_ret|now rewrite wp_throw].
  rewrite wp_setNode. intros q. rewrite (members_upd _ _ _ _ _ Hx').
  destruct (decide (q = this)) as [->|].
  - intros Hin. apply (Hdet this).
    rewrite <- (members_same st child cn (with_parent None cn) Hcn eq_refl this).
    unfold members. rewrite Hx'. unfold membersOf in *. cbn in Hin.
    rewrite Hcs. cbn. rewrite elem_of_app in *. destruct Hin as [Hin|Hin]; auto.
    left. apply childRefs_elem. apply childRefs_elem in Hin.
    eapply list_elem_of_delete_inv; eauto.
  - rewrite (members_same _ _ _ _ Hcn) by reflexivity. apply Hdet.
Qed.

Lemma deleteByIndex_free this p c st :
  free st c ->
  wp (deleteByIndex this p) (fun _ st' => free st' c) (fun _ => True) st.
Proof.
  intros Hf. unfold wp.
  destruct (deleteByIndex this p st) as [st' [a|e]] eqn:Hrun; [|exact I].
  intros r ->.
  pose proof (deleteByIndex_detached this p r st (Hf r eq_refl)) as H.
  unfold wp in H. now rewrite Hrun in H.
Qed.

Lemma findNamed_consistent this n c : forall k i st,
  consistent st -> free st c ->
  wp (findNamed this n k i)
     (fun _ st' => consistent st' /\ free st' c) consistent st.
Proof.
  induction k as [|k IH]; intros i st Hc Hfree.
  { cbn [findNamed]. now rewrite wp_ret. }
  cbn [findNamed]. rewrite wp_bind.
  apply wp_readOnly; [apply readOnly_namedLike| |assumption].
  intros [|]; [|now apply IH].
  rewrite wp_bind. destruct i as [i|]; [|rewrite wp_ret; now apply IH].
  eapply wp_mono;
    [| |exact (wp_conj _ _ _ _ _ _
                 (deleteByIndex_consistent this (Z.of_nat i) st Hc)
                 (deleteByIndex_free this (Z.of_nat i) c st Hfree))].
  - intros [] st' [Hc' Hfree']. now apply IH.
  - now intros st' [Hc' _].
Qed.

(** A new node that is given [this] as its parent before it is put
    anywhere. *)
Lemma wp_createChild {B} settings kind uri name prefix this (k : ref -> M B)
    (Q : B -> Store -> Prop) st :
  consistent st ->
  (forall y st', consistent st' -> detached st' y -> valid st' y ->
                 parentIn st' y = Some this -> wp (k y) Q consistent st') ->
  wp (y ← createXML settings kind uri name prefix;
      modifyNode y (with_parent (Some this));; k y) Q consistent st.
Proof.
  intros Hc Hk. rewrite wp_bind.
  eapply wp_mono; [| |exact (createXML_shape settings kind uri name prefix st)].
  2:{ intros st' Hs. now apply (sameShape_consistent st). }
  intros y st1 (-> & Hv & Hs).
  pose proof (sameShape_consistent _ _ Hs Hc) as Hc1.
  pose proof (sameShape_detached _ _ _ Hs (consistent_fresh_detached st Hc)) as Hd1.
  rewrite wp_bind, wp_modifyNode.
  destruct (nodes st1 !! (length (nodes st) : ref)) as [n|] eqn:Hn; [|assumption].
  apply Hk.
  - now apply reparent_detached.
  - intros q. rewrite (members_same _ _ _ _ Hn) by reflexivity. apply Hd1.
  - now apply valid_updNode.
  - rewrite (parentIn_upd _ _ _ _ _ Hn). now rewrite decide_True.
Qed.

Lemma wp_createChild_any {B} settings kind uri name prefix this (k : ref -> M B)
    (Q : B -> Store -> Prop) (E : Store -> Prop) st :
  consistent st ->
  (forall st', consistent st' -> E st') ->
  (forall y st', consistent st' -> detached st' y -> valid st' y ->
                 parentIn st' y = Some this -> wp (k y) Q E st') ->
  wp (y ← createXML settings kind uri name prefix;
      modifyNode y (with_parent (Some this));; k y) Q E st.
Proof.
  intros Hc HE Hk. rewrite wp_bind.
  eapply wp_mono; [| |exact (createXML_shape settings kind uri name prefix st)].
  2:{ intros st' Hs. apply HE. now apply (sameShape_consistent st). }
  intros y st1 (-> & Hv & Hs).
  pose proof (sameShape_consistent _ _ Hs Hc) as Hc1.
  pose proof (sameShape_detached _ _ _ Hs (consistent_fresh_detached st Hc)) as Hd1.
  rewrite wp_bind, wp_modifyNode.
  destruct (nodes st1 !! (length (nodes st) : ref)) as [n|] eqn:Hn; [|auto].
  apply Hk.
  - now apply reparent_detached.
  - intros q. rewrite (members_same _ _ _ _ Hn) by reflexivity. apply Hd1.
  - now apply valid_updNode.
  - rewrite (parentIn_upd _ _ _ _ _ Hn). now rewrite decide_True.
Qed.

Lemma clear_children_consistent child (n : ASXML) st :
  consistent st -> nodes st !! (child : ref) = Some n ->
  consistent (updNode child (with_children (Some []) n) st).
Proof.
  intros Hc Hn. pose proof Hc as [Hl Hd].
  assert (Hmem : members st child = membersOf n).
  { unfold members. now rewrite Hn. }
  pose proof (Hd child) as Hnd. rewrite Hmem in Hnd. unfold membersOf in Hnd.
  apply list.NoDup_app in Hnd as (_ & _ & Hnd).
  apply (consistent_rewire st _ child (default [] (_attributes n))); auto.
  - intros r. apply valid_updNode.
  - intros q. rewrite (members_upd _ _ _ _ _ Hn).
    now destruct (decide (q = child)).
  - intros m Hm. destruct (Hl child m) as [Hv Hp].
    { rewrite Hmem. unfold membersOf. apply elem_of_app. now right. }
    split; [assumption|].
    now rewrite (parentIn_same _ _ _ _ Hn) by reflexivity.
  - intros q m _ _. now rewrite (parentIn_same _ _ _ _ Hn) by reflexivity.
Qed.

Lemma free_string st s : free st (VString s).
Proof. intros r H. discriminate H. Qed.

Lemma setProperty_consistent settings xmlName depth this p isAttribute v st :
  consistent st ->
  wp (setProperty settings xmlName depth this p isAttribute v)
     (fun _ => consistent) (afterThrow v) st.
Proof.
  intros Hc. unfold setProperty.
  set (E := afterThrow v).
  assert (HE : forall st', consistent st' -> E st')
    by (intros; now apply afterThrow_consistent).
  destruct (match p with KNumber z => isUint32 z | KName _ => false end);
    [rewrite wp_throw; auto|].
  rewrite wp_bind, wp_getNode.
  destruct (nodes st !! this) as [x|]; [|auto].
  destruct (isLeafKind (_kind x)); [now rewrite wp_ret|].
  rewrite wp_bind.
  eapply wp_mono; [| |exact (assignedValue_consistent depth v st Hc)]; [|auto].
  clear x. intros c st1 (Hc1 & Hfree & Hcv). clear st Hc.
  rewrite wp_bind. destruct p as [z|n]; [rewrite wp_throw; auto|].
  rewrite wp_ret.
  destruct isAttribute.
  - (* an attribute *)
    destruct (negb (xmlName n)); [now rewrite wp_ret|].
    rewrite wp_bind.
    match goal with
    | |- wp _ (fun a => wp (@?k a) _ _) _ _ =>
      assert (Hrest : forall (s : jsstring) st', consistent st' ->
                wp (k s) (fun _ => consistent) E st')
    end.
    { clear st1 Hc1 Hfree. intros s st1 Hc1. cbv beta.
      rewrite wp_bind, wp_getNode.
      destruct (nodes st1 !! this) as [x|] eqn:Hx; [|auto].
      rewrite wp_bind, wp_modifyNode, Hx.
      destruct (clear_attributes_pending this x st1 Hc1 Hx) as [Hc2 Hpend].
      rewrite wp_bind.
      eapply wp_mono;
        [| |exact (keepFirstNamed_consistent this n _ None _ Hc2 Hpend)]; [|auto].
      intros a st3 Hc3. rewrite wp_bind.
      assert (Hvalue : forall a st', consistent st' ->
                wp (modifyNode a (with_value s)) (fun _ => consistent) E st').
      { intros a' st' Hc'.
        eapply wp_mono; [| |apply keeps_modifyNode_shape; [|exact Hc']];
          [auto|auto|].
        intros ?. split; reflexivity. }
      destruct a as [a|]; [rewrite wp_ret; now apply Hvalue|].
      apply wp_createChild_any; [assumption|exact HE|].
      intros y st4 Hc4 Hd4 Hv4 Hp4. rewrite wp_bind.
      eapply wp_mono; [| |exact (push_consistent this y st4 Hc4 Hd4 Hv4 Hp4)];
        [|auto].
      intros [] st5 Hc5. rewrite wp_ret. now apply Hvalue. }
    destruct c as [| | |s| |l]; try (rewrite wp_throw; auto).
    + rewrite wp_ret. now apply Hrest.
    + rewrite wp_bind.
      apply wp_readOnly; [apply readOnly_listTrees| |auto].
      intros trees. rewrite wp_bind, wp_lift.
      destruct (mapResult (toString settings) trees) as [strs|e]; [|auto].
      rewrite wp_ret. now apply Hrest.
  - (* an element *)
    cbv zeta. rewrite wp_bind, wp_getNode.
    destruct (nodes st1 !! this) as [x|]; [|auto].
    rewrite wp_bind.
    eapply wp_mono;
      [| |exact (findNamed_consistent this n c _ None st1 Hc1 Hfree)]; [|auto].
    clear x. intros found st2 [Hc2 Hfree2]. clear st1 Hc1 Hfree.
    rewrite wp_bind.
    set (primitiveAssign := match c with
                            | VString _ => negb (jsstring_eqb (localName n) (lit "*"))
                            | _ => false
                            end).
    assert (Hstring : primitiveAssign = true -> forall st, free st c).
    { unfold primitiveAssign. intros Hprim.
      destruct c; try discriminate Hprim. intros ?. apply free_string. }
    clearbody primitiveAssign.
    assert (Hlast : forall i st, consistent st -> free st c ->
      wp (if primitiveAssign
          then
            x ← getNode this;
            cs ← childrenOf x;
            child ← elementAt cs i;
            modifyNode child (with_children (Some []));;
            match c with
            | VString [] => mret tt
            | VString s => replace settings child (KNumber 0) (VString s);; mret tt
            | _ => mret tt
            end
          else replace settings this (KNumber (Z.of_nat i)) c;; mret tt)
         (fun _ => consistent) E st).
    { intros i st Hc Hf. destruct primitiveAssign.
      - rewrite wp_bind, wp_getNode.
        destruct (nodes st !! this) as [x|]; [|auto].
        rewrite wp_bind.
        apply wp_readOnly; [apply readOnly_childrenOf| |auto].
        intros cs. rewrite wp_bind.
        apply wp_readOnly; [apply readOnly_elementAt| |auto].
        intros child. rewrite wp_bind, wp_modifyNode.
        destruct (nodes st !! child) as [cn|] eqn:Hcn; [|auto].
        pose proof (clear_children_consistent child cn st Hc Hcn) as Hc'.
        destruct c as [| | |[|ch s]| |]; try (now rewrite wp_ret).
        rewrite wp_bind.
        eapply wp_mono;
          [| |exact (replace_consistent settings child (KNumber 0) _ _ Hc'
                                        (free_string _ _) I)]; [|exact HE].
        intros ? st' Hc''. now rewrite wp_ret.
      - rewrite wp_bind.
        eapply wp_mono;
          [| |exact (replace_consistent settings this (KNumber _) c st Hc Hf I)];
          [|exact Hcv].
        intros ? st' Hc''. now rewrite wp_ret. }
    destruct found as [i|]; [rewrite wp_ret; now apply Hlast|].
    rewrite wp_bind, wp_getNode.
    destruct (nodes st2 !! this) as [x|]; [|auto].
    rewrite wp_bind.
    destruct primitiveAssign; [|rewrite !wp_ret; now apply Hlast].
    specialize (Hstring eq_refl).
    apply wp_createChild_any; [assumption|exact HE|].
    intros y st3 Hc3 Hd3 Hv3 Hp3. rewrite wp_bind, wp_lift.
    destruct (getNamespace _ []) as [ns|]; [|auto].
    rewrite wp_bind.
    assert (Hfree3 : free st3 (VXML y)) by (intros r [= <-]; exact Hd3).
    eapply wp_mono;
      [| |exact (replace_consistent settings this
                   (KNumber (Z.of_nat (lengthOf x))) (VXML y) st3 Hc3 Hfree3 I)];
      [|exact HE].
    intros ? st4 Hc4.
    eapply wp_mono; [| |exact (keeps_addInScopeNamespace y ns st4 Hc4)];
      [|auto].
    intros [] st5 Hc5. rewrite wp_ret. apply Hlast; auto.
Qed.

Lemma childKey_unflagged p : childKey p -> unflagged p.
Proof. now destruct p. Qed.

(** C8, amended.  A store is consistent when every member (child or
    attribute) of a node [p] is a node whose parent reference is [p] and no
    node holds a member twice; then no node is a member of two nodes.
    However they end, [deleteByIndex], [normalize] and the parser's tree
    construction keep a store consistent; so does [appendChild] of a node
    that is not an attribute of some node (it takes the child out of its old
    parent first).  [insert] and [replace] do not detach the value from its
    old parent: [insert] keeps a store consistent when the value is a node
    that is a member of no node, and [replace] at an index or at a name
    without the attribute flag when the value is such a node or no node at
    all.  [setProperty] puts in a copy of the value, or a new node, and
    keeps a store consistent.  For [replace] and [setProperty] with a list
    as value this is said of the calls that return: the list is turned into
    a string after the old child was detached, and nothing is said of the
    store when that throws. *)
Theorem mutations_keep_consistency (settings : Settings) :
  consistent emptyStore /\
  (forall st c p q,
     consistent st -> c ∈ members st p -> c ∈ members st q ->
     p = q /\ parentIn st c = Some p) /\
  (forall st this p,
     consistent st ->
     wp (deleteByIndex this p) (fun _ => consistent) consistent st) /\
  (forall st depth this,
     consistent st ->
     wp (normalize depth this) (fun _ => consistent) consistent st) /\
  (forall st this child,
     consistent st -> notAnAttribute st child ->
     wp (appendChild this child) (fun _ => consistent) consistent st) /\
  (forall st self p v,
     consistent st -> detached st v ->
     wp (insert self p v) (fun _ => consistent) consistent st) /\
  (forall st self p v,
     consistent st -> (forall r, v = VXML r -> detached st r) -> childKey p ->
     wp (replace settings self p v) (fun _ => consistent) (afterThrow v) st) /\
  (forall st xmlName depth this p isAttribute v,
     consistent st ->
     wp (setProperty settings xmlName depth this p isAttribute v)
        (fun _ => consistent) (afterThrow v) st) /\
  (forall st s,
     consistent st ->
     wp (parseFromString settings s) (fun _ => consistent) consistent st).
Proof.
  split; [apply consistent_emptyStore|].
  split.
  { intros st c p q Hc Hp Hq. split.
    - now apply (consistent_single_parent st c).
    - now apply (proj1 Hc). }
  split; [intros; now apply deleteByIndex_consistent|].
  split; [intros; now apply keeps_normalize|].
  split; [intros; now apply appendChild_consistent|].
  split; [intros; now apply insert_consistent|].
  split; [intros; apply replace_consistent; auto using childKey_unflagged|].
  split; [intros; now apply setProperty_consistent|].
  intros; now apply parseFromString_consistent.
Qed.

(** *** [replace]: what the statement leaves out *)

Lemma member_without_parent st p c :
  c ∈ members st p -> parentIn st c = None -> ~ consistent st.
Proof.
  intros Hin Hp [Hl _]. destruct (Hl p c Hin) as [_ H]. congruence.
Qed.

Lemma consistent_holedStore : consistent holedStore.
Proof.
  assert (H : wp (t ← createXML initialSettings Text [] [] None; insert 4 1 t)
                 (fun _ => consistent) consistent twoTrees).
  { rewrite wp_bind.
    eapply wp_mono; [| |apply createXML_shape].
    - intros t st' (-> & _ & Hs).
      apply insert_consistent.
      + eapply sameShape_consistent; [exact Hs|apply consistent_twoTrees].
      + eapply sameShape_detached; [exact Hs|].
        apply consistent_fresh_detached, consistent_twoTrees.
    - intros st' Hs.
      eapply sameShape_consistent; [exact Hs|apply consistent_twoTrees]. }
  unfold wp in H.
  vm_compute in H. exact H.
Qed.

(** [replace] by the name of an attribute.  With a name that carries the
    attribute flag [getProperty] selects attributes, which [replace] then
    treats as children: on [<a b="1">t<c/></a>], [a.replace("@b", "s")]
    clears the parent of the attribute [b] and leaves it among the
    attributes of [a]; [indexOf] does not find it among the children, so
    [splice(-1, 1, undefined)] empties the last entry, that of [c], whose
    parent stays [a]; the new text node gets the parent [a] and is stored
    under the property [-1], no element of the array.  The store is no
    longer consistent.  (E4X 13.4.4.32 replaces element children only.) *)
Lemma replace_by_the_name_of_an_attribute :
  consistent sampleStore /\
  childrenIn sampleStore 1 = [Some 3; Some 4] /\
  attributesIn sampleStore 1 = [2] /\
  replace initialSettings 1
    (KName (mkQName (Some (mkNamespace (Some []) [])) (lit "b") 1))
    (VString (lit "s")) sampleStore = (attributeReplaced, OK 1) /\
  childrenIn attributeReplaced 1 = [Some 3; None] /\
  attributesIn attributeReplaced 1 = [2] /\
  parentIn attributeReplaced 2 = None /\
  parentIn attributeReplaced 4 = Some 1 /\
  parentIn attributeReplaced 5 = Some 1 /\
  ~ consistent attributeReplaced.
Proof.
  split; [apply consistent_sampleStore|].
  do 8 (split; [vm_compute; reflexivity|]).
  apply (member_without_parent attributeReplaced 1 2); [|reflexivity].
  change (2 ∈ [3; 2]). repeat constructor.
Qed.

(** [replace] by a list that has no string.  The value is turned into a
    string after the old child was detached: when the children of [b] are
    a hole and a text, [toString] of the list of [b] reads the hole and
    throws, and [a.replace(0, list)] ends with [c] still the child of [a],
    its parent cleared. *)
Lemma replace_by_a_list_without_a_string :
  consistent holedStore /\
  childrenIn holedStore 1 = [Some 2] /\
  childrenIn holedStore 4 = [None; Some 5] /\
  replace initialSettings 1 (KNumber 0)
    (VXMLList (mkList [Some 4] None None)) holedStore =
    (listUnprinted, Throw NativeTypeError) /\
  childrenIn listUnprinted 1 = [Some 2] /\
  parentIn listUnprinted 2 = None /\
  ~ consistent listUnprinted.
Proof.
  split; [apply consistent_holedStore|].
  do 5 (split; [vm_compute; reflexivity|]).
  apply (member_without_parent listUnprinted 1 2); [|reflexivity].
  change (2 ∈ [2]). repeat constructor.
Qed.

(** ** Round trip: strings *)

Lemma resolve_plain ch r :
  Ascii.eqb ch AMP = false ->
  resolveEntitiesFrom (ch :: r) None =
  option_map (cons ch) (resolveEntitiesFrom r None).
Proof. intros H. simpl. now rewrite H. Qed.

Lemma resolve_open r :
  resolveEntitiesFrom (AMP :: r) None = resolveEntitiesFrom r (Some []).
Proof. reflexivity. Qed.

Lemma resolve_more ch e r :
  Ascii.eqb ch SEMICOLON = false ->
  resolveEntitiesFrom (ch :: r) (Some e) =
  resolveEntitiesFrom r (Some (e ++ [ch])).
Proof.
  intros H. simpl. unfold SEMICOLON in H. rewrite H. now destruct e.
Qed.

Lemma resolve_close c e r :
  resolveEntitiesFrom (SEMICOLON :: r) (Some (c :: e)) =
  match entityValue (c :: e), resolveEntitiesFrom r None with
  | Some v, Some r => Some (v ++ r)
  | _, _ => None
  end.
Proof. reflexivity. Qed.

Ltac resolve_entity :=
  unfold lit; cbn [list_ascii_of_string app];
  rewrite resolve_open;
  repeat (rewrite resolve_more by reflexivity; cbn [app]);
  match goal with
  | |- resolveEntitiesFrom (?c :: _) _ = _ =>
    change c with SEMICOLON; rewrite resolve_close
  end.

Lemma resolve_entities_after (entity : jsstring) (ch : ascii) r :
  (entity = lit "&amp;" /\ ch = AMP) \/ (entity = lit "&lt;" /\ ch = LT) \/
  (entity = lit "&gt;" /\ ch = GT) \/ (entity = lit "&quot;" /\ ch = DQUOTE) \/
  (entity = lit "&#xA;" /\ ch = NEWLINE) \/ (entity = lit "&#xD;" /\ ch = CR) \/
  (entity = lit "&#x9;" /\ ch = TAB) ->
  resolveEntitiesFrom (entity ++ r) None =
  option_map (cons ch) (resolveEntitiesFrom r None).
Proof.
  intros H.
  repeat (destruct H as [[-> ->]|H]); [..|destruct H as [-> ->]];
    resolve_entity;
    match goal with
    | |- match ?ev with _ => _ end = _ =>
      let v := eval vm_compute in ev in change ev with v
    end;
    cbv iota; now destruct (resolveEntitiesFrom r None).
Qed.

Lemma undone_elementReplacement : undone elementReplacement.
Proof.
  intros ch. unfold elementReplacement.
  destruct (Ascii.eqb ch AMP) eqn:E1.
  { apply Ascii.eqb_eq in E1. auto. }
  destruct (Ascii.eqb ch LT) eqn:E2.
  { apply Ascii.eqb_eq in E2. auto. }
  destruct (Ascii.eqb ch GT) eqn:E3.
  { apply Ascii.eqb_eq in E3. auto 10. }
  auto.
Qed.

Lemma undone_attributeReplacement : undone attributeReplacement.
Proof.
  intros ch. unfold attributeReplacement.
  destruct (Ascii.eqb ch AMP) eqn:E1.
  { apply Ascii.eqb_eq in E1. auto. }
  destruct (Ascii.eqb ch LT) eqn:E2.
  { apply Ascii.eqb_eq in E2. auto. }
  destruct (Ascii.eqb ch DQUOTE) eqn:E3.
  { apply Ascii.eqb_eq in E3. auto 10. }
  destruct (Ascii.eqb ch NEWLINE) eqn:E4.
  { apply Ascii.eqb_eq in E4. auto 10. }
  destruct (Ascii.eqb ch CR) eqn:E5.
  { apply Ascii.eqb_eq in E5. auto 10. }
  destruct (Ascii.eqb ch TAB) eqn:E6.
  { apply Ascii.eqb_eq in E6. auto 10. }
  auto.
Qed.

Lemma option_map_app (v : jsstring) ch (o : option jsstring) :
  option_map (cons ch) (option_map (app v) o) = option_map (app (ch :: v)) o.
Proof. now destruct o. Qed.

Lemma resolve_replaceEach replacement v r :
  undone replacement ->
  resolveEntitiesFrom (replaceEach replacement v ++ r) None =
  option_map (app v) (resolveEntitiesFrom r None).
Proof.
  intros Hu. induction v as [|ch v IH].
  - simpl. now destruct (resolveEntitiesFrom r None).
  - unfold replaceEach in *. cbn [map concat]. rewrite <- app_assoc.
    destruct (Hu ch) as [[-> Hplain]|Hentity].
    + cbn [app]. rewrite (resolve_plain _ _ Hplain), IH. apply option_map_app.
    + rewrite (resolve_entities_after (replacement ch) ch); [|tauto].
      rewrite IH. apply option_map_app.
Qed.

Lemma resolve_pad w r :
  forallb isWhitespaceChar w = true ->
  resolveEntitiesFrom (w ++ r) None =
  option_map (app w) (resolveEntitiesFrom r None).
Proof.
  induction w as [|ch w IH]; intros Hw.
  - simpl. now destruct (resolveEntitiesFrom r None).
  - simpl in Hw. apply andb_true_iff in Hw as [Hc Hw].
    cbn [app]. rewrite resolve_plain, (IH Hw); [apply option_map_app|].
    unfold isWhitespaceChar in Hc.
    destruct (Ascii.eqb ch AMP) eqn:E; [|reflexivity].
    apply Ascii.eqb_eq in E. subst ch. discriminate.
Qed.

Lemma escapeElementValue_each v :
  escapeElementValue v = replaceEach elementReplacement v.
Proof.
  apply escape_generic. intros ch H. unfold isElementSpecial in H.
  unfold elementReplacement.
  destruct (Ascii.eqb ch AMP); [discriminate|].
  destruct (Ascii.eqb ch LT); [discriminate|].
  destruct (Ascii.eqb ch GT); [discriminate|reflexivity].
Qed.

Lemma escapeAttributeValue_each v :
  escapeAttributeValue v = replaceEach attributeReplacement v.
Proof.
  apply escape_generic. intros ch H. unfold isAttributeSpecial in H.
  unfold attributeReplacement.
  destruct (Ascii.eqb ch AMP); [discriminate|].
  destruct (Ascii.eqb ch LT); [discriminate|].
  destruct (Ascii.eqb ch DQUOTE); [discriminate|].
  destruct (Ascii.eqb ch NEWLINE); [discriminate|].
  destruct (Ascii.eqb ch CR); [discriminate|].
  destruct (Ascii.eqb ch TAB); [discriminate|reflexivity].
Qed.

(** What the scanner reads back from a padded, escaped text. *)
Lemma resolveEntities_text w v w' :
  forallb isWhitespaceChar w = true -> forallb isWhitespaceChar w' = true ->
  resolveEntities (w ++ escapeElementValue v ++ w') = OK (w ++ v ++ w').
Proof.
  intros Hw Hw'. unfold resolveEntities.
  rewrite (resolve_pad _ _ Hw), escapeElementValue_each.
  rewrite (resolve_replaceEach _ _ _ undone_elementReplacement).
  rewrite <- (app_nil_r w') at 1. rewrite (resolve_pad _ _ Hw'). simpl.
  now rewrite app_nil_r.
Qed.

Lemma resolveEntities_attribute v :
  resolveEntities (escapeAttributeValue v) = OK v.
Proof.
  unfold resolveEntities. rewrite escapeAttributeValue_each.
  rewrite <- (app_nil_r (replaceEach _ v)).
  rewrite (resolve_replaceEach _ _ _ undone_attributeReplacement). simpl.
  now rewrite app_nil_r.
Qed.

Lemma absent_app ch s1 s2 : absent ch (s1 ++ s2) = absent ch s1 && absent ch s2.
Proof. apply forallb_app. Qed.

Lemma absent_replaceEach ch replacement v :
  (forall x, absent ch (replacement x) = true) ->
  absent ch (replaceEach replacement v) = true.
Proof.
  intros H. induction v as [|x v IH]; [reflexivity|].
  unfold replaceEach in *. cbn [map concat]. now rewrite absent_app, H, IH.
Qed.





(** *** Trimming *)

Lemma skipWhitespace_ge rest i : i <= skipWhitespace rest i.
Proof.
  revert i. induction rest as [|ch rest IH]; intros i; simpl; [lia|].
  destruct (isWhitespaceChar ch); [|lia]. specialize (IH (S i)). lia.
Qed.

Lemma skipWhitespace_pad w rest i :
  forallb isWhitespaceChar w = true ->
  skipWhitespace (w ++ rest) i = skipWhitespace rest (i + length w).
Proof.
  revert i. induction w as [|ch w IH]; intros i; simpl.
  - intros _. f_equal. lia.
  - rewrite andb_true_iff. intros [-> Hw]. rewrite (IH _ Hw). f_equal. lia.
Qed.

Lemma skipWhitespace_stop ch rest i :
  isWhitespaceChar ch = false -> skipWhitespace (ch :: rest) i = i.
Proof. intros H. simpl. now rewrite H. Qed.

Lemma scanBack_lt s n : (scanBack s n < Z.of_nat n)%Z.
Proof.
  induction n as [|n IH]; simpl; [lia|].
  destruct (isWhitespace s n); lia.
Qed.

Lemma forallb_lookup {A} (f : A -> bool) (l : list A) i x :
  forallb f l = true -> l !! i = Some x -> f x = true.
Proof.
  revert i. induction l as [|a l IH]; intros i Hall Hi; [discriminate|].
  simpl in Hall. apply andb_true_iff in Hall as [Ha Hl].
  destruct i as [|i]; simpl in Hi; [congruence|eauto].
Qed.

Lemma scanBack_pad p w n :
  forallb isWhitespaceChar w = true -> n <= length w ->
  scanBack (p ++ w) (length p + n) = scanBack (p ++ w) (length p).
Proof.
  intros Hw. induction n as [|n IH]; intros Hn.
  - now rewrite Nat.add_0_r.
  - rewrite Nat.add_succ_r. cbn [scanBack]. unfold isWhitespace, jsstring.
    rewrite lookup_app_r by lia.
    replace (length p + n - length p) with n by lia.
    destruct (lookup_lt_is_Some_2 w n) as [ch Hch]; [lia|].
    rewrite Hch.
    assert (isWhitespaceChar ch = true) as ->.
    { eapply forallb_lookup; eauto. }
    apply IH. lia.
Qed.

Lemma scanBack_stop p ch w :
  isWhitespaceChar ch = false ->
  scanBack ((p ++ [ch]) ++ w) (length (p ++ [ch])) = Z.of_nat (length p).
Proof.
  intros Hch. rewrite length_app. simpl. rewrite Nat.add_1_r.
  cbn [scanBack]. unfold isWhitespace, jsstring.
  rewrite lookup_app_l by (rewrite length_app; simpl; lia).
  rewrite list_lookup_middle by reflexivity. now rewrite Hch.
Qed.

Lemma substring_length s a b : length (substring s a b) <= Nat.max a b - Nat.min a b.
Proof. unfold substring. rewrite length_take. lia. Qed.

Lemma substring_middle p m r :
  substring (p ++ m ++ r) (length p) (length p + length m) = m.
Proof.
  unfold substring. rewrite !length_app.
  replace (Nat.min (length p) (length p + (length m + length r)))
    with (length p) by lia.
  replace (Nat.min (length p + length m) (length p + (length m + length r)))
    with (length p + length m) by lia.
  replace (Nat.min (length p) (length p + length m)) with (length p) by lia.
  replace (Nat.max (length p) (length p + length m) - length p)
    with (length m) by lia.
  rewrite drop_app_length. apply take_app_length.
Qed.

(** A non-empty string that trimming leaves alone starts and ends with
    characters that are no whitespace. *)
Lemma trimmed_ends v :
  trimWhitespaces v = v -> v <> [] ->
  (exists c r, v = c :: r /\ isWhitespaceChar c = false) /\
  (exists p c, v = p ++ [c] /\ isWhitespaceChar c = false).
Proof.
  intros Ht Hne. unfold trimWhitespaces in Ht.
  destruct (Nat.leb_spec (length v) (skipWhitespace v 0)) as [Hle|Hlt];
    [congruence|].
  destruct ((skipWhitespace v 0 =? 0) &&
            (scanBack v (length v) =? Z.of_nat (length v) - 1)%Z) eqn:E.
  - apply andb_true_iff in E as [Ei Ej].
    apply Nat.eqb_eq in Ei. apply Z.eqb_eq in Ej. split.
    + destruct v as [|c r]; [congruence|]. exists c, r. split; [reflexivity|].
      simpl in Ei. destruct (isWhitespaceChar c); [|reflexivity].
      pose proof (skipWhitespace_ge r 1). lia.
    + destruct (exists_last Hne) as (p & c & ->). exists p, c.
      split; [reflexivity|].
      rewrite length_app in Ej. simpl in Ej. rewrite Nat.add_1_r in Ej.
      cbn [scanBack] in Ej. unfold isWhitespace, jsstring in Ej.
      rewrite list_lookup_middle in Ej by reflexivity.
      destruct (isWhitespaceChar c); [|reflexivity].
      pose proof (scanBack_lt (p ++ [c]) (length p)). lia.
  - exfalso.
    pose proof (substring_length v (skipWhitespace v 0)
                  (Z.to_nat (scanBack v (length v) + 1))) as Hlen.
    rewrite Ht in Hlen.
    pose proof (scanBack_lt v (length v)) as Hj.
    apply andb_false_iff in E. destruct E as [E|E].
    + apply Nat.eqb_neq in E. lia.
    + apply Z.eqb_neq in E. lia.
Qed.

Lemma trimWhitespaces_padded w v w' :
  forallb isWhitespaceChar w = true -> forallb isWhitespaceChar w' = true ->
  trimWhitespaces v = v -> v <> [] ->
  trimWhitespaces (w ++ v ++ w') = v.
Proof.
  intros Hw Hw' Ht Hne.
  destruct (trimmed_ends v Ht Hne) as [(c & r & Hv & Hc) (p & c' & Hv' & Hc')].
  unfold trimWhitespaces.
  assert (Hi : skipWhitespace (w ++ v ++ w') 0 = length w).
  { rewrite (skipWhitespace_pad _ _ _ Hw), Hv. cbn [app].
    now rewrite (skipWhitespace_stop _ _ _ Hc). }
  assert (Hj : scanBack (w ++ v ++ w') (length (w ++ v ++ w')) =
               Z.of_nat (length w + length p)).
  { rewrite Hv'. rewrite !app_assoc.
    rewrite (length_app _ w'), (scanBack_pad _ _ _ Hw') by lia.
    rewrite (scanBack_stop _ _ _ Hc'). now rewrite length_app. }
  rewrite Hi, Hj.
  assert (Hlen : length v = S (length p)).
  { rewrite Hv', length_app. simpl. lia. }
  rewrite !length_app.
  destruct (Nat.leb_spec (length w + (length v + length w')) (length w)); [lia|].
  destruct ((length w =? 0) &&
            (Z.of_nat (length w + length p) =?
             Z.of_nat (length w + (length v + length w')) - 1)%Z) eqn:E.
  - apply andb_true_iff in E as [E1 E2].
    apply Nat.eqb_eq in E1. apply Z.eqb_eq in E2.
    assert (length w' = 0) by lia.
    destruct w; [|discriminate]. destruct w'; [|discriminate].
    simpl. apply app_nil_r.
  - replace (Z.to_nat (Z.of_nat (length w + length p) + 1))
      with (length w + length v) by lia.
    apply substring_middle.
Qed.

(** ** Round trip: the scanner on the rest of the string *)

Lemma drop_lookup (s : list ascii) i c r : drop i s = c :: r -> s !! i = Some c.
Proof.
  intros H. rewrite <- (Nat.add_0_r i), <- lookup_drop, H. reflexivity.
Qed.




Lemma charIs_here s i c r ch :
  drop i s = c :: r -> charIs s i ch = bool_decide (c = ch).
Proof.
  intros H. unfold charIs, charAt, jsstring. rewrite (drop_lookup _ _ _ _ H).
  destruct (decide (c = ch)) as [->|Hne].
  - rewrite !bool_decide_eq_true_2; auto.
  - rewrite !bool_decide_eq_false_2; congruence.
Qed.


Lemma skipPlain_run stop u rest i :
  forallb (fun c => negb (stop c)) u = true ->
  match rest with [] => True | c :: _ => stop c = true end ->
  skipPlain stop (u ++ rest) i = i + length u.
Proof.
  revert i. induction u as [|c u IH]; intros i Hu Hrest.
  - simpl. destruct rest as [|c rest]; simpl; [lia|]. rewrite Hrest. lia.
  - simpl in Hu. apply andb_true_iff in Hu as [Hc Hu].
    apply negb_true_iff in Hc. cbn [app skipPlain]. rewrite Hc.
    rewrite (IH _ Hu Hrest). simpl. lia.
Qed.

Lemma scanTo_run stop s pos u rest :
  drop pos s = u ++ rest ->
  forallb (fun c => negb (stop c)) u = true ->
  match rest with [] => True | c :: _ => stop c = true end ->
  scanTo stop s pos = pos + length u.
Proof. intros H Hu Hrest. unfold scanTo. rewrite H. now apply skipPlain_run. Qed.





(** *** Names and attributes that the scanner reads back *)






(** *** Scopes without namespaces *)





Lemma substring_take s a b :
  a <= b -> substring s a b = take (b - a) (drop a s).
Proof.
  intros Hab. unfold substring.
  destruct (Nat.le_gt_cases a (length s)) as [Hle|Hgt].
  - replace (Nat.min (Nat.min a (length s)) (Nat.min b (length s))) with a by lia.
    replace (Nat.max (Nat.min a (length s)) (Nat.min b (length s)) - a)
      with (Nat.min (b - a) (length (drop a s))) by (rewrite length_drop; lia).
    destruct (Nat.le_gt_cases (b - a) (length (drop a s))).
    + f_equal. lia.
    + rewrite Nat.min_r by lia. rewrite !take_ge; [reflexivity|lia|lia].
  - rewrite (drop_ge s a) by lia. rewrite take_nil.
    replace (Nat.max _ _ - _) with 0 by lia. reflexivity.
Qed.










(** ** Round trip: the markup of a tree and the events of its scan *)








(** ** Round trip: the tree the events build *)




Lemma trimWhitespaces_pad w :
  forallb isWhitespaceChar w = true -> trimWhitespaces w = [].
Proof.
  intros Hw. unfold trimWhitespaces.
  rewrite <- (app_nil_r w) at 2. rewrite (skipWhitespace_pad _ _ _ Hw). simpl.
  now rewrite (proj2 (Nat.leb_le _ _) (Nat.le_refl _)).
Qed.































(** ** Round trip: parsing a markup *)






(** ** Round trip: the trees that come back *)





(** ** Round trip: what the printer writes *)









(** ** Round trip: the printed children are a content *)

Lemma Markup_not_text settings t s evs :
  Markup settings t s evs -> isKind Text t = false.
Proof. destruct 1; reflexivity. Qed.





(** ** Round trip: the printer writes a markup *)




(** ** Round trip: the statement *)




(** ** ToXML of a string: the node the parser returns *)

















(** Strings that leave an element open.  [<a><b/><c/>] has one root, [a],
    which is still open when the scan ends: its two children are counted
    and the error is raised.  [<a/><b>] has two roots, of which [b] is
    open and has no child: a new empty text node is returned. *)
Lemma toXML_counts_below_the_open_element :
  (openAfter 0 (fst (parseXml initialSettings (lit "<a><b/><c/>"))) = Some 1 /\
   rootsOf initialSettings 0 (fst (parseXml initialSettings (lit "<a><b/><c/>"))) = 1 /\
   snd (toXML initialSettings (VString (lit "<a><b/><c/>")) emptyStore) =
     Throw XMLMarkupMustBeWellFormed) /\
  (openAfter 0 (fst (parseXml initialSettings (lit "<a/><b>"))) = Some 1 /\
   rootsOf initialSettings 0 (fst (parseXml initialSettings (lit "<a/><b>"))) = 2 /\
   snd (toXML initialSettings (VString (lit "<a/><b>")) emptyStore) = OK (VXML 3) /\
   nodes (fst (toXML initialSettings (VString (lit "<a/><b>")) emptyStore)) !! 3 =
     Some (mkNode Text (Some 3) [] None None None None)).
Proof. repeat split; vm_compute; reflexivity. Qed.

(** * Further properties *)

(** ** Escaping and whitespace *)

(** X1.  What [escapeElementValue] and [escapeAttributeValue] write, the
    parser's [resolveEntities] reads back as the string they were given. *)
Theorem escaped_values_resolve_back s :
  resolveEntities (escapeElementValue s) = OK s /\
  resolveEntities (escapeAttributeValue s) = OK s.
Proof.
  split.
  - pose proof (resolveEntities_text [] s [] eq_refl eq_refl) as H.
    cbn [app] in H. now rewrite !app_nil_r in H.
  - apply resolveEntities_attribute.
Qed.

Lemma absent_elementReplacement ch x :
  (Ascii.eqb ch LT || Ascii.eqb ch GT = true) ->
  absent ch (elementReplacement x) = true.
Proof.
  intros Hch. unfold elementReplacement.
  destruct (Ascii.eqb x AMP) eqn:Ea; [|destruct (Ascii.eqb x LT) eqn:El;
    [|destruct (Ascii.eqb x GT) eqn:Eg]].
  - apply orb_true_iff in Hch as [H|H]; apply Ascii.eqb_eq in H; now subst ch.
  - apply orb_true_iff in Hch as [H|H]; apply Ascii.eqb_eq in H; now subst ch.
  - apply orb_true_iff in Hch as [H|H]; apply Ascii.eqb_eq in H; now subst ch.
  - simpl. rewrite andb_true_r. apply negb_true_iff.
    apply orb_true_iff in Hch as [H|H]; apply Ascii.eqb_eq in H; now subst ch.
Qed.

Lemma absent_attributeReplacement ch x :
  (Ascii.eqb ch LT || Ascii.eqb ch DQUOTE || Ascii.eqb ch NEWLINE ||
   Ascii.eqb ch CR || Ascii.eqb ch TAB = true) ->
  absent ch (attributeReplacement x) = true.
Proof.
  intros Hch. unfold attributeReplacement.
  assert (Hcases : ch = LT \/ ch = DQUOTE \/ ch = NEWLINE \/ ch = CR \/ ch = TAB).
  { rewrite !orb_true_iff, !Ascii.eqb_eq in Hch. tauto. }
  destruct (Ascii.eqb x AMP) eqn:Ea;
    [|destruct (Ascii.eqb x LT) eqn:E1;
      [|destruct (Ascii.eqb x DQUOTE) eqn:E2;
        [|destruct (Ascii.eqb x NEWLINE) eqn:E3;
          [|destruct (Ascii.eqb x CR) eqn:E4;
            [|destruct (Ascii.eqb x TAB) eqn:E5]]]]];
    try (destruct Hcases as [->|[->|[->|[->| ->]]]]; reflexivity).
  simpl. rewrite andb_true_r. apply negb_true_iff.
  destruct Hcases as [->|[->|[->|[->| ->]]]]; assumption.
Qed.

(** X2.  The escaped text of an element holds no [<] and no [>]; the
    escaped value of an attribute holds no [<], no double quote, no line
    feed, no carriage return and no tab. *)
Theorem escaped_values_hold_no_markup s :
  absent LT (escapeElementValue s) = true /\
  absent GT (escapeElementValue s) = true /\
  absent LT (escapeAttributeValue s) = true /\
  absent DQUOTE (escapeAttributeValue s) = true /\
  absent NEWLINE (escapeAttributeValue s) = true /\
  absent CR (escapeAttributeValue s) = true /\
  absent TAB (escapeAttributeValue s) = true.
Proof.
  rewrite escapeElementValue_each, escapeAttributeValue_each.
  repeat split; apply absent_replaceEach; intros x;
    first [ apply absent_elementReplacement; reflexivity
          | apply absent_attributeReplacement; reflexivity ].
Qed.

Lemma pad_front (s : jsstring) :
  exists w r, forallb isWhitespaceChar w = true /\ s = w ++ r /\
              (r = [] \/ exists c r', r = c :: r' /\ isWhitespaceChar c = false).
Proof.
  induction s as [|ch s (w & r & Hw & -> & Hr)].
  - exists [], []. auto.
  - destruct (isWhitespaceChar ch) eqn:Hch.
    + exists (ch :: w), r. split; [simpl; now rewrite Hch|]. auto.
    + exists [], (ch :: w ++ r). split; [reflexivity|]. split; [reflexivity|].
      right. eauto.
Qed.

Lemma pad_back (s : jsstring) :
  exists v w', forallb isWhitespaceChar w' = true /\ s = v ++ w' /\
               (v = [] \/ exists p c, v = p ++ [c] /\ isWhitespaceChar c = false).
Proof.
  destruct (pad_front (rev s)) as (w & r & Hw & Hs & Hr).
  exists (rev r), (rev w). split; [|split].
  - rewrite forallb_forall in *. intros x Hx. apply Hw. now apply in_rev.
  - rewrite <- rev_app_distr, <- Hs. symmetry. apply rev_involutive.
  - destruct Hr as [->|(c & r' & -> & Hc)]; [now left|].
    right. exists (rev r'), c. auto.
Qed.

Lemma trimWhitespaces_fixed (v : jsstring) c r p c' :
  v = c :: r -> v = p ++ [c'] ->
  isWhitespaceChar c = false -> isWhitespaceChar c' = false ->
  trimWhitespaces v = v.
Proof.
  intros Hfront Hback Hc Hc'. unfold trimWhitespaces.
  assert (Hi : skipWhitespace v 0 = 0).
  { rewrite Hfront. now apply skipWhitespace_stop. }
  rewrite Hi.
  assert (Hlen : (length v <=? 0) = false).
  { rewrite Hfront. reflexivity. }
  rewrite Hlen. cbv zeta.
  assert (Hj : scanBack v (length v) = Z.of_nat (length p)).
  { pose proof (scanBack_stop p c' [] Hc') as H.
    rewrite app_nil_r in H. now rewrite Hback. }
  rewrite Hj.
  assert (Hz : (Z.of_nat (length p) =? Z.of_nat (length v) - 1)%Z = true).
  { apply Z.eqb_eq. rewrite Hback, length_app. simpl. lia. }
  now rewrite Hz.
Qed.

(** X3.  [trimWhitespaces] cuts a run of blanks, tabs and line ends off
    each end of the string and nothing else: what is left starts and ends
    with another character, or is empty, and is left as it is by a second
    call. *)
Theorem trimWhitespaces_cuts_the_ends s :
  exists w w',
    forallb isWhitespaceChar w = true /\ forallb isWhitespaceChar w' = true /\
    s = w ++ trimWhitespaces s ++ w' /\
    (forall c r, trimWhitespaces s = c :: r -> isWhitespaceChar c = false) /\
    (forall p c, trimWhitespaces s = p ++ [c] -> isWhitespaceChar c = false) /\
    trimWhitespaces (trimWhitespaces s) = trimWhitespaces s.
Proof.
  destruct (pad_front s) as (w & r & Hw & -> & Hr).
  destruct Hr as [->|(c & r' & -> & Hc)].
  { exists w, []. rewrite app_nil_r, (trimWhitespaces_pad w Hw).
    split; [assumption|]. split; [reflexivity|]. split; [now rewrite app_nil_r|].
    split; [discriminate|]. split; [|reflexivity].
    intros p c H. now destruct p. }
  destruct (pad_back (c :: r')) as (v & w' & Hw' & Hv & Hend).
  destruct Hend as [->|(p & c' & -> & Hc')].
  { simpl in Hv. subst w'. simpl in Hw'. now rewrite Hc in Hw'. }
  assert (Hfront : exists r0, p ++ [c'] = c :: r0).
  { destruct p as [|x p]; simpl in Hv; injection Hv as -> _; eexists; reflexivity. }
  destruct Hfront as [r0 Hfront].
  assert (Hfix : trimWhitespaces (p ++ [c']) = p ++ [c']).
  { now apply (trimWhitespaces_fixed _ c r0 p c'). }
  assert (Htrim : trimWhitespaces (w ++ c :: r') = p ++ [c']).
  { rewrite Hv. apply trimWhitespaces_padded; auto. now destruct p. }
  exists w, w'. rewrite Htrim.
  split; [assumption|]. split; [assumption|]. split; [now rewrite Hv|].
  split; [|split; [|assumption]].
  - intros c0 r1 H. rewrite Hfront in H. now injection H as <- _.
  - intros p0 c0 H. apply app_inj_tail in H as [_ <-]. assumption.
Qed.

(** ** Simple and complex content *)

Lemma forallb_negb_existsb {A} (f : A -> bool) l :
  forallb (fun a => negb (f a)) l = negb (existsb f l).
Proof.
  induction l as [|a l IH]; [reflexivity|]. simpl. rewrite IH.
  now destruct (f a).
Qed.

(** X4.  No node with a kind and no list of such nodes has both simple
    and complex content.  An element has one of the two, a comment and a
    processing instruction have neither, a text and an attribute have
    simple content; a list of no or of several nodes has one of the two,
    and a list of one node has what the node has. *)
Theorem content_is_simple_or_complex :
  (forall t, t_kind t <> Unknown ->
             hasComplexContent t && hasSimpleContent t = false) /\
  (forall t, t_kind t = Element ->
             hasSimpleContent t = negb (hasComplexContent t)) /\
  (forall t, t_kind t = Comment \/ t_kind t = ProcessingInstruction ->
             hasSimpleContent t = false /\ hasComplexContent t = false) /\
  (forall t, t_kind t = Text \/ t_kind t = Attribute ->
             hasSimpleContent t = true /\ hasComplexContent t = false) /\
  (forall l, Forall (fun t => t_kind t <> Unknown) l ->
             XMLList_hasComplexContent l && XMLList_hasSimpleContent l = false) /\
  (forall l, length l <> 1 ->
             XMLList_hasSimpleContent l = negb (XMLList_hasComplexContent l)) /\
  (forall t, XMLList_hasSimpleContent [t] = hasSimpleContent t /\
             XMLList_hasComplexContent [t] = hasComplexContent t).
Proof.
  assert (Hnode : forall t, t_kind t <> Unknown ->
                            hasComplexContent t && hasSimpleContent t = false).
  { intros t Hk. unfold hasComplexContent, hasSimpleContent.
    destruct (t_kind t); try reflexivity; [now destruct Hk|].
    rewrite forallb_negb_existsb. apply andb_negb_r. }
  split; [exact Hnode|]. split.
  { intros t Hk. unfold hasComplexContent, hasSimpleContent. rewrite Hk.
    apply forallb_negb_existsb. }
  split.
  { intros t [Hk|Hk]; unfold hasComplexContent, hasSimpleContent;
      rewrite Hk; auto. }
  split.
  { intros t [Hk|Hk]; unfold hasComplexContent, hasSimpleContent;
      rewrite Hk; auto. }
  split.
  { intros [|a [|b l]] Hall; [reflexivity| |].
    - apply Hnode. now apply list.Forall_cons in Hall as [Ha _].
    - unfold XMLList_hasComplexContent, XMLList_hasSimpleContent.
      rewrite forallb_negb_existsb. apply andb_negb_r. }
  split.
  { intros [|a [|b l]] Hlen; [reflexivity|now destruct Hlen|].
    unfold XMLList_hasComplexContent, XMLList_hasSimpleContent.
    apply forallb_negb_existsb. }
  intros t. split; reflexivity.
Qed.

(** ** The scanner ends *)

Lemma findFrom_ge pat rest : forall i q, findFrom pat rest i = Some q -> i <= q.
Proof.
  induction rest as [|c rest IH]; intros i q; simpl; [discriminate|].
  destruct (isPrefixOf pat (c :: rest)).
  - intros [= <-]. lia.
  - intros H. apply IH in H. lia.
Qed.

Lemma indexOfFrom_ge s pat from q : indexOfFrom s pat from = Some q -> from <= q.
Proof. apply findFrom_ge. Qed.

Lemma scanTo_ge stop s pos : pos <= scanTo stop s pos.
Proof. unfold scanTo. apply skipPlain_bounds. Qed.

Lemma skipWs_ge s pos : pos <= skipWs s pos.
Proof. unfold skipWs. apply skipWhitespace_ge. Qed.

Lemma ravoids_Throw_inv {A} X e : ravoids X (@Throw A e) -> e <> X.
Proof. intros H ->. now apply H. Qed.

Lemma ravoids_OutOfFuel_resolveEntities s : ravoids OutOfFuel (resolveEntities s).
Proof. unfold resolveEntities. avoids_auto. Qed.

Lemma ravoids_OutOfFuel_getName scopes name b :
  ravoids OutOfFuel (getName scopes name b).
Proof. unfold getName. avoids_auto. Qed.

Lemma ravoids_OutOfFuel_scanDeclarations scopes attrs :
  forall scope, ravoids OutOfFuel (scanDeclarations scopes attrs scope).
Proof.
  induction attrs as [|[name value] attrs IH]; intros scope; simpl;
    repeat first [apply IH | avoids_step | avoids_cases].
Qed.

Lemma ravoids_OutOfFuel_resolveAttributes scopes attrs :
  ravoids OutOfFuel (resolveAttributes scopes attrs).
Proof.
  induction attrs as [|[name value] attrs IH]; simpl;
    repeat first [apply IH | apply ravoids_OutOfFuel_getName
                 | avoids_step | avoids_cases].
Qed.

(** A round of the attribute loop ends behind the closing quote. *)
Lemma parseAttributes_ends fuel s :
  forall pos attributes,
    length s - pos <= fuel ->
    match parseAttributes fuel s pos attributes with
    | OK (_, pos') => pos <= pos'
    | Throw e => e <> OutOfFuel
    end.
Proof.
  induction fuel as [|fuel IH]; intros pos attributes Hfuel; cbn [parseAttributes].
  - destruct (pos <? length s) eqn:Hlt.
    + apply Nat.ltb_lt in Hlt. lia.
    + simpl. lia.
  - destruct ((pos <? length s) && negb (charIs s pos GT) &&
              negb (charIs s pos SLASH) && negb (charIs s pos QUESTION));
      [|simpl; lia].
    cbv zeta.
    set (p1 := skipWs s pos).
    set (nameEnd := scanTo _ s p1).
    set (p2 := skipWs s nameEnd).
    assert (H1 : pos <= p2).
    { assert (pos <= p1) by apply skipWs_ge.
      assert (p1 <= nameEnd) by apply scanTo_ge.
      assert (nameEnd <= p2) by apply skipWs_ge. lia. }
    destruct (negb (charIs s p2 EQUALS)); [discriminate|].
    set (p3 := skipWs s (p2 + 1)).
    assert (H3 : p2 + 1 <= p3) by apply skipWs_ge.
    destruct (charAt s p3) as [q|]; [|discriminate].
    destruct (Ascii.eqb q DQUOTE || Ascii.eqb q SQUOTE); [|discriminate].
    destruct (indexOfFrom s [q] (p3 + 1)) as [e|] eqn:He; [|discriminate].
    apply indexOfFrom_ge in He.
    pose proof (ravoids_OutOfFuel_resolveEntities (substring s (p3 + 1) e)) as Hre.
    destruct (resolveEntities (substring s (p3 + 1) e)) as [v|err];
      [|exact (ravoids_Throw_inv _ _ Hre)].
    cbn [mbind result_bind].
    pose proof (skipWs_ge s (e + 1)) as H4.
    specialize (IH (skipWs s (e + 1)) (attributes ++ [(substring s p1 nameEnd, v)])).
    destruct (parseAttributes fuel s (skipWs s (e + 1)) _) as [[r pos']|err].
    + assert (length s - skipWs s (e + 1) <= fuel) by lia. specialize (IH H). lia.
    + apply IH. lia.
Qed.

Lemma parseStartTag_ends s j scopes :
  match parseStartTag s j scopes with
  | OK (_, j', _) => j < j'
  | Throw e => e <> OutOfFuel
  end.
Proof.
  unfold parseStartTag, parseContent.
  set (pos := skipWs s (scanTo endsTagName s j)).
  assert (Hpos : j <= pos).
  { pose proof (scanTo_ge endsTagName s j).
    pose proof (skipWs_ge s (scanTo endsTagName s j)). unfold pos. lia. }
  pose proof (parseAttributes_ends (length s) s pos []) as Hattr.
  destruct (parseAttributes (length s) s pos []) as [[attrs pos']|e];
    [|apply Hattr; lia].
  assert (Hle : pos <= pos') by (apply Hattr; lia). clear Hattr.
  cbn [mbind result_bind c_parsed c_name c_attributes].
  destruct (jsstring_eqb _ (lit "/>")).
  - cbn [mbind result_bind].
    pose proof (ravoids_OutOfFuel_scanDeclarations scopes attrs
                  (mkScope [] [] [] None None)) as Hd.
    destruct (scanDeclarations scopes attrs _) as [[scope ca]|e]; [|exact (ravoids_Throw_inv _ _ Hd)].
    cbn [mbind result_bind]. destruct scopes as [|top scopes]; [discriminate|].
    cbv zeta.
    match goal with
    | |- context [resolveAttributes ?sc ?ca] =>
      pose proof (ravoids_OutOfFuel_resolveAttributes sc ca) as Hr;
      destruct (resolveAttributes sc ca) as [ra|e]; [|exact (ravoids_Throw_inv _ _ Hr)]
    end.
    cbn [mbind result_bind].
    match goal with
    | |- context [getName ?sc ?n ?b] =>
      pose proof (ravoids_OutOfFuel_getName sc n b) as Hn;
      destruct (getName sc n b) as [pn|e]; [|exact (ravoids_Throw_inv _ _ Hn)]
    end.
    cbn [mbind result_bind]. lia.
  - destruct (negb _); [discriminate|].
    cbn [mbind result_bind].
    pose proof (ravoids_OutOfFuel_scanDeclarations scopes attrs
                  (mkScope [] [] [] None None)) as Hd.
    destruct (scanDeclarations scopes attrs _) as [[scope ca]|e]; [|exact (ravoids_Throw_inv _ _ Hd)].
    cbn [mbind result_bind]. destruct scopes as [|top scopes]; [discriminate|].
    cbv zeta.
    match goal with
    | |- context [resolveAttributes ?sc ?ca] =>
      pose proof (ravoids_OutOfFuel_resolveAttributes sc ca) as Hr;
      destruct (resolveAttributes sc ca) as [ra|e]; [|exact (ravoids_Throw_inv _ _ Hr)]
    end.
    cbn [mbind result_bind].
    match goal with
    | |- context [getName ?sc ?n ?b] =>
      pose proof (ravoids_OutOfFuel_getName sc n b) as Hn;
      destruct (getName sc n b) as [pn|e]; [|exact (ravoids_Throw_inv _ _ Hn)]
    end.
    cbn [mbind result_bind]. lia.
Qed.

Lemma parseStep_ends s i scopes :
  i < length s ->
  match parseStep s i scopes with
  | OK (_, j, _) => i < j
  | Throw e => e <> OutOfFuel
  end.
Proof.
  intros Hi. unfold parseStep.
  destruct (charIs s i LT).
  - cbv zeta. destruct (charIs s (i + 1) SLASH).
    { destruct (indexOfFrom s [GT] (i + 1 + 1)) as [q|] eqn:Hq; [|discriminate].
      apply indexOfFrom_ge in Hq.
      pose proof (ravoids_OutOfFuel_getName scopes (substring s (i + 1 + 1) q) true)
        as Hn.
      destruct (getName scopes _ true) as [n|e];
        [|exact (ravoids_Throw_inv _ _ Hn)].
      cbn [mbind result_bind]. lia. }
    destruct (charIs s (i + 1) QUESTION).
    { destruct (parseProcessingInstruction s (i + 1 + 1)) as [[name value] parsed].
      destruct (negb _); [discriminate|]. lia. }
    destruct (charIs s (i + 1) BANG).
    2:{ pose proof (parseStartTag_ends s (i + 1) scopes) as H.
        destruct (parseStartTag s (i + 1) scopes) as [[[ev j] sc]|e];
          [lia|exact H]. }
    destruct (jsstring_eqb _ (lit "--")).
    { destruct (indexOfFrom s (lit "-->") (i + 1 + 3)) as [q|] eqn:Hq; [|discriminate].
      apply indexOfFrom_ge in Hq. lia. }
    destruct (jsstring_eqb _ (lit "[CDATA[")).
    { destruct (indexOfFrom s (lit "]]>") (i + 1 + 8)) as [q|] eqn:Hq; [|discriminate].
      apply indexOfFrom_ge in Hq. lia. }
    destruct (jsstring_eqb _ (lit "DOCTYPE")); [|discriminate].
    destruct (indexOfFrom s [GT] (i + 1 + 8)) as [q|] eqn:Hq; [|discriminate].
    apply indexOfFrom_ge in Hq.
    match goal with |- context [if ?b then _ else _] => destruct b end; [|lia].
    destruct (indexOfFrom s (lit "]>") (i + 1 + 8)) as [q'|] eqn:Hq'; [|discriminate].
    apply indexOfFrom_ge in Hq'. lia.
  - cbv zeta.
    pose proof (scanTo_ge (fun ch => Ascii.eqb ch LT) s (i + 1)) as Hnext.
    destruct (resolveEntities _) as [t|e] eqn:Hre.
    + cbn [mbind result_bind].
      destruct (scanTo _ s (i + 1) <? length s); lia.
    + cbn [mbind result_bind]. intros ->.
      now apply (ravoids_OutOfFuel_resolveEntities _ Hre).
Qed.

Lemma parseLoop_ends fuel s :
  forall i scopes,
    length s - i <= fuel ->
    snd (parseLoop fuel s i scopes) <> Some OutOfFuel.
Proof.
  induction fuel as [|fuel IH]; intros i scopes Hfuel; cbn [parseLoop].
  - destruct (i <? length s) eqn:Hlt; [|discriminate].
    apply Nat.ltb_lt in Hlt. lia.
  - destruct (i <? length s) eqn:Hlt; [|discriminate].
    apply Nat.ltb_lt in Hlt.
    pose proof (parseStep_ends s i scopes Hlt) as Hstep.
    destruct (parseStep s i scopes) as [[[ev j] scopes']|e].
    + specialize (IH j scopes').
      destruct (parseLoop fuel s j scopes') as [evs err]. apply IH. lia.
    + simpl. congruence.
Qed.

(** X5.  The scanner ends: every round of its loop, and of the loop over
    the attributes of a tag, moves the position forward, so that the
    rounds never outnumber the characters of the string.  A scan stops at
    the end of the string or with an exception of the scanner, never for
    lack of rounds. *)
Theorem scanner_ends settings s :
  snd (parseXml settings s) <> Some OutOfFuel /\
  (forall i scopes,
     i < length s ->
     match parseStep s i scopes with
     | OK (_, j, _) => i < j
     | Throw e => e <> OutOfFuel
     end).
Proof.
  split.
  - unfold parseXml. apply parseLoop_ends. lia.
  - intros i scopes. apply parseStep_ends.
Qed.

(** ** Names and strings of nodes *)

Lemma lastWithUri_spec uri l : forall found,
  match lastWithUri uri l found with
  | Some ns => (ns ∈ l /\ ns_uri ns = uri) \/
               (found = Some ns /\ Forall (fun n => ns_uri n <> uri) l)
  | None => found = None /\ Forall (fun n => ns_uri n <> uri) l
  end.
Proof.
  induction l as [|n l IH]; intros found; cbn [lastWithUri].
  - destruct found; auto.
  - specialize (IH (if jsstring_eqb uri (ns_uri n) then Some n else found)).
    destruct (lastWithUri uri l _) as [ns|].
    + destruct IH as [[Hin Hu]|[Hf Hall]].
      * left. split; [now apply elem_of_cons; right|assumption].
      * unfold jsstring_eqb in Hf.
        destruct (bool_decide (uri = ns_uri n)) eqn:He.
        -- apply bool_decide_eq_true in He. injection Hf as <-.
           left. split; [apply elem_of_cons; now left|now symmetry].
        -- apply bool_decide_eq_false in He.
           right. split; [assumption|]. constructor; [congruence|assumption].
    + destruct IH as [Hf Hall]. unfold jsstring_eqb in Hf.
      destruct (bool_decide (uri = ns_uri n)) eqn:He; [discriminate|].
      apply bool_decide_eq_false in He.
      split; [assumption|]. constructor; [congruence|assumption].
Qed.

(** X6.  [getNamespace] on a name with a namespace returns a namespace
    with the uri of the name: one of the in-scope namespaces given, if one
    has that uri, and a new one only if none has.  It throws on a name
    without a namespace, and when the new namespace would have a prefix
    and no uri. *)
Theorem getNamespace_has_the_uri q inScope :
  match getNamespace q inScope with
  | OK ns =>
    qn_uri q = Some (ns_uri ns) /\
    (ns ∈ inScope \/ Forall (fun n => Some (ns_uri n) <> qn_uri q) inScope)
  | Throw e =>
    qn_namespace q = None \/
    (e = XMLNamespaceWithPrefixAndNoURI /\ qn_uri q = Some [] /\
     Forall (fun n => ns_uri n <> []) inScope)
  end.
Proof.
  unfold getNamespace, qn_uri. destruct (qn_namespace q) as [own|]; [|now left].
  pose proof (lastWithUri_spec (ns_uri own) inScope None) as H.
  destruct (lastWithUri (ns_uri own) inScope None) as [ns|].
  - destruct H as [[Hin Hu]|[Hf _]]; [|discriminate].
    split; [now rewrite Hu|now left].
  - destruct H as [_ Hall]. unfold newNamespace.
    destruct (ns_uri own) as [|c u] eqn:Hu.
    + destruct (ns_prefix own) as [[|c p]|].
      * split; [reflexivity|]. right.
        eapply list.Forall_impl; [exact Hall|]. cbn. congruence.
      * right. auto.
      * split; [reflexivity|]. right.
        eapply list.Forall_impl; [exact Hall|]. cbn. congruence.
    + split; [reflexivity|]. right.
      eapply list.Forall_impl; [exact Hall|]. cbn. congruence.
Qed.

Lemma toString_children settings (children : list XMLTree) : forall s,
  Forall (fun c => t_kind c = Text \/ t_kind c = Comment \/
                   t_kind c = ProcessingInstruction) children ->
  (fix eachChild (cs : list XMLTree) (s : jsstring) : result jsstring :=
     match cs with
     | [] => OK s
     | child :: cs' =>
       if isKind Comment child || isKind ProcessingInstruction child
       then eachChild cs' s
       else c ← toString settings child; eachChild cs' (s ++ c)
     end) children s =
  OK (s ++ concat (map t_value (List.filter (isKind Text) children))).
Proof.
  induction children as [|c cs IH]; intros s Hall.
  - simpl. now rewrite app_nil_r.
  - apply list.Forall_cons in Hall as [Hc Hall].
    destruct c as [kind name value inScope attrs children].
    cbn [t_kind] in Hc. unfold isKind at 1 2. cbn [t_kind].
    destruct Hc as [->|[->| ->]]; cbn [bool_decide decide_rel orb]; simpl.
    + rewrite (IH _ Hall). unfold isKind at 2. cbn. now rewrite <- app_assoc.
    + rewrite (IH _ Hall). reflexivity.
    + rewrite (IH _ Hall). reflexivity.
Qed.

(** X7.  The string of an element whose children are texts, comments and
    processing instructions is the values of the texts, one after the
    other; what the node has as attributes and names plays no part. *)
Theorem toString_joins_the_texts settings name value inScope attrs children :
  Forall (fun c => t_kind c = Text \/ t_kind c = Comment \/
                   t_kind c = ProcessingInstruction) children ->
  ASXML_toString settings (mkXML Element name value inScope attrs children) =
  OK (concat (map t_value (List.filter (isKind Text) children))).
Proof.
  intros Hall.
  assert (Hsimple : hasSimpleContent
                      (mkXML Element name value inScope attrs children) = true).
  { unfold hasSimpleContent. cbn [t_kind t_children].
    rewrite forallb_forall. intros c Hin.
    rewrite list.Forall_forall in Hall.
    apply list_elem_of_In in Hin.
    unfold isKind. destruct (Hall c Hin) as [->|[->| ->]]; reflexivity. }
  assert (Hcomplex : hasComplexContent
                       (mkXML Element name value inScope attrs children) = false).
  { unfold hasSimpleContent in Hsimple. unfold hasComplexContent.
    cbn [t_kind t_children] in *. rewrite forallb_negb_existsb in Hsimple.
    now apply negb_true_iff in Hsimple. }
  unfold ASXML_toString. rewrite Hcomplex. cbn [toString]. rewrite Hsimple.
  apply (toString_children settings children [] Hall).
Qed.

Lemma toString_joins_the_texts_witness :
  ASXML_toString initialSettings
    (mkXML Element None [] [] []
           [mkXML Text None (lit "a") [] [] [];
            mkXML Comment None (lit "no") [] [] [];
            mkXML Text None (lit "b") [] [] []]) = OK (lit "ab").
Proof.
  apply (toString_joins_the_texts initialSettings None [] [] []
           [mkXML Text None (lit "a") [] [] [];
            mkXML Comment None (lit "no") [] [] [];
            mkXML Text None (lit "b") [] [] []]).
  repeat (apply List.Forall_cons; [cbn; auto|]). apply List.Forall_nil.
Defined.

(** ** In-scope namespaces *)

(** X8.  [addInScopeNamespace] never adds a namespace: however it ends,
    every node has as many in-scope namespaces as before, each of them an
    old one or the namespace given, and nothing else of any node or name
    is changed. *)
Theorem addInScopeNamespace_adds_nothing self ns st :
  let st' := fst (addInScopeNamespace self ns st) in
  qnames st' = qnames st /\
  length (nodes st') = length (nodes st) /\
  forall (r : ref) n, nodes st !! r = Some n ->
    exists n', nodes st' !! r = Some n' /\
      with_inScopeNamespaces None n' = with_inScopeNamespaces None n /\
      option_map length (_inScopeNamespaces n') =
        option_map length (_inScopeNamespaces n) /\
      Forall (fun v => v = ns \/ v ∈ default [] (_inScopeNamespaces n))
             (default [] (_inScopeNamespaces n')).
Proof.
  set (P := fun st' : Store =>
    qnames st' = qnames st /\
    length (nodes st') = length (nodes st) /\
    forall (r : ref) n, nodes st !! r = Some n ->
      exists n', nodes st' !! r = Some n' /\
        with_inScopeNamespaces None n' = with_inScopeNamespaces None n /\
        option_map length (_inScopeNamespaces n') =
          option_map length (_inScopeNamespaces n) /\
        Forall (fun v => v = ns \/ v ∈ default [] (_inScopeNamespaces n))
               (default [] (_inScopeNamespaces n'))).
  assert (Hsame : P st).
  { split; [reflexivity|]. split; [reflexivity|].
    intros r n Hn. exists n. repeat split; auto.
    apply list.Forall_forall. auto. }
  assert (Hwp : wp (addInScopeNamespace self ns) (fun _ => P) P st).
  { unfold addInScopeNamespace. rewrite wp_bind, wp_getNode.
    destruct (nodes st !! self) as [x|] eqn:Hx; [|exact Hsame].
    destruct (isLeafKind (_kind x)); [now rewrite wp_ret|].
    destruct (ns_prefix ns) as [prefix|]; [|now rewrite wp_ret].
    rewrite wp_bind. apply wp_readOnly; [| |exact Hsame].
    { destruct (jsstring_eqb prefix []); [|apply readOnly_ret].
      apply readOnly_bind; [apply readOnly_nameOf|]. intros ?. apply readOnly_ret. }
    intros [|]; [now rewrite wp_ret|].
    rewrite wp_bind.
    destruct (_inScopeNamespaces x) as [inScope|] eqn:Hin;
      [rewrite wp_ret|now rewrite wp_throw].
    rewrite wp_bind.
    assert (Hrest : forall st', P st' ->
              wp (nameOf x;; attributes ← attributesOf x;
                  mapM (fun v => a ← getNode v; nameOf a) attributes;; mret tt)
                 (fun _ => P) P st').
    { intros st' HP. apply wp_readOnly; auto.
      apply readOnly_bind; [apply readOnly_nameOf|]. intros _.
      apply readOnly_bind; [apply readOnly_attributesOf|]. intros attributes.
      apply readOnly_bind; [|intros; apply readOnly_ret].
      apply readOnly_mapM. intros v.
      apply readOnly_bind; [apply readOnly_getNode|]. intros a.
      apply readOnly_nameOf. }
    destruct (lastWithPrefix (Some prefix) inScope None) as [found|];
      [|rewrite wp_ret; now apply Hrest].
    destruct (negb _); [|rewrite wp_ret; now apply Hrest].
    rewrite wp_modifyNode, Hx. apply Hrest.
    split; [reflexivity|]. split; [apply length_updNode|].
    intros r n Hn. rewrite (nodes_updNode _ _ _ _ Hx).
    destruct (decide (r = self)) as [->|]; [|exists n; repeat split; auto;
                                              apply list.Forall_forall; auto].
    assert (n = x) by congruence. subst n.
    eexists. split; [reflexivity|]. split; [reflexivity|]. split.
    - cbn. rewrite Hin. cbn. now rewrite length_map.
    - cbn. rewrite Hin. cbn. apply list.Forall_forall. intros v Hv.
      apply list_elem_of_fmap in Hv as (w & -> & Hw).
      destruct (optstr_eqb _ _); auto. }
  apply wp_run in Hwp.
  destruct (snd (addInScopeNamespace self ns st)); exact Hwp.
Qed.

(** ** Children by index *)

Lemma getNode_run (r : ref) st n : nodes st !! r = Some n -> getNode r st = (st, OK n).
Proof. intros H. unfold getNode. now rewrite H. Qed.

Lemma indexOf_middle x (l1 l2 : list (option ref)) :
  Some x ∉ l1 -> indexOf x (l1 ++ Some x :: l2) = Some (length l1).
Proof.
  induction l1 as [|c l1 IH]; intros Hnot; cbn [indexOf app].
  - now rewrite bool_decide_eq_true_2.
  - rewrite bool_decide_eq_false_2.
    2:{ intros ->. apply Hnot. now left. }
    rewrite IH; [reflexivity|]. intros Hin. apply Hnot. now right.
Qed.

Lemma onParentChain_self fuel v st :
  onParentChain fuel (Some v) v st = (st, OK true).
Proof. destruct fuel; cbn [onParentChain]; now rewrite bool_decide_eq_true_2. Qed.

(** What [insert] does at an index within the children of an element. *)
Lemma insert_run self (i : nat) v st (this vn : ASXML) cs :
  nodes st !! self = Some this -> _kind this = Element ->
  _children this = Some cs ->
  (Z.of_nat i < 4294967296)%Z ->
  nodes st !! v = Some vn ->
  onParentChain (length (nodes st)) (Some self) v st = (st, OK false) ->
  v <> self /\
  insert self (Z.of_nat i) v st =
  (updNode self (with_children (Some (insertAt i (Some v) cs)) this)
     (updNode v (with_parent (Some self) vn) st), OK tt).
Proof.
  intros Hself Hkind Hcs Hu Hv Hchain.
  assert (Hne : v <> self).
  { intros ->. rewrite onParentChain_self in Hchain. discriminate Hchain. }
  split; [assumption|].
  unfold insert. rewrite bind_run, (getNode_run _ _ _ Hself).
  rewrite Hkind. cbn [isLeafKind].
  assert (Hidx : isUint32 (Z.of_nat i) = true).
  { unfold isUint32. apply andb_true_iff. split; [apply Z.leb_le|apply Z.ltb_lt]; lia. }
  rewrite Hidx. cbn [negb].
  rewrite bind_run. unfold storeSize at 1. cbv iota beta.
  rewrite bind_run, bool_decide_eq_true_2 by reflexivity.
  rewrite Hchain. cbv iota beta.
  rewrite bind_run, (modifyNode_run _ _ _ _ Hv).
  rewrite bind_run.
  assert (Hself' : nodes (updNode v (with_parent (Some self) vn) st) !! self
                   = Some this).
  { rewrite (nodes_updNode _ _ _ _ Hv). now rewrite decide_False. }
  rewrite (getNode_run _ _ _ Hself'). rewrite Hcs, Nat2Z.id. reflexivity.
Qed.

Lemma childrenIn_updNode st (r : ref) (n n' : ASXML) :
  nodes st !! r = Some n ->
  childrenIn (updNode r n' st) r = default [] (_children n').
Proof.
  intros Hr. unfold childrenIn. now rewrite (lookup_updNode_same _ _ _ _ Hr).
Qed.

(** X9.  [insert(i, v)] on an element, with [i] no greater than the number
    of its children and [v] neither the element nor one of its ancestors,
    puts [v] at index [i] and moves the children from [i] on one place up;
    [v] has the element as its parent, and, when it was not among the
    children and is no attribute, [childIndex] of [v] is [i].  No other
    node is changed. *)
Theorem insert_then_childIndex self (i : nat) v st (this vn : ASXML) cs :
  nodes st !! self = Some this -> _kind this = Element ->
  _children this = Some cs ->
  i <= length cs -> (Z.of_nat i < 4294967296)%Z ->
  nodes st !! v = Some vn -> _kind vn <> Attribute ->
  Some v ∉ cs ->
  onParentChain (length (nodes st)) (Some self) v st = (st, OK false) ->
  exists st',
    insert self (Z.of_nat i) v st = (st', OK tt) /\
    childrenIn st' self = take i cs ++ Some v :: drop i cs /\
    parentIn st' v = Some self /\
    childIndex v st' = (st', OK (Z.of_nat i)) /\
    (forall r : ref, r <> self -> r <> v -> nodes st' !! r = nodes st !! r).
Proof.
  intros Hself Hkind Hcs Hi Hu Hv Hvk Hnew Hchain.
  destruct (insert_run self i v st this vn cs Hself Hkind Hcs Hu Hv Hchain)
    as [Hne Hrun].
  eexists. split; [exact Hrun|].
  assert (Hself' : nodes (updNode v (with_parent (Some self) vn) st) !! self
                   = Some this).
  { rewrite (nodes_updNode _ _ _ _ Hv). now rewrite decide_False. }
  assert (Hins : insertAt i (Some v) cs = take i cs ++ Some v :: drop i cs).
  { unfold insertAt. replace (i - length cs) with 0 by lia. reflexivity. }
  assert (Hv' : nodes (updNode self
                         (with_children (Some (insertAt i (Some v) cs)) this)
                         (updNode v (with_parent (Some self) vn) st)) !! v
                = Some (with_parent (Some self) vn)).
  { rewrite (nodes_updNode _ _ _ _ Hself'), decide_False by assumption.
    now apply (lookup_updNode_same _ _ vn). }
  split; [|split; [|split]].
  - rewrite (childrenIn_updNode _ _ _ _ Hself'). cbn. exact Hins.
  - unfold parentIn. now rewrite Hv'.
  - unfold childIndex. rewrite bind_run, (getNode_run _ _ _ Hv').
    cbn [_parent with_parent _kind].
    rewrite bool_decide_eq_false_2 by assumption.
    rewrite bind_run.
    rewrite (getNode_run _ _ _ (lookup_updNode_same _ _ _ _ Hself')).
    rewrite bind_run. unfold childrenOf.
    cbn [_children with_children]. unfold mret, M_ret.
    rewrite Hins, indexOf_middle.
    + rewrite length_take_le by lia. reflexivity.
    + intros Hin. apply Hnew. eapply elem_of_sublist; [exact Hin|].
      apply sublist_take.
  - intros r Hr1 Hr2. rewrite (nodes_updNode _ _ _ _ Hself'), decide_False by assumption.
    rewrite (nodes_updNode _ _ _ _ Hv). now rewrite decide_False.
Qed.

Lemma insert_then_childIndex_witness :
  exists st',
    insert 4 (Z.of_nat 0) 2 twoTrees = (st', OK tt) /\
    childrenIn st' 4 = take 0 [] ++ Some 2 :: drop 0 [] /\
    parentIn st' 2 = Some 4 /\
    childIndex 2 st' = (st', OK (Z.of_nat 0)) /\
    (forall r : ref, r <> 4 -> r <> 2 -> nodes st' !! r = nodes twoTrees !! r).
Proof.
  eapply (insert_then_childIndex 4 0 2 twoTrees _ _ []);
    try (vm_compute; reflexivity).
  - vm_compute. discriminate.
  - apply not_elem_of_nil.
Defined.

(** X10.  [deleteByIndex(i)] undoes [insert(i, v)]: after the two calls
    the element has the children it had, [v] has no parent, and every
    other node and every name is as it was. *)
Theorem insert_then_deleteByIndex self (i : nat) v st (this vn : ASXML) cs :
  nodes st !! self = Some this -> _kind this = Element ->
  _children this = Some cs ->
  i <= length cs -> (Z.of_nat i < 4294967296)%Z ->
  nodes st !! v = Some vn ->
  onParentChain (length (nodes st)) (Some self) v st = (st, OK false) ->
  exists st' st'',
    insert self (Z.of_nat i) v st = (st', OK tt) /\
    deleteByIndex self (Z.of_nat i) st' = (st'', OK tt) /\
    childrenIn st'' self = cs /\
    parentIn st'' v = None /\
    (forall r : ref, r <> v -> nodes st'' !! r = nodes st !! r) /\
    nodes st'' !! v = Some (with_parent None vn) /\
    qnames st'' = qnames st.
Proof.
  intros Hself Hkind Hcs Hi Hu Hv Hchain.
  destruct (insert_run self i v st this vn cs Hself Hkind Hcs Hu Hv Hchain)
    as [Hne Hrun].
  set (st1 := updNode v (with_parent (Some self) vn) st) in *.
  set (this1 := with_children (Some (insertAt i (Some v) cs)) this) in *.
  set (st2 := updNode self this1 st1) in *.
  assert (Hself1 : nodes st1 !! self = Some this).
  { unfold st1. rewrite (nodes_updNode _ _ _ _ Hv). now rewrite decide_False. }
  assert (Hself2 : nodes st2 !! self = Some this1)
    by (eapply lookup_updNode_same; eauto).
  assert (Hins : insertAt i (Some v) cs = take i cs ++ Some v :: drop i cs).
  { unfold insertAt. replace (i - length cs) with 0 by lia. reflexivity. }
  assert (Hv2 : nodes st2 !! v = Some (with_parent (Some self) vn)).
  { unfold st2. rewrite (nodes_updNode _ _ _ _ Hself1), decide_False by assumption.
    now apply (lookup_updNode_same _ _ vn). }
  set (st3 := updNode v (with_parent None (with_parent (Some self) vn)) st2).
  assert (Hself3 : nodes st3 !! self = Some this1).
  { unfold st3. rewrite (nodes_updNode _ _ _ _ Hv2). now rewrite decide_False. }
  assert (Hat : (take i cs ++ Some v :: drop i cs) !! i = Some (Some v)).
  { rewrite list_lookup_middle; [reflexivity|]. rewrite length_take_le; lia. }
  assert (Hdel : delete i (take i cs ++ Some v :: drop i cs) = cs).
  { replace i with (length (take i cs)) at 1 by (rewrite length_take_le; lia).
    rewrite delete_middle. apply take_drop. }
  exists st2, (updNode self (with_children (Some cs) this1) st3).
  split; [exact Hrun|]. split.
  { unfold deleteByIndex.
    assert (Hidx : isUint32 (Z.of_nat i) = true).
    { unfold isUint32. apply andb_true_iff.
      split; [apply Z.leb_le|apply Z.ltb_lt]; lia. }
    rewrite Hidx. cbn [negb].
    rewrite bind_run, (getNode_run _ _ _ Hself2).
    rewrite bind_run. unfold childrenOf at 1. unfold this1 at 1.
    cbn [_children with_children]. unfold mret at 1, M_ret at 1. cbv iota beta.
    rewrite Nat2Z.id, Hins, Hat.
    rewrite bind_run, (modifyNode_run _ _ _ _ Hv2).
    fold st3. rewrite bind_run, (getNode_run _ _ _ Hself3).
    rewrite bind_run. unfold childrenOf, this1 at 1.
    cbn [_children with_children]. unfold mret at 1, M_ret at 1. cbv iota beta.
    rewrite Hins, Hdel. reflexivity. }
  split; [rewrite (childrenIn_updNode _ _ _ _ Hself3); reflexivity|].
  assert (Hv3 : nodes st3 !! v = Some (with_parent None vn)).
  { unfold st3. now rewrite (lookup_updNode_same _ _ _ _ Hv2). }
  assert (Hv4 : nodes (updNode self (with_children (Some cs) this1) st3) !! v
                = Some (with_parent None vn)).
  { rewrite (nodes_updNode _ _ _ _ Hself3), decide_False by assumption.
    exact Hv3. }
  split; [unfold parentIn; now rewrite Hv4|].
  split; [|split; [exact Hv4|reflexivity]].
  intros r Hr. rewrite (nodes_updNode _ _ _ _ Hself3).
  destruct (decide (r = self)) as [->|Hrs].
  - rewrite Hself. f_equal. unfold this1. destruct this. cbn in *. now subst.
  - unfold st3. rewrite (nodes_updNode _ _ _ _ Hv2), decide_False by assumption.
    unfold st2. rewrite (nodes_updNode _ _ _ _ Hself1), decide_False by assumption.
    unfold st1. rewrite (nodes_updNode _ _ _ _ Hv). now rewrite decide_False.
Qed.

Lemma insert_then_deleteByIndex_witness :
  exists st' st'',
    insert 4 (Z.of_nat 0) 2 twoTrees = (st', OK tt) /\
    deleteByIndex 4 (Z.of_nat 0) st' = (st'', OK tt) /\
    childrenIn st'' 4 = [] /\
    parentIn st'' 2 = None /\
    (forall r : ref, r <> 2 -> nodes st'' !! r = nodes twoTrees !! r) /\
    nodes st'' !! 2 =
      Some (with_parent None (mkNode Element (Some 2) [] (Some 1) (Some [])
                                (Some []) (Some []))) /\
    qnames st'' = qnames twoTrees.
Proof.
  eapply (insert_then_deleteByIndex 4 0 2 twoTrees _ _ []);
    vm_compute; reflexivity.
Defined.

(** ** [[HasProperty]] and [[Get]] *)

Lemma someM_ext {A} (f g : A -> M bool) l st :
  (forall a st, f a st = g a st) -> someM f l st = someM g l st.
Proof.
  intros Hfg. revert st. induction l as [|a l IH]; intros st; [reflexivity|].
  cbn [someM]. rewrite !bind_run, Hfg.
  destruct (g a st) as [st' [[|]|e]]; auto.
Qed.

(** [some] finds a member exactly when [filter] keeps one, if the test
    changes nothing. *)
Lemma someM_filterM {A} (f : A -> M bool) :
  (forall a, readOnly (f a)) ->
  forall l st st' sel,
    filterM f l st = (st', OK sel) ->
    st' = st /\ someM f l st = (st, OK (negb (bool_decide (sel = [])))).
Proof.
  intros Hro. induction l as [|a l IH]; intros st st' sel; cbn [filterM someM].
  - intros [= <- <-]. split; reflexivity.
  - rewrite !bind_run. pose proof (Hro a st) as Ha.
    destruct (f a st) as [st1 [b|e]]; [|discriminate]. simpl in Ha. subst st1.
    rewrite bind_run.
    destruct (filterM f l st) as [st2 [rest|e]] eqn:Hrest; [|discriminate].
    destruct (IH _ _ _ Hrest) as [-> Hsome].
    intros [= <- <-]. split; [reflexivity|].
    destruct b; [reflexivity|exact Hsome].
Qed.

Lemma someM_always {A} (f : A -> M bool) l st :
  (forall a st, f a st = (st, OK true)) ->
  someM f l st = (st, OK (negb (bool_decide (l = [])))).
Proof.
  intros Hf. destruct l as [|a l]; [reflexivity|].
  cbn [someM]. now rewrite bind_run, Hf.
Qed.

Lemma ldiff_other (f m k : N) :
  N.land m k = 0%N -> N.land (N.ldiff f m) k = N.land f k.
Proof.
  intros H. apply N.bits_inj. intros n.
  rewrite !N.land_spec, N.ldiff_spec.
  assert (Hn : N.testbit m n && N.testbit k n = false).
  { rewrite <- N.land_spec, H. apply N.bits_0. }
  destruct (N.testbit f n), (N.testbit m n), (N.testbit k n); simpl in *;
    congruence.
Qed.

Lemma ldiff_same (f m : N) : N.land (N.ldiff f m) m = 0%N.
Proof.
  apply N.bits_inj. intros n. rewrite N.land_spec, N.ldiff_spec, N.bits_0.
  destruct (N.testbit f n), (N.testbit m n); reflexivity.
Qed.

Lemma childSelected_withoutFlag name v :
  childSelected (withoutFlag ATTR_NAME name) v = childSelected name v.
Proof.
  unfold childSelected, withoutFlag, hasFlag, qn_uri.
  cbn [qn_flags qn_namespace localName].
  now rewrite !ldiff_other by reflexivity.
Qed.

(** X11.  [hasProperty] reads its argument [isAttribute] and never the
    attribute flag of the name, which [getProperty] reads as well.  Take
    the name as [hasProperty] reads it: the name itself with [isAttribute],
    the name with the attribute flag cleared without.  Where [getProperty]
    of that name gives a list, [hasProperty] says whether the list has a
    member, and neither changes the store, but for two cases: with a name
    that stands for any local name, [hasProperty] says of attributes that
    there is one, whatever their namespaces; and of the children of a node
    without an array of children it throws a [TypeError], where
    [getProperty] gives the empty list.  So for a name with the attribute
    flag and without [isAttribute], [getProperty] selects among the
    attributes, as it does with [isAttribute], while [hasProperty] answers
    for the children. *)
Theorem hasProperty_of_what_getProperty_selects
    this name (isAttribute : bool) st st' l :
  getProperty this
    (KName (if isAttribute then name else withoutFlag ATTR_NAME name))
    isAttribute st = (st', OK (PList l)) ->
  st' = st /\
  (exists x, nodes st !! this = Some x /\
   hasProperty this (KName name) isAttribute st =
   (st,
    if isAttribute then
      OK (Some (if hasFlag (qn_flags name) ANY_NAME
                then negb (bool_decide (default [] (_attributes x) = []))
                else negb (bool_decide (l_children l = []))))
    else
      match _children x with
      | Some _ => OK (if bool_decide (l_children l = []) then None else Some true)
      | None => Throw NativeTypeError
      end)) /\
  (hasFlag (qn_flags name) ATTR_NAME = true ->
   getProperty this (KName name) false st =
   getProperty this (KName name) true st).
Proof.
  intros Hget.
  assert (Hmain :
    st' = st /\
    exists x, nodes st !! this = Some x /\
    hasProperty this (KName name) isAttribute st =
    (st,
     if isAttribute then
       OK (Some (if hasFlag (qn_flags name) ANY_NAME
                 then negb (bool_decide (default [] (_attributes x) = []))
                 else negb (bool_decide (l_children l = []))))
     else
       match _children x with
       | Some _ => OK (if bool_decide (l_children l = []) then None else Some true)
       | None => Throw NativeTypeError
       end)).
  { revert Hget. unfold getProperty, hasProperty.
    rewrite !bind_run. unfold getNode.
    destruct (nodes st !! this) as [x|] eqn:Hx; [|discriminate].
    destruct isAttribute.
    - cbn [orb]. rewrite !bind_run.
      destruct (_attributes x) as [attrs|] eqn:Hattrs.
      + destruct (filterM (attributeSelected name) attrs st)
          as [st1 [sel|e]] eqn:Hsel; [|discriminate].
        destruct (someM_filterM _ (readOnly_attributeSelected name) _ _ _ _ Hsel)
          as [-> Hsome].
        intros [= <- <-]. split; [reflexivity|]. exists x. split; [reflexivity|].
        rewrite Hattrs. cbn [l_children default].
        destruct (hasFlag (qn_flags name) ANY_NAME) eqn:Hany.
        * rewrite (someM_always (attributeNamed name)); [reflexivity|].
          intros a st0. unfold attributeNamed. now rewrite Hany.
        * rewrite (someM_ext _ (attributeSelected name)).
          2:{ intros a st0. unfold attributeNamed, attributeSelected.
              rewrite Hany. reflexivity. }
          rewrite Hsome. do 3 f_equal. f_equal.
          destruct sel; reflexivity.
      + intros [= <- <-]. split; [reflexivity|]. exists x. split; [reflexivity|].
        rewrite Hattrs. cbn. now destruct (hasFlag (qn_flags name) ANY_NAME).
    - unfold withoutFlag at 1. cbn [qn_flags orb]. unfold hasFlag at 1.
      rewrite ldiff_same. cbn [N.eqb negb].
      rewrite !bind_run. unfold childrenOf.
      destruct (_children x) as [cs|] eqn:Hcs.
      + destruct (filterM _ cs st) as [st1 [sel|e]] eqn:Hsel; [|discriminate].
        destruct (someM_filterM _ (readOnly_childSelected _) _ _ _ _ Hsel)
          as [-> Hsome].
        intros [= <- <-]. split; [reflexivity|]. exists x. split; [reflexivity|].
        rewrite Hcs. cbn [l_children]. unfold mret at 1, M_ret at 1.
        cbv iota beta. rewrite bind_run.
        rewrite (someM_ext _ (childSelected (withoutFlag ATTR_NAME name)))
          by (intros a st0; now rewrite childSelected_withoutFlag).
        rewrite Hsome. now destruct (bool_decide (sel = [])).
      + intros [= <- <-]. split; [reflexivity|]. exists x. split; [reflexivity|].
        now rewrite Hcs. }
  destruct Hmain as [H1 H2]. split; [exact H1|]. split; [exact H2|].
  intros Hflag. unfold getProperty. now rewrite Hflag.
Qed.

(** On [<a b="1">t<c/></a>] with the name of the attribute [b], flagged as
    the name of an attribute, and without [isAttribute]: [getProperty]
    lists the attribute, [hasProperty] finds no child. *)
Lemma hasProperty_of_what_getProperty_selects_witness :
  sampleStore = sampleStore /\
  (exists x, nodes sampleStore !! 1 = Some x /\
   hasProperty 1 (KName (mkQName (Some (mkNamespace (Some []) [])) (lit "b") 1))
               false sampleStore =
   (sampleStore,
    match _children x with
    | Some _ => OK (if bool_decide (l_children (mkList [] (Some 1)
                      (Some (withoutFlag ATTR_NAME
                         (mkQName (Some (mkNamespace (Some []) [])) (lit "b") 1)))) = [])
                    then None else Some true)
    | None => Throw NativeTypeError
    end)) /\
  (hasFlag (qn_flags (mkQName (Some (mkNamespace (Some []) [])) (lit "b") 1))
           ATTR_NAME = true ->
   getProperty 1 (KName (mkQName (Some (mkNamespace (Some []) [])) (lit "b") 1))
               false sampleStore =
   getProperty 1 (KName (mkQName (Some (mkNamespace (Some []) [])) (lit "b") 1))
               true sampleStore).
Proof.
  apply (hasProperty_of_what_getProperty_selects 1
           (mkQName (Some (mkNamespace (Some []) [])) (lit "b") 1)
           false sampleStore sampleStore
           (mkList [] (Some 1)
              (Some (withoutFlag ATTR_NAME
                 (mkQName (Some (mkNamespace (Some []) [])) (lit "b") 1))))).
  vm_compute. reflexivity.
Defined.

(** ** [[Delete]] of attributes *)

(** The test of an attribute reads its name and nothing else. *)
Lemma attributeSelected_same name (a : ref) st st' :
  qnames st' = qnames st ->
  _name <$> nodes st' !! a = _name <$> nodes st !! a ->
  snd (attributeSelected name a st') = snd (attributeSelected name a st).
Proof.
  intros Hq Hn. unfold attributeSelected.
  destruct (_ && _); [reflexivity|].
  rewrite !bind_run. unfold getNode.
  destruct (nodes st' !! a) as [n'|], (nodes st !! a) as [n|];
    try discriminate; [|reflexivity].
  injection Hn as Hn. rewrite !bind_run. unfold nameOf. rewrite Hn.
  destruct (_name n) as [q|]; [|reflexivity].
  unfold getQName. rewrite Hq. now destruct (qnames st !! q).
Qed.

Lemma attributeSelected_upd name (a r : ref) (n : ASXML) f st :
  nodes st !! r = Some n -> _name (f n) = _name n ->
  snd (attributeSelected name a (updNode r (f n) st)) =
  snd (attributeSelected name a st).
Proof.
  intros Hr Hf. apply attributeSelected_same; [reflexivity|].
  rewrite (nodes_updNode _ _ _ _ Hr).
  destruct (decide (a = r)) as [->|]; [|reflexivity].
  rewrite Hr. cbn. now rewrite Hf.
Qed.

Lemma filterM_none {A} (f : A -> M bool) l st :
  (forall a, readOnly (f a)) ->
  (forall a, a ∈ l -> snd (f a st) = OK false) ->
  filterM f l st = (st, OK []).
Proof.
  intros Hro. induction l as [|a l IH]; intros Hall; [reflexivity|].
  cbn [filterM]. rewrite bind_run.
  pose proof (Hro a st) as Ha. pose proof (Hall a (list_elem_of_here _ _)) as Hb.
  destruct (f a st) as [st1 r]. cbn in Ha, Hb. subst st1 r.
  rewrite bind_run, IH; [reflexivity|].
  intros b Hin. apply Hall. now right.
Qed.

(** The loop of [deleteProperty], from a state in which [kept] has been
    pushed and [rest] is still to be looked at. *)
Lemma dropNamed_spec this name children : forall rest done kept st,
  consistent st -> pending st this rest ->
  (exists x, nodes st !! this = Some x /\ _attributes x = Some kept /\
             _children x = children) ->
  kept `sublist_of` done ->
  (forall a, a ∈ kept -> snd (attributeSelected name a st) = OK false) ->
  (forall a, a ∈ done -> a ∉ kept -> parentIn st a = None) ->
  wp (dropNamed this name rest)
     (fun _ st' =>
        consistent st' /\
        exists x kept',
          nodes st' !! this = Some x /\ _attributes x = Some kept' /\
          _children x = children /\
          kept' `sublist_of` done ++ rest /\
          (forall a, a ∈ kept' -> snd (attributeSelected name a st') = OK false) /\
          (forall a, a ∈ done ++ rest -> a ∉ kept' -> parentIn st' a = None))
     consistent st.
Proof.
  induction rest as [|node rest IH];
    intros done kept st Hc Hpend (x & Hx & Hattrs & Hch) Hsub Hsel Hgone.
  { cbn [dropNamed]. rewrite wp_ret. split; [assumption|].
    exists x, kept. rewrite app_nil_r. repeat split; assumption. }
  cbn [dropNamed]. rewrite wp_bind.
  pose proof (readOnly_attributeSelected name node st) as Hro.
  unfold wp at 1.
  destruct (attributeSelected name node st) as [st0 [named|e]] eqn:Hnamed;
    cbn in Hro; subst st0; [|assumption].
  rewrite wp_bind.
  destruct (proj2 Hpend node) as (Hv & Hp & Hdet); [now left|].
  apply valid_lookup in Hv as [nn Hnn].
  replace (done ++ node :: rest) with ((done ++ [node]) ++ rest)
    by now rewrite <- app_assoc.
  destruct named.
  - rewrite wp_modifyNode, Hnn.
    destruct (drop_pending this node nn rest st Hc Hpend Hnn) as [Hc' Hpend'].
    apply (IH (done ++ [node]) kept); auto.
    + rewrite (nodes_updNode _ _ _ _ Hnn).
      destruct (decide (this = node)) as [->|].
      * rewrite Hnn in Hx. injection Hx as ->. eexists. split; [reflexivity|].
        split; assumption.
      * exists x. auto.
    + now apply sublist_inserts_r.
    + intros a Ha. rewrite (attributeSelected_upd name a node nn (with_parent None))
        by (assumption || reflexivity).
      now apply Hsel.
    + intros a Ha Hnot. rewrite (parentIn_upd _ _ _ _ _ Hnn).
      destruct (decide (a = node)) as [->|Hne]; [reflexivity|].
      apply Hgone; [|assumption].
      apply elem_of_app in Ha as [Ha|Ha]; [assumption|].
      apply list_elem_of_singleton in Ha. contradiction.
  - pose proof (wp_conj _ _ _ _ _ _
                  (push_consistent this node st Hc Hdet
                     (proj2 (valid_lookup st node) (ex_intro _ nn Hnn)) Hp)
                  (push_pending this node rest st Hpend)) as Hpush.
    unfold pushAttribute in *. rewrite wp_modifyNode, Hx in Hpush |- *.
    destruct Hpush as [Hc' Hpend'].
    rewrite Hattrs in *. cbn [default] in *.
    apply (IH (done ++ [node]) (kept ++ [node])); auto.
    + eexists. split; [now apply (lookup_updNode_same _ _ x)|].
      split; [reflexivity|exact Hch].
    + now apply sublist_app.
    + intros a Ha.
      rewrite (attributeSelected_upd name a this x
                 (fun x => with_attributes (Some (kept ++ [node])) x))
        by (assumption || reflexivity).
      apply elem_of_app in Ha as [Ha|Ha]; [now apply Hsel|].
      apply list_elem_of_singleton in Ha. subst a. now rewrite Hnamed.
    + intros a Ha Hnot.
      rewrite (parentIn_same _ _ _ _ Hx) by reflexivity.
      rewrite elem_of_app, list_elem_of_singleton in Hnot.
      apply elem_of_app in Ha as [Ha|Ha].
      * apply Hgone; [assumption|]. intros Hin. apply Hnot. now left.
      * apply list_elem_of_singleton in Ha. subst a. exfalso. apply Hnot. now right.
Qed.

(** X12.  [deleteProperty] of a name of attributes, on a node of a
    consistent store: it ends without a value and in a consistent store;
    the attributes it leaves are some of the old ones, in their order; the
    others have no parent any more; the children are as they were; and
    [getProperty] of the name then gives the empty list.  When it throws,
    the store is consistent as well. *)
Theorem deleteProperty_of_attributes this name st (x : ASXML) :
  consistent st -> nodes st !! this = Some x ->
  match deleteProperty this (KName name) true st with
  | (st', OK r) =>
    r = None /\ consistent st' /\
    (exists x', nodes st' !! this = Some x' /\
       _children x' = _children x /\
       default [] (_attributes x') `sublist_of` default [] (_attributes x) /\
       forall a, a ∈ default [] (_attributes x) ->
                 a ∉ default [] (_attributes x') -> parentIn st' a = None) /\
    getProperty this (KName name) true st' =
      (st', OK (PList (mkList [] (Some this) (Some name))))
  | (st', Throw _) => consistent st'
  end.
Proof.
  intros Hc Hx.
  assert (Hempty : forall st' (x' : ASXML),
    nodes st' !! this = Some x' -> default [] (_attributes x') = [] ->
    getProperty this (KName name) true st' =
      (st', OK (PList (mkList [] (Some this) (Some name))))).
  { intros st' x' Hx' Hnone. unfold getProperty.
    rewrite bind_run, (getNode_run _ _ _ Hx'). cbn [orb].
    destruct (_attributes x') as [l|]; [|reflexivity].
    cbn in Hnone. subst l. reflexivity. }
  unfold deleteProperty. rewrite bind_run, (getNode_run _ _ _ Hx).
  rewrite bind_run.
  destruct (_attributes x) as [attributes|] eqn:Hattrs.
  2:{ unfold mret at 1, M_ret at 1. cbv iota beta.
      unfold mret at 1, M_ret at 1. cbv iota beta.
      split; [reflexivity|]. split; [assumption|]. split.
      - exists x. rewrite Hattrs. cbn. repeat split; auto.
        intros a Ha. now apply elem_of_nil in Ha.
      - apply (Hempty _ x Hx). now rewrite Hattrs. }
  rewrite bind_run, (modifyNode_run _ _ _ _ Hx).
  destruct (clear_attributes_pending this x st Hc Hx) as [Hc1 Hpend1].
  rewrite Hattrs in Hpend1. cbn [default] in Hpend1 |- *.
  pose proof (dropNamed_spec this name (_children x) attributes [] []
                (updNode this (with_attributes (Some []) x) st) Hc1 Hpend1)
    as Hloop.
  unfold wp in Hloop.
  destruct (dropNamed this name attributes
              (updNode this (with_attributes (Some []) x) st))
    as [st' [[]|e]].
  - destruct Hloop as (Hc' & x' & kept & Hx' & Hattrs' & Hch' & Hsub & Hsel & Hgone).
    + eexists. split; [now apply (lookup_updNode_same _ _ x)|]. split; reflexivity.
    + constructor.
    + intros a Ha. now apply elem_of_nil in Ha.
    + intros a Ha. now apply elem_of_nil in Ha.
    + unfold mret, M_ret. split; [reflexivity|]. split; [assumption|]. split.
      * exists x'. rewrite Hattrs'. cbn [default app] in *. auto.
      * unfold getProperty. rewrite bind_run, (getNode_run _ _ _ Hx').
        cbn [orb]. rewrite Hattrs', bind_run.
        rewrite (filterM_none _ kept st' (readOnly_attributeSelected name) Hsel).
        reflexivity.
  - apply Hloop.
    + eexists. split; [now apply (lookup_updNode_same _ _ x)|]. split; reflexivity.
    + constructor.
    + intros a Ha. now apply elem_of_nil in Ha.
    + intros a Ha. now apply elem_of_nil in Ha.
Qed.

Lemma deleteProperty_of_attributes_witness :
  exists x, nodes sampleStore !! 1 = Some x /\
  match deleteProperty 1 (KName (mkQName (Some (mkNamespace (Some []) [])) (lit "b") 1)) true sampleStore with
  | (st', OK r) =>
    r = None /\ consistent st' /\
    (exists x', nodes st' !! 1 = Some x' /\
       _children x' = _children x /\
       default [] (_attributes x') `sublist_of` default [] (_attributes x) /\
       forall a, a ∈ default [] (_attributes x) ->
                 a ∉ default [] (_attributes x') -> parentIn st' a = None) /\
    getProperty 1 (KName (mkQName (Some (mkNamespace (Some []) [])) (lit "b") 1)) true st' =
      (st', OK (PList (mkList [] (Some 1) (Some (mkQName (Some (mkNamespace (Some []) [])) (lit "b") 1)))))
  | (st', Throw _) => consistent st'
  end.
Proof.
  eexists. split; [vm_compute; reflexivity|].
  apply (deleteProperty_of_attributes 1 (mkQName (Some (mkNamespace (Some []) [])) (lit "b") 1) sampleStore);
    [apply consistent_sampleStore|vm_compute; reflexivity].
Defined.

(** ** [[Delete]] by index and of elements *)

Lemma readOnly_someM {A} (f : A -> M bool) l :
  (forall a, readOnly (f a)) -> readOnly (someM f l).
Proof.
  intros Hf. induction l as [|a l IH]; cbn [someM]; [apply readOnly_ret|].
  apply readOnly_bind; [apply Hf|]. intros [|]; [apply readOnly_ret|exact IH].
Qed.

(** X13.  [deleteProperty] deletes nothing but attributes: with an index
    and with a name of elements the store is left as it was, whatever the
    outcome; with an index that is an array index the answer is [true],
    and with a name of elements, on children without an empty entry, it is
    the answer of [hasProperty]. *)
Theorem deleteProperty_deletes_attributes_only this st :
  (forall z isAttribute,
     fst (deleteProperty this (KNumber z) isAttribute st) = st /\
     (isUint32 z = true ->
      snd (deleteProperty this (KNumber z) isAttribute st) = OK (Some true))) /\
  (forall name,
     fst (deleteProperty this (KName name) false st) = st /\
     (Forall is_Some (childrenIn st this) ->
      deleteProperty this (KName name) false st =
      hasProperty this (KName name) false st)).
Proof.
  split.
  - intros z isAttribute. unfold deleteProperty.
    destruct (isUint32 z); split; auto. discriminate.
  - intros name. split.
    + assert (Hro : readOnly (deleteProperty this (KName name) false));
        [|apply Hro].
      unfold deleteProperty.
      apply readOnly_bind; [apply readOnly_getNode|]. intros x.
      apply readOnly_bind; [apply readOnly_childrenOf|]. intros cs.
      destruct (existsb _ cs); [apply readOnly_throw|].
      apply readOnly_bind; [|intros; apply readOnly_ret].
      apply readOnly_someM. intros a. apply readOnly_childSelected.
    + intros Hall. unfold deleteProperty, hasProperty, childrenIn in *.
      rewrite !bind_run. unfold getNode.
      destruct (nodes st !! this) as [x|]; [|reflexivity].
      rewrite !bind_run. unfold childrenOf.
      destruct (_children x) as [cs|]; [|reflexivity].
      cbn [default] in Hall. unfold mret at 1 4, M_ret at 1 4. cbv iota beta.
      replace (existsb _ cs) with false; [reflexivity|].
      symmetry. apply not_true_is_false. intros Hex.
      apply existsb_exists in Hex as (c & Hin & Hc).
      rewrite list.Forall_forall in Hall.
      apply negb_true_iff, bool_decide_eq_false in Hc. apply Hc, Hall.
      now apply list_elem_of_In.
Qed.

(** ** Copies in a consistent store *)

(** X14.  A deep copy made in a consistent store: the copy is a new node,
    the first after the old ones, without a parent and a member of no
    node; the old nodes and the names are as they were, and the store is
    consistent.  When the copy throws, the old nodes and the names are as
    they were and the store is consistent as well. *)
Theorem deepCopy_keeps_the_store depth this st :
  consistent st ->
  match _deepCopy depth this st with
  | (st', OK c) =>
    c = length (nodes st) /\ valid st' c /\ parentIn st' c = None /\
    detached st' c /\ grows st st' /\ consistent st'
  | (st', Throw _) => grows st st' /\ consistent st'
  end.
Proof.
  intros Hc. pose proof (deepCopy_consistent depth this st Hc) as H.
  unfold wp in H. destruct (_deepCopy depth this st) as [st' [c|e]].
  - destruct H as (Hc' & Hg & -> & Hv & Hp).
    split; [reflexivity|]. split; [assumption|]. split; [assumption|].
    split; [now apply orphan_detached|]. split; assumption.
  - destruct H. split; assumption.
Qed.

Lemma deepCopy_keeps_the_store_witness :
  match _deepCopy 3 1 sampleStore with
  | (st', OK c) =>
    c = length (nodes sampleStore) /\ valid st' c /\ parentIn st' c = None /\
    detached st' c /\ grows sampleStore st' /\ consistent st'
  | (st', Throw _) => grows sampleStore st' /\ consistent st'
  end.
Proof.
  apply (deepCopy_keeps_the_store 3 1 sampleStore). apply consistent_sampleStore.
Defined.

(** ** appendChild *)

Lemma childrenIn_upd st (r : ref) (n n' : ASXML) (q : ref) :
  nodes st !! r = Some n ->
  childrenIn (updNode r n' st) q =
  if decide (q = r) then default [] (_children n') else childrenIn st q.
Proof.
  intros Hr. unfold childrenIn. rewrite (nodes_updNode _ _ _ _ Hr).
  now destruct (decide (q = r)).
Qed.

Lemma childrenIn_same st (r : ref) (n n' : ASXML) :
  nodes st !! r = Some n -> _children n' = _children n ->
  forall q, childrenIn (updNode r n' st) q = childrenIn st q.
Proof.
  intros Hr Hsame q. rewrite (childrenIn_upd _ _ _ _ _ Hr).
  destruct (decide (q = r)) as [->|]; [|reflexivity].
  unfold childrenIn. now rewrite Hr, Hsame.
Qed.

Lemma others_absent (x : ref) (l : list (option ref)) :
  Some x ∉ l -> filter (fun e => e <> Some x) l = l.
Proof.
  induction l as [|e l IH]; intros Hnot; [reflexivity|].
  apply not_elem_of_cons in Hnot as [Hne Hnot].
  rewrite filter_cons_True by congruence. now rewrite IH.
Qed.

Lemma others_middle (x : ref) (l1 l2 : list (option ref)) :
  Some x ∉ l1 -> Some x ∉ l2 ->
  filter (fun e => e <> Some x) (l1 ++ Some x :: l2) = l1 ++ l2.
Proof.
  intros H1 H2. induction l1 as [|e l1 IH]; cbn [app].
  - rewrite filter_cons_False by (intros H; now apply H).
    now apply others_absent.
  - apply not_elem_of_cons in H1 as [Hne H1].
    rewrite !filter_cons_True by congruence. now rewrite IH.
Qed.

Lemma childIndex_run st (child p : ref) (c pn : ASXML) cs :
  nodes st !! child = Some c -> _parent c = Some p -> _kind c <> Attribute ->
  nodes st !! p = Some pn -> _children pn = Some cs ->
  childIndex child st =
  (st, OK (match indexOf child cs with
           | Some i => Z.of_nat i
           | None => (-1)%Z
           end)).
Proof.
  intros Hc Hp Hk Hpn Hcs. unfold childIndex.
  rewrite bind_run, (getNode_run _ _ _ Hc), Hp.
  rewrite bool_decide_eq_false_2 by assumption.
  rewrite bind_run, (getNode_run _ _ _ Hpn), bind_run.
  unfold childrenOf. now rewrite Hcs.
Qed.

(** A node that has a parent and is among the children of no node but of
    that one, and there once. *)
Lemma child_of_its_parent st (child : ref) (c : ASXML) :
  consistent st -> nodes st !! child = Some c ->
  (forall p, _parent c = Some p -> Some child ∈ childrenIn st p) ->
  notAnAttribute st child /\
  forall q,
    match _parent c with
    | Some p =>
      if decide (q = p)
      then exists pn l1 l2,
             nodes st !! p = Some pn /\
             _children pn = Some (l1 ++ Some child :: l2) /\
             indexOf child (l1 ++ Some child :: l2) = Some (length l1) /\
             (Some child ∉ l1) /\ (Some child ∉ l2)
      else Some child ∉ childrenIn st q
    | None => Some child ∉ childrenIn st q
    end.
Proof.
  intros Hc Hchild Hpre.
  assert (Hmem : forall q, Some child ∈ childrenIn st q -> child ∈ members st q).
  { intros q. unfold childrenIn, members.
    destruct (nodes st !! q) as [n|]; [|intros H; now apply elem_of_nil in H].
    intros Hin. unfold membersOf. apply elem_of_app. left.
    now apply childRefs_elem. }
  assert (Hpar : forall q, child ∈ members st q -> _parent c = Some q).
  { intros q Hin. destruct (proj1 Hc _ _ Hin) as [_ Hp].
    unfold parentIn in Hp. now rewrite Hchild in Hp. }
  split.
  - intros q n Hq' Hin.
    assert (Hq : nodes st !! (q : ref) = Some n) by exact Hq'.
    assert (Hm : child ∈ members st q).
    { unfold members. rewrite Hq. unfold membersOf. apply elem_of_app. now right. }
    pose proof (Hpre q (Hpar q Hm)) as Hch.
    unfold childrenIn in Hch. rewrite Hq in Hch.
    pose proof (proj2 Hc q) as Hnd. unfold members in Hnd. rewrite Hq in Hnd.
    unfold membersOf in Hnd. apply list.NoDup_app in Hnd as (_ & Hdisj & _).
    apply (Hdisj child); [now apply childRefs_elem|assumption].
  - intros q. destruct (_parent c) as [p|] eqn:Hp.
    + destruct (decide (q = p)) as [->|Hne].
      * pose proof (Hpre p eq_refl) as Hin. unfold childrenIn in Hin.
        destruct (nodes st !! p) as [pn|] eqn:Hpn;
          [|now apply elem_of_nil in Hin].
        destruct (_children pn) as [csp|] eqn:Hcsp;
          [|now apply elem_of_nil in Hin].
        cbn [default from_option id] in Hin.
        destruct (indexOf child csp) as [i|] eqn:Hi;
          [|now apply indexOf_None in Hi].
        destruct (indexOf_Some _ _ _ Hi) as (l1 & l2 & -> & Hlen & Hnot).
        exists pn, l1, l2. subst i. repeat split; auto.
        pose proof (proj2 Hc p) as Hnd.
        rewrite (members_children _ _ _ _ Hpn Hcsp), childRefs_app in Hnd.
        cbn in Hnd. apply NoDup_remove_middle in Hnd as [_ Hnotin].
        intros Hin2. apply Hnotin. apply elem_of_app. left.
        apply elem_of_app. right. now apply childRefs_elem.
      * intros Hin. apply Hne. pose proof (Hpar q (Hmem q Hin)). congruence.
    + intros Hin. pose proof (Hpar q (Hmem q Hin)). discriminate.
Qed.

(** X15.  [appendChild(child)] moves the child.  In a consistent store,
    on a node with an array of children, and for a child that is among the
    children of its parent if it has one: the call returns the node; the
    child has the node as its parent and is the last of its children,
    which are the old ones without the child, and then the child; every
    other node has its children without the child; the store is
    consistent; and, the child being no attribute, [childIndex] of it is
    the index of the last child. *)
Theorem appendChild_moves_the_child this child st (x c : ASXML) cs :
  consistent st ->
  nodes st !! this = Some x -> _children x = Some cs ->
  nodes st !! child = Some c ->
  (forall p, _parent c = Some p -> Some child ∈ childrenIn st p) ->
  exists st',
    appendChild this child st = (st', OK this) /\
    consistent st' /\
    parentIn st' child = Some this /\
    (forall q, childrenIn st' q =
               filter (fun e => e <> Some child) (childrenIn st q) ++
               (if decide (q = this) then [Some child] else [])) /\
    (_kind c <> Attribute ->
     childIndex child st' =
     (st', OK (Z.of_nat (length (childrenIn st' this)) - 1)%Z)).
Proof.
  intros Hc Hx Hcs Hchild Hpre.
  destruct (child_of_its_parent st child c Hc Hchild Hpre) as [Hna Hwhere].
  pose proof (appendChild_consistent this child st Hc Hna) as Hcons.
  unfold wp in Hcons.
  (* the first stage: out of the old parent *)
  assert (Hstage : exists st1,
    match _parent c with
    | Some parent =>
        pn ← getNode parent;
        cs ← childrenOf pn;
        setNode parent (with_children (Some (spliceOut (indexOf child cs) cs)) pn)
    | None => mret ()
    end st = (st1, OK tt) /\
    (forall q, childrenIn st1 q =
               filter (fun e => e <> Some child) (childrenIn st q)) /\
    (exists x1 cs1, nodes st1 !! this = Some x1 /\ _children x1 = Some cs1) /\
    (exists c1, nodes st1 !! child = Some c1 /\ _kind c1 = _kind c)).
  { destruct (_parent c) as [p|] eqn:Hp.
    - pose proof (Hwhere p) as Hp'. rewrite decide_True in Hp' by reflexivity.
      destruct Hp' as (pn & l1 & l2 & Hpn & Hcsp & Hi & Hn1 & Hn2).
      eexists. split.
      { rewrite bind_run, (getNode_run _ _ _ Hpn), bind_run.
        unfold childrenOf. rewrite Hcsp. unfold mret at 1, M_ret at 1.
        cbv iota beta. unfold setNode. rewrite Hi. cbn [spliceOut].
        rewrite delete_middle. reflexivity. }
      split; [|split].
      + intros q. rewrite (childrenIn_upd _ _ _ _ _ Hpn). cbn [_children with_children default from_option id].
        destruct (decide (q = p)) as [->|Hne].
        * unfold childrenIn. rewrite Hpn, Hcsp. cbn [default from_option id].
          now rewrite others_middle.
        * pose proof (Hwhere q) as Hq. rewrite decide_False in Hq by assumption.
          now rewrite others_absent.
      + rewrite (nodes_updNode _ _ _ _ Hpn).
        destruct (decide (this = p)) as [->|]; eauto.
      + rewrite (nodes_updNode _ _ _ _ Hpn).
        destruct (decide (child = p)) as [->|]; [|eauto].
        eexists. split; [reflexivity|]. rewrite Hchild in Hpn.
        now injection Hpn as ->.
    - exists st. split; [reflexivity|]. split; [|split; eauto].
      intros q. rewrite others_absent; [reflexivity|]. apply Hwhere. }
  destruct Hstage as (st1 & Hrun1 & Hch1 & (x1 & cs1 & Hx1 & Hcs1) & (c1 & Hc1 & Hk1)).
  set (st2 := updNode this (with_children (Some (cs1 ++ [Some child])) x1) st1).
  assert (Hc2 : exists c2, nodes st2 !! child = Some c2 /\ _kind c2 = _kind c).
  { unfold st2. rewrite (nodes_updNode _ _ _ _ Hx1).
    destruct (decide (child = this)) as [->|]; [|eauto].
    eexists. split; [reflexivity|]. rewrite Hx1 in Hc1.
    injection Hc1 as ->. exact Hk1. }
  destruct Hc2 as (c2 & Hc2 & Hk2).
  set (st3 := updNode child (with_parent (Some this) c2) st2).
  assert (Hrun : appendChild this child st = (st3, OK this)).
  { unfold appendChild. rewrite bind_run, (getNode_run _ _ _ Hchild).
    rewrite bind_run, Hrun1.
    rewrite bind_run, (getNode_run _ _ _ Hx1), bind_run.
    unfold childrenOf. rewrite Hcs1. unfold mret at 1, M_ret at 1.
    cbv iota beta. rewrite bind_run. unfold setNode at 1. cbv iota beta.
    fold st2. rewrite bind_run, (modifyNode_run _ _ _ _ Hc2). reflexivity. }
  rewrite Hrun in Hcons. exists st3. split; [exact Hrun|].
  split; [exact Hcons|].
  assert (Hcs1' : cs1 = filter (fun e => e <> Some child) (childrenIn st this)).
  { rewrite <- Hch1. unfold childrenIn. now rewrite Hx1, Hcs1. }
  assert (Hch3 : forall q, childrenIn st3 q =
            filter (fun e => e <> Some child) (childrenIn st q) ++
            (if decide (q = this) then [Some child] else [])).
  { intros q. unfold st3. rewrite (childrenIn_same _ _ _ _ Hc2) by reflexivity.
    unfold st2. rewrite (childrenIn_upd _ _ _ _ _ Hx1).
    cbn [_children with_children default from_option id].
    destruct (decide (q = this)) as [->|].
    - now rewrite Hcs1'.
    - now rewrite Hch1, app_nil_r. }
  split; [|split; [exact Hch3|]].
  { unfold parentIn, st3. now rewrite (lookup_updNode_same _ _ _ _ Hc2). }
  intros Hkind.
  assert (Hthis3 : exists x3, nodes st3 !! this = Some x3 /\
                              _children x3 = Some (cs1 ++ [Some child])).
  { unfold st3. rewrite (nodes_updNode _ _ _ _ Hc2).
    assert (H2 : nodes st2 !! this =
                 Some (with_children (Some (cs1 ++ [Some child])) x1))
      by (unfold st2; now apply (lookup_updNode_same _ _ x1)).
    destruct (decide (this = child)) as [->|]; [|eauto].
    eexists. split; [reflexivity|]. rewrite Hc2 in H2.
    now injection H2 as ->. }
  destruct Hthis3 as (x3 & Hx3 & Hcs3).
  rewrite (childIndex_run st3 child this (with_parent (Some this) c2) x3
             (cs1 ++ [Some child])); auto.
  - rewrite indexOf_middle.
    + rewrite Hch3, decide_True by reflexivity. rewrite <- Hcs1'.
      rewrite length_app. cbn [length]. do 2 f_equal. lia.
    + rewrite Hcs1'. intros Hin. apply list_elem_of_filter in Hin as [Hne _].
      now apply Hne.
  - unfold st3. now apply (lookup_updNode_same _ _ c2).
  - cbn. now rewrite Hk2.
Qed.

Lemma appendChild_moves_the_child_witness :
  exists st',
    appendChild 4 2 twoTrees = (st', OK 4) /\
    consistent st' /\
    parentIn st' 2 = Some 4 /\
    (forall q, childrenIn st' q =
               filter (fun e => e <> Some 2) (childrenIn twoTrees q) ++
               (if decide (q = 4) then [Some 2] else [])) /\
    (_kind (mkNode Element (Some 2) [] (Some 1) (Some []) (Some []) (Some []))
     <> Attribute ->
     childIndex 2 st' = (st', OK (Z.of_nat (length (childrenIn st' 4%nat)) - 1)%Z)).
Proof.
  apply (appendChild_moves_the_child 4 2 twoTrees
           (mkNode Element (Some 4) [] (Some 3) (Some []) (Some []) (Some []))
           (mkNode Element (Some 2) [] (Some 1) (Some []) (Some []) (Some []))
           []).
  - apply consistent_twoTrees.
  - vm_compute. reflexivity.
  - reflexivity.
  - vm_compute. reflexivity.
  - intros p [= <-]. vm_compute. left.
Defined.

(** ** insert and the parent chains *)

Lemma ancestor_add st a : forall b r,
  ancestor st (a + b) r =
  match ancestor st a r with Some p => ancestor st b p | None => None end.
Proof.
  induction a as [|a IH]; intros b r; [reflexivity|].
  cbn [Nat.add ancestor].
  destruct (nodes st !! r) as [n|]; [|reflexivity].
  destruct (_parent n) as [p|]; [apply IH|reflexivity].
Qed.

Lemma ancestor_valid st k : forall r i p,
  ancestor st k r = Some p -> i < k ->
  exists q, ancestor st i r = Some q /\ valid st q.
Proof.
  induction k as [|k IH]; intros r i p Hk Hi; [lia|].
  cbn [ancestor] in Hk.
  destruct (nodes st !! r) as [n|] eqn:Hn; [|discriminate].
  destruct (_parent n) as [q|] eqn:Hq; [|discriminate].
  destruct i as [|i].
  - exists r. split; [reflexivity|]. apply valid_lookup. eauto.
  - cbn [ancestor]. rewrite Hn, Hq. apply (IH q i p); [assumption|lia].
Qed.

(** The nodes passed on the way up. *)
Lemma ancestor_way st k : forall r v,
  ancestor st k r = Some v ->
  exists way : list nat,
    length way = k /\
    forall i, i < k ->
      exists q, way !! i = Some q /\ ancestor st i r = Some q /\ valid st q.
Proof.
  induction k as [|k IH]; intros r v Hk.
  - exists []. split; [reflexivity|]. intros i Hi. lia.
  - cbn [ancestor] in Hk.
    destruct (nodes st !! r) as [n|] eqn:Hn; [|discriminate].
    destruct (_parent n) as [p|] eqn:Hp; [|discriminate].
    destruct (IH p v Hk) as (way & Hlen & Hway).
    exists (r :: way). split; [cbn; now rewrite Hlen|].
    intros [|i] Hi.
    + exists r. split; [reflexivity|]. split; [reflexivity|].
      apply valid_lookup. eauto.
    + cbn [ancestor]. rewrite Hn, Hp. apply Hway. lia.
Qed.

(** More numbers below [n] than [n] hold one of them twice. *)
Lemma twice_in_a_long_list n : forall l : list nat,
  (forall x, x ∈ l -> x < n) -> n < length l ->
  exists i j x, i < j /\ l !! i = Some x /\ l !! j = Some x.
Proof.
  intros l Hall Hlen.
  assert (Hdup : ~ NoDup l).
  { intros Hnd.
    assert (Hsub : l ⊆+ seq 0 n).
    { apply NoDup_submseteq; [assumption|]. intros x Hx.
      apply elem_of_seq. specialize (Hall x Hx). lia. }
    apply submseteq_length in Hsub. rewrite length_seq in Hsub. lia. }
  clear Hall Hlen. induction l as [|a l IH].
  - exfalso. apply Hdup. constructor.
  - destruct (decide (a ∈ l)) as [Hin|Hnot].
    + apply list_elem_of_lookup in Hin as [j Hj].
      exists 0, (S j), a. split; [lia|]. split; [reflexivity|exact Hj].
    + destruct IH as (i & j & x & Hij & Hi & Hj).
      { intros Hnd. apply Hdup. now constructor. }
      exists (S i), (S j), x. split; [lia|]. split; assumption.
Qed.

(** A node met on the way up is met within as many steps as there are
    nodes. *)
Lemma ancestor_within st v : forall k r,
  ancestor st k r = Some v ->
  exists k0, k0 <= length (nodes st) /\ ancestor st k0 r = Some v.
Proof.
  induction k as [k IH] using lt_wf_ind. intros r Hk.
  destruct (le_lt_dec k (length (nodes st))) as [Hle|Hgt]; [eauto|].
  destruct (ancestor_way st k r v Hk) as (way & Hlen & Hway).
  destruct (twice_in_a_long_list (length (nodes st)) way) as (i & j & x & Hij & Hi & Hj).
  { intros x Hx. apply list_elem_of_lookup in Hx as [i Hi].
    assert (Hik : i < k) by (apply lookup_lt_Some in Hi; lia).
    destruct (Hway i Hik) as (q & Hq & _ & Hv).
    assert (Hxq : Some x = Some q) by (rewrite <- Hi; exact Hq).
    injection Hxq as ->. exact Hv. }
  { lia. }
  assert (Hjk : j < k) by (apply lookup_lt_Some in Hj; lia).
  destruct (Hway i) as (qi & Hqi & Hai & _); [lia|].
  destruct (Hway j Hjk) as (qj & Hqj & Haj & _).
  assert (Hxi : Some x = Some qi) by (rewrite <- Hi; exact Hqi).
  assert (Hxj : Some x = Some qj) by (rewrite <- Hj; exact Hqj).
  injection Hxi as <-. injection Hxj as <-.
  (* the way from the second visit on is the way from the first *)
  assert (Hrest : ancestor st (k - j) x = Some v).
  { pose proof (ancestor_add st j (k - j) r) as H.
    replace (j + (k - j)) with k in H by lia. rewrite Hk, Haj in H.
    now symmetry. }
  apply (IH (i + (k - j))); [lia|].
  now rewrite ancestor_add, Hai.
Qed.

Lemma onParentChain_met st v : forall k fuel r,
  ancestor st k r = Some v -> k <= fuel ->
  onParentChain fuel (Some r) v st = (st, OK true).
Proof.
  induction k as [|k IH]; intros fuel r Hk Hfuel.
  - injection Hk as ->. apply onParentChain_self.
  - cbn [ancestor] in Hk. destruct fuel as [|fuel]; [lia|].
    cbn [onParentChain].
    destruct (bool_decide (r = v)); [reflexivity|].
    destruct (nodes st !! r) as [n|] eqn:Hn; [|discriminate].
    rewrite bind_run, (getNode_run _ _ _ Hn).
    destruct (_parent n) as [p|]; [|discriminate].
    apply IH; [assumption|lia].
Qed.

(** X16.  [insert] refuses to put a node below itself: when the value is
    the element or is met on the way up its parent references, however far
    up, the call throws and the store is as it was. *)
Theorem insert_refuses_an_ancestor self p v st (this : ASXML) k :
  nodes st !! self = Some this -> _kind this = Element ->
  isUint32 p = true ->
  ancestor st k self = Some v ->
  insert self p v st = (st, Throw (Thrown "Error in XML.prototype.insert()")).
Proof.
  intros Hself Hkind Hp Hk.
  destruct (ancestor_within st v k self Hk) as (k0 & Hle & Hk0).
  unfold insert. rewrite bind_run, (getNode_run _ _ _ Hself).
  rewrite Hkind, Hp. cbn [isLeafKind negb].
  rewrite bind_run. unfold storeSize at 1. cbv iota beta.
  rewrite bind_run, bool_decide_eq_true_2 by reflexivity.
  now rewrite (onParentChain_met st v k0 _ self Hk0 Hle).
Qed.

Lemma insert_refuses_an_ancestor_witness :
  insert 2 0 1 twoTrees =
  (twoTrees, Throw (Thrown "Error in XML.prototype.insert()")).
Proof.
  apply (insert_refuses_an_ancestor 2 0 1 twoTrees
           (mkNode Element (Some 2) [] (Some 1) (Some []) (Some []) (Some [])) 1);
    reflexivity.
Defined.

Lemma ancestor_S st k (r : ref) :
  ancestor st (S k) r =
  match parentIn st r with Some p => ancestor st k p | None => None end.
Proof.
  cbn [ancestor]. unfold parentIn. now destruct (nodes st !! r).
Qed.

(** A chain that does not pass [v] is the same after the parent of [v]
    was set. *)
Lemma ancestor_aside st st' (v : ref) :
  (forall r : ref, r <> v -> parentIn st' r = parentIn st r) ->
  forall j (r : ref),
    (forall i, ancestor st i r <> Some v) ->
    ancestor st' j r = ancestor st j r.
Proof.
  intros Hsame. induction j as [|j IH]; intros r Hnot; [reflexivity|].
  rewrite !ancestor_S. rewrite Hsame.
  2:{ intros ->. now apply (Hnot 0). }
  destruct (parentIn st r) as [p|] eqn:Hp; [|reflexivity].
  apply IH. intros i Hi. apply (Hnot (S i)). now rewrite ancestor_S, Hp.
Qed.

Lemma rooted_after st st' (v self : ref) :
  (forall r : ref, r <> v -> parentIn st' r = parentIn st r) ->
  parentIn st' v = Some self ->
  (forall i, ancestor st i self <> Some v) ->
  (forall r, rooted st r) ->
  forall r, rooted st' r.
Proof.
  intros Hsame Hv Hnot Hall.
  assert (Hv' : rooted st' v).
  { destruct (Hall self) as [ks Hks]. exists (S ks).
    rewrite ancestor_S, Hv.
    now rewrite (ancestor_aside st st' v Hsame ks self Hnot). }
  assert (Hk : forall k (r : ref), ancestor st k r = None -> rooted st' r).
  { induction k as [|k IH]; intros r Hr; [discriminate|].
    destruct (decide (r = v)) as [->|Hne]; [exact Hv'|].
    rewrite ancestor_S in Hr.
    destruct (parentIn st r) as [p|] eqn:Hp.
    - destruct (IH p Hr) as [k' Hk']. exists (S k').
      now rewrite ancestor_S, (Hsame r Hne), Hp.
    - exists 1. now rewrite ancestor_S, (Hsame r Hne), Hp. }
  intros r. destruct (Hall r) as [k Hr]. now apply (Hk k).
Qed.

Lemma rooted_twoTrees : forall r, rooted twoTrees r.
Proof.
  intros r. exists 3.
  destruct r as [|[|[|[|[|r]]]]]; reflexivity.
Qed.

(** X17.  [insert] keeps the parent chains ending: in a store in which
    the way up from every node ends, the way up from every node ends after
    [insert] on a node of a known kind, however the call ended. *)
Theorem insert_keeps_the_chains_ending self p v st (this : ASXML) :
  nodes st !! self = Some this -> _kind this <> Unknown ->
  (forall r, rooted st r) ->
  forall r, rooted (fst (insert self p v st)) r.
Proof.
  intros Hself Hkind Hall.
  unfold insert. rewrite bind_run, (getNode_run _ _ _ Hself).
  destruct (isLeafKind (_kind this)) eqn:Hleaf; [exact Hall|].
  destruct (negb (isUint32 p)); [exact Hall|].
  assert (Hel : _kind this = Element).
  { destruct (_kind this); try discriminate; try reflexivity; contradiction. }
  rewrite bind_run. unfold storeSize at 1. cbv iota beta.
  rewrite bind_run, bool_decide_eq_true_2 by assumption.
  pose proof (readOnly_onParentChain (length (nodes st)) (Some self) v st) as Hro.
  destruct (onParentChain (length (nodes st)) (Some self) v st)
    as [st0 [[|]|e]] eqn:Hchain; cbn in Hro; subst st0; try exact Hall.
  assert (Hnot : forall i, ancestor st i self <> Some v).
  { intros i Hi. destruct (ancestor_within st v i self Hi) as (k0 & Hle & Hk0).
    rewrite (onParentChain_met st v k0 _ self Hk0 Hle) in Hchain.
    discriminate Hchain. }
  rewrite bind_run. unfold modifyNode. rewrite bind_run. unfold getNode at 1.
  destruct (nodes st !! v) as [vn|] eqn:Hv; [|exact Hall].
  unfold setNode at 1. cbv iota beta.
  assert (Hne : self <> v) by (intros ->; now apply (Hnot 0)).
  assert (Hself1 : nodes (updNode v (with_parent (Some self) vn) st) !! self
                   = Some this).
  { rewrite (nodes_updNode _ _ _ _ Hv). now rewrite decide_False. }
  rewrite bind_run, (getNode_run _ _ _ Hself1).
  unfold setNode. cbn [fst].
  apply (rooted_after st _ v self); try assumption.
  - intros r Hr. rewrite (parentIn_same _ _ _ _ Hself1) by reflexivity.
    rewrite (parentIn_upd _ _ _ _ _ Hv). now rewrite decide_False.
  - rewrite (parentIn_same _ _ _ _ Hself1) by reflexivity.
    rewrite (parentIn_upd _ _ _ _ _ Hv). now rewrite decide_True.
Qed.

Lemma insert_keeps_the_chains_ending_witness :
  rooted (fst (insert 4 0 2 twoTrees)) 2.
Proof.
  apply (insert_keeps_the_chains_ending 4 0 2 twoTrees
           (mkNode Element (Some 4) [] (Some 3) (Some []) (Some []) (Some []))).
  - reflexivity.
  - discriminate.
  - apply rooted_twoTrees.
Defined.

(** ** The parent of a list *)

Lemma sameParent_run parent st : forall rest : list ref,
  Forall (fun r => is_Some (nodes st !! r)) rest ->
  sameParent parent (map Some rest) st =
  (st, OK (forallb (fun r => bool_decide (parentIn st r = parent)) rest)).
Proof.
  induction rest as [|r rest IH]; intros Hall; [reflexivity|].
  apply list.Forall_cons in Hall as [[n Hn] Hall].
  cbn [map sameParent forallb]. rewrite bind_run, (getNode_run _ _ _ Hn).
  assert (Hp : parentIn st r = _parent n) by (unfold parentIn; now rewrite Hn).
  rewrite Hp.
  destruct (bool_decide (_parent n = parent)); [now apply IH|reflexivity].
Qed.

(** X18.  [parent()] of a list of nodes is the parent of the first when
    every member has that parent, [null] standing for none, and
    [undefined] when a member has another; the store is left as it was. *)
Theorem XMLList_parent_is_the_common_parent first rest o1 o2 st :
  Forall (fun r : ref => is_Some (nodes st !! r)) (first :: rest) ->
  XMLList_parent (mkList (map Some (first :: rest)) o1 o2) st =
  (st, OK (if forallb (fun r => bool_decide (parentIn st r = parentIn st first))
                      rest
           then match parentIn st first with
                | Some p => VXML p
                | None => VNull
                end
           else VUndefined)).
Proof.
  intros Hall. apply list.Forall_cons in Hall as [[n Hn] Hall].
  unfold XMLList_parent. cbn [l_children map].
  rewrite bind_run, (getNode_run _ _ _ Hn).
  rewrite bind_run, (sameParent_run _ _ _ Hall).
  assert (Hp : parentIn st first = _parent n)
    by (unfold parentIn; now rewrite Hn).
  rewrite Hp. now destruct (forallb _ rest).
Qed.

Lemma XMLList_parent_is_the_common_parent_witness :
  XMLList_parent (mkList (map Some [3; 4]) None None) sampleStore =
  (sampleStore,
   OK (if forallb (fun r => bool_decide (parentIn sampleStore r =
                                         parentIn sampleStore 3)) [4]
       then match parentIn sampleStore 3 with
            | Some p => VXML p
            | None => VNull
            end
       else VUndefined)).
Proof.
  apply (XMLList_parent_is_the_common_parent 3 [4] None None sampleStore).
  repeat (apply List.Forall_cons; [vm_compute; eauto|]). apply List.Forall_nil.
Defined.

(** ** normalize on texts *)

Lemma valueIn_other st (r r' : ref) (n n' : ASXML) :
  nodes st !! r = Some n -> r' <> r ->
  valueIn (updNode r n' st) r' = valueIn st r'.
Proof.
  intros Hr Hne. unfold valueIn. rewrite (nodes_updNode _ _ _ _ Hr).
  now rewrite decide_False.
Qed.

(** The inner loop of [normalize] on a text followed by texts only. *)
Lemma mergeFollowingText_run (this child : ref) : forall (rest : list ref) fuel st
    (x c : ASXML),
  length rest < fuel ->
  nodes st !! this = Some x ->
  _children x = Some (Some child :: map Some rest) ->
  nodes st !! child = Some c ->
  NoDup (this :: child :: rest) ->
  Forall (fun r : ref => exists n, nodes st !! r = Some n /\ _kind n = Text) rest ->
  exists st',
    mergeFollowingText fuel this child 1 st = (st', OK tt) /\
    nodes st' !! this = Some (with_children (Some [Some child]) x) /\
    nodes st' !! child =
      Some (with_value (_value c ++ concat (map (valueIn st) rest)) c) /\
    (forall r : ref, r ∈ rest ->
       exists n, nodes st !! r = Some n /\
                 nodes st' !! r = Some (with_parent None n)) /\
    (forall r : ref, r ∉ this :: child :: rest ->
       nodes st' !! r = nodes st !! r) /\
    qnames st' = qnames st.
Proof.
  induction rest as [|next rest IH];
    intros fuel st x c Hfuel Hx Hcs Hc Hnd Htext;
    (destruct fuel as [|fuel]; [cbn in Hfuel; lia|]).
  - exists st. cbn [mergeFollowingText].
    rewrite bind_run, (getNode_run _ _ _ Hx), bind_run.
    unfold childrenOf. rewrite Hcs. unfold mret at 1, M_ret at 1. cbv iota beta.
    cbn [map length Nat.ltb Nat.leb concat app].
    split; [reflexivity|]. split.
    { rewrite Hx. f_equal. destruct x. cbn in *. now subst. }
    split.
    { rewrite Hc, app_nil_r. f_equal. now destruct c. }
    split; [intros r Hr; now apply elem_of_nil in Hr|]. split; reflexivity.
  - apply list.Forall_cons in Htext as [(nn & Hnn & Hkind) Htext].
    apply list.NoDup_cons in Hnd as [Hthis Hnd].
    apply list.NoDup_cons in Hnd as [Hchild Hnd].
    apply list.NoDup_cons in Hnd as [Hnext Hnd].
    assert (Htc : this <> child) by (intros ->; apply Hthis; now left).
    assert (Htn : this <> next) by (intros ->; apply Hthis; right; now left).
    assert (Hcn : child <> next) by (intros ->; apply Hchild; now left).
    set (c1 := with_value (_value c ++ _value nn) c).
    set (st1 := updNode child c1 st).
    set (st2 := updNode next (with_parent None nn) st1).
    set (x3 := with_children (Some (Some child :: map Some rest)) x).
    set (st3 := updNode this x3 st2).
    assert (Hx1 : nodes st1 !! this = Some x).
    { unfold st1. rewrite (nodes_updNode _ _ _ _ Hc). now rewrite decide_False. }
    assert (Hn1 : nodes st1 !! next = Some nn).
    { unfold st1. rewrite (nodes_updNode _ _ _ _ Hc).
      rewrite decide_False by auto. exact Hnn. }
    assert (Hx2 : nodes st2 !! this = Some x).
    { unfold st2. rewrite (nodes_updNode _ _ _ _ Hn1). now rewrite decide_False. }
    assert (Hrun : mergeFollowingText (S fuel) this child 1 st =
                   mergeFollowingText fuel this child 1 st3).
    { cbn [mergeFollowingText].
      rewrite bind_run, (getNode_run _ _ _ Hx), bind_run.
      unfold childrenOf at 1. rewrite Hcs. unfold mret at 1, M_ret at 1.
      cbv iota beta. cbn [map length].
      replace (1 <? S (S (length (map Some rest)))) with true
        by (symmetry; apply Nat.ltb_lt; lia).
      rewrite bind_run. unfold elementAt at 1. cbn [lookup list_lookup].
      unfold mret at 1, M_ret at 1. cbv iota beta.
      rewrite bind_run, (getNode_run _ _ _ Hnn), Hkind.
      rewrite bool_decide_eq_true_2 by reflexivity. cbn [negb].
      rewrite bind_run, (modifyNode_run _ _ _ _ Hc). fold c1 st1.
      rewrite bind_run. unfold removeByIndex.
      rewrite bind_run, (getNode_run _ _ _ Hx1), bind_run.
      unfold childrenOf at 1. rewrite Hcs. unfold mret at 1, M_ret at 1.
      cbv iota beta.
      rewrite bind_run. unfold elementAt at 1. cbn [map lookup list_lookup].
      unfold mret at 1, M_ret at 1. cbv iota beta.
      rewrite bind_run, (modifyNode_run _ _ _ _ Hn1). fold st2.
      rewrite bind_run, (getNode_run _ _ _ Hx2), bind_run.
      unfold childrenOf at 1. rewrite Hcs. unfold mret at 1, M_ret at 1.
      cbv iota beta. unfold setNode at 1. cbn [map delete list_delete].
      reflexivity. }
    assert (Hother : forall r : ref, r <> this -> r <> child -> r <> next ->
              nodes st3 !! r = nodes st !! r).
    { intros r H1 H2 H3. unfold st3.
      rewrite (nodes_updNode _ _ _ _ Hx2), decide_False by assumption.
      unfold st2.
      rewrite (nodes_updNode _ _ _ _ Hn1), decide_False by assumption.
      unfold st1.
      rewrite (nodes_updNode _ _ _ _ Hc). now rewrite decide_False. }
    assert (Hc3 : nodes st3 !! child = Some c1).
    { unfold st3.
      rewrite (nodes_updNode _ _ _ _ Hx2), decide_False by auto.
      unfold st2.
      rewrite (nodes_updNode _ _ _ _ Hn1), decide_False by assumption.
      now apply (lookup_updNode_same _ _ c). }
    assert (Hn3 : nodes st3 !! next = Some (with_parent None nn)).
    { unfold st3. rewrite (nodes_updNode _ _ _ _ Hx2), decide_False by auto.
      now apply (lookup_updNode_same _ _ nn). }
    destruct (IH fuel st3 x3 c1) as (st' & Hrun' & Hx' & Hc' & Hrest' & Hframe & Hq).
    + cbn in Hfuel. lia.
    + now apply (lookup_updNode_same _ _ x).
    + reflexivity.
    + exact Hc3.
    + apply list.NoDup_cons. split.
      { intros Hin. apply Hthis. apply elem_of_cons in Hin as [->|Hin];
          [now left|right; now right]. }
      apply list.NoDup_cons. split; [|assumption].
      intros Hin. apply Hchild. now right.
    + rewrite list.Forall_forall in Htext |- *. intros r Hr.
      destruct (Htext r Hr) as (n & Hn & Hk). exists n. split; [|assumption].
      rewrite Hother; auto; intros ->.
      * apply Hthis. right. now right.
      * apply Hchild. now right.
      * contradiction.
    + exists st'. split; [now rewrite Hrun|]. split; [|split; [|split; [|split]]].
      * rewrite Hx'. f_equal.
      * rewrite Hc'. f_equal. unfold c1. cbn [_value with_value map concat].
        rewrite <- app_assoc.
        assert (Hv : valueIn st next = _value nn)
          by (unfold valueIn; now rewrite Hnn).
        rewrite Hv.
        assert (Hvs : map (valueIn st3) rest = map (valueIn st) rest).
        { apply map_ext_in. intros r Hr. apply list_elem_of_In in Hr.
          unfold valueIn. rewrite Hother; auto; intros ->.
          - apply Hthis. right. now right.
          - apply Hchild. now right.
          - contradiction. }
        rewrite Hvs. now destruct c.
      * intros r Hr. apply elem_of_cons in Hr as [->|Hr].
        -- exists nn. split; [assumption|]. rewrite Hframe; [exact Hn3|].
           intros Hin. apply elem_of_cons in Hin as [?|Hin]; [congruence|].
           apply elem_of_cons in Hin as [?|Hin]; [congruence|contradiction].
        -- destruct (Hrest' r Hr) as (n & Hn & Hn'). exists n. split; [|assumption].
           rewrite <- Hn. symmetry. apply Hother; intros ->.
           ++ apply Hthis. right. now right.
           ++ apply Hchild. now right.
           ++ contradiction.
      * intros r Hr. rewrite Hframe.
        -- apply Hother; intros ->; apply Hr.
           ++ now left.
           ++ right. now left.
           ++ right. right. now left.
        -- intros Hin. apply Hr.
           apply elem_of_cons in Hin as [->|Hin]; [now left|].
           apply elem_of_cons in Hin as [->|Hin]; [right; now left|].
           right. right. now right.
      * rewrite Hq. reflexivity.
Qed.

(** X19.  [normalize] on an element whose children are texts that are not
    all empty: the texts are merged into the first, which is left as the
    only child with the values of all of them, one after the other; the
    others lose their parent, and no other node and no name is changed. *)
Theorem normalize_merges_the_texts depth this first rest st (x c : ASXML) :
  nodes st !! this = Some x ->
  _children x = Some (map Some (first :: rest)) ->
  nodes st !! first = Some c -> _kind c = Text ->
  Forall (fun r : ref => exists n, nodes st !! r = Some n /\ _kind n = Text) rest ->
  NoDup (this :: first :: rest) ->
  concat (map (valueIn st) (first :: rest)) <> [] ->
  exists st',
    normalize (S depth) this st = (st', OK this) /\
    nodes st' !! this = Some (with_children (Some [Some first]) x) /\
    nodes st' !! first =
      Some (with_value (concat (map (valueIn st) (first :: rest))) c) /\
    (forall r : ref, r ∈ rest ->
       exists n, nodes st !! r = Some n /\
                 nodes st' !! r = Some (with_parent None n)) /\
    (forall r : ref, r ∉ this :: first :: rest ->
       nodes st' !! r = nodes st !! r) /\
    qnames st' = qnames st.
Proof.
  intros Hx Hcs Hc Hkind Htext Hnd Hvalue.
  destruct (mergeFollowingText_run this first rest
              (S (length (map Some (first :: rest)))) st x c)
    as (st' & Hrun & Hx' & Hc' & Hrest & Hframe & Hq); auto.
  { cbn. rewrite length_map. lia. }
  assert (Hv : valueIn st first = _value c) by (unfold valueIn; now rewrite Hc).
  cbn [map concat] in Hvalue |- *. rewrite Hv in Hvalue |- *.
  exists st'. split; [|auto].
  cbn [normalize]. rewrite bind_run, (getNode_run _ _ _ Hx), bind_run.
  unfold childrenOf at 1. rewrite Hcs. unfold mret at 1, M_ret at 1.
  cbv iota beta. rewrite bind_run.
  cbn [normalizeChildren].
  rewrite bind_run, (getNode_run _ _ _ Hx), bind_run.
  unfold childrenOf at 1. rewrite Hcs. unfold mret at 1, M_ret at 1.
  cbv iota beta. cbn [map length Nat.ltb Nat.leb].
  rewrite bind_run. unfold elementAt at 1. cbn [lookup list_lookup].
  unfold mret at 1, M_ret at 1. cbv iota beta.
  rewrite bind_run, (getNode_run _ _ _ Hc), Hkind.
  rewrite bind_run. cbn [map length] in Hrun. rewrite Hrun.
  rewrite bind_run, (getNode_run _ _ _ Hc'). cbn [_value with_value].
  destruct (_value c ++ concat (map (valueIn st) rest)) as [|ch s] eqn:Hs;
    [contradiction|].
  destruct (length (map Some rest)) as [|n];
    cbn [normalizeChildren];
    rewrite bind_run, (getNode_run _ _ _ Hx'), bind_run;
    unfold childrenOf; cbn [_children with_children];
    unfold mret, M_ret; reflexivity.
Qed.

Lemma normalize_merges_the_texts_witness :
  exists st',
    normalize 1 1 twoTextsParsed = (st', OK 1) /\
    nodes st' !! 1 =
      Some (with_children (Some [Some 2])
              (mkNode Element (Some 1) [] None (Some []) (Some [])
                      (Some [Some 2; Some 3]))) /\
    nodes st' !! 2 =
      Some (with_value (concat (map (valueIn twoTextsParsed) [2; 3]))
              (mkNode Text (Some 2) (lit "x") (Some 1) None None None)) /\
    (forall r : ref, r ∈ [3] ->
       exists n, nodes twoTextsParsed !! r = Some n /\
                 nodes st' !! r = Some (with_parent None n)) /\
    (forall r : ref, r ∉ [1; 2; 3] ->
       nodes st' !! r = nodes twoTextsParsed !! r) /\
    qnames st' = qnames twoTextsParsed.
Proof.
  apply (normalize_merges_the_texts 0 1 2 [3] twoTextsParsed).
  - reflexivity.
  - reflexivity.
  - reflexivity.
  - reflexivity.
  - apply List.Forall_cons; [|apply List.Forall_nil]. eexists.
    split; reflexivity.
  - repeat (apply list.NoDup_cons; split;
            [rewrite ?elem_of_cons, elem_of_nil; intuition discriminate|]).
    apply NoDup_nil_2.
  - vm_compute. discriminate.
Defined.

(** ** The parser and the nodes that are there *)

Lemma besideOld_refl st : besideOld st st.
Proof.
  split; [reflexivity|]. split; [reflexivity|].
  intros r n c Hr Hn. apply lookup_lt_Some in Hn. lia.
Qed.

Lemma besideOld_updNode st0 st (r : ref) (n' : ASXML) :
  besideOld st0 st -> length (nodes st0) <= r ->
  (forall c : ref, Some c ∈ default [] (_children n') -> length (nodes st0) <= c) ->
  besideOld st0 (updNode r n' st).
Proof.
  intros ((k & Hk) & Hq & Hch) Hr Hn'. split; [|split].
  - unfold updNode. cbn [nodes]. rewrite Hk.
    rewrite insert_app_r_alt by assumption. now eexists.
  - exact Hq.
  - intros r' n c Hr' Hlook. unfold updNode in Hlook. cbn [nodes] in Hlook.
    apply list_lookup_insert_Some in Hlook as [(_ & <- & _)|[_ Hlook]].
    + apply Hn'.
    + now apply (Hch r' n c).
Qed.

Lemma besideOld_createXML st0 settings kind uri name prefix st :
  besideOld st0 st ->
  wp (createXML settings kind uri name prefix)
     (fun r st' => besideOld st0 st' /\ length (nodes st0) <= r)
     (besideOld st0) st.
Proof.
  intros ((k & Hk) & (kq & Hq) & Hch). unfold wp. rewrite createXML_run.
  assert (Hnew : forall (n' : ASXML) qs,
            (forall c : ref, Some c ∈ default [] (_children n') -> False) ->
            qnames st0 `prefix_of` qs ->
            besideOld st0 (mkStore (nodes st ++ [n']) qs)).
  { intros n' qs Hn' Hqs. split; [|split].
    - cbn [nodes]. rewrite Hk, <- app_assoc. now eexists.
    - exact Hqs.
    - intros r n c Hr Hlook. cbn [nodes] in Hlook.
      apply lookup_app_Some in Hlook as [Hlook|[_ Hlook]].
      + now apply (Hch r n c).
      + apply list_lookup_singleton_Some in Hlook as [_ <-].
        intros Hin. destruct (Hn' c Hin). }
  destruct (initNamespace uri prefix) as [namespace|e].
  - split.
    + apply Hnew.
      * intros c. destruct kind; cbn; intros Hin; now apply elem_of_nil in Hin.
      * cbn [qnames]. rewrite Hq, <- app_assoc. now eexists.
    + rewrite Hk, length_app. lia.
  - unfold addNode. apply Hnew.
    + intros c Hin. cbn in Hin. now apply elem_of_nil in Hin.
    + now exists kq.
Qed.

Lemma besideOld_modifyNode st0 (r : ref) f st :
  besideOld st0 st -> length (nodes st0) <= r ->
  (forall n, _children (f n) = _children n) ->
  wp (modifyNode r f) (fun _ => besideOld st0) (besideOld st0) st.
Proof.
  intros Hb Hr Hf. rewrite wp_modifyNode.
  destruct (nodes st !! r) as [n|] eqn:Hn; [|assumption].
  apply besideOld_updNode; auto. intros c. rewrite Hf.
  destruct Hb as (_ & _ & Hch). now apply (Hch r n c).
Qed.

Lemma besideOld_insert st0 (parent : ref) p (node : ref) st :
  besideOld st0 st -> length (nodes st0) <= parent -> length (nodes st0) <= node ->
  wp (insert parent p node) (fun _ => besideOld st0) (besideOld st0) st.
Proof.
  intros Hb Hp Hn. unfold insert. rewrite wp_bind, wp_getNode.
  destruct (nodes st !! parent) as [this|]; [|assumption].
  destruct (isLeafKind (_kind this)); [now rewrite wp_ret|].
  destruct (negb (isUint32 p)); [now rewrite wp_throw|].
  rewrite wp_bind, wp_storeSize, wp_bind.
  apply wp_readOnly; [|intros cyclic|assumption].
  { destruct (bool_decide _); [apply readOnly_onParentChain|apply readOnly_ret]. }
  destruct cyclic; [now rewrite wp_throw|].
  rewrite wp_bind.
  eapply wp_mono; [| |apply (besideOld_modifyNode st0 node _ st Hb Hn)];
    [|auto|reflexivity].
  intros [] st1 Hb1. rewrite wp_bind, wp_getNode.
  destruct (nodes st1 !! parent) as [this1|] eqn:Hthis1; [|assumption].
  rewrite wp_setNode. apply besideOld_updNode; auto.
  intros c. cbn [_children with_children default from_option id].
  assert (Hold : forall e : ref,
            Some e ∈ match _children this1 with Some cs => cs | None => [] end ->
            length (nodes st0) <= e).
  { intros e He. destruct Hb1 as (_ & _ & Hch). apply (Hch parent this1 e); auto. }
  unfold insertAt.
  rewrite !elem_of_app, elem_of_cons. intros [Hin|[Hin|[Heq|Hin]]].
  - apply Hold. eapply elem_of_sublist; [exact Hin|]. apply sublist_take.
  - apply elem_of_replicate in Hin as [Hin _]. discriminate.
  - injection Heq as Heq. rewrite Heq. exact Hn.
  - apply Hold. eapply elem_of_sublist; [exact Hin|]. apply sublist_drop.
Qed.

Lemma besideOld_insertLast st0 target (node : ref) st :
  besideOld st0 st ->
  (forall r : ref, target = Some r -> length (nodes st0) <= r) ->
  length (nodes st0) <= node ->
  wp (insertLast target node) (fun _ => besideOld st0) (besideOld st0) st.
Proof.
  intros Hb Ht Hn. unfold insertLast.
  destruct target as [parent|]; [|now rewrite wp_throw].
  rewrite wp_bind, wp_getNode.
  destruct (nodes st !! parent); [|assumption].
  apply besideOld_insert; auto.
Qed.

Lemma besideOld_addAttributes st0 settings (element : ref) : forall attrs st,
  besideOld st0 st -> length (nodes st0) <= element ->
  wp (addAttributes settings element attrs)
     (fun _ => besideOld st0) (besideOld st0) st.
Proof.
  induction attrs as [|[name value] attrs IH]; intros st Hb He;
    cbn [addAttributes]; [now rewrite wp_ret|].
  rewrite wp_bind. unfold createNode.
  eapply wp_mono; [| |apply besideOld_createXML; exact Hb]; [|auto].
  intros attr st1 [Hb1 Ha]. rewrite wp_bind.
  eapply wp_mono; [| |apply (besideOld_modifyNode st0 attr _ st1 Hb1 Ha)];
    [|auto|reflexivity].
  intros [] st2 Hb2. rewrite wp_bind, wp_getNode.
  destruct (nodes st2 !! element) as [e|] eqn:Helem; [|assumption].
  rewrite wp_bind. unfold attributesOf.
  destruct (_attributes e) as [l|]; [rewrite wp_ret|now rewrite wp_throw].
  rewrite wp_bind, wp_setNode. apply IH; [|assumption].
  apply besideOld_updNode; auto. intros c. cbn [_children with_attributes].
  destruct Hb2 as (_ & _ & Hch). now apply (Hch element e c).
Qed.

Lemma besideOld_addNamespaces st0 (element : ref) : forall namespaces st,
  besideOld st0 st -> length (nodes st0) <= element ->
  wp (addNamespaces element namespaces)
     (fun _ => besideOld st0) (besideOld st0) st.
Proof.
  induction namespaces as [|rawNs namespaces IH]; intros st Hb He;
    cbn [addNamespaces]; [now rewrite wp_ret|].
  rewrite wp_bind, wp_lift.
  destruct (newNamespace _ _) as [ns|e]; [|assumption].
  rewrite wp_bind, wp_getNode.
  destruct (nodes st !! element) as [e|] eqn:Helem; [|assumption].
  rewrite wp_bind.
  destruct (_inScopeNamespaces e) as [l|]; [|now rewrite wp_throw].
  rewrite wp_setNode. apply IH; [|assumption].
  apply besideOld_updNode; auto. intros c. cbn [_children with_inScopeNamespaces].
  destruct Hb as (_ & _ & Hch). now apply (Hch element e c).
Qed.

Lemma builderBeside_pop st0 b : builderBeside st0 b -> builderBeside st0 (pop b).
Proof.
  intros Hb r. unfold pop.
  destruct (elementsStack b) as [|top rest] eqn:Hs; cbn.
  - intros [H|H]; [discriminate|now apply elem_of_nil in H].
  - intros [->|H]; apply Hb; right; rewrite Hs; [now left|now right].
Qed.

Lemma besideOld_leaf st0 settings b kind name value st :
  besideOld st0 st -> builderBeside st0 b ->
  wp (node ← createNode settings kind [] name None;
      modifyNode node (with_value value);;
      insertLast (currentElement b) node;;
      mret b)
     (fun b' st' => besideOld st0 st' /\ builderBeside st0 b')
     (besideOld st0) st.
Proof.
  intros Hst Hb. rewrite wp_bind. unfold createNode.
  eapply wp_mono; [| |apply besideOld_createXML; exact Hst]; [|auto].
  intros node st1 [Hb1 Hn]. rewrite wp_bind.
  eapply wp_mono; [| |apply (besideOld_modifyNode st0 node _ st1 Hb1 Hn)];
    [|auto|reflexivity].
  intros [] st2 Hb2. rewrite wp_bind.
  eapply wp_mono; [| |apply (besideOld_insertLast st0 _ node st2 Hb2)]; auto.
  intros [] st3 Hb3. now rewrite wp_ret.
Qed.

Lemma besideOld_sink st0 settings b ev st :
  besideOld st0 st -> builderBeside st0 b ->
  wp (sink settings b ev)
     (fun b' st' => besideOld st0 st' /\ builderBeside st0 b')
     (besideOld st0) st.
Proof.
  intros Hst Hb. destruct ev as [name attrs namespaces isEmpty|name|t ws|t|t|name value|t];
    cbn [sink].
  - rewrite wp_bind. unfold createNode.
    eapply wp_mono; [| |apply besideOld_createXML; exact Hst]; [|auto].
    intros element st1 [Hb1 He]. rewrite wp_bind.
    eapply wp_mono; [| |apply (besideOld_addAttributes st0 settings element attrs st1 Hb1 He)];
      [|auto].
    intros [] st2 Hb2. rewrite wp_bind.
    eapply wp_mono; [| |apply (besideOld_addNamespaces st0 element namespaces st2 Hb2 He)];
      [|auto].
    intros [] st3 Hb3. rewrite wp_bind.
    eapply wp_mono; [| |apply (besideOld_insertLast st0 _ element st3 Hb3)]; auto.
    intros [] st4 Hb4. rewrite wp_ret. split; [assumption|].
    assert (Hnew : builderBeside st0
              (mkBuilder (Some element) (currentElement b :: elementsStack b))).
    { intros r. cbn. intros [[= <-]|Hin]; [assumption|].
      apply elem_of_cons in Hin as [Heq|Hin]; apply Hb; [now left|now right]. }
    destruct isEmpty; [now apply builderBeside_pop|assumption].
  - rewrite wp_ret. split; [assumption|now apply builderBeside_pop].
  - destruct (_ || _); [now rewrite wp_ret|]. now apply besideOld_leaf.
  - now apply besideOld_leaf.
  - destruct (ignoreComments settings); [now rewrite wp_ret|].
    now apply besideOld_leaf.
  - destruct (ignoreProcessingInstructions settings); [now rewrite wp_ret|].
    now apply besideOld_leaf.
  - now rewrite wp_ret.
Qed.

Lemma besideOld_feed st0 settings : forall events b st,
  besideOld st0 st -> builderBeside st0 b ->
  wp (feed settings b events)
     (fun b' st' => besideOld st0 st' /\ builderBeside st0 b')
     (besideOld st0) st.
Proof.
  induction events as [|ev events IH]; intros b st Hst Hb; cbn [feed].
  - now rewrite wp_ret.
  - rewrite wp_bind.
    eapply wp_mono; [| |apply (besideOld_sink st0 settings b ev st Hst Hb)];
      [|auto].
    intros b' st' [Hst' Hb']. now apply IH.
Qed.

Lemma besideOld_parseFromString st0 settings s st :
  besideOld st0 st ->
  wp (parseFromString settings s)
     (fun x st' => besideOld st0 st' /\
                   forall r : ref, x = Some r -> length (nodes st0) <= r)
     (besideOld st0) st.
Proof.
  intros Hst. unfold parseFromString. rewrite wp_bind.
  eapply wp_mono; [| |apply besideOld_createXML; exact Hst]; [|auto].
  intros placeholder st1 [Hst1 Hp].
  destruct (parseXml settings s) as [events err]. rewrite wp_bind.
  eapply wp_mono;
    [| |apply (besideOld_feed st0 settings events
                 (mkBuilder (Some placeholder) []) st1 Hst1)]; [|auto|].
  - intros b st2 [Hst2 Hb]. destruct err; [now rewrite wp_throw|].
    rewrite wp_ret. split; [assumption|]. intros r Hr. apply Hb. now left.
  - intros r. cbn. intros [[= <-]|Hin]; [assumption|now apply elem_of_nil in Hin].
Qed.

(** X20.  Parsing only adds to the store: after [parseFromString], and
    after [toXML] of any value, however they end, the nodes and the names
    that were there are there as they were, followed by the new ones. *)
Theorem parsing_keeps_the_old_nodes settings st :
  (forall s,
     nodes st `prefix_of` nodes (fst (parseFromString settings s st)) /\
     qnames st `prefix_of` qnames (fst (parseFromString settings s st))) /\
  (forall v,
     nodes st `prefix_of` nodes (fst (toXML settings v st)) /\
     qnames st `prefix_of` qnames (fst (toXML settings v st))).
Proof.
  assert (Hout : forall {A} (m : M A) (Q : A -> Store -> Prop),
            wp m Q (besideOld st) st ->
            (forall a st', Q a st' -> besideOld st st') ->
            nodes st `prefix_of` nodes (fst (m st)) /\
            qnames st `prefix_of` qnames (fst (m st))).
  { intros A m Q Hwp HQ. unfold wp in Hwp.
    destruct (m st) as [st' [a|e]]; cbn [fst].
    - destruct (HQ a st' Hwp) as (H1 & H2 & _). now split.
    - destruct Hwp as (H1 & H2 & _). now split. }
  assert (Hstring : forall s,
            wp (toXML_string settings s) (fun _ => besideOld st) (besideOld st) st).
  { intros s. unfold toXML_string. rewrite wp_bind.
    eapply wp_mono;
      [| |apply (besideOld_parseFromString st settings s st (besideOld_refl st))];
      [|auto].
    intros [x|] st1 [Hst1 Hx]; [|now rewrite wp_throw].
    specialize (Hx x eq_refl). rewrite wp_bind, wp_getNode.
    destruct (nodes st1 !! x) as [n|] eqn:Hn; [|assumption].
    assert (Htext : wp (t ← createXML settings Text [] [] None; mret (VXML t))
                       (fun _ => besideOld st) (besideOld st) st1).
    { rewrite wp_bind.
      eapply wp_mono; [| |apply besideOld_createXML; exact Hst1]; [|auto].
      intros t st2 [Hst2 _]. now rewrite wp_ret. }
    destruct (_children n) as [[|first [|second rest]]|] eqn:Hcs;
      try exact Htext; [|now rewrite wp_throw].
    rewrite wp_bind. unfold elementAt. cbn [lookup list_lookup].
    destruct first as [f|]; [rewrite wp_ret|now rewrite wp_throw].
    rewrite wp_bind.
    assert (Hf : length (nodes st) <= f).
    { destruct Hst1 as (_ & _ & Hch). apply (Hch x n f); auto.
      rewrite Hcs. cbn. now left. }
    eapply wp_mono; [| |apply (besideOld_modifyNode st f _ st1 Hst1 Hf)];
      [|auto|reflexivity].
    intros [] st2 Hst2. now rewrite wp_ret. }
  split.
  - intros s.
    apply (Hout _ _ _ (besideOld_parseFromString st settings s st (besideOld_refl st))).
    now intros a st' [H _].
  - intros v. destruct v as [| |z|s|r|l]; cbn [toXML fst];
      try (split; reflexivity).
    + apply (Hout _ _ _ (Hstring _)). auto.
    + apply (Hout _ _ _ (Hstring _)). auto.
    + destruct (l_children l) as [|[r|] [|c rest]]; cbn [fst]; split; reflexivity.
Qed.

(** ** childIndex in a consistent store *)

(** X21.  In a consistent store [childIndex] is the inverse of indexing
    the children: for a node that is the entry at index [i] of the
    children of a node, and no attribute, it returns [i] and leaves the
    store as it was. *)
Theorem childIndex_of_the_child_at st (p c : ref) (pn cn : ASXML) cs i :
  consistent st ->
  nodes st !! p = Some pn -> _children pn = Some cs ->
  cs !! i = Some (Some c) ->
  nodes st !! c = Some cn -> _kind cn <> Attribute ->
  childIndex c st = (st, OK (Z.of_nat i)).
Proof.
  intros Hc Hp Hcs Hi Hcn Hkind.
  assert (Hmem : c ∈ members st p).
  { rewrite (members_children _ _ _ _ Hp Hcs). apply elem_of_app. left.
    apply childRefs_elem. eapply list_elem_of_lookup_2; eauto. }
  destruct (proj1 Hc _ _ Hmem) as [_ Hpar].
  unfold parentIn in Hpar. rewrite Hcn in Hpar.
  rewrite (childIndex_run st c p cn pn cs Hcn Hpar Hkind Hp Hcs).
  pose proof (proj2 Hc p) as Hnd.
  rewrite (members_children _ _ _ _ Hp Hcs) in Hnd.
  apply list.NoDup_app in Hnd as [Hnd _].
  pose proof (take_drop_middle cs i (Some c) Hi) as Hsplit.
  rewrite <- Hsplit in Hnd |- *. rewrite indexOf_middle.
  - rewrite length_take_le; [reflexivity|]. apply lookup_lt_Some in Hi. lia.
  - rewrite childRefs_app in Hnd. cbn in Hnd.
    apply list.NoDup_app in Hnd as (_ & Hdisj & _).
    intros Hin. apply (Hdisj c); [now apply childRefs_elem|now left].
Qed.

Lemma childIndex_of_the_child_at_witness :
  childIndex 4 sampleStore = (sampleStore, OK (Z.of_nat 1)).
Proof.
  apply (childIndex_of_the_child_at sampleStore 1 4
           (mkNode Element (Some 1) [] (Some 0) (Some []) (Some [2])
                   (Some [Some 3; Some 4]))
           (mkNode Element (Some 4) [] (Some 1) (Some []) (Some []) (Some []))
           [Some 3; Some 4] 1);
    try reflexivity; [apply consistent_sampleStore|discriminate].
Defined.

(** ** [[Put]] and [[Get]] of an attribute *)

Lemma nameIn_updNode st (r : ref) (n n' : ASXML) :
  nodes st !! r = Some n -> _name n' = _name n ->
  forall b, nameIn (updNode r n' st) b = nameIn st b.
Proof.
  intros Hr Hname b. unfold nameIn. rewrite (nodes_updNode _ _ _ _ Hr).
  destruct (decide (b = r)) as [->|]; [|reflexivity].
  now rewrite Hr, Hname.
Qed.

Lemma attributesIn_upd st (r : ref) (n n' : ASXML) (q : ref) :
  nodes st !! r = Some n ->
  attributesIn (updNode r n' st) q =
  if decide (q = r) then default [] (_attributes n') else attributesIn st q.
Proof.
  intros Hr. unfold attributesIn. rewrite (nodes_updNode _ _ _ _ Hr).
  now destruct (decide (q = r)).
Qed.

Lemma attributesIn_same st (r : ref) (n n' : ASXML) :
  nodes st !! r = Some n -> _attributes n' = _attributes n ->
  forall q, attributesIn (updNode r n' st) q = attributesIn st q.
Proof.
  intros Hr Hsame q. rewrite (attributesIn_upd _ _ _ _ _ Hr).
  destruct (decide (q = r)) as [->|]; [|reflexivity].
  unfold attributesIn. now rewrite Hr, Hsame.
Qed.

Lemma nameIn_node st (b : ref) vb :
  nameIn st b = Some vb ->
  exists bn q, nodes st !! b = Some bn /\ _name bn = Some q /\
               qnames st !! q = Some vb.
Proof.
  unfold nameIn. destruct (nodes st !! b) as [bn|]; [|discriminate].
  destruct (_name bn) as [q|] eqn:Hq; [|discriminate].
  intros H. now exists bn, q.
Qed.

(** With a name that is no wildcard, the test of [getProperty] on an
    attribute is the [equals] of the names. *)
Lemma attributeSelected_named n st (b : ref) vb :
  hasFlag (qn_flags n) ANY_NAME = false ->
  hasFlag (qn_flags n) ANY_NAMESPACE = false ->
  nameIn st b = Some vb ->
  attributeSelected n b st = (st, OK (qname_equals vb n)).
Proof.
  intros Hany Hns Hname.
  destruct (nameIn_node _ _ _ Hname) as (bn & q & Hb & Hq & Hvb).
  unfold attributeSelected. rewrite Hany, Hns. cbn [andb orb].
  rewrite bind_run, (getNode_run _ _ _ Hb), bind_run.
  unfold nameOf. rewrite Hq. unfold getQName. rewrite Hvb.
  unfold mret, M_ret. do 2 f_equal. unfold qname_equals, jsstring_eqb.
  rewrite andb_comm. f_equal; apply bool_decide_ext; split; congruence.
Qed.

Lemma filterM_only (f : ref -> M bool) (a : ref) st : forall l : list ref,
  (forall b, readOnly (f b)) ->
  NoDup l -> a ∈ l ->
  (forall b, b ∈ l -> snd (f b st) = OK (bool_decide (a = b))) ->
  filterM f l st = (st, OK [a]).
Proof.
  intros l Hro. induction l as [|b l IH]; intros Hnd Hin Hall.
  { now apply elem_of_nil in Hin. }
  apply list.NoDup_cons in Hnd as [Hnot Hnd].
  cbn [filterM]. rewrite bind_run.
  pose proof (Hro b st) as Hst. pose proof (Hall b (list_elem_of_here _ _)) as Hb.
  destruct (f b st) as [st0 r]. cbn in Hst, Hb. subst st0 r.
  rewrite bind_run. destruct (decide (a = b)) as [->|Hne].
  - rewrite (filterM_none f l st Hro).
    + now rewrite bool_decide_eq_true_2.
    + intros c Hc. rewrite Hall by now right.
      rewrite bool_decide_eq_false_2; [reflexivity|]. intros ->. contradiction.
  - rewrite IH; auto.
    + now rewrite bool_decide_eq_false_2.
    + apply elem_of_cons in Hin as [?|?]; [contradiction|assumption].
    + intros c Hc. apply Hall. now right.
Qed.

(** [getProperty] of the name of one attribute. *)
Lemma getProperty_only this n (a : ref) st :
  hasFlag (qn_flags n) ANY_NAME = false ->
  hasFlag (qn_flags n) ANY_NAMESPACE = false ->
  is_Some (nodes st !! this) ->
  NoDup (attributesIn st this) -> a ∈ attributesIn st this ->
  (forall b, b ∈ attributesIn st this ->
     exists vb, nameIn st b = Some vb /\
                qname_equals vb n = bool_decide (Some a = Some b)) ->
  getProperty this (KName n) true st =
  (st, OK (PList (mkList [Some a] (Some this) (Some n)))).
Proof.
  intros Hany Hns [x Hx] Hnd Hin Hall. unfold getProperty.
  rewrite bind_run, (getNode_run _ _ _ Hx). cbn [orb].
  unfold attributesIn in Hnd, Hin, Hall. rewrite Hx in Hnd, Hin, Hall.
  destruct (_attributes x) as [attrs|]; cbn [default from_option id] in *;
    [|now apply elem_of_nil in Hin].
  rewrite bind_run.
  rewrite (filterM_only (attributeSelected n) a st attrs); auto.
  - apply readOnly_attributeSelected.
  - intros b Hb. destruct (Hall b Hb) as (vb & Hvb & Heq).
    rewrite (attributeSelected_named n st b vb Hany Hns Hvb). cbn [snd].
    rewrite Heq. f_equal. apply bool_decide_ext. split; congruence.
Qed.

(** The loop of step 6.e, from a state in which [kept] has been pushed,
    [a] is the attribute found so far and [rest] is still to be looked
    at. *)
Lemma keepFirstNamed_spec this n : forall (rest : list ref) (a : option ref) st,
  is_Some (nodes st !! this) ->
  (forall b, b ∈ rest -> is_Some (nameIn st b)) ->
  NoDup (attributesIn st this ++ rest) ->
  (forall b, b ∈ attributesIn st this ->
     exists vb, nameIn st b = Some vb /\
                qname_equals vb n = bool_decide (a = Some b)) ->
  (forall a0, a = Some a0 -> a0 ∈ attributesIn st this) ->
  wp (keepFirstNamed this n rest a)
     (fun a' st' =>
        is_Some (nodes st' !! this) /\
        NoDup (attributesIn st' this) /\
        (forall b, b ∈ attributesIn st' this ->
           exists vb, nameIn st' b = Some vb /\
                      qname_equals vb n = bool_decide (a' = Some b)) /\
        (forall a0, a' = Some a0 -> a0 ∈ attributesIn st' this) /\
        (forall r, nameIn st' r = nameIn st r) /\
        length (nodes st') = length (nodes st) /\
        qnames st' = qnames st)
     (fun _ => False) st.
Proof.
  induction rest as [|attribute rest IH]; intros a st Hthis Hrest Hnd Hkept Ha.
  { cbn [keepFirstNamed]. rewrite wp_ret. rewrite app_nil_r in Hnd.
    repeat split; auto. }
  cbn [keepFirstNamed].
  destruct (Hrest attribute) as [name Hname]; [now left|].
  destruct (nameIn_node _ _ _ Hname) as (an & q & Han & Hq & Hqn).
  rewrite wp_bind, wp_getNode, Han. rewrite wp_bind.
  unfold nameOf. rewrite Hq, wp_getQName, Hqn.
  destruct Hthis as [x Hx].
  assert (Hnew : attribute ∉ attributesIn st this).
  { intros Hin. apply list.NoDup_app in Hnd as (_ & Hdisj & _).
    apply (Hdisj attribute Hin). now left. }
  assert (Hnd' : NoDup ((attributesIn st this ++ [attribute]) ++ rest))
    by now rewrite <- app_assoc.
  (* the attribute is pushed *)
  assert (Hpush : forall a' : option ref,
    qname_equals name n = bool_decide (a' = Some attribute) ->
    (forall b, b ∈ attributesIn st this ->
       exists vb, nameIn st b = Some vb /\
                  qname_equals vb n = bool_decide (a' = Some b)) ->
    (forall a0, a' = Some a0 -> a0 ∈ attributesIn st this ++ [attribute]) ->
    wp (pushAttribute this attribute;; keepFirstNamed this n rest a')
       (fun a' st' =>
          is_Some (nodes st' !! this) /\
          NoDup (attributesIn st' this) /\
          (forall b, b ∈ attributesIn st' this ->
             exists vb, nameIn st' b = Some vb /\
                        qname_equals vb n = bool_decide (a' = Some b)) /\
          (forall a0, a' = Some a0 -> a0 ∈ attributesIn st' this) /\
          (forall r, nameIn st' r = nameIn st r) /\
          length (nodes st') = length (nodes st) /\
          qnames st' = qnames st)
       (fun _ => False) st).
  { intros a' Heq Hkept' Ha'. rewrite wp_bind. unfold pushAttribute.
    rewrite wp_modifyNode, Hx.
    set (x' := with_attributes (Some (default [] (_attributes x) ++ [attribute])) x).
    assert (Hattrs : attributesIn (updNode this x' st) this =
                     attributesIn st this ++ [attribute]).
    { rewrite (attributesIn_upd _ _ _ _ _ Hx), decide_True by reflexivity.
      unfold attributesIn. now rewrite Hx. }
    assert (Hnames : forall r, nameIn (updNode this x' st) r = nameIn st r)
      by (apply (nameIn_updNode _ _ x); [assumption|reflexivity]).
    eapply wp_mono; [| |apply IH].
    - intros a'' st' (H1 & H2 & H3 & H4 & H5 & H6 & H7).
      repeat split; auto.
      + intros r. now rewrite H5.
      + rewrite H6. apply length_updNode.
    - auto.
    - eexists. now apply (lookup_updNode_same _ _ x).
    - intros b Hb. rewrite Hnames. apply Hrest. now right.
    - now rewrite Hattrs.
    - intros b. rewrite Hattrs, Hnames, elem_of_app, list_elem_of_singleton.
      intros [Hb| ->]; [now apply Hkept'|]. exists name. split; assumption.
    - now rewrite Hattrs. }
  destruct (qname_equals name n) eqn:Hmatch.
  - destruct a as [a0|].
    + (* a second one with the name: it is dropped *)
      rewrite wp_bind, wp_modifyNode, Han.
      assert (Hattrs : forall q, attributesIn (updNode attribute (with_parent None an) st) q
                                 = attributesIn st q)
        by (apply (attributesIn_same _ _ an); [assumption|reflexivity]).
      assert (Hnames : forall r, nameIn (updNode attribute (with_parent None an) st) r
                                 = nameIn st r)
        by (apply (nameIn_updNode _ _ an); [assumption|reflexivity]).
      eapply wp_mono; [| |apply IH].
      * intros a'' st' (H1 & H2 & H3 & H4 & H5 & H6 & H7).
        repeat split; auto.
        -- intros r. now rewrite H5.
        -- rewrite H6. apply length_updNode.
      * auto.
      * rewrite (nodes_updNode _ _ _ _ Han).
        destruct (decide (this = attribute)); eauto.
      * intros b Hb. rewrite Hnames. apply Hrest. now right.
      * rewrite Hattrs. apply list.NoDup_app in Hnd as (H1 & H2 & H3).
        apply list.NoDup_cons in H3 as [_ H3]. apply list.NoDup_app.
        split; [assumption|]. split; [|assumption].
        intros b Hb Hb'. apply (H2 b Hb). now right.
      * intros b. rewrite Hattrs, Hnames. apply Hkept.
      * intros a1 Ha1. rewrite Hattrs. now apply Ha.
    + (* the first with the name *)
      apply Hpush.
      * now rewrite bool_decide_eq_true_2.
      * intros b Hb. destruct (Hkept b Hb) as (vb & Hvb & Heq).
        exists vb. split; [assumption|]. rewrite Heq.
        rewrite bool_decide_eq_false_2 by discriminate.
        rewrite bool_decide_eq_false_2; [reflexivity|].
        intros [= ->]. contradiction.
      * intros a0 [= <-]. apply elem_of_app. right. now left.
  - apply Hpush.
    + rewrite bool_decide_eq_false_2; [reflexivity|].
      intros ->. apply Hnew. now apply Ha.
    + assumption.
    + intros a0 Ha0. apply elem_of_app. left. now apply Ha.
Qed.

Lemma nameIn_more st (b : ref) vb extra names :
  nameIn st b = Some vb ->
  nameIn (mkStore (nodes st ++ extra) (qnames st ++ names)) b = Some vb.
Proof.
  intros Hname. destruct (nameIn_node _ _ _ Hname) as (bn & q & Hb & Hq & Hvb).
  unfold nameIn. cbn [nodes qnames].
  rewrite (lookup_app_l_Some _ _ _ _ Hb), Hq.
  now apply lookup_app_l_Some.
Qed.

Lemma attributesIn_more st (r : ref) extra names :
  is_Some (nodes st !! r) ->
  attributesIn (mkStore (nodes st ++ extra) names) r = attributesIn st r.
Proof.
  intros [n Hn]. unfold attributesIn. cbn [nodes].
  now rewrite (lookup_app_l_Some _ _ _ _ Hn), Hn.
Qed.

(** The name of the attribute that step 6.f makes. *)
Lemma new_attribute_named settings n u :
  qn_uri n = Some u ->
  (u = [] -> defaultNamespace settings = [] /\ localName n <> lit "*") ->
  exists namespace,
    initNamespace (default [] (qn_uri n)) None = OK namespace /\
    qname_equals (newQName (defaultNamespace settings) namespace (localName n) true)
                 n = true.
Proof.
  intros Hu Hempty. rewrite Hu. cbn [default from_option id].
  destruct u as [|ch u].
  - destruct (Hempty eq_refl) as [Hdef Hstar].
    exists None. split; [reflexivity|].
    unfold qname_equals, newQName, jsstring_eqb.
    rewrite (bool_decide_eq_false_2 (localName n = lit "*")) by assumption.
    cbn [localName qn_uri qn_namespace getDefaultNamespace ns_uri].
    rewrite Hu, Hdef. now rewrite !bool_decide_eq_true_2.
  - exists (Some (mkNamespace None (ch :: u))). split; [reflexivity|].
    unfold qname_equals, newQName, jsstring_eqb.
    cbn [localName qn_uri qn_namespace ns_uri].
    rewrite Hu. now rewrite !bool_decide_eq_true_2.
Qed.

(** X22.  An attribute that is set can be got.  After [setProperty] of
    an attribute name, neither a wildcard nor without a namespace, to a
    string, on a node that is no leaf and has attributes without
    repetition that have names, [getProperty] of the name gives a list of
    one attribute, and its value is the string.  (With the empty uri the
    name is found again when the default namespace is the empty one.) *)
Theorem setProperty_then_getProperty_of_an_attribute
    settings xmlName depth this n u s st (x : ASXML) :
  nodes st !! this = Some x -> isLeafKind (_kind x) = false ->
  xmlName n = true ->
  hasFlag (qn_flags n) ANY_NAME = false ->
  hasFlag (qn_flags n) ANY_NAMESPACE = false ->
  qn_uri n = Some u ->
  (u = [] -> defaultNamespace settings = [] /\ localName n <> lit "*") ->
  NoDup (attributesIn st this) ->
  (forall b, b ∈ attributesIn st this -> is_Some (nameIn st b)) ->
  exists st' a,
    setProperty settings xmlName depth this (KName n) true (VString s) st =
      (st', OK tt) /\
    getProperty this (KName n) true st' =
      (st', OK (PList (mkList [Some a] (Some this) (Some n)))) /\
    valueIn st' a = s.
Proof.
  intros Hx Hleaf Hxml Hany Hns Hu Hempty Hnd Hnames.
  assert (Hwp : wp (setProperty settings xmlName depth this (KName n) true (VString s))
                   (fun _ st' => exists a,
                      getProperty this (KName n) true st' =
                        (st', OK (PList (mkList [Some a] (Some this) (Some n)))) /\
                      valueIn st' a = s)
                   (fun _ => False) st).
  { unfold setProperty. rewrite wp_bind, wp_getNode, Hx, Hleaf.
    cbn [assignedValue]. rewrite wp_bind, wp_ret, wp_bind, wp_ret. rewrite Hxml.
    cbn [negb]. rewrite wp_bind, wp_ret, wp_bind, wp_getNode, Hx.
    rewrite wp_bind, wp_modifyNode, Hx.
    set (st1 := updNode this (with_attributes (Some []) x) st).
    assert (Hat1 : attributesIn st1 this = []).
    { unfold st1. rewrite (attributesIn_upd _ _ _ _ _ Hx).
      now rewrite decide_True. }
    assert (Hn1 : forall r, nameIn st1 r = nameIn st r)
      by (apply (nameIn_updNode _ _ x); [assumption|reflexivity]).
    assert (Hrest : default [] (_attributes x) = attributesIn st this)
      by (unfold attributesIn; now rewrite Hx).
    rewrite Hrest. rewrite wp_bind.
    eapply wp_mono; [| |apply (keepFirstNamed_spec this n (attributesIn st this) None st1)].
    3:{ eexists. unfold st1. now apply (lookup_updNode_same _ _ x). }
    3:{ intros b Hb. rewrite Hn1. now apply Hnames. }
    3:{ now rewrite Hat1. }
    3:{ rewrite Hat1. intros b Hb. now apply elem_of_nil in Hb. }
    3:{ discriminate. }
    2:{ auto. }
    intros a' st2 (Hthis2 & Hnd2 & Hkept2 & Ha2 & _ & _ & _).
    rewrite wp_bind. destruct a' as [a0|].
    - (* an attribute with the name was there *)
      rewrite wp_ret, wp_modifyNode.
      destruct (Hkept2 a0 (Ha2 a0 eq_refl)) as (va & Hva & _).
      destruct (nameIn_node _ _ _ Hva) as (an & q & Han & _ & _).
      rewrite Han. exists a0. split.
      + apply getProperty_only; auto.
        * destruct Hthis2 as [x2 Hx2]. rewrite (nodes_updNode _ _ _ _ Han).
          destruct (decide (this = a0)); eauto.
        * now rewrite (attributesIn_same _ _ an) by (assumption || reflexivity).
        * rewrite (attributesIn_same _ _ an) by (assumption || reflexivity).
          now apply Ha2.
        * intros b. rewrite (attributesIn_same _ _ an) by (assumption || reflexivity).
          rewrite (nameIn_updNode _ _ an) by (assumption || reflexivity).
          apply Hkept2.
      + unfold valueIn. now rewrite (lookup_updNode_same _ _ _ _ Han).
    - (* a new attribute *)
      destruct (new_attribute_named settings n u Hu Hempty) as (namespace & Hinit & Hq).
      rewrite wp_bind. unfold wp at 1. rewrite createXML_run, Hinit.
      cbv beta iota.
      set (a := length (nodes st2)).
      set (qn := newQName (defaultNamespace settings) namespace (localName n)
                          (bool_decide (Attribute = Attribute))).
      set (st3 := mkStore (nodes st2 ++ [createdNode Attribute (length (qnames st2))])
                          (qnames st2 ++ [qn])).
      destruct Hthis2 as [x2 Hx2].
      assert (Hvalid : forall b, b ∈ attributesIn st2 this -> b < a).
      { intros b Hb. destruct (Hkept2 b Hb) as (vb & Hvb & _).
        destruct (nameIn_node _ _ _ Hvb) as (bn & _ & Hbn & _).
        now apply lookup_lt_Some in Hbn. }
      assert (Hta : this <> a).
      { apply lookup_lt_Some in Hx2. unfold a. intros ->. lia. }
      assert (Ha3 : nodes st3 !! (a : ref) = Some (createdNode Attribute (length (qnames st2)))).
      { unfold st3, a. cbn [nodes]. now rewrite list_lookup_middle. }
      rewrite wp_bind, wp_modifyNode, Ha3.
      set (c4 := with_parent (Some this) (createdNode Attribute (length (qnames st2)))).
      set (st4 := updNode a c4 st3).
      assert (Hx4 : nodes st4 !! this = Some x2).
      { unfold st4. rewrite (nodes_updNode _ _ _ _ Ha3), decide_False by assumption.
        unfold st3. cbn [nodes]. now apply lookup_app_l_Some. }
      rewrite wp_bind. unfold pushAttribute. rewrite wp_modifyNode, Hx4.
      cbv beta.
      set (x5 := with_attributes _ x2).
      set (st5 := updNode this x5 st4).
      assert (Ha5 : nodes st5 !! (a : ref) = Some c4).
      { unfold st5. rewrite (nodes_updNode _ _ _ _ Hx4).
        rewrite decide_False by auto. unfold st4.
        now apply (lookup_updNode_same _ _ (createdNode Attribute (length (qnames st2)))). }
      rewrite wp_ret, wp_modifyNode, Ha5.
      set (st6 := updNode a (with_value s c4) st5).
      assert (Hat6 : attributesIn st6 this = attributesIn st2 this ++ [a]).
      { unfold st6. rewrite (attributesIn_same _ _ c4) by (assumption || reflexivity).
        unfold st5. rewrite (attributesIn_upd _ _ _ _ _ Hx4), decide_True by reflexivity.
        unfold x5, attributesIn. cbn [_attributes with_attributes default from_option id].
        now rewrite Hx2. }
      assert (Hn6 : forall r, nameIn st6 r = nameIn st3 r).
      { intros r. unfold st6.
        rewrite (nameIn_updNode _ _ c4) by (assumption || reflexivity).
        unfold st5. rewrite (nameIn_updNode _ _ x2) by (assumption || reflexivity).
        unfold st4. now rewrite (nameIn_updNode _ _ _ _ Ha3) by reflexivity. }
      exists a. split.
      + apply getProperty_only; auto.
        * unfold st6. rewrite (nodes_updNode _ _ _ _ Ha5), decide_False by assumption.
          unfold st5. eexists. now apply (lookup_updNode_same _ _ x2).
        * rewrite Hat6. apply list.NoDup_app. split; [assumption|].
          split; [|apply NoDup_singleton].
          intros b Hb Hb'. apply list_elem_of_singleton in Hb'. subst b.
          specialize (Hvalid a Hb). lia.
        * rewrite Hat6. apply elem_of_app. right. now left.
        * intros b. rewrite Hat6, Hn6, elem_of_app, list_elem_of_singleton.
          intros [Hb| ->].
          -- destruct (Hkept2 b Hb) as (vb & Hvb & Heq). exists vb. split.
             ++ now apply nameIn_more.
             ++ rewrite Heq. rewrite bool_decide_eq_false_2 by discriminate.
                rewrite bool_decide_eq_false_2; [reflexivity|].
                intros [= ->]. specialize (Hvalid b Hb). lia.
          -- exists qn. split.
             ++ unfold nameIn. rewrite Ha3. cbn [_name createdNode].
                unfold st3. cbn [qnames]. now rewrite list_lookup_middle.
             ++ unfold qn. rewrite bool_decide_eq_true_2 by reflexivity.
                rewrite Hq. now rewrite bool_decide_eq_true_2.
      + unfold valueIn, st6. now rewrite (lookup_updNode_same _ _ _ _ Ha5). }
  unfold wp in Hwp.
  destruct (setProperty settings xmlName depth this (KName n) true (VString s) st)
    as [st' [[]|e]]; [|contradiction].
  destruct Hwp as (a & Hget & Hval). now exists st', a.
Qed.

Lemma setProperty_then_getProperty_of_an_attribute_witness :
  exists st' a,
    setProperty initialSettings (fun _ => true) 1 1
      (KName (mkQName (Some (mkNamespace (Some []) [])) (lit "b") 1)) true
      (VString (lit "2")) sampleStore = (st', OK tt) /\
    getProperty 1 (KName (mkQName (Some (mkNamespace (Some []) [])) (lit "b") 1))
      true st' =
      (st', OK (PList (mkList [Some a] (Some 1)
                        (Some (mkQName (Some (mkNamespace (Some []) [])) (lit "b") 1))))) /\
    valueIn st' a = lit "2".
Proof.
  apply (setProperty_then_getProperty_of_an_attribute initialSettings
           (fun _ => true) 1 1
           (mkQName (Some (mkNamespace (Some []) [])) (lit "b") 1) []
           (lit "2") sampleStore
           (mkNode Element (Some 1) [] (Some 0) (Some []) (Some [2])
                   (Some [Some 3; Some 4])));
    try reflexivity.
  - intros _. split; [reflexivity|discriminate].
  - apply NoDup_singleton.
  - intros b Hb. apply list_elem_of_singleton in Hb. subst b. vm_compute. eauto.
Defined.

(** ** Escaped text under the scanner *)

(** X23.  The scanner finds no markup in an escaped string: the scan of
    [escapeElementValue s] is one text event that carries [s] itself, and
    no event at all when [s] is empty; it ends without an exception. *)
Theorem scan_of_an_escaped_text settings s :
  parseXml settings (escapeElementValue s) =
  (match s with
   | [] => []
   | _ => [text s false]
   end, None).
Proof.
  assert (Hres : resolveEntities (escapeElementValue s) = OK s).
  { pose proof (resolveEntities_text [] s [] eq_refl eq_refl) as H.
    cbn [app] in H. now rewrite !app_nil_r in H. }
  assert (Habs : absent LT (escapeElementValue s) = true).
  { rewrite escapeElementValue_each. apply absent_replaceEach. intros x.
    apply absent_elementReplacement. reflexivity. }
  destruct (escapeElementValue s) as [|c run] eqn:He.
  { injection Hres as <-. reflexivity. }
  assert (Hs : s <> []).
  { intros ->. rewrite escapeElementValue_each in He. discriminate He. }
  cbn [absent forallb] in Habs. apply andb_true_iff in Habs as [Hc Hrun].
  apply negb_true_iff in Hc.
  assert (Hstep : parseStep (c :: run) 0 [rootScope settings] =
                  OK (text s false, length (c :: run) + 1, [rootScope settings])).
  { unfold parseStep. rewrite (charIs_here (c :: run) 0 c run LT eq_refl).
    rewrite bool_decide_eq_false_2.
    2:{ intros ->. now rewrite Ascii.eqb_refl in Hc. }
    assert (Hnext : scanTo (fun ch => Ascii.eqb ch LT) (c :: run) (0 + 1) =
                    0 + 1 + length run).
    { apply (scanTo_run _ (c :: run) (0 + 1) run []);
        [cbn; now rewrite drop_0, app_nil_r|exact Hrun|exact I]. }
    rewrite Hnext. cbn [Nat.add length].
    rewrite (proj2 (Nat.ltb_ge _ _)) by lia.
    rewrite substring_take by lia.
    rewrite drop_0, take_ge by (cbn [length]; lia).
    rewrite Hres. reflexivity. }
  unfold parseXml. cbn [length parseLoop]. cbn [length] in Hstep.
  replace (0 <? S (length run)) with true by (symmetry; apply Nat.ltb_lt; lia).
  rewrite Hstep.
  assert (Hend : forall fuel,
            parseLoop fuel (c :: run) (S (length run) + 1) [rootScope settings] =
            ([], None)).
  { intros fuel. destruct fuel; cbn [parseLoop length];
      now rewrite (proj2 (Nat.ltb_ge _ _)) by lia. }
  rewrite Hend. now destruct s.
Qed.

(** ** Descendants *)

Lemma selectNamed_any name l :
  hasFlag (qn_flags name) ANY_NAME = true -> selectNamed name l = OK l.
Proof.
  intros Hany. induction l as [|v l IH]; [reflexivity|].
  cbn [selectNamed]. unfold named. rewrite Hany, IH. reflexivity.
Qed.

Lemma below_element name value inScope attrs children :
  below (mkXML Element name value inScope attrs children) =
  concat (map (fun c => c :: below c) children).
Proof.
  cbn [below]. rewrite bool_decide_eq_true_2 by reflexivity.
  induction children as [|c l IH]; [reflexivity|].
  cbn [map concat app]. now rewrite IH.
Qed.

(** X24.  [descendants] with a wildcard for a name of elements lists the
    nodes below an element, each as often as it is there, but not in
    document order: the children come first, then what is below the first
    child, and so on.  On a node that is no element the list is empty. *)
Theorem descendants_lists_the_nodes_below name t :
  hasFlag (qn_flags name) ANY_NAME = true ->
  hasFlag (qn_flags name) ATTR_NAME = false ->
  exists l,
    descendants name t = OK l /\
    l ≡ₚ below t /\
    (t_kind t = Element -> take (length (t_children t)) l = t_children t) /\
    (t_kind t <> Element -> l = []).
Proof.
  intros Hany Hattr.
  assert (Hinto : forall t xl,
            exists l, descendantsInto name t xl = OK (xl ++ l) /\
                      l ≡ₚ below t /\
                      (t_kind t = Element ->
                       take (length (t_children t)) l = t_children t) /\
                      (t_kind t <> Element -> l = [])).
  { clear t. intros t.
    induction t as [kind name' value inScope attrs children _ IHc]
      using XMLTree_induction.
    intros xl. cbn [descendantsInto t_kind t_children].
    destruct (decide (kind = Element)) as [->|Hkind].
    2:{ rewrite bool_decide_eq_false_2 by assumption. cbn [negb].
        exists []. rewrite app_nil_r. split; [reflexivity|].
        split; [|split; [contradiction|reflexivity]].
        cbn [below]. now rewrite bool_decide_eq_false_2. }
    rewrite bool_decide_eq_true_2 by reflexivity. cbn [negb].
    rewrite Hattr, (selectNamed_any name children Hany). cbn [mbind result_bind].
    rewrite below_element.
    assert (Hdescend : forall done,
      exists rest,
        (fix descend (l xl0 : list XMLTree) {struct l} : result (list XMLTree) :=
           match l with
           | [] => OK xl0
           | v :: rest => xl' ← descendantsInto name v xl0; descend rest xl'
           end) children (xl ++ done) = OK (xl ++ done ++ rest) /\
        rest ≡ₚ concat (map below children)).
    { induction IHc as [|c l Hc _ IH]; intros done.
      - exists []. now rewrite app_nil_r.
      - destruct (Hc (xl ++ done)) as (lc & Hrun & Hperm & _).
        rewrite Hrun. cbn [mbind result_bind].
        destruct (IH (done ++ lc)) as (rest & Hrest & Hperm').
        exists (lc ++ rest). split.
        + rewrite <- !app_assoc in *. exact Hrest.
        + cbn [map concat]. now rewrite Hperm, Hperm'. }
    destruct (Hdescend children) as (rest & Hrun & Hperm).
    exists (children ++ rest). split; [exact Hrun|]. split; [|split].
    - rewrite Hperm. clear. induction children as [|c l IH]; [reflexivity|].
      cbn [map concat app]. constructor.
      rewrite <- IH. rewrite !app_assoc. apply Permutation_app_tail.
      apply Permutation_app_comm.
    - intros _. now rewrite take_app_length.
    - intros H. now contradiction H. }
  destruct (Hinto t []) as (l & Hrun & Hrest). now exists l.
Qed.

Lemma descendants_lists_the_nodes_below_witness :
  exists l,
    descendants (mkQName None (lit "*") 12) sampleTree = OK l /\
    l ≡ₚ below sampleTree /\
    (t_kind sampleTree = Element ->
     take (length (t_children sampleTree)) l = t_children sampleTree) /\
    (t_kind sampleTree <> Element -> l = []).
Proof.
  apply (descendants_lists_the_nodes_below (mkQName None (lit "*") 12) sampleTree);
    reflexivity.
Defined.

(** ** Equality and the attributes *)

(** X25.  [_deepEquals] of two elements looks for a partner of every
    attribute of the one among the attributes of the other, and at the
    numbers of the attributes; the order of the attributes, the in-scope
    namespaces and the values of the two elements play no part.  So two
    elements with the same name and the same children are equal when the
    attributes of the one are those of the other in any order. *)
Theorem deepEquals_ignores_the_order_of_attributes
    settings name value value' inScope inScope' attrs attrs' children :
  Forall (fun a => t_name a <> None) attrs' ->
  Forall (fun c => plain c = true) children ->
  length attrs = length attrs' -> attrs ⊆ attrs' ->
  _deepEquals settings (mkXML Element name value inScope attrs children)
                       (mkXML Element name value' inScope' attrs' children) =
  OK true.
Proof.
  intros Hnames Hplain Hlen Hsub. unfold _deepEquals, deepEqualsWith.
  cbn [t_kind t_attributes t_children isKind].
  rewrite bool_decide_eq_true_2 by reflexivity. cbn [negb].
  assert (Hn : namesDiffer (mkXML Element name value inScope attrs children)
                           (mkXML Element name value' inScope' attrs' children)
               = false).
  { unfold namesDiffer. cbn [t_name]. destruct name; [|reflexivity].
    now rewrite qname_equals_refl. }
  rewrite Hn, Hlen, !Nat.eqb_refl.
  replace (isKind Element (mkXML Element name value inScope attrs children))
    with true by reflexivity.
  cbn [negb].
  rewrite (attributesMatch_self attrs attrs' Hnames Hsub).
  cbn [mbind result_bind negb]. apply childrenEqual_self.
  eapply list.Forall_impl; [exact Hplain|]. intros c Hc. now apply equals_refl.
Qed.

Lemma deepEquals_ignores_the_order_of_attributes_witness :
  _deepEquals initialSettings
    (mkXML Element None [] []
           [attributeOf initialSettings (lit "a", lit "1");
            attributeOf initialSettings (lit "b", lit "2")] [])
    (mkXML Element None [] []
           [attributeOf initialSettings (lit "b", lit "2");
            attributeOf initialSettings (lit "a", lit "1")] []) =
  OK true.
Proof.
  apply deepEquals_ignores_the_order_of_attributes.
  - repeat (apply List.Forall_cons; [discriminate|]). apply List.Forall_nil.
  - apply List.Forall_nil.
  - reflexivity.
  - intros a. rewrite !elem_of_cons. tauto.
Defined.

(** ** [[Get]] by name *)

Lemma filterM_selects {A} (f : A -> M bool) :
  (forall a, readOnly (f a)) ->
  forall l st st' sel,
    filterM f l st = (st', OK sel) ->
    st' = st /\ sel `sublist_of` l /\
    forall a, a ∈ l -> (a ∈ sel <-> f a st = (st, OK true)).
Proof.
  intros Hro. induction l as [|a l IH]; intros st st' sel; cbn [filterM].
  - intros [= <- <-]. split; [reflexivity|]. split; [constructor|].
    intros a Ha. now apply elem_of_nil in Ha.
  - rewrite !bind_run. pose proof (Hro a st) as Ha.
    destruct (f a st) as [st1 [b|e]] eqn:Hfa; [|discriminate].
    cbn in Ha. subst st1. rewrite bind_run.
    destruct (filterM f l st) as [st2 [rest|e]] eqn:Hrest; [|discriminate].
    destruct (IH _ _ _ Hrest) as (-> & Hsub & Hiff).
    intros [= <- <-]. split; [reflexivity|]. split.
    + destruct b; [now constructor|now apply sublist_cons].
    + intros c Hc.
      assert (Hin : forall c, c ∈ rest -> f c st = (st, OK true)).
      { intros c' Hc'. apply Hiff; [|assumption]. eapply elem_of_sublist; eauto. }
      destruct b.
      * split.
        -- intros H. apply elem_of_cons in H as [->|H]; [assumption|now apply Hin].
        -- intros H. apply elem_of_cons in Hc as [->|Hc]; [now left|].
           right. now apply Hiff.
      * split; [apply Hin|].
        intros H. apply elem_of_cons in Hc as [->|Hc].
        -- rewrite Hfa in H. discriminate.
        -- now apply Hiff.
Qed.

(** X26.  [getProperty] of a name of elements gives the list of the
    children that pass its test, in their order: a child is in the list
    exactly when it is an element with the local name and the uri of the
    name, wildcards apart.  The list has the node as its target object and
    the name as its target property, and the store is left as it was. *)
Theorem getProperty_selects_the_named_children this name st st' pr (x : ASXML) cs :
  nodes st !! this = Some x -> _children x = Some cs ->
  hasFlag (qn_flags name) ATTR_NAME = false ->
  getProperty this (KName name) false st = (st', OK pr) ->
  st' = st /\
  exists l,
    pr = PList l /\
    _targetObject l = Some this /\ _targetProperty l = Some name /\
    l_children l `sublist_of` cs /\
    forall v, v ∈ cs ->
      (v ∈ l_children l <->
       match v with
       | Some r =>
         hasFlag (qn_flags name) ANY_NAME && hasFlag (qn_flags name) ANY_NAMESPACE
           = true \/
         exists n vn,
           nodes st !! r = Some n /\ _kind n = Element /\
           nameIn st r = Some vn /\
           (hasFlag (qn_flags name) ANY_NAME = true \/
            localName vn = localName name) /\
           (hasFlag (qn_flags name) ANY_NAMESPACE = true \/
            qn_uri vn = qn_uri name)
       | None => True
       end).
Proof.
  intros Hx Hcs Hattr. unfold getProperty.
  rewrite bind_run, (getNode_run _ _ _ Hx), Hattr, Hcs. cbn [orb].
  rewrite bind_run.
  destruct (filterM (childSelected name) cs st) as [st1 [sel|e]] eqn:Hsel;
    [|discriminate].
  destruct (filterM_selects _ (readOnly_childSelected name) _ _ _ _ Hsel)
    as (-> & Hsub & Hiff).
  intros [= <- <-]. split; [reflexivity|].
  eexists. split; [reflexivity|]. split; [reflexivity|]. split; [reflexivity|].
  split; [exact Hsub|]. cbn [l_children].
  intros v Hv. rewrite (Hiff v Hv). unfold childSelected.
  destruct (hasFlag (qn_flags name) ANY_NAME && hasFlag (qn_flags name) ANY_NAMESPACE)
    eqn:Hboth.
  { destruct v; split; auto. }
  destruct v as [r|].
  2:{ split; [discriminate|]. intros _.
      (* an empty entry makes the whole test throw *)
      exfalso. clear Hiff.
      assert (Hthrow : forall l st0 st1 sel0,
                None ∈ l -> filterM (childSelected name) l st0 <> (st1, OK sel0)).
      { induction l as [|a l IH]; intros st0 st2 sel0 Hin;
          [now apply elem_of_nil in Hin|].
        cbn [filterM]. rewrite bind_run.
        apply elem_of_cons in Hin as [<-|Hin].
        - unfold childSelected at 1. rewrite Hboth. discriminate.
        - pose proof (readOnly_childSelected name a st0) as Hro.
          destruct (childSelected name a st0) as [st3 [b|e]]; [|discriminate].
          cbn in Hro. subst st3. rewrite bind_run.
          destruct (filterM (childSelected name) l st0) as [st3 [r|e]] eqn:Hl;
            [|discriminate].
          exfalso. now apply (IH st0 st3 r Hin). }
      now apply (Hthrow cs st st sel Hv). }
  rewrite bind_run. unfold getNode, nameIn.
  destruct (nodes st !! r) as [n|] eqn:Hn.
  2:{ split; [discriminate|]. intros [H|(n & vn & H & _)]; discriminate. }
  destruct (decide (_kind n = Element)) as [Hk|Hk].
  2:{ rewrite bool_decide_eq_false_2 by assumption. cbn [negb].
      split; [discriminate|].
      intros [H|(n' & vn & [= <-] & Hk' & _)]; [discriminate|contradiction]. }
  rewrite bool_decide_eq_true_2 by assumption. cbn [negb].
  rewrite bind_run. unfold nameOf, getQName.
  destruct (_name n) as [q|].
  2:{ split; [discriminate|].
      intros [H|(n' & vn & [= <-] & _ & H & _)]; discriminate. }
  destruct (qnames st !! q) as [vn|].
  2:{ split; [discriminate|].
      intros [H|(n' & vn & [= <-] & _ & H & _)]; discriminate. }
  unfold mret, M_ret, jsstring_eqb. split.
  - intros [= Htest]. right. exists n, vn. split; [reflexivity|].
    split; [assumption|]. split; [reflexivity|].
    apply andb_true_iff in Htest as [H1 H2].
    apply orb_true_iff in H1. apply orb_true_iff in H2.
    rewrite !bool_decide_eq_true in *. tauto.
  - intros [H|(n' & vn' & [= <-] & _ & [= <-] & H1 & H2)]; [discriminate|].
    do 2 f_equal. apply andb_true_iff. rewrite !orb_true_iff.
    rewrite !bool_decide_eq_true. tauto.
Qed.

Lemma getProperty_selects_the_named_children_witness :
  sampleStore = sampleStore /\
  exists l,
    PList (mkList [Some 4] (Some 1)
             (Some (mkQName (Some (mkNamespace (Some []) [])) (lit "c") 2))) =
      PList l /\
    _targetObject l = Some 1 /\
    _targetProperty l =
      Some (mkQName (Some (mkNamespace (Some []) [])) (lit "c") 2) /\
    l_children l `sublist_of` [Some 3; Some 4] /\
    forall v, v ∈ [Some 3; Some 4] ->
      (v ∈ l_children l <->
       match v with
       | Some r =>
         hasFlag 2 ANY_NAME && hasFlag 2 ANY_NAMESPACE = true \/
         exists n vn,
           nodes sampleStore !! r = Some n /\ _kind n = Element /\
           nameIn sampleStore r = Some vn /\
           (hasFlag 2 ANY_NAME = true \/ localName vn = lit "c") /\
           (hasFlag 2 ANY_NAMESPACE = true \/ qn_uri vn = Some [])
       | None => True
       end).
Proof.
  apply (getProperty_selects_the_named_children 1
           (mkQName (Some (mkNamespace (Some []) [])) (lit "c") 2)
           sampleStore sampleStore _
           (mkNode Element (Some 1) [] (Some 0) (Some []) (Some [2])
                   (Some [Some 3; Some 4]))
           [Some 3; Some 4]); reflexivity.
Defined.

(** ** Equality with a text *)

(** X27.  A text or an attribute and an element without element children
    are [equals] exactly when the value of the one is the string of the
    other, which is the values of its text children one after the other;
    names, attributes and namespaces play no part, and neither does the
    side the text is on. *)
Theorem equals_compares_a_text_with_the_string
    settings (leaf : XMLTree) name value inScope attrs children :
  t_kind leaf = Text \/ t_kind leaf = Attribute ->
  Forall (fun c => t_kind c = Text \/ t_kind c = Comment \/
                   t_kind c = ProcessingInstruction) children ->
  let element := mkXML Element name value inScope attrs children in
  let string := concat (map t_value (List.filter (isKind Text) children)) in
  equals settings leaf element = OK (jsstring_eqb (t_value leaf) string) /\
  equals settings element leaf = OK (jsstring_eqb string (t_value leaf)).
Proof.
  intros Hleaf Hall element string.
  assert (Hsimple : hasSimpleContent element = true).
  { unfold hasSimpleContent, element. cbn [t_kind t_children].
    rewrite forallb_forall. intros c Hin.
    rewrite list.Forall_forall in Hall.
    apply list_elem_of_In in Hin.
    unfold isKind. destruct (Hall c Hin) as [->|[->| ->]]; reflexivity. }
  assert (Hcomplex : hasComplexContent element = false).
  { unfold hasSimpleContent in Hsimple. unfold hasComplexContent.
    unfold element in *. cbn [t_kind t_children] in *.
    rewrite forallb_negb_existsb in Hsimple.
    now apply negb_true_iff in Hsimple. }
  assert (Hstring : ASXML_toString settings element = OK string).
  { unfold ASXML_toString. rewrite Hcomplex. unfold element at 1.
    cbn [toString]. fold element. rewrite Hsimple.
    apply (toString_children settings children [] Hall). }
  assert (Hvalue : ASXML_toString settings leaf = OK (t_value leaf)).
  { unfold ASXML_toString, hasComplexContent.
    destruct leaf as [kind lname lvalue lscope lattrs lchildren].
    cbn [t_kind t_value] in *. now destruct Hleaf as [-> | ->]. }
  assert (Hkind : isTextOrAttribute leaf = true).
  { unfold isTextOrAttribute, isKind.
    destruct Hleaf as [-> | ->]; reflexivity. }
  split; rewrite equals_unfold, Hkind, Hsimple; cbn [andb orb].
  - now rewrite Hvalue, Hstring.
  - rewrite orb_true_r. now rewrite Hstring, Hvalue.
Qed.

Lemma equals_compares_a_text_with_the_string_witness :
  equals initialSettings (mkXML Text None (lit "ab") [] [] [])
    (mkXML Element None [] [] []
           [mkXML Text None (lit "a") [] [] [];
            mkXML Comment None (lit "no") [] [] [];
            mkXML Text None (lit "b") [] [] []]) =
    OK (jsstring_eqb (lit "ab") (lit "ab")) /\
  equals initialSettings
    (mkXML Element None [] [] []
           [mkXML Text None (lit "a") [] [] [];
            mkXML Comment None (lit "no") [] [] [];
            mkXML Text None (lit "b") [] [] []])
    (mkXML Text None (lit "ab") [] [] []) =
    OK (jsstring_eqb (lit "ab") (lit "ab")).
Proof.
  apply (equals_compares_a_text_with_the_string initialSettings
           (mkXML Text None (lit "ab") [] [] []) None [] [] []
           [mkXML Text None (lit "a") [] [] [];
            mkXML Comment None (lit "no") [] [] [];
            mkXML Text None (lit "b") [] [] []]).
  - now left.
  - repeat (apply List.Forall_cons; [cbn; auto|]). apply List.Forall_nil.
Defined.

(** ** The node [toXML] returns *)

(** X28.  [toXML] of a string that returns, returns a node: a new one,
    none of those that were in the store, and without a parent. *)
Theorem toXML_of_a_string_returns_a_new_root settings s st st' v :
  toXML settings (VString s) st = (st', OK v) ->
  exists r : ref,
    v = VXML r /\ length (nodes st) <= r /\ valid st' r /\
    parentIn st' r = None.
Proof.
  cbn [toXML]. unfold toXML_string. rewrite bind_run.
  pose proof (besideOld_parseFromString st settings s st (besideOld_refl st)) as Hp.
  unfold wp in Hp.
  destruct (parseFromString settings s st) as [st1 [[x|]|e]]; try discriminate.
  destruct Hp as [Hst1 Hx]. specialize (Hx x eq_refl).
  rewrite bind_run. unfold getNode.
  destruct (nodes st1 !! x) as [n|] eqn:Hn; [|discriminate].
  assert (Hlen : length (nodes st) <= length (nodes st1)).
  { destruct Hst1 as [[k Hk] _]. rewrite Hk, length_app. lia. }
  assert (Htext : (t ← createXML settings Text [] [] None; mret (VXML t)) st1
                  = (st', OK v) ->
                  exists r : ref,
                    v = VXML r /\ length (nodes st) <= r /\ valid st' r /\
                    parentIn st' r = None).
  { rewrite bind_run, createXML_run. cbn [initNamespace truthy orb].
    intros [= <- <-]. eexists. split; [reflexivity|]. split; [exact Hlen|].
    split.
    - unfold valid. cbn [nodes]. rewrite length_app. cbn. lia.
    - unfold parentIn. cbn [nodes]. now rewrite list_lookup_middle. }
  destruct (_children n) as [[|first [|second rest]]|] eqn:Hcs;
    try exact Htext; [|discriminate].
  rewrite bind_run. unfold elementAt. cbn [lookup list_lookup].
  destruct first as [f|]; [|discriminate].
  unfold mret at 1, M_ret at 1. cbv iota beta.
  rewrite bind_run. unfold modifyNode. rewrite bind_run. unfold getNode.
  destruct (nodes st1 !! f) as [fn|] eqn:Hf; [|discriminate].
  unfold setNode. intros [= <- <-]. exists f. split; [reflexivity|].
  split; [|split].
  - destruct Hst1 as (_ & _ & Hch). apply (Hch x n f); auto.
    rewrite Hcs. cbn. now left.
  - apply valid_updNode, valid_lookup. eauto.
  - unfold parentIn. now rewrite (lookup_updNode_same _ _ _ _ Hf).
Qed.

Lemma toXML_of_a_string_returns_a_new_root_witness :
  exists r : ref,
    VXML 1 = VXML r /\ length (nodes emptyStore) <= r /\
    valid twoTextsParsed r /\ parentIn twoTextsParsed r = None.
Proof.
  apply (toXML_of_a_string_returns_a_new_root initialSettings
           (lit "<a>x<![CDATA[y]]></a>") emptyStore twoTextsParsed (VXML 1)).
  vm_compute. reflexivity.
Defined.

(** ** appendChild and the parent chains *)

(** The way up to a node without a parent passes it at its end only. *)
Lemma ancestor_root st (c : ref) (cn : ASXML) :
  nodes st !! c = Some cn -> _parent cn = None ->
  forall k i (r : ref), ancestor st k r = Some c -> i < k ->
    ancestor st i r <> Some c.
Proof.
  intros Hc Hroot k i r Hk Hi Hpass.
  pose proof (ancestor_add st i (k - i) r) as H.
  replace (i + (k - i)) with k in H by lia. rewrite Hk, Hpass in H.
  destruct (k - i) as [|d] eqn:Hd; [lia|].
  cbn [ancestor] in H. rewrite Hc, Hroot in H. discriminate H.
Qed.

(** The first steps of a chain that passes [v] later are the same after
    the parent of [v] was set. *)
Lemma ancestor_before st st' (v : ref) :
  (forall r : ref, r <> v -> parentIn st' r = parentIn st r) ->
  forall k (r : ref),
    (forall i, i < k -> ancestor st i r <> Some v) ->
    ancestor st' k r = ancestor st k r.
Proof.
  intros Hsame. induction k as [|k IH]; intros r Hnot; [reflexivity|].
  rewrite !ancestor_S. rewrite Hsame.
  2:{ intros ->. apply (Hnot 0); [lia|reflexivity]. }
  destruct (parentIn st r) as [p|] eqn:Hp; [|reflexivity].
  apply IH. intros i Hi Hpass. apply (Hnot (S i)); [lia|].
  now rewrite ancestor_S, Hp.
Qed.

(** X29.  [appendChild] does not look for the child on the way up: a node
    without a parent that is appended to itself, or to a node below it,
    gets that node as its parent, and the parent chain of that node comes
    back to it and never ends. *)
Theorem appendChild_closes_a_cycle this c st (x cn : ASXML) cs k :
  nodes st !! this = Some x -> _children x = Some cs ->
  nodes st !! c = Some cn -> _parent cn = None ->
  ancestor st k this = Some c ->
  exists st',
    appendChild this c st = (st', OK this) /\
    parentIn st' c = Some this /\
    ancestor st' (S k) this = Some this /\
    ~ rooted st' this.
Proof.
  intros Hx Hcs Hc Hroot Hk.
  set (st1 := updNode this (with_children (Some (cs ++ [Some c])) x) st).
  assert (Hc1 : exists c1, nodes st1 !! c = Some c1).
  { unfold st1. rewrite (nodes_updNode _ _ _ _ Hx).
    destruct (decide (c = this)); eauto. }
  destruct Hc1 as [c1 Hc1].
  set (st2 := updNode c (with_parent (Some this) c1) st1).
  assert (Hrun : appendChild this c st = (st2, OK this)).
  { unfold appendChild. rewrite bind_run, (getNode_run _ _ _ Hc), Hroot.
    rewrite bind_run. unfold mret at 1, M_ret at 1. cbv iota beta.
    rewrite bind_run, (getNode_run _ _ _ Hx), bind_run.
    unfold childrenOf. rewrite Hcs. unfold mret at 1, M_ret at 1.
    cbv iota beta. rewrite bind_run. unfold setNode at 1. cbv iota beta.
    fold st1. rewrite bind_run, (modifyNode_run _ _ _ _ Hc1). reflexivity. }
  assert (Hpar : parentIn st2 c = Some this).
  { unfold parentIn, st2. now rewrite (lookup_updNode_same _ _ _ _ Hc1). }
  assert (Hsame : forall r : ref, r <> c -> parentIn st2 r = parentIn st r).
  { intros r Hr. unfold st2. rewrite (parentIn_upd _ _ _ _ _ Hc1).
    rewrite decide_False by assumption.
    unfold st1. now apply (parentIn_same _ _ x). }
  assert (Hup : ancestor st2 k this = Some c).
  { rewrite (ancestor_before st st2 c Hsame); [exact Hk|].
    intros i Hi. now apply (ancestor_root st c cn Hc Hroot k). }
  assert (Hround : ancestor st2 (S k) this = Some this).
  { replace (S k) with (k + 1) by lia. rewrite ancestor_add, Hup.
    now rewrite ancestor_S, Hpar. }
  assert (Hrounds : forall q, ancestor st2 (q * S k) this = Some this).
  { induction q as [|q IH]; [reflexivity|].
    cbn [Nat.mul]. now rewrite ancestor_add, Hround. }
  exists st2. split; [exact Hrun|]. split; [exact Hpar|].
  split; [exact Hround|].
  intros [j Hj].
  pose proof (Nat.div_mod_eq j (S k)) as Hdiv.
  pose proof (Nat.mod_upper_bound j (S k) ltac:(lia)) as Hmod.
  rewrite Hdiv, (Nat.mul_comm (S k)), ancestor_add, Hrounds in Hj.
  pose proof (ancestor_add st2 (j mod S k) (k - j mod S k) this) as H.
  replace (j mod S k + (k - j mod S k)) with k in H by lia.
  rewrite Hup, Hj in H. discriminate H.
Qed.

Lemma appendChild_closes_a_cycle_witness :
  exists st',
    appendChild 4 0 sampleStore = (st', OK 4) /\
    parentIn st' 0 = Some 4 /\
    ancestor st' (S 2) 4 = Some 4 /\
    ~ rooted st' 4.
Proof.
  apply (appendChild_closes_a_cycle 4 0 sampleStore
           (mkNode Element (Some 4) [] (Some 1) (Some []) (Some []) (Some []))
           (mkNode Element (Some 0) [] None (Some []) (Some []) (Some [Some 1]))
           [] 2); reflexivity.
Defined.

(** ** The parser and the parent chains *)

Lemma upward_updNode lo st (r : ref) (n' : ASXML) :
  upward lo st ->
  (forall p : ref, _parent n' = Some p -> lo <= p < r) ->
  upward lo (updNode r n' st).
Proof.
  intros Hup Hn' r' n p Hr' Hlook Hp. unfold updNode in Hlook.
  cbn [nodes] in Hlook.
  apply list_lookup_insert_Some in Hlook as [(<- & <- & _)|[_ Hlook]].
  - now apply Hn'.
  - now apply (Hup r' n p).
Qed.

Lemma upward_modifyNode lo (r : ref) f st :
  upward lo st ->
  (forall n, _parent (f n) = _parent n) ->
  wp (modifyNode r f)
     (fun _ st' => upward lo st' /\ length (nodes st') = length (nodes st))
     (upward lo) st.
Proof.
  intros Hup Hf. rewrite wp_modifyNode.
  destruct (nodes st !! r) as [n|] eqn:Hn; [|assumption].
  split; [|apply length_updNode].
  intros r' n' p Hr' Hlook Hp. unfold updNode in Hlook. cbn [nodes] in Hlook.
  apply list_lookup_insert_Some in Hlook as [(<- & <- & _)|[_ Hlook]].
  - rewrite Hf in Hp. now apply (Hup r n p).
  - now apply (Hup r' n' p).
Qed.

Lemma upward_reparent lo (r parent : ref) f st :
  upward lo st -> lo <= parent < r ->
  (forall n, _parent (f n) = Some parent) ->
  wp (modifyNode r f)
     (fun _ st' => upward lo st' /\ length (nodes st') = length (nodes st))
     (upward lo) st.
Proof.
  intros Hup Hp Hf. rewrite wp_modifyNode.
  destruct (nodes st !! r) as [n|] eqn:Hn; [|assumption].
  split; [|apply length_updNode].
  apply upward_updNode; [assumption|]. intros p. rewrite Hf.
  intros [= <-]. exact Hp.
Qed.

Lemma upward_createXML lo settings kind uri name prefix st :
  upward lo st ->
  wp (createXML settings kind uri name prefix)
     (fun r st' => upward lo st' /\ r = length (nodes st) /\
                   length (nodes st') = S (length (nodes st)))
     (upward lo) st.
Proof.
  intros Hup. unfold wp. rewrite createXML_run.
  assert (Hnew : forall (n' : ASXML) qs,
            _parent n' = None -> upward lo (mkStore (nodes st ++ [n']) qs)).
  { intros n' qs Hn' r n p Hr Hlook Hp. cbn [nodes] in Hlook.
    apply lookup_app_Some in Hlook as [Hlook|[_ Hlook]].
    - now apply (Hup r n p).
    - apply list_lookup_singleton_Some in Hlook as [_ <-]. congruence. }
  destruct (initNamespace uri prefix) as [namespace|e].
  - split; [apply Hnew; now destruct kind|]. split; [reflexivity|].
    cbn [nodes]. rewrite length_app. cbn. lia.
  - unfold addNode. now apply Hnew.
Qed.

Lemma upward_insert lo (parent : ref) p (node : ref) st :
  upward lo st -> lo <= parent < node ->
  wp (insert parent p node)
     (fun _ st' => upward lo st' /\ length (nodes st') = length (nodes st))
     (upward lo) st.
Proof.
  intros Hup Hp. unfold insert. rewrite wp_bind, wp_getNode.
  destruct (nodes st !! parent) as [this|]; [|assumption].
  destruct (isLeafKind (_kind this)); [now rewrite wp_ret|].
  destruct (negb (isUint32 p)); [now rewrite wp_throw|].
  rewrite wp_bind, wp_storeSize, wp_bind.
  apply wp_readOnly; [|intros cyclic|assumption].
  { destruct (bool_decide _); [apply readOnly_onParentChain|apply readOnly_ret]. }
  destruct cyclic; [now rewrite wp_throw|].
  rewrite wp_bind.
  eapply wp_mono;
    [| |apply (upward_reparent lo node parent _ st Hup Hp)]; [|auto|reflexivity].
  intros [] st1 [Hup1 Hlen1]. rewrite wp_bind, wp_getNode.
  destruct (nodes st1 !! parent) as [this1|] eqn:Hthis1; [|assumption].
  rewrite wp_setNode. split; [|now rewrite length_updNode].
  intros r' n' q Hr' Hlook Hq. unfold updNode in Hlook. cbn [nodes] in Hlook.
  apply list_lookup_insert_Some in Hlook as [(<- & <- & _)|[_ Hlook]].
  - now apply (Hup1 parent this1 q).
  - now apply (Hup1 r' n' q).
Qed.

Lemma upward_insertLast lo target (node : ref) st :
  upward lo st ->
  (forall r : ref, target = Some r -> lo <= r < node) ->
  wp (insertLast target node)
     (fun _ st' => upward lo st' /\ length (nodes st') = length (nodes st))
     (upward lo) st.
Proof.
  intros Hup Ht. unfold insertLast.
  destruct target as [parent|]; [|now rewrite wp_throw].
  rewrite wp_bind, wp_getNode.
  destruct (nodes st !! parent); [|assumption].
  apply upward_insert; auto.
Qed.

Lemma upward_addAttributes lo settings (element : ref) : forall attrs st,
  upward lo st -> lo <= element < length (nodes st) ->
  wp (addAttributes settings element attrs)
     (fun _ st' => upward lo st' /\ length (nodes st) <= length (nodes st'))
     (upward lo) st.
Proof.
  induction attrs as [|[name value] attrs IH]; intros st Hup He;
    cbn [addAttributes]; [now rewrite wp_ret|].
  rewrite wp_bind. unfold createNode.
  eapply wp_mono; [| |apply upward_createXML; exact Hup]; [|auto].
  intros attr st1 (Hup1 & -> & Hlen1). rewrite wp_bind.
  eapply wp_mono;
    [| |apply (upward_reparent lo (length (nodes st)) element _ st1 Hup1 He)];
    [|auto|reflexivity].
  intros [] st2 [Hup2 Hlen2]. rewrite wp_bind, wp_getNode.
  destruct (nodes st2 !! element) as [e|] eqn:Helem; [|assumption].
  rewrite wp_bind. unfold attributesOf.
  destruct (_attributes e) as [l|]; [rewrite wp_ret|now rewrite wp_throw].
  rewrite wp_bind, wp_setNode.
  eapply wp_mono; [| |apply IH].
  - intros [] st3 [Hup3 Hlen3]. split; [assumption|].
    rewrite length_updNode in Hlen3. lia.
  - auto.
  - intros r' n' q Hr' Hlook Hq. unfold updNode in Hlook. cbn [nodes] in Hlook.
    apply list_lookup_insert_Some in Hlook as [(<- & <- & _)|[_ Hlook]].
    + now apply (Hup2 element e q).
    + now apply (Hup2 r' n' q).
  - rewrite length_updNode. lia.
Qed.

Lemma upward_addNamespaces lo (element : ref) : forall namespaces st,
  upward lo st ->
  wp (addNamespaces element namespaces)
     (fun _ st' => upward lo st' /\ length (nodes st') = length (nodes st))
     (upward lo) st.
Proof.
  induction namespaces as [|rawNs namespaces IH]; intros st Hup;
    cbn [addNamespaces]; [now rewrite wp_ret|].
  rewrite wp_bind, wp_lift.
  destruct (newNamespace _ _) as [ns|e]; [|assumption].
  rewrite wp_bind, wp_getNode.
  destruct (nodes st !! element) as [e|] eqn:Helem; [|assumption].
  rewrite wp_bind.
  destruct (_inScopeNamespaces e) as [l|]; [|now rewrite wp_throw].
  rewrite wp_setNode.
  eapply wp_mono; [| |apply IH].
  - intros [] st3 [Hup3 Hlen3]. split; [assumption|].
    now rewrite length_updNode in Hlen3.
  - auto.
  - intros r' n' q Hr' Hlook Hq. unfold updNode in Hlook. cbn [nodes] in Hlook.
    apply list_lookup_insert_Some in Hlook as [(<- & <- & _)|[_ Hlook]].
    + now apply (Hup element e q).
    + now apply (Hup r' n' q).
Qed.

Lemma builderWithin_pop lo st b : builderWithin lo st b -> builderWithin lo st (pop b).
Proof.
  intros Hb r. unfold pop.
  destruct (elementsStack b) as [|top rest] eqn:Hs; cbn.
  - intros [H|H]; [discriminate|now apply elem_of_nil in H].
  - intros [->|H]; apply Hb; right; rewrite Hs; [now left|now right].
Qed.

Lemma builderWithin_later lo st st' b :
  length (nodes st) <= length (nodes st') ->
  builderWithin lo st b -> builderWithin lo st' b.
Proof. intros Hlen Hb r Hr. specialize (Hb r Hr). lia. Qed.

Lemma upward_sink lo settings b ev st :
  upward lo st -> builderWithin lo st b -> lo <= length (nodes st) ->
  wp (sink settings b ev)
     (fun b' st' => upward lo st' /\ builderWithin lo st' b' /\
                    length (nodes st) <= length (nodes st'))
     (upward lo) st.
Proof.
  intros Hup Hb Hlo.
  assert (Hleaf : forall kind name value,
    wp (node ← createNode settings kind [] name None;
        modifyNode node (with_value value);;
        insertLast (currentElement b) node;;
        mret b)
       (fun b' st' => upward lo st' /\ builderWithin lo st' b' /\
                      length (nodes st) <= length (nodes st'))
       (upward lo) st).
  { intros kind name value. rewrite wp_bind. unfold createNode.
    eapply wp_mono; [| |apply upward_createXML; exact Hup]; [|auto].
    intros node st1 (Hup1 & -> & Hlen1). rewrite wp_bind.
    eapply wp_mono; [| |apply (upward_modifyNode lo _ _ st1 Hup1)];
      [|auto|reflexivity].
    intros [] st2 [Hup2 Hlen2]. rewrite wp_bind.
    eapply wp_mono; [| |apply (upward_insertLast lo _ (length (nodes st)) st2 Hup2)].
    - intros [] st3 [Hup3 Hlen3]. rewrite wp_ret. split; [assumption|].
      split; [|lia]. apply (builderWithin_later lo st); [lia|assumption].
    - auto.
    - intros r Hr. apply Hb. now left. }
  destruct ev as [name attrs namespaces isEmpty|name|t ws|t|t|name value|t];
    cbn [sink].
  - rewrite wp_bind. unfold createNode.
    eapply wp_mono; [| |apply upward_createXML; exact Hup]; [|auto].
    intros element st1 (Hup1 & -> & Hlen1). rewrite wp_bind.
    eapply wp_mono;
      [| |apply (upward_addAttributes lo settings (length (nodes st)) attrs st1 Hup1)];
      [|auto|lia].
    intros [] st2 [Hup2 Hlen2]. rewrite wp_bind.
    eapply wp_mono;
      [| |apply (upward_addNamespaces lo (length (nodes st)) namespaces st2 Hup2)];
      [|auto].
    intros [] st3 [Hup3 Hlen3]. rewrite wp_bind.
    eapply wp_mono;
      [| |apply (upward_insertLast lo (currentElement b) (length (nodes st)) st3 Hup3)].
    + intros [] st4 [Hup4 Hlen4]. rewrite wp_ret. split; [assumption|].
      split; [|lia].
      assert (Hnew : builderWithin lo st4
                (mkBuilder (Some (length (nodes st)))
                           (currentElement b :: elementsStack b))).
      { intros r. cbn. intros [[= <-]|Hin]; [lia|].
        assert (Hold : lo <= r < length (nodes st)).
        { apply elem_of_cons in Hin as [Heq|Hin]; apply Hb; [now left|now right]. }
        lia. }
      destruct isEmpty; [now apply builderWithin_pop|assumption].
    + auto.
    + intros r Hr. apply Hb. now left.
  - rewrite wp_ret. split; [assumption|].
    split; [now apply builderWithin_pop|lia].
  - destruct (_ || _); [now rewrite wp_ret|]. apply Hleaf.
  - apply Hleaf.
  - destruct (ignoreComments settings); [now rewrite wp_ret|]. apply Hleaf.
  - destruct (ignoreProcessingInstructions settings); [now rewrite wp_ret|].
    apply Hleaf.
  - now rewrite wp_ret.
Qed.

Lemma upward_feed lo settings : forall events b st,
  upward lo st -> builderWithin lo st b -> lo <= length (nodes st) ->
  wp (feed settings b events)
     (fun b' st' => upward lo st' /\ builderWithin lo st' b')
     (upward lo) st.
Proof.
  induction events as [|ev events IH]; intros b st Hup Hb Hlo; cbn [feed].
  - now rewrite wp_ret.
  - rewrite wp_bind.
    eapply wp_mono; [| |apply (upward_sink lo settings b ev st Hup Hb Hlo)];
      [|auto].
    intros b' st' (Hup' & Hb' & Hlen). apply IH; auto. lia.
Qed.

Lemma upward_parseFromString settings s st :
  wp (parseFromString settings s)
     (fun _ => upward (length (nodes st))) (upward (length (nodes st))) st.
Proof.
  assert (Hup : upward (length (nodes st)) st).
  { intros r n p Hr Hn. apply lookup_lt_Some in Hn. lia. }
  unfold parseFromString. rewrite wp_bind.
  eapply wp_mono; [| |apply upward_createXML; exact Hup]; [|auto].
  intros placeholder st1 (Hup1 & -> & Hlen1).
  destruct (parseXml settings s) as [events err]. rewrite wp_bind.
  eapply wp_mono;
    [| |apply (upward_feed (length (nodes st)) settings events
                 (mkBuilder (Some (length (nodes st))) []) st1 Hup1)]; [|auto| |lia].
  - intros b st2 [Hup2 Hb]. destruct err; [now rewrite wp_throw|].
    now rewrite wp_ret.
  - intros r. cbn. intros [[= <-]|Hin]; [lia|now apply elem_of_nil in Hin].
Qed.

Lemma parentIn_node st (r p : ref) :
  parentIn st r = Some p ->
  exists n, nodes st !! r = Some n /\ _parent n = Some p.
Proof.
  unfold parentIn. destruct (nodes st !! r) as [n|]; [|discriminate].
  intros H. now exists n.
Qed.

(** From [upward] and the old nodes to chains that end. *)
Lemma rooted_beside st st' :
  besideOld st st' -> upward (length (nodes st)) st' ->
  (forall r, rooted st r) -> forall r, rooted st' r.
Proof.
  intros ((k & Hk) & _ & _) Hup Hall.
  assert (Hnew : forall r : ref, length (nodes st) <= r -> rooted st' r).
  { induction r as [r IH] using lt_wf_ind. intros Hr.
    destruct (parentIn st' r) as [p|] eqn:Hp.
    - assert (Hlt : length (nodes st) <= p < r).
      { destruct (parentIn_node _ _ _ Hp) as (n & Hn & Hpn).
        now apply (Hup r n p). }
      destruct (IH p (proj2 Hlt) (proj1 Hlt)) as [j Hj]. exists (S j).
      now rewrite ancestor_S, Hp.
    - exists 1. now rewrite ancestor_S, Hp. }
  assert (Hold : forall j (r : ref), ancestor st j r = None -> rooted st' r).
  { induction j as [|j IH]; intros r Hr; [discriminate|].
    destruct (le_lt_dec (length (nodes st)) r) as [Hge|Hlt]; [now apply Hnew|].
    rewrite ancestor_S in Hr.
    assert (Hsame : parentIn st' r = parentIn st r).
    { unfold parentIn. rewrite Hk. now rewrite lookup_app_l. }
    destruct (parentIn st r) as [p|] eqn:Hp.
    - destruct (IH p Hr) as [i Hi]. exists (S i).
      now rewrite ancestor_S, Hsame.
    - exists 1. now rewrite ancestor_S, Hsame. }
  intros r. destruct (Hall r) as [j Hj]. now apply (Hold j).
Qed.

(** X30.  The parser closes no parent chain into a cycle: in a store in
    which the way up from every node ends, it ends from every node after
    [parseFromString], and after [toXML] of any value, however they
    ended. *)
Theorem parsing_keeps_the_chains_ending settings st :
  (forall r, rooted st r) ->
  (forall s r, rooted (fst (parseFromString settings s st)) r) /\
  (forall v r, rooted (fst (toXML settings v st)) r).
Proof.
  intros Hall.
  assert (Hout : forall {A} (m : M A),
            wp m (fun _ => besideOld st) (besideOld st) st ->
            wp m (fun _ => upward (length (nodes st)))
                 (upward (length (nodes st))) st ->
            forall r, rooted (fst (m st)) r).
  { intros A m H1 H2. pose proof (wp_conj _ _ _ _ _ _ H1 H2) as H.
    unfold wp in H. destruct (m st) as [st' [a|e]]; cbn [fst];
      destruct H as [Hb Hup]; now apply (rooted_beside st). }
  assert (Hparse : forall s,
            wp (parseFromString settings s) (fun _ => besideOld st)
               (besideOld st) st).
  { intros s. eapply wp_mono;
      [| |apply (besideOld_parseFromString st settings s st (besideOld_refl st))];
      [|auto].
    now intros x st' [H _]. }
  split; [intros s; apply Hout; [apply Hparse|apply upward_parseFromString]|].
  assert (Hstring : forall s r, rooted (fst (toXML_string settings s st)) r).
  { intros s. apply Hout.
    - unfold toXML_string. rewrite wp_bind.
      eapply wp_mono;
        [| |apply (besideOld_parseFromString st settings s st (besideOld_refl st))];
        [|auto].
      intros [x|] st1 [Hst1 Hx]; [|now rewrite wp_throw].
      specialize (Hx x eq_refl). rewrite wp_bind, wp_getNode.
      destruct (nodes st1 !! x) as [n|] eqn:Hn; [|assumption].
      assert (Htext : wp (t ← createXML settings Text [] [] None; mret (VXML t))
                         (fun _ => besideOld st) (besideOld st) st1).
      { rewrite wp_bind.
        eapply wp_mono; [| |apply besideOld_createXML; exact Hst1]; [|auto].
        intros t st2 [Hst2 _]. now rewrite wp_ret. }
      destruct (_children n) as [[|first [|second rest]]|] eqn:Hcs;
        try exact Htext; [|now rewrite wp_throw].
      rewrite wp_bind. unfold elementAt. cbn [lookup list_lookup].
      destruct first as [f|]; [rewrite wp_ret|now rewrite wp_throw].
      rewrite wp_bind.
      assert (Hf : length (nodes st) <= f).
      { destruct Hst1 as (_ & _ & Hch). apply (Hch x n f); auto.
        rewrite Hcs. cbn. now left. }
      eapply wp_mono; [| |apply (besideOld_modifyNode st f _ st1 Hst1 Hf)];
        [|auto|reflexivity].
      intros [] st2 Hst2. now rewrite wp_ret.
    - unfold toXML_string. rewrite wp_bind.
      eapply wp_mono; [| |apply upward_parseFromString]; [|auto].
      intros [x|] st1 Hup1; [|now rewrite wp_throw].
      rewrite wp_bind, wp_getNode.
      destruct (nodes st1 !! x) as [n|] eqn:Hn; [|assumption].
      assert (Htext : wp (t ← createXML settings Text [] [] None; mret (VXML t))
                         (fun _ => upward (length (nodes st)))
                         (upward (length (nodes st))) st1).
      { rewrite wp_bind.
        eapply wp_mono; [| |apply upward_createXML; exact Hup1]; [|auto].
        intros t st2 (Hup2 & _). now rewrite wp_ret. }
      destruct (_children n) as [[|first [|second rest]]|] eqn:Hcs;
        try exact Htext; [|now rewrite wp_throw].
      rewrite wp_bind. unfold elementAt. cbn [lookup list_lookup].
      destruct first as [f|]; [rewrite wp_ret|now rewrite wp_throw].
      rewrite wp_bind, wp_modifyNode.
      destruct (nodes st1 !! f) as [fn|] eqn:Hf; [|assumption].
      rewrite wp_ret. apply upward_updNode; [assumption|]. discriminate. }
  intros v. destruct v as [| |z|s|r0|l]; cbn [toXML fst]; try exact Hall.
  - apply Hstring.
  - apply Hstring.
  - destruct (l_children l) as [|[r0|] [|c rest]]; cbn [fst]; exact Hall.
Qed.

Lemma parsing_keeps_the_chains_ending_witness :
  rooted (fst (parseFromString initialSettings (lit "<a><b/></a>") twoTrees)) 7 /\
  rooted (fst (toXML initialSettings (VString (lit "<a><b/></a>")) twoTrees)) 7.
Proof.
  destruct (parsing_keeps_the_chains_ending initialSettings twoTrees
              rooted_twoTrees) as [Hparse Hxml].
  split; [apply Hparse|apply Hxml].
Defined.
